(** * Vue 3 core: reactivity, scheduler and keyed diff

    A shallow embedding of the reactivity engine
    ([packages/reactivity/src]: [reactive.ts], [baseHandlers.ts], [effect.ts],
    [dep.ts], [ref.ts], [computed.ts]), of the job scheduler
    ([packages/runtime-core/src/scheduler.ts]) and of the keyed children diff of
    the renderer ([renderer.ts]: [patchKeyedChildren], [getSequence]).

    JavaScript numbers that the code uses as integers (array indices, job ids,
    bit masks) are [Z]; a read that yields [undefined] is [None]. *)

From Stdlib Require Import ZArith Lia List Bool.
From stdpp Require Import base option list strings gmap sorting.

Open Scope Z_scope.

(** ** renderer.ts: longest increasing subsequence and the move loop *)

Module Renderer.

(** [a[i]] for [a : number[]] and a number [i]; [None] is [undefined]. *)
Definition num_at (a : list Z) (i : Z) : option Z :=
  if decide (0 ≤ i) then a !! Z.to_nat i else None.

(** [x < y] on numbers; a comparison with [undefined] is [false]. *)
Definition js_lt (x y : option Z) : bool :=
  match x, y with
  | Some a, Some b => bool_decide (a < b)
  | _, _ => false
  end.

(** The binary search of [getSequence]:
    [while (u < v) { c = (u + v) >> 1;
       if (arr[result[c]] < arrI) u = c + 1 else v = c }]. The interval
    [v - u] shrinks at every turn, so [fuel >= v - u] turns reach [u >= v]. *)
Fixpoint bsearch (fuel : nat) (arr result : list Z) (arrI : Z) (u v : nat) : nat :=
  match fuel with
  | O => u
  | S fuel' =>
      if (u <? v)%nat then
        let c := Nat.shiftr (u + v) 1 in
        if js_lt (result !! c ≫= num_at arr) (Some arrI)
        then bsearch fuel' arr result arrI (c + 1)%nat v
        else bsearch fuel' arr result arrI u c
      else u
  end.

(** One turn of the [for] loop, for index [i] with [arrI = arr[i]]. The state
    is the pair [(p, result)]. [None] would mean that [undefined] is stored
    into [p]. *)
Definition step (arr : list Z) (i : nat) (arrI : Z) (st : list Z * list Z)
  : option (list Z * list Z) :=
  let '(p, result) := st in
  if decide (arrI ≠ 0) then
    let j := last result in
    if js_lt (j ≫= num_at arr) (Some arrI) then
      j' ← j; Some (<[i := j']> p, result ++ [Z.of_nat i])
    else
      let u := bsearch (length result - 1) arr result arrI 0 (length result - 1) in
      if js_lt (Some arrI) (result !! u ≫= num_at arr) then
        p' ← (if (0 <? u)%nat
              then x ← result !! (u - 1)%nat; Some (<[i := x]> p)
              else Some p);
        Some (p', <[u := Z.of_nat i]> result)
      else Some (p, result)
  else Some (p, result).

(** [for (i = 0; i < len; i++) { const arrI = arr[i]; ... }]: [rest] is the
    part of [arr] from index [i] on. *)
Fixpoint loop (arr : list Z) (i : nat) (rest : list Z) (st : list Z * list Z)
  : option (list Z * list Z) :=
  match rest with
  | [] => Some st
  | arrI :: rest' => st' ← step arr i arrI st; loop arr (S i) rest' st'
  end.

(** [while (u-- > 0) { result[u] = v; v = p[v] }]; [v] may be [undefined]
    after the last turn, where it is not used any more. *)
Fixpoint backtrack (p : list Z) (u : nat) (v : option Z) (result : list Z)
  : option (list Z) :=
  match u with
  | O => Some result
  | S u' => x ← v; backtrack p u' (num_at p x) (<[u' := x]> result)
  end.

Definition getSequence (arr : list Z) : option (list Z) :=
  '(p, result) ← loop arr 0 arr (arr, [0]);
  backtrack p (length result) (last result) result.

(** *** Step 5.3 of [patchKeyedChildren]: move and mount *)

(** Host operations of the loop: [patch(null, nextChild, container, anchor)]
    mounts the new child at [nextIndex], [move(nextChild, container, anchor)]
    relocates it. The anchor is the child at [nextIndex + 1], or
    [parentAnchor] ([None]) past the end. *)
Inductive HostOp :=
| MountNew (nextIndex : nat) (anchor : option nat)
| MoveNode (nextIndex : nat) (anchor : option nat).

Definition anchorOf (l2 nextIndex : nat) : option nat :=
  if (nextIndex + 1 <? l2)%nat then Some (nextIndex + 1)%nat else None.

(** [for (i = toBePatched - 1; i >= 0; i--)], with [n = i + 1] turns left and
    [j] the pointer into [increasingNewIndexSequence]. *)
Fixpoint moveLoop (moved : bool) (s2 l2 : nat) (newIndexToOldIndexMap seq : list Z)
  (n : nat) (j : Z) : list HostOp :=
  match n with
  | O => []
  | S i =>
      let nextIndex := (s2 + i)%nat in
      let anchor := anchorOf l2 nextIndex in
      if decide (newIndexToOldIndexMap !! i = Some 0) then
        MountNew nextIndex anchor :: moveLoop moved s2 l2 newIndexToOldIndexMap seq i j
      else if moved then
        if decide (j < 0 ∨ num_at seq j ≠ Some (Z.of_nat i)) then
          MoveNode nextIndex anchor :: moveLoop moved s2 l2 newIndexToOldIndexMap seq i j
        else moveLoop moved s2 l2 newIndexToOldIndexMap seq i (j - 1)
      else moveLoop moved s2 l2 newIndexToOldIndexMap seq i j
  end.

(** [increasingNewIndexSequence = moved ? getSequence(newIndexToOldIndexMap)
    : EMPTY_ARR], then the loop from [toBePatched - 1] down with
    [j = increasingNewIndexSequence.length - 1]. *)
Definition moveAndMount (moved : bool) (s2 l2 : nat) (newIndexToOldIndexMap : list Z)
  : option (list HostOp) :=
  seq ← (if moved then getSequence newIndexToOldIndexMap else Some []);
  Some (moveLoop moved s2 l2 newIndexToOldIndexMap seq
          (length newIndexToOldIndexMap) (Z.of_nat (length seq) - 1)).

(** *** Vocabulary of the specification *)

(** The value at index [i]. *)
Definition val (arr : list Z) (i : Z) : Z := default 0 (num_at arr i).

(** [l] lists valid indices of [arr] in strictly increasing order, with
    strictly increasing values. *)
Definition increasing (arr : list Z) (l : list Z) : Prop :=
  StronglySorted Z.lt l ∧
  Forall (λ i, 0 ≤ i < Z.of_nat (length arr)) l ∧
  StronglySorted Z.lt (val arr <$> l).

Definition nonzero (arr : list Z) (l : list Z) : Prop :=
  Forall (λ i, val arr i ≠ 0) l.

(** Index 0, with which [getSequence] seeds its result, or a nonzero entry. *)
Definition seeded (arr : list Z) (l : list Z) : Prop :=
  Forall (λ i, i = 0 ∨ val arr i ≠ 0) l.

(** [l] is a longest strictly increasing subsequence of the nonzero entries. *)
Definition lis_nonzero (arr : list Z) (l : list Z) : Prop :=
  increasing arr l ∧ nonzero arr l ∧
  ∀ l', increasing arr l' → nonzero arr l' → (length l' ≤ length l)%nat.

(** What the move loop is to do for the new positions [n - 1] down to [0],
    given the list [seq] of positions that stay: a position mapped to [0]
    is mounted, a mapped position in [seq] is left alone, any other mapped
    position is moved. *)
Fixpoint moveSpec (s2 l2 : nat) (newIndexToOldIndexMap seq : list Z) (n : nat)
  : list HostOp :=
  match n with
  | O => []
  | S i =>
      let nextIndex := (s2 + i)%nat in
      (if decide (newIndexToOldIndexMap !! i = Some 0)
       then [MountNew nextIndex (anchorOf l2 nextIndex)]
       else if decide (Z.of_nat i ∈ seq) then []
       else [MoveNode nextIndex (anchorOf l2 nextIndex)])
      ++ moveSpec s2 l2 newIndexToOldIndexMap seq i
  end.

End Renderer.

(** ** scheduler.ts: the job queue *)

Module Scheduler.

(** A job is a function object; [queue.includes(job)] compares identities.
    A job is named by a number, and its properties are read from a table. *)
Definition job := nat.

(** What the body of a job does to the scheduler when it is called. *)
Inductive action :=
| QueueJob (j : job)
| QueuePostFlushCb (j : job).

(** [interface SchedulerJob]. [active = false] stands for
    [job.active === false]; an [id] of [None] for [job.id == null]. *)
Record SchedulerJob := {
  id : option Z;
  pre : bool;
  active : bool;
  allowRecurse : bool;
  body : list action
}.

(** The module variables, and the calls made so far ([ran], in call order):
    [inl j] is a job called by [flushJobs], [inr j] a callback called by
    [flushPostFlushCbs]. *)
Record state := {
  isFlushing : bool;
  isFlushPending : bool;
  queue : list job;
  flushIndex : nat;
  pendingPostFlushCbs : list job;
  activePostFlushCbs : option (list job);
  postFlushIndex : nat;
  ran : list (job + job)
}.

Definition initial : state :=
  {| isFlushing := false; isFlushPending := false; queue := []; flushIndex := 0;
     pendingPostFlushCbs := []; activePostFlushCbs := None; postFlushIndex := 0;
     ran := [] |}.

Definition set_isFlushing (b : bool) (s : state) : state :=
  {| isFlushing := b; isFlushPending := isFlushPending s; queue := queue s;
     flushIndex := flushIndex s; pendingPostFlushCbs := pendingPostFlushCbs s;
     activePostFlushCbs := activePostFlushCbs s; postFlushIndex := postFlushIndex s;
     ran := ran s |}.
Definition set_isFlushPending (b : bool) (s : state) : state :=
  {| isFlushing := isFlushing s; isFlushPending := b; queue := queue s;
     flushIndex := flushIndex s; pendingPostFlushCbs := pendingPostFlushCbs s;
     activePostFlushCbs := activePostFlushCbs s; postFlushIndex := postFlushIndex s;
     ran := ran s |}.
Definition set_queue (q : list job) (s : state) : state :=
  {| isFlushing := isFlushing s; isFlushPending := isFlushPending s; queue := q;
     flushIndex := flushIndex s; pendingPostFlushCbs := pendingPostFlushCbs s;
     activePostFlushCbs := activePostFlushCbs s; postFlushIndex := postFlushIndex s;
     ran := ran s |}.
Definition set_flushIndex (n : nat) (s : state) : state :=
  {| isFlushing := isFlushing s; isFlushPending := isFlushPending s; queue := queue s;
     flushIndex := n; pendingPostFlushCbs := pendingPostFlushCbs s;
     activePostFlushCbs := activePostFlushCbs s; postFlushIndex := postFlushIndex s;
     ran := ran s |}.
Definition set_pendingPostFlushCbs (q : list job) (s : state) : state :=
  {| isFlushing := isFlushing s; isFlushPending := isFlushPending s; queue := queue s;
     flushIndex := flushIndex s; pendingPostFlushCbs := q;
     activePostFlushCbs := activePostFlushCbs s; postFlushIndex := postFlushIndex s;
     ran := ran s |}.
Definition set_activePostFlushCbs (q : option (list job)) (s : state) : state :=
  {| isFlushing := isFlushing s; isFlushPending := isFlushPending s; queue := queue s;
     flushIndex := flushIndex s; pendingPostFlushCbs := pendingPostFlushCbs s;
     activePostFlushCbs := q; postFlushIndex := postFlushIndex s;
     ran := ran s |}.
Definition set_postFlushIndex (n : nat) (s : state) : state :=
  {| isFlushing := isFlushing s; isFlushPending := isFlushPending s; queue := queue s;
     flushIndex := flushIndex s; pendingPostFlushCbs := pendingPostFlushCbs s;
     activePostFlushCbs := activePostFlushCbs s; postFlushIndex := n;
     ran := ran s |}.
Definition log (e : job + job) (s : state) : state :=
  {| isFlushing := isFlushing s; isFlushPending := isFlushPending s; queue := queue s;
     flushIndex := flushIndex s; pendingPostFlushCbs := pendingPostFlushCbs s;
     activePostFlushCbs := activePostFlushCbs s; postFlushIndex := postFlushIndex s;
     ran := ran s ++ [e] |}.

(** [const RECURSION_LIMIT = 100] *)
Definition RECURSION_LIMIT : nat := 100.

(** A number that may be [Infinity], [-Infinity] or [NaN]. *)
Inductive number := Fin (z : Z) | PosInf | NegInf | NaN.

(** [a - b] where each of [a] and [b] is finite or [Infinity]. *)
Definition minus (a b : number) : number :=
  match a, b with
  | Fin x, Fin y => Fin (x - y)
  | PosInf, Fin _ => PosInf
  | Fin _, PosInf => NegInf
  | _, _ => NaN
  end.

(** [v > 0] *)
Definition positive (v : number) : bool :=
  match v with
  | Fin z => bool_decide (0 < z)
  | PosInf => true
  | _ => false
  end.

(** [Array.prototype.sort(comparefn)]: the sort is stable, and [b] goes
    before [a] exactly when [comparefn(a, b) > 0] (a [NaN] result counts as
    [+0]). [sort_insert x l] puts [x] behind the entries of the sorted [l]
    that it does not go before. *)
Fixpoint sort_insert {A} (cmp : A → A → number) (x : A) (l : list A) : list A :=
  match l with
  | [] => [x]
  | y :: l' => if positive (cmp y x) then x :: y :: l' else y :: sort_insert cmp x l'
  end.

Definition sort {A} (cmp : A → A → number) (l : list A) : list A :=
  foldl (λ acc x, sort_insert cmp x acc) [] l.

(** [[...new Set(l)]]: the first occurrence of every entry, in order. *)
Fixpoint dedupe (seen l : list job) : list job :=
  match l with
  | [] => []
  | x :: l' => if decide (x ∈ seen) then dedupe seen l' else x :: dedupe (x :: seen) l'
  end.

Section scheduler.

(** The jobs of the program. *)
Context (jobs : job → SchedulerJob).
(** The build flag [__DEV__]. *)
Context (DEV : bool).

(** [const getId = job => job.id == null ? Infinity : job.id] *)
Definition getId (j : job) : number :=
  match id (jobs j) with
  | None => PosInf
  | Some z => Fin z
  end.

(** The loop of [findInsertionIndex]:
    [while (start < end) { middle = (start + end) >>> 1; ... }]. *)
Fixpoint findLoop (fuel : nat) (q : list job) (jid : Z) (start end_ : nat) : nat :=
  match fuel with
  | O => start
  | S fuel' =>
      if (start <? end_)%nat then
        let middle := Nat.shiftr (start + end_) 1 in
        match q !! middle with
        | Some middleJob =>
            let goRight :=
              match getId middleJob with
              | Fin m => bool_decide (m < jid) || (bool_decide (m = jid) && pre (jobs middleJob))
              | _ => false
              end in
            if goRight then findLoop fuel' q jid (middle + 1)%nat end_
            else findLoop fuel' q jid start middle
        | None => start
        end
      else start
  end.

Definition findInsertionIndex (jid : Z) (s : state) : nat :=
  findLoop (length (queue s)) (queue s) jid (flushIndex s + 1)%nat (length (queue s)).

Definition queueFlush (s : state) : state :=
  if negb (isFlushing s) && negb (isFlushPending s)
  then set_isFlushPending true s
  else s.

(** [queue.includes(job, from)] *)
Definition includes (q : list job) (j : job) (from : nat) : bool :=
  bool_decide (j ∈ drop from q).

(** [queue.splice(i, 0, job)] *)
Definition splice (q : list job) (i : nat) (j : job) : list job :=
  take i q ++ j :: drop i q.

Definition queueJob (j : job) (s : state) : state :=
  if bool_decide (length (queue s) = O)
     || negb (includes (queue s) j
                (if isFlushing s && allowRecurse (jobs j)
                 then (flushIndex s + 1)%nat else flushIndex s))
  then
    queueFlush
      (match id (jobs j) with
       | None => set_queue (queue s ++ [j]) s
       | Some jid => set_queue (splice (queue s) (findInsertionIndex jid s) j) s
       end)
  else s.

(** [queuePostFlushCb(cb)] for a [cb] that is not an array. *)
Definition queuePostFlushCb (cb : job) (s : state) : state :=
  queueFlush
    (if match activePostFlushCbs s with
        | None => true
        | Some acts =>
            negb (includes acts cb
                    (if allowRecurse (jobs cb)
                     then (postFlushIndex s + 1)%nat else postFlushIndex s))
        end
     then set_pendingPostFlushCbs (pendingPostFlushCbs s ++ [cb]) s
     else s).

Definition perform (s : state) (a : action) : state :=
  match a with
  | QueueJob j => queueJob j s
  | QueuePostFlushCb j => queuePostFlushCb j s
  end.

(** Calling a job: the call is recorded, then the body acts. *)
Definition call (e : job + job) (j : job) (s : state) : state :=
  foldl perform (log e s) (body (jobs j)).

(** [type CountMap = Map<SchedulerJob, number>] *)
Definition CountMap := gmap job nat.

(** [checkRecursiveUpdates(seen, fn)]: the new map and whether the limit is
    exceeded. *)
Definition checkRecursiveUpdates (seen : gmap job nat) (fn : job) : gmap job nat * bool :=
  match seen !! fn with
  | None => (<[fn := 1%nat]> seen, false)
  | Some count =>
      if (RECURSION_LIMIT <? count)%nat then (seen, true)
      else (<[fn := (count + 1)%nat]> seen, false)
  end.

(** [__DEV__ && checkRecursiveUpdates(seen, job)] *)
Definition check (seen : gmap job nat) (j : job) : gmap job nat * bool :=
  if DEV then checkRecursiveUpdates seen j else (seen, false).

(** [const comparator = (a, b) => { ... }] *)
Definition comparator (a b : job) : number :=
  let diff := minus (getId a) (getId b) in
  match diff with
  | Fin 0 =>
      if pre (jobs a) && negb (pre (jobs b)) then Fin (-1)
      else if pre (jobs b) && negb (pre (jobs a)) then Fin 1
      else diff
  | _ => diff
  end.

(** The loop of [flushPostFlushCbs] over the sorted callbacks. No action of
    a job body reaches [activePostFlushCbs], so that the loop ends with the
    callbacks it started with. *)
Fixpoint postLoop (cbs : list job) (seen : gmap job nat) (s : state)
  : gmap job nat * state :=
  match cbs with
  | [] => (seen, s)
  | cb :: cbs' =>
      let '(seen', skip) := check seen cb in
      let s' := if skip then s else call (inr cb) cb s in
      postLoop cbs' seen' (set_postFlushIndex (postFlushIndex s' + 1)%nat s')
  end.

Definition flushPostFlushCbs (seen : gmap job nat) (s : state) : gmap job nat * state :=
  match pendingPostFlushCbs s with
  | [] => (seen, s)
  | _ :: _ =>
      let deduped := dedupe [] (pendingPostFlushCbs s) in
      let s := set_pendingPostFlushCbs [] s in
      match activePostFlushCbs s with
      | Some acts => (seen, set_activePostFlushCbs (Some (acts ++ deduped)) s)
      | None =>
          let sorted := sort (λ a b, minus (getId a) (getId b)) deduped in
          let s := set_postFlushIndex 0 (set_activePostFlushCbs (Some sorted) s) in
          let '(seen, s) := postLoop sorted seen s in
          (seen, set_postFlushIndex 0 (set_activePostFlushCbs None s))
      end
  end.

(** [for (flushIndex = 0; flushIndex < queue.length; flushIndex++)]. A job
    may queue jobs behind itself, so that the number of turns is not known
    beforehand: [None] when the fuel runs out. *)
Fixpoint queueLoop (fuel : nat) (seen : gmap job nat) (s : state)
  : option (gmap job nat * state) :=
  match queue s !! flushIndex s with
  | None => Some (seen, s)
  | Some j =>
      match fuel with
      | O => None
      | S fuel' =>
          let '(seen', s') :=
            if active (jobs j) then
              let '(seen', skip) := check seen j in
              (seen', if skip then s else call (inl j) j s)
            else (seen, s) in
          queueLoop fuel' seen' (set_flushIndex (flushIndex s' + 1)%nat s')
      end
  end.

(** [flushJobs(seen)]; [None] when the fuel runs out. *)
Fixpoint flushJobs (fuel : nat) (seen : gmap job nat) (s : state)
  : option (gmap job nat * state) :=
  match fuel with
  | O => None
  | S fuel' =>
      let s := set_isFlushing true (set_isFlushPending false s) in
      let s := set_flushIndex 0 (set_queue (sort comparator (queue s)) s) in
      '(seen, s) ← queueLoop fuel' seen s;
      let s := set_queue [] (set_flushIndex 0 s) in
      let '(seen, s) := flushPostFlushCbs seen s in
      let s := set_isFlushing false s in
      match queue s, pendingPostFlushCbs s with
      | [], [] => Some (seen, s)
      | _, _ => flushJobs fuel' seen s
      end
  end.

(** The microtask of [queueFlush]: [resolvedPromise.then(flushJobs)]. *)
Definition flush (fuel : nat) (s : state) : option state :=
  snd <$> flushJobs fuel ∅ s.

(** The jobs called from the queue, in call order. *)
Definition jobsRan (s : state) : list job :=
  omap (λ e, match e with inl j => Some j | inr _ => None end) (ran s).

(** *** Vocabulary of the specification *)

(** [a] may run before [b]: a smaller id first, no id last, and with equal
    ids a job that is not [pre] never before one that is. *)
Definition before (a b : job) : Prop :=
  match id (jobs a), id (jobs b) with
  | Some x, Some y => x < y ∨ (x = y ∧ (pre (jobs b) = true → pre (jobs a) = true))
  | Some _, None => True
  | None, Some _ => False
  | None, None => True
  end.

(** The body of [j] queues nothing. *)
Definition quiet (j : job) : Prop := body (jobs j) = [].


(** [queueJob] for each job of [js], in order. *)
Definition queueJobs (js : list job) (s : state) : state :=
  foldl (λ s k, queueJob k s) s js.

End scheduler.

End Scheduler.

(** ** reactive.ts, baseHandlers.ts, ref.ts: wrappers and refs *)

Module Reactive.

(** Objects live in a heap and are named by their address: [===] on objects
    compares addresses. *)
Abbreviation addr := nat.

(** A property key: a string, or an integer key (an array index). The
    reserved names [__v_skip], [__v_isReactive], [__v_isReadonly],
    [__v_isShallow], [__v_raw] and [__v_isRef] are not keys of this type:
    they are the flags below. *)
Inductive key := KStr (s : string) | KIdx (n : nat).

#[global] Instance key_eq_dec : EqDecision key.
Proof. solve_decision. Defined.

#[global] Instance key_countable : Countable key.
Proof.
  refine (inj_countable'
    (λ k, match k with KStr s => inl s | KIdx n => inr n end)
    (λ x, match x with inl s => KStr s | inr n => KIdx n end) _).
  by intros [].
Defined.

(** A JavaScript value; numbers are integers or [NaN]. *)
Inductive value :=
| VUndefined
| VNull
| VBool (b : bool)
| VNum (z : Z)
| VNaN
| VStr (s : string)
| VObj (a : addr).

#[global] Instance value_eq_dec : EqDecision value.
Proof. solve_decision. Defined.

(** [toRawType(value)]: the class of an object; [TOther] is any class that
    [targetTypeMap] does not list ([Date], [RegExp], ...). *)
Inductive rawType := TObject | TArray | TMap | TSet | TWeakMap | TWeakSet | TOther.

#[global] Instance rawType_eq_dec : EqDecision rawType.
Proof. solve_decision. Defined.

(** The objects of the heap. A [Plain] object carries its class, whether it
    is extensible, whether [markRaw] has set [__v_skip], and its own
    properties (an array keeps its length under ["length"]). A [Proxy] is
    what [createReactiveObject] builds: its target, the two flags of its
    handler, and whether the handler is a collection handler. *)
Inductive obj :=
| Plain (ty : rawType) (extensible skip : bool) (props : gmap key value)
| RefImpl (__v_isShallow : bool) (_value _rawValue : value)
| ComputedRefImpl (isReadonly : bool)
| Proxy (target : addr) (isReadonly shallow collection : bool).

(** [enum ReactiveFlags], and [__v_isRef]. *)
Inductive flag := SKIP | IS_REACTIVE | IS_READONLY | IS_SHALLOW | RAW | IS_REF.

Inductive TriggerOpTypes := SET | ADD | DELETE | CLEAR.

(** The calls into the effect engine, and the call of the setter that the
    user gave to a computed ref. *)
Inductive event :=
| Track (target : addr) (k : string)
| Trigger (target : addr) (type : TriggerOpTypes) (k : key) (newValue oldValue : value)
| TriggerRefValue (ref : addr) (newVal : value)
| ComputedSetter (ref : addr) (newValue : value).

(** The heap, the four maps from a target to its proxy, and the calls made
    so far. *)
Record state := {
  heap : list obj;
  reactiveMap : gmap addr addr;
  shallowReactiveMap : gmap addr addr;
  readonlyMap : gmap addr addr;
  shallowReadonlyMap : gmap addr addr;
  events : list event
}.

Definition set_heap (h : list obj) (s : state) : state :=
  {| heap := h; reactiveMap := reactiveMap s; shallowReactiveMap := shallowReactiveMap s;
     readonlyMap := readonlyMap s; shallowReadonlyMap := shallowReadonlyMap s;
     events := events s |}.

Definition emit (e : event) (s : state) : state :=
  {| heap := heap s; reactiveMap := reactiveMap s;
     shallowReactiveMap := shallowReactiveMap s;
     readonlyMap := readonlyMap s; shallowReadonlyMap := shallowReadonlyMap s;
     events := events s ++ [e] |}.

(** The map that goes with a kind of proxy. *)
Definition proxyMap (isReadonly shallow : bool) (s : state) : gmap addr addr :=
  if isReadonly
  then if shallow then shallowReadonlyMap s else readonlyMap s
  else if shallow then shallowReactiveMap s else reactiveMap s.

(** [proxyMap.set(target, proxy)] *)
Definition proxyMap_set (isReadonly shallow : bool) (target proxy : addr) (s : state)
  : state :=
  {| heap := heap s;
     reactiveMap :=
       if negb isReadonly && negb shallow
       then <[target := proxy]> (reactiveMap s) else reactiveMap s;
     shallowReactiveMap :=
       if negb isReadonly && shallow
       then <[target := proxy]> (shallowReactiveMap s) else shallowReactiveMap s;
     readonlyMap :=
       if isReadonly && negb shallow
       then <[target := proxy]> (readonlyMap s) else readonlyMap s;
     shallowReadonlyMap :=
       if isReadonly && shallow
       then <[target := proxy]> (shallowReadonlyMap s) else shallowReadonlyMap s;
     events := events s |}.

(** Whether a value counts as true. *)
Definition truthy (v : value) : bool :=
  match v with
  | VUndefined | VNull | VNaN => false
  | VBool b => b
  | VNum z => negb (z =? 0)
  | VStr s => negb (String.eqb s "")
  | VObj _ => true
  end.

(** [isObject(val)] *)
Definition isObject (v : value) : bool :=
  match v with VObj _ => true | _ => false end.

(** The object that a chain of proxies ends in: [Object.isExtensible],
    [Object.getPrototypeOf] and [toRawType] of a proxy without a trap for
    them are those of its target. [None] when the fuel runs out. *)
Fixpoint underlying (fuel : nat) (h : list obj) (a : addr) : option (addr * obj) :=
  match fuel with
  | O => None
  | S fuel' =>
      o ← h !! a;
      match o with
      | Proxy t _ _ _ => underlying fuel' h t
      | _ => Some (a, o)
      end
  end.

(** [Object.getPrototypeOf(a) === Object.getPrototypeOf(b)]: objects of one
    class share their prototype. *)
Definition sameProto (fuel : nat) (h : list obj) (a b : addr) : option bool :=
  '(_, oa) ← underlying fuel h a;
  '(_, ob) ← underlying fuel h b;
  Some match oa, ob with
       | Plain ta _ _ _, Plain tb _ _ _ => bool_decide (ta = tb)
       | RefImpl _ _ _, RefImpl _ _ _ => true
       | ComputedRefImpl _, ComputedRefImpl _ => true
       | _, _ => false
       end.

(** [a[k]] for a flag [k], read with the receiver [receiver]: the own
    property of a plain object or a ref, and the [get] trap of a proxy. The
    trap of [BaseReactiveHandler] answers the four reactive flags itself and
    reads the others from its target, tracking the read unless the proxy is
    readonly or the key is [__v_isRef]; the trap of the collection handlers
    answers [__v_isReactive], [__v_isReadonly] and [__v_raw] itself. The
    flags read from the target are booleans or undefined. *)
Fixpoint getFlag (fuel : nat) (k : flag) (receiver a : addr) (s : state)
  : option (value * state) :=
  match fuel with
  | O => None
  | S fuel' =>
      o ← heap s !! a;
      match o with
      | Plain _ _ skip _ =>
          Some (match k with SKIP => if skip then VBool true else VUndefined
                           | _ => VUndefined end, s)
      | RefImpl sh _ _ =>
          Some (match k with IS_REF => VBool true | IS_SHALLOW => VBool sh
                           | _ => VUndefined end, s)
      | ComputedRefImpl ro =>
          Some (match k with IS_REF => VBool true | IS_READONLY => VBool ro
                           | _ => VUndefined end, s)
      | Proxy t ro sh true =>
          match k with
          | IS_REACTIVE => Some (VBool (negb ro), s)
          | IS_READONLY => Some (VBool ro, s)
          | RAW => Some (VObj t, s)
          | _ => getFlag fuel' k receiver t s
          end
      | Proxy t ro sh false =>
          match k with
          | IS_REACTIVE => Some (VBool (negb ro), s)
          | IS_READONLY => Some (VBool ro, s)
          | IS_SHALLOW => Some (VBool sh, s)
          | RAW =>
              same ← sameProto (S fuel') (heap s) t receiver;
              if bool_decide (proxyMap ro sh s !! t = Some receiver) || same
              then Some (VObj t, s) else Some (VUndefined, s)
          | IS_REF => getFlag fuel' k receiver t s
          | SKIP =>
              '(res, s) ← getFlag fuel' k receiver t s;
              Some (res, if ro then s else emit (Track t "__v_skip") s)
          end
      end
  end.

(** [v && v[k]]: a value that counts as false is returned as it is, and a
    primitive value has none of the flags. *)
Definition flagOf (k : flag) (v : value) (s : state) : option (value * state) :=
  match v with
  | VObj a => getFlag (S (length (heap s))) k a a s
  | _ => Some (if truthy v then VUndefined else v, s)
  end.

(** A flag whose read tracks nothing. *)
Definition pureFlag (k : flag) (v : value) (s : state) : option value :=
  fst <$> flagOf k v s.

(** [isReadonly(value)] *)
Definition isReadonly (s : state) (v : value) : option bool :=
  truthy <$> pureFlag IS_READONLY v s.

(** [isShallow(value)] *)
Definition isShallow (s : state) (v : value) : option bool :=
  truthy <$> pureFlag IS_SHALLOW v s.

(** [isRef(r)]: [!!(r && r.__v_isRef === true)] *)
Definition isRef (s : state) (v : value) : option bool :=
  (λ r, bool_decide (r = VBool true)) <$> pureFlag IS_REF v s.

(** [toRaw(observed)] *)
Fixpoint toRaw_rec (fuel : nat) (s : state) (observed : value) : option value :=
  match fuel with
  | O => None
  | S fuel' =>
      raw ← pureFlag RAW observed s;
      if truthy raw then toRaw_rec fuel' s raw else Some observed
  end.

Definition toRaw (s : state) (observed : value) : option value :=
  toRaw_rec (S (length (heap s))) s observed.

Inductive TargetType := INVALID | COMMON | COLLECTION.

#[global] Instance TargetType_eq_dec : EqDecision TargetType.
Proof. solve_decision. Defined.

Definition targetTypeMap (rawType : rawType) : TargetType :=
  match rawType with
  | TObject | TArray => COMMON
  | TMap | TSet | TWeakMap | TWeakSet => COLLECTION
  | TOther => INVALID
  end.

(** [toRawType(value)] and [Object.isExtensible(value)] *)
Definition toRawType (o : obj) : rawType :=
  match o with Plain ty _ _ _ => ty | _ => TObject end.

Definition isExtensible (o : obj) : bool :=
  match o with Plain _ ext _ _ => ext | _ => true end.

Definition getTargetType (a : addr) (s : state) : option (TargetType * state) :=
  '(skip, s) ← flagOf SKIP (VObj a) s;
  '(_, o) ← underlying (S (length (heap s))) (heap s) a;
  Some (if truthy skip || negb (isExtensible o) then INVALID
        else targetTypeMap (toRawType o), s).

(** [createReactiveObject(target, isReadonly, baseHandlers,
    collectionHandlers, proxyMap)]: every caller passes the handlers and the
    map of one kind of proxy, which [isReadonly] and [shallow] name. *)
Definition createReactiveObject (target : value) (isReadonly shallow : bool)
  (s : state) : option (value * state) :=
  match target with
  | VObj a =>
      '(raw, s) ← flagOf RAW target s;
      '(isReactive, s) ←
        (if truthy raw && isReadonly then flagOf IS_REACTIVE target s
         else Some (VUndefined, s));
      if truthy raw && negb (isReadonly && truthy isReactive) then Some (target, s)
      else
        match proxyMap isReadonly shallow s !! a with
        | Some existingProxy => Some (VObj existingProxy, s)
        | None =>
            '(targetType, s) ← getTargetType a s;
            match targetType with
            | INVALID => Some (target, s)
            | _ =>
                let proxy := length (heap s) in
                let s := set_heap
                  (heap s ++ [Proxy a isReadonly shallow
                                (bool_decide (targetType = COLLECTION))]) s in
                Some (VObj proxy, proxyMap_set isReadonly shallow a proxy s)
            end
        end
  | _ => Some (target, s)
  end.

Definition reactive (target : value) (s : state) : option (value * state) :=
  ro ← isReadonly s target;
  if ro : bool then Some (target, s) else createReactiveObject target false false s.

Definition shallowReactive (target : value) (s : state) : option (value * state) :=
  createReactiveObject target false true s.

Definition readonly (target : value) (s : state) : option (value * state) :=
  createReactiveObject target true false s.

Definition shallowReadonly (target : value) (s : state) : option (value * state) :=
  createReactiveObject target true true s.

(** [toReactive(value)] *)
Definition toReactive (v : value) (s : state) : option (value * state) :=
  if isObject v then reactive v s else Some (v, s).

(** The four wrapping functions. *)
Inductive variant := Reactive_ | ShallowReactive_ | Readonly_ | ShallowReadonly_.

Definition wrap (w : variant) (target : value) (s : state) : option (value * state) :=
  match w with
  | Reactive_ => reactive target s
  | ShallowReactive_ => shallowReactive target s
  | Readonly_ => readonly target s
  | ShallowReadonly_ => shallowReadonly target s
  end.

(** *** ref.ts *)

(** [x === y] *)
Definition strictEquals (x y : value) : bool :=
  match x, y with
  | VNaN, _ | _, VNaN => false
  | _, _ => bool_decide (x = y)
  end.

(** Modelled from the spec: [hasChanged] of [@vue/shared], which the
    sources at hand import and do not define: it treats NaN as equal to
    itself and uses strict inequality otherwise. *)
Definition hasChanged (v oldValue : value) : bool :=
  match v, oldValue with
  | VNaN, VNaN => false
  | _, _ => negb (strictEquals v oldValue)
  end.

(** [triggerRefValue(ref, newVal)] *)
Definition triggerRefValue (ref : addr) (newVal : value) (s : state) : state :=
  emit (TriggerRefValue ref newVal) s.

(** [set value(newVal)] of [RefImpl], for the ref at [this]. *)
Definition RefImpl_set (this : addr) (newVal : value) (s : state) : option state :=
  o ← heap s !! this;
  match o with
  | RefImpl sh _value _rawValue =>
      newShallow ← isShallow s newVal;
      newReadonly ← isReadonly s newVal;
      let useDirectValue := sh || newShallow || newReadonly in
      newVal ← (if useDirectValue then Some newVal else toRaw s newVal);
      if hasChanged newVal _rawValue then
        '(wrapped, s) ← (if useDirectValue then Some (newVal, s) else toReactive newVal s);
        Some (triggerRefValue this newVal
                (set_heap (<[this := RefImpl sh wrapped newVal]> (heap s)) s))
      else Some s
  | _ => None
  end.

(** [new RefImpl(value, shallow)] *)
Definition RefImpl_new (v : value) (shallow : bool) (s : state)
  : option (value * state) :=
  raw ← (if shallow then Some v else toRaw s v);
  '(wrapped, s) ← (if shallow then Some (v, s) else toReactive v s);
  Some (VObj (length (heap s)), set_heap (heap s ++ [RefImpl shallow wrapped raw]) s).

(** [createRef(rawValue, shallow)], [ref(value)] and [shallowRef(value)] *)
Definition createRef (rawValue : value) (shallow : bool) (s : state)
  : option (value * state) :=
  r ← isRef s rawValue;
  if r : bool then Some (rawValue, s) else RefImpl_new rawValue shallow s.

Definition ref (v : value) (s : state) : option (value * state) := createRef v false s.
Definition shallowRef (v : value) (s : state) : option (value * state) :=
  createRef v true s.

(** *** baseHandlers.ts: the [set] traps *)

(** [r.value = v] for a value [r] with [isRef(r)]: the setter of [RefImpl],
    the setter that the user gave to a computed ref, or the [set] trap of a
    readonly proxy, which does nothing. An assignment through a proxy that
    is not readonly is outside what is modelled ([None]). *)
Definition assignValue (r v : value) (s : state) : option state :=
  match r with
  | VObj a =>
      o ← heap s !! a;
      match o with
      | RefImpl _ _ _ => RefImpl_set a v s
      | ComputedRefImpl _ => Some (emit (ComputedSetter a v) s)
      | Proxy _ true _ false => Some s
      | _ => None
      end
  | _ => None
  end.

(** [Reflect.set(target, key, value, receiver)] on a plain object whose
    properties are writable data properties: the new properties, or [None]
    when the object is not extensible and has no such key. Writing the
    length of an array is outside what is modelled. *)
Definition arrayLength (props : gmap key value) : nat :=
  match props !! KStr "length" with
  | Some (VNum n) => Z.to_nat n
  | _ => O
  end.

Definition reflectSet (ty : rawType) (extensible : bool) (props : gmap key value)
  (k : key) (v : value) : option (gmap key value) :=
  if bool_decide (is_Some (props !! k)) || extensible then
    Some match ty, k with
         | TArray, KIdx n =>
             if (arrayLength props <=? n)%nat
             then <[KStr "length" := VNum (Z.of_nat (S n))]> (<[k := v]> props)
             else <[k := v]> props
         | _, _ => <[k := v]> props
         end
  else None.

(** [MutableReactiveHandler.set(target, key, value, receiver)] for the
    handler with [_shallow = shallow]; the result is the boolean that the
    trap returns. The target is a plain object or array ([None] otherwise). *)
Definition MutableReactiveHandler_set (shallow : bool) (target : addr) (k : key)
  (v : value) (receiver : addr) (s : state) : option (bool * state) :=
  o ← heap s !! target;
  match o with
  | Plain ty ext skip props =>
      if bool_decide (ty = TArray ∧ k = KStr "length") then None else
      let oldValue := default VUndefined (props !! k) in
      oldReadonly ← isReadonly s oldValue;
      oldRef ← isRef s oldValue;
      newRef ← isRef s v;
      if oldReadonly && oldRef && negb newRef then Some (false, s) else
      '(oldValue, v) ←
        (if negb shallow then
           newShallow ← isShallow s v;
           newReadonly ← isReadonly s v;
           if negb newShallow && negb newReadonly
           then o' ← toRaw s oldValue; v' ← toRaw s v; Some (o', v')
           else Some (oldValue, v)
         else Some (oldValue, v));
      oldRef ← isRef s oldValue;
      newRef ← isRef s v;
      if negb shallow && negb (bool_decide (ty = TArray)) && oldRef && negb newRef
      then s ← assignValue oldValue v s; Some (true, s)
      else
        let hadKey :=
          match ty, k with
          | TArray, KIdx n => (n <? arrayLength props)%nat
          | _, _ => bool_decide (is_Some (props !! k))
          end in
        let '(result, s) :=
          match reflectSet ty ext props k v with
          | Some props' =>
              (true, set_heap (<[target := Plain ty ext skip props']> (heap s)) s)
          | None => (false, s)
          end in
        raw ← toRaw s (VObj receiver);
        Some (result,
              if bool_decide (raw = VObj target) then
                if negb hadKey then emit (Trigger target ADD k v VUndefined) s
                else if hasChanged v oldValue then emit (Trigger target SET k v oldValue) s
                else s
              else s)
  | _ => None
  end.

(** [proxy[key] = value] for a proxy with a base handler: the trap of
    [ReadonlyReactiveHandler] returns [true] and does nothing, that of
    [MutableReactiveHandler] is the function above. *)
Definition proxySet (proxy : addr) (k : key) (v : value) (s : state)
  : option (bool * state) :=
  o ← heap s !! proxy;
  match o with
  | Proxy target true _ false => Some (true, s)
  | Proxy target false shallow false =>
      MutableReactiveHandler_set shallow target k v proxy s
  | _ => None
  end.

(** *** Vocabulary of the specification *)

(** The value of the property [k] of the object at [a]. *)
Definition propOf (s : state) (a : addr) (k : key) : option value :=
  o ← heap s !! a;
  match o with Plain _ _ _ props => props !! k | _ => None end.

(** Every proxy wraps an older object, and the four maps hold for a target
    the proxy of their kind that was built for it. *)
Record wf (s : state) : Prop := {
  wf_target : ∀ a t ro sh c, heap s !! a = Some (Proxy t ro sh c) → (t < a)%nat;
  wf_map : ∀ ro sh t p, proxyMap ro sh s !! t = Some p →
    ∃ c, heap s !! p = Some (Proxy t ro sh c)
}.

End Reactive.

(** ** effect.ts, dep.ts, computed.ts: subscribers and computed cells *)

Module Effect.

(** Effects, dependency sets and computed cells are objects, named by their
    position in the tables of the state. A reactive property (a target and a
    key) is named by a number. *)
Abbreviation eff := nat.
Abbreviation dep := nat.
Abbreviation cid := nat.
Abbreviation key := nat.

(** The values of reactive properties: numbers, or [undefined]. *)
Inductive value := VUndefined | VNum (z : Z).

#[global] Instance value_eq_dec : EqDecision value.
Proof. solve_decision. Defined.

Definition truthy (v : value) : bool :=
  match v with VUndefined => false | VNum z => negb (z =? 0) end.

(** What the function of an effect, or the code around the engine, does to
    it: it returns or throws; reads and writes reactive properties; reads a
    computed cell; runs or stops an effect; pauses tracking and resets it. *)
Inductive code :=
| Ret (v : value)
| Throw
| ReadProp (k : key) (cont : value → code)
| WriteProp (k : key) (v : value) (cont : code)
| ReadComputed (c : cid) (cont : value → code)
| RunEffect (e : eff) (cont : value → code)
| StopEffect (e : eff) (cont : code)
| PauseTracking (cont : code)
| ResetTracking (cont : code).

(** The scheduler of an effect: that of a computed cell, or one of the user
    (a call of it is recorded). *)
Inductive EffectScheduler := ComputedScheduler (c : cid) | UserScheduler.

(** [type Dep = Set<ReactiveEffect> & TrackedMarkers]: the members in
    insertion order, and the two masks. *)
Record Dep := { subs : list eff; w : Z; n : Z }.

(** [class ReactiveEffect] *)
Record ReactiveEffect := {
  active : bool;
  deps : list dep;
  parent : option eff;
  computed : option cid;
  allowRecurse : bool;
  deferStop : bool;
  scheduler : option EffectScheduler;
  fn : code
}.

(** [class ComputedRefImpl] *)
Record ComputedRefImpl := {
  cdep : option dep;
  _value : value;
  _dirty : bool;
  _cacheable : bool;
  effect : eff
}.

(** What is recorded of a run: the function of an effect is called; a
    reactive property is read; [trackEffects] is called for the active effect
    and a dependency set; the members of a dependency set are triggered; the
    scheduler of the user is called. *)
Inductive event :=
| Called (e : eff)
| Read (k : key)
| Tracked (e : eff) (d : dep)
| Triggered (d : dep)
| Scheduled (e : eff).

#[global] Instance event_eq_dec : EqDecision event.
Proof. solve_decision. Defined.

(** The module variables of [effect.ts], the objects, the values of the
    reactive properties and the record. *)
Record state := {
  depStore : list Dep;
  effects : list ReactiveEffect;
  computeds : list ComputedRefImpl;
  targetMap : gmap key dep;
  store : gmap key value;
  activeEffect : option eff;
  shouldTrack : bool;
  effectTrackDepth : Z;
  trackOpBit : Z;
  trackStack : list bool;
  record : list event
}.

Definition set_depStore (x : list Dep) (s : state) : state :=
  {| depStore := x; effects := effects s; computeds := computeds s;
     targetMap := targetMap s; store := store s; activeEffect := activeEffect s;
     shouldTrack := shouldTrack s; effectTrackDepth := effectTrackDepth s;
     trackOpBit := trackOpBit s; trackStack := trackStack s; record := record s |}.
Definition set_effects (x : list ReactiveEffect) (s : state) : state :=
  {| depStore := depStore s; effects := x; computeds := computeds s;
     targetMap := targetMap s; store := store s; activeEffect := activeEffect s;
     shouldTrack := shouldTrack s; effectTrackDepth := effectTrackDepth s;
     trackOpBit := trackOpBit s; trackStack := trackStack s; record := record s |}.
Definition set_computeds (x : list ComputedRefImpl) (s : state) : state :=
  {| depStore := depStore s; effects := effects s; computeds := x;
     targetMap := targetMap s; store := store s; activeEffect := activeEffect s;
     shouldTrack := shouldTrack s; effectTrackDepth := effectTrackDepth s;
     trackOpBit := trackOpBit s; trackStack := trackStack s; record := record s |}.
Definition set_targetMap (x : gmap key dep) (s : state) : state :=
  {| depStore := depStore s; effects := effects s; computeds := computeds s;
     targetMap := x; store := store s; activeEffect := activeEffect s;
     shouldTrack := shouldTrack s; effectTrackDepth := effectTrackDepth s;
     trackOpBit := trackOpBit s; trackStack := trackStack s; record := record s |}.
Definition set_store (x : gmap key value) (s : state) : state :=
  {| depStore := depStore s; effects := effects s; computeds := computeds s;
     targetMap := targetMap s; store := x; activeEffect := activeEffect s;
     shouldTrack := shouldTrack s; effectTrackDepth := effectTrackDepth s;
     trackOpBit := trackOpBit s; trackStack := trackStack s; record := record s |}.
Definition set_activeEffect (x : option eff) (s : state) : state :=
  {| depStore := depStore s; effects := effects s; computeds := computeds s;
     targetMap := targetMap s; store := store s; activeEffect := x;
     shouldTrack := shouldTrack s; effectTrackDepth := effectTrackDepth s;
     trackOpBit := trackOpBit s; trackStack := trackStack s; record := record s |}.
Definition set_shouldTrack (x : bool) (s : state) : state :=
  {| depStore := depStore s; effects := effects s; computeds := computeds s;
     targetMap := targetMap s; store := store s; activeEffect := activeEffect s;
     shouldTrack := x; effectTrackDepth := effectTrackDepth s;
     trackOpBit := trackOpBit s; trackStack := trackStack s; record := record s |}.
Definition set_effectTrackDepth (x : Z) (s : state) : state :=
  {| depStore := depStore s; effects := effects s; computeds := computeds s;
     targetMap := targetMap s; store := store s; activeEffect := activeEffect s;
     shouldTrack := shouldTrack s; effectTrackDepth := x;
     trackOpBit := trackOpBit s; trackStack := trackStack s; record := record s |}.
Definition set_trackOpBit (x : Z) (s : state) : state :=
  {| depStore := depStore s; effects := effects s; computeds := computeds s;
     targetMap := targetMap s; store := store s; activeEffect := activeEffect s;
     shouldTrack := shouldTrack s; effectTrackDepth := effectTrackDepth s;
     trackOpBit := x; trackStack := trackStack s; record := record s |}.
Definition set_trackStack (x : list bool) (s : state) : state :=
  {| depStore := depStore s; effects := effects s; computeds := computeds s;
     targetMap := targetMap s; store := store s; activeEffect := activeEffect s;
     shouldTrack := shouldTrack s; effectTrackDepth := effectTrackDepth s;
     trackOpBit := trackOpBit s; trackStack := x; record := record s |}.
Definition note (x : event) (s : state) : state :=
  {| depStore := depStore s; effects := effects s; computeds := computeds s;
     targetMap := targetMap s; store := store s; activeEffect := activeEffect s;
     shouldTrack := shouldTrack s; effectTrackDepth := effectTrackDepth s;
     trackOpBit := trackOpBit s; trackStack := trackStack s;
     record := record s ++ [x] |}.

(** Updates of one object; an object that is not there is left out. *)
Definition updDep (d : dep) (f : Dep → Dep) (s : state) : state :=
  set_depStore (alter f d (depStore s)) s.
Definition updEffect (e : eff) (f : ReactiveEffect → ReactiveEffect) (s : state) : state :=
  set_effects (alter f e (effects s)) s.
Definition updComputed (c : cid) (f : ComputedRefImpl → ComputedRefImpl) (s : state)
  : state :=
  set_computeds (alter f c (computeds s)) s.

Definition with_subs (x : list eff) (d : Dep) : Dep := {| subs := x; w := w d; n := n d |}.
Definition with_w (x : Z) (d : Dep) : Dep := {| subs := subs d; w := x; n := n d |}.
Definition with_n (x : Z) (d : Dep) : Dep := {| subs := subs d; w := w d; n := x |}.

Definition with_active (x : bool) (e : ReactiveEffect) : ReactiveEffect :=
  {| active := x; deps := deps e; parent := parent e; computed := computed e;
     allowRecurse := allowRecurse e; deferStop := deferStop e;
     scheduler := scheduler e; fn := fn e |}.
Definition with_deps (x : list dep) (e : ReactiveEffect) : ReactiveEffect :=
  {| active := active e; deps := x; parent := parent e; computed := computed e;
     allowRecurse := allowRecurse e; deferStop := deferStop e;
     scheduler := scheduler e; fn := fn e |}.
Definition with_parent (x : option eff) (e : ReactiveEffect) : ReactiveEffect :=
  {| active := active e; deps := deps e; parent := x; computed := computed e;
     allowRecurse := allowRecurse e; deferStop := deferStop e;
     scheduler := scheduler e; fn := fn e |}.
Definition with_deferStop (x : bool) (e : ReactiveEffect) : ReactiveEffect :=
  {| active := active e; deps := deps e; parent := parent e; computed := computed e;
     allowRecurse := allowRecurse e; deferStop := x;
     scheduler := scheduler e; fn := fn e |}.

Definition with_cdep (x : option dep) (c : ComputedRefImpl) : ComputedRefImpl :=
  {| cdep := x; _value := _value c; _dirty := _dirty c; _cacheable := _cacheable c;
     effect := effect c |}.
Definition with_value (x : value) (c : ComputedRefImpl) : ComputedRefImpl :=
  {| cdep := cdep c; _value := x; _dirty := _dirty c; _cacheable := _cacheable c;
     effect := effect c |}.
Definition with_dirty (x : bool) (c : ComputedRefImpl) : ComputedRefImpl :=
  {| cdep := cdep c; _value := _value c; _dirty := x; _cacheable := _cacheable c;
     effect := effect c |}.

(** [const maxMarkerBits = 30] *)
Definition maxMarkerBits : Z := 30.

(** [1 << n] on 32-bit integers: the shift count is taken modulo 32, and
    bit 31 is the sign. *)
Definition shl1 (n : Z) : Z :=
  if n mod 32 =? 31 then - 2 ^ 31 else Z.shiftl 1 (n mod 32).

(** [createDep()]: the new set, and the state that holds it. *)
Definition createDep (s : state) : dep * state :=
  (length (depStore s), set_depStore (depStore s ++ [{| subs := []; w := 0; n := 0 |}]) s).

(** [wasTracked(dep)] and [newTracked(dep)] *)
Definition wasTracked (s : state) (d : Dep) : bool := 0 <? Z.land (w d) (trackOpBit s).
Definition newTracked (s : state) (d : Dep) : bool := 0 <? Z.land (n d) (trackOpBit s).

(** [initDepMarkers(effect)] *)
Definition initDepMarkers (e : eff) (s : state) : state :=
  match effects s !! e with
  | Some ef =>
      foldl (λ s d, updDep d (λ x, with_w (Z.lor (w x) (trackOpBit s)) x) s) s (deps ef)
  | None => s
  end.

(** [dep.delete(effect)] *)
Definition depDelete (e : eff) (d : Dep) : Dep :=
  with_subs (filter (λ x, x ≠ e) (subs d)) d.

(** [dep.add(effect)] *)
Definition depAdd (e : eff) (d : Dep) : Dep :=
  if decide (e ∈ subs d) then d else with_subs (subs d ++ [e]) d.

(** The loop of [finalizeDepMarkers]: the sets that stay are gathered in
    [kept], which becomes [deps] ([deps[ptr++] = dep], [deps.length = ptr]). *)
Fixpoint finalizeLoop (e : eff) (ds kept : list dep) (s : state) : list dep * state :=
  match ds with
  | [] => (kept, s)
  | d :: ds' =>
      match depStore s !! d with
      | Some x =>
          let '(kept, s) :=
            if wasTracked s x && negb (newTracked s x)
            then (kept, updDep d (depDelete e) s)
            else (kept ++ [d], s) in
          let s := updDep d (λ x, with_w (Z.land (w x) (Z.lnot (trackOpBit s))) x) s in
          let s := updDep d (λ x, with_n (Z.land (n x) (Z.lnot (trackOpBit s))) x) s in
          finalizeLoop e ds' kept s
      | None => finalizeLoop e ds' kept s
      end
  end.

(** [finalizeDepMarkers(effect)] *)
Definition finalizeDepMarkers (e : eff) (s : state) : state :=
  match effects s !! e with
  | Some ef =>
      let '(kept, s) := finalizeLoop e (deps ef) [] s in
      updEffect e (with_deps kept) s
  | None => s
  end.

(** [cleanupEffect(effect)] *)
Definition cleanupEffect (e : eff) (s : state) : state :=
  match effects s !! e with
  | Some ef =>
      updEffect e (with_deps [])
        (foldl (λ s d, updDep d (depDelete e) s) s (deps ef))
  | None => s
  end.

(** [trackEffects(dep)], called with an active effect [e]. *)
Definition trackEffects (e : eff) (d : dep) (s : state) : state :=
  let s := note (Tracked e d) s in
  match depStore s !! d with
  | Some x =>
      let '(shouldTrack, s) :=
        if (effectTrackDepth s <=? maxMarkerBits) then
          if negb (newTracked s x)
          then (negb (wasTracked s x),
                updDep d (λ x, with_n (Z.lor (n x) (trackOpBit s)) x) s)
          else (false, s)
        else (negb (bool_decide (e ∈ subs x)), s) in
      if shouldTrack
      then updEffect e (λ ef, with_deps (deps ef ++ [d]) ef) (updDep d (depAdd e) s)
      else s
  | None => s
  end.

(** [track(target, type, key)] *)
Definition track (k : key) (s : state) : state :=
  match shouldTrack s, activeEffect s with
  | true, Some e =>
      let '(d, s) :=
        match targetMap s !! k with
        | Some d => (d, s)
        | None => let '(d, s) := createDep s in (d, set_targetMap (<[k := d]> (targetMap s)) s)
        end in
      trackEffects e d s
  | _, _ => s
  end.

(** [trackRefValue(ref)] for a computed cell. *)
Definition trackRefValue (c : cid) (s : state) : state :=
  match shouldTrack s, activeEffect s, computeds s !! c with
  | true, Some e, Some cell =>
      let '(d, s) :=
        match cdep cell with
        | Some d => (d, s)
        | None => let '(d, s) := createDep s in (d, updComputed c (with_cdep (Some d)) s)
        end in
      trackEffects e d s
  | _, _, _ => s
  end.

(** [pauseTracking()] and [resetTracking()] *)
Definition pauseTracking (s : state) : state :=
  set_shouldTrack false (set_trackStack (trackStack s ++ [shouldTrack s]) s).

Definition resetTracking (s : state) : state :=
  match last (trackStack s) with
  | Some b => set_shouldTrack b (set_trackStack (removelast (trackStack s)) s)
  | None => set_shouldTrack true s
  end.

(** [effect.stop()] *)
Definition stop (e : eff) (s : state) : state :=
  match effects s !! e with
  | Some ef =>
      if bool_decide (activeEffect s = Some e) then updEffect e (with_deferStop true) s
      else if active ef then updEffect e (with_active false) (cleanupEffect e s)
      else s
  | None => s
  end.

(** The walk of [run] up the parents of the active effect:
    [while (parent) { if (parent === this) return; parent = parent.parent }].
    [None] when the fuel runs out. *)
Fixpoint onStack (fuel : nat) (s : state) (this : eff) (cur : option eff) : option bool :=
  match cur with
  | None => Some false
  | Some p =>
      if decide (p = this) then Some true
      else match fuel with
           | O => None
           | S fuel' => onStack fuel' s this (effects s !! p ≫= parent)
           end
  end.

(** Modelled from the spec: [hasChanged] of [@vue/shared], which is not among
    the sources; on numbers and [undefined] it is inequality. *)
Definition hasChanged (v oldValue : value) : bool := negb (bool_decide (v = oldValue)).

(** How a piece of code ends. *)
Inductive outcome := Normal (v : value) | Thrown.

(** The two loops of [triggerEffects] over the members [es] of a set, given
    what triggering one effect does. An exception leaves the loop. *)
Fixpoint triggerLoop (triggerEffect : eff → state → option (outcome * state))
  (es : list eff) (s : state) : option (outcome * state) :=
  match es with
  | [] => Some (Normal VUndefined, s)
  | e :: es' =>
      '(o, s) ← triggerEffect e s;
      match o with
      | Normal _ => triggerLoop triggerEffect es' s
      | Thrown => Some (Thrown, s)
      end
  end.

Definition isComputedEffect (s : state) (e : eff) : bool :=
  match effects s !! e with
  | Some ef => bool_decide (is_Some (computed ef))
  | None => false
  end.

(** The [try] block of [run], up to the call of [this.fn()]. *)
Definition runTry (e : eff) (s : state) : state :=
  let s := updEffect e (with_parent (activeEffect s)) s in
  let s := set_activeEffect (Some e) s in
  let s := set_shouldTrack true s in
  let s := set_effectTrackDepth (effectTrackDepth s + 1) s in
  let s := set_trackOpBit (shl1 (effectTrackDepth s)) s in
  if effectTrackDepth s <=? maxMarkerBits then initDepMarkers e s else cleanupEffect e s.

(** The [finally] block of [run]. *)
Definition runFinally (e : eff) (lastShouldTrack : bool) (s : state) : state :=
  let s := if effectTrackDepth s <=? maxMarkerBits then finalizeDepMarkers e s else s in
  let s := set_effectTrackDepth (effectTrackDepth s - 1) s in
  let s := set_trackOpBit (shl1 (effectTrackDepth s)) s in
  let s := set_activeEffect (effects s !! e ≫= parent) s in
  let s := set_shouldTrack lastShouldTrack s in
  let s := updEffect e (with_parent None) s in
  match effects s !! e with
  | Some ef => if deferStop ef then stop e s else s
  | None => s
  end.

(** The code, the effects and the triggers call each other; every call
    takes one unit of fuel, and the answer is [None] when it runs out.
    [ReadProp] and [WriteProp] are the [get] and [set] traps of a reactive
    proxy of a plain object whose properties hold numbers: the one tracks and
    answers, the other stores and triggers when the property is new or its
    value has changed (a new property also triggers the iteration key, which
    no code here tracks). *)
Fixpoint exec (fuel : nat) (c : code) (s : state) : option (outcome * state) :=
  match fuel with
  | O => None
  | S fuel' =>
      match c with
      | Ret v => Some (Normal v, s)
      | Throw => Some (Thrown, s)
      | ReadProp k cont =>
          let v := default VUndefined (store s !! k) in
          exec fuel' (cont v) (track k (note (Read k) s))
      | WriteProp k v cont =>
          let hadKey := bool_decide (is_Some (store s !! k)) in
          let oldValue := default VUndefined (store s !! k) in
          let s := set_store (<[k := v]> (store s)) s in
          '(o, s) ←
            (if negb hadKey || hasChanged v oldValue then trigger fuel' k s
             else Some (Normal VUndefined, s));
          match o with
          | Normal _ => exec fuel' cont s
          | Thrown => Some (Thrown, s)
          end
      | ReadComputed c cont =>
          '(o, s) ← readComputed fuel' c s;
          match o with
          | Normal v => exec fuel' (cont v) s
          | Thrown => Some (Thrown, s)
          end
      | RunEffect e cont =>
          '(o, s) ← run fuel' e s;
          match o with
          | Normal v => exec fuel' (cont v) s
          | Thrown => Some (Thrown, s)
          end
      | StopEffect e cont => exec fuel' cont (stop e s)
      | PauseTracking cont => exec fuel' cont (pauseTracking s)
      | ResetTracking cont => exec fuel' cont (resetTracking s)
      end
  end

(** [effect.run()] *)
with run (fuel : nat) (e : eff) (s : state) : option (outcome * state) :=
  match fuel with
  | O => None
  | S fuel' =>
      ef ← effects s !! e;
      if negb (active ef) then exec fuel' (fn ef) (note (Called e) s)
      else
        running ← onStack (length (effects s)) s e (activeEffect s);
        if running : bool then Some (Normal VUndefined, s)
        else
          let lastShouldTrack := shouldTrack s in
          '(o, s) ← exec fuel' (fn ef) (note (Called e) (runTry e s));
          Some (o, runFinally e lastShouldTrack s)
  end

(** [triggerEffects(dep)] *)
with triggerEffects (fuel : nat) (d : dep) (s : state) : option (outcome * state) :=
  match fuel with
  | O => None
  | S fuel' =>
      let s := note (Triggered d) s in
      match depStore s !! d with
      | Some x =>
          let es := subs x in
          '(o, s) ← triggerLoop (triggerEffect fuel')
                      (filter (λ e, isComputedEffect s e = true) es) s;
          match o with
          | Normal _ =>
              triggerLoop (triggerEffect fuel')
                (filter (λ e, isComputedEffect s e = false) es) s
          | Thrown => Some (Thrown, s)
          end
      | None => Some (Normal VUndefined, s)
      end
  end

(** [triggerEffect(effect)] *)
with triggerEffect (fuel : nat) (e : eff) (s : state) : option (outcome * state) :=
  match fuel with
  | O => None
  | S fuel' =>
      match effects s !! e with
      | Some ef =>
          if negb (bool_decide (activeEffect s = Some e)) || allowRecurse ef then
            match scheduler ef with
            | Some (ComputedScheduler c) => computedScheduler fuel' c s
            | Some UserScheduler => Some (Normal VUndefined, note (Scheduled e) s)
            | None => run fuel' e s
            end
          else Some (Normal VUndefined, s)
      | None => Some (Normal VUndefined, s)
      end
  end

(** The scheduler that the constructor of [ComputedRefImpl] gives to the
    effect of the cell:
    [if (!this._dirty) { this._dirty = true; triggerRefValue(this) }] *)
with computedScheduler (fuel : nat) (c : cid) (s : state) : option (outcome * state) :=
  match fuel with
  | O => None
  | S fuel' =>
      match computeds s !! c with
      | Some cell =>
          if negb (_dirty cell) then
            let s := updComputed c (with_dirty true) s in
            match cdep cell with
            | Some cd => triggerEffects fuel' cd s
            | None => Some (Normal VUndefined, s)
            end
          else Some (Normal VUndefined, s)
      | None => Some (Normal VUndefined, s)
      end
  end

(** [trigger(target, type, key)] for a property of a plain object that no
    effect iterates over. *)
with trigger (fuel : nat) (k : key) (s : state) : option (outcome * state) :=
  match fuel with
  | O => None
  | S fuel' =>
      match targetMap s !! k with
      | Some d => triggerEffects fuel' d s
      | None => Some (Normal VUndefined, s)
      end
  end

(** [get value()] of [ComputedRefImpl] *)
with readComputed (fuel : nat) (c : cid) (s : state) : option (outcome * state) :=
  match fuel with
  | O => None
  | S fuel' =>
      let s := trackRefValue c s in
      match computeds s !! c with
      | Some cell =>
          if _dirty cell || negb (_cacheable cell) then
            let s := updComputed c (with_dirty false) s in
            '(o, s) ← run fuel' (effect cell) s;
            match o with
            | Normal v => Some (Normal v, updComputed c (with_value v) s)
            | Thrown => Some (Thrown, s)
            end
          else Some (Normal (_value cell), s)
      | None => Some (Thrown, s)
      end
  end.

(** *** Vocabulary of the specification *)

(** [e] is a member of the dependency set of the property [k]. *)
Definition subscribed (s : state) (e : eff) (k : key) : Prop :=
  ∃ d x, targetMap s !! k = Some d ∧ depStore s !! d = Some x ∧ e ∈ subs x.


(** How often the function of [e] was called in the part [r] of a record. *)
Definition calls (e : eff) (r : list event) : nat :=
  length (filter (λ x, x = Called e) r).

(** The parent of an effect of the table. *)
Definition parentOf (s : state) (p : eff) : option (option eff) :=
  parent <$> effects s !! p.

(** [chain s cur l]: [l] lists the effects met from [cur] along the parents:
    the effects that are running, the innermost first. *)
Inductive chain (s : state) : option eff → list eff → Prop :=
| chain_nil : chain s None []
| chain_cons p q l : parentOf s p = Some q → chain s q l → chain s (Some p) (p :: l).

(** The effects that are running are distinct, and the generation bit is
    that of the depth. *)
Definition stackOK (s : state) : Prop :=
  ∃ l, chain s (activeEffect s) l ∧ NoDup l.

Definition bitOK (s : state) : Prop := trackOpBit s = shl1 (effectTrackDepth s).

(** Code that stops no effect. *)
Inductive noStop : code → Prop :=
| ns_Ret v : noStop (Ret v)
| ns_Throw : noStop Throw
| ns_ReadProp k cont : (∀ v, noStop (cont v)) → noStop (ReadProp k cont)
| ns_WriteProp k v cont : noStop cont → noStop (WriteProp k v cont)
| ns_ReadComputed c cont : (∀ v, noStop (cont v)) → noStop (ReadComputed c cont)
| ns_RunEffect e cont : (∀ v, noStop (cont v)) → noStop (RunEffect e cont)
| ns_PauseTracking cont : noStop cont → noStop (PauseTracking cont)
| ns_ResetTracking cont : noStop cont → noStop (ResetTracking cont).

(** The sets an effect lists, the members of a set, and the bits of its two
    masks; nothing for an object that is not there. *)
Definition depsOf (s : state) (e : eff) : list dep :=
  match effects s !! e with Some ef => deps ef | None => [] end.
Definition subsOf (s : state) (d : dep) : list eff :=
  match depStore s !! d with Some x => subs x | None => [] end.
Definition wbitAt (s : state) (d : dep) (j : Z) : bool :=
  match depStore s !! d with Some x => Z.testbit (w x) j | None => false end.
Definition nbitAt (s : state) (d : dep) (j : Z) : bool :=
  match depStore s !! d with Some x => Z.testbit (n x) j | None => false end.

(** The effect that runs at the depth [j], among the running effects [l]
    (the innermost first), when that depth has a bit in the masks. *)
Definition running (l : list eff) (j : Z) : option eff :=
  if decide (1 ≤ j ≤ maxMarkerBits) then reverse l !! (Z.to_nat j - 1)%nat else None.

(** The running effects [l] and the depth agree. *)
Definition stacked (s : state) (l : list eff) : Prop :=
  chain s (activeEffect s) l ∧ NoDup l ∧
  effectTrackDepth s = Z.of_nat (length l) ∧ bitOK s.

(** An effect lists the sets it is a member of, each once. *)
Definition mirror (s : state) : Prop :=
  (∀ e, NoDup (depsOf s e)) ∧ ∀ e d, d ∈ depsOf s e ↔ e ∈ subsOf s d.

(** The bit of a depth is set in a mask of a set only while an effect runs at
    that depth, and then in [w] or in [n] of exactly the sets the effect
    lists. *)
Definition marked (s : state) (l : list eff) : Prop :=
  ∀ d j, 0 ≤ j →
    match running l j with
    | Some e => wbitAt s d j || nbitAt s d j = true ↔ d ∈ depsOf s e
    | None => wbitAt s d j = false ∧ nbitAt s d j = false
    end.

(** The functions of the effects stop no effect, and no stop is pending. *)
Definition polite (s : state) : Prop :=
  ∀ e ef, effects s !! e = Some ef → noStop (fn ef) ∧ deferStop ef = false.

(** The sets of the properties and of the cells are there. *)
Definition linked (s : state) : Prop :=
  (∀ k d, targetMap s !! k = Some d → is_Some (depStore s !! d)) ∧
  (∀ c cell d, computeds s !! c = Some cell → cdep cell = Some d →
     is_Some (depStore s !! d)).

(** What holds of every state the engine reaches when no effect is
    stopped. *)
Definition sound (s : state) (l : list eff) : Prop :=
  stacked s l ∧ mirror s ∧ marked s l ∧ polite s ∧ linked s.


(** Code that only reads: properties and computed cells, with the tracking
    paused or not; it writes nothing, and runs and stops no effect itself. *)
Inductive readsOnly : code → Prop :=
| ro_Ret v : readsOnly (Ret v)
| ro_Throw : readsOnly Throw
| ro_ReadProp k cont : (∀ v, readsOnly (cont v)) → readsOnly (ReadProp k cont)
| ro_ReadComputed c cont : (∀ v, readsOnly (cont v)) → readsOnly (ReadComputed c cont)
| ro_PauseTracking cont : readsOnly cont → readsOnly (PauseTracking cont)
| ro_ResetTracking cont : readsOnly cont → readsOnly (ResetTracking cont).

(** The getters of the computed cells only read. *)
Definition getters (s : state) : Prop :=
  ∀ c cell, computeds s !! c = Some cell →
    ∃ ef, effects s !! effect cell = Some ef ∧ readsOnly (fn ef).

(** The effect [e] is that of the cell [c] only, as the constructor of
    [ComputedRefImpl] makes it. *)
Definition owns (s : state) (c : cid) (e : eff) : Prop :=
  ∀ c' cell', computeds s !! c' = Some cell' → effect cell' = e → c' = c.




End Effect.

(** ** effect.ts: the tracking switch *)

Module EffectMore.
Import Effect.

(** [enableTracking()] *)
Definition enableTracking (s : state) : state :=
  set_shouldTrack true (set_trackStack (trackStack s ++ [shouldTrack s]) s).

(** A call of [pauseTracking] or of [enableTracking]. *)
Inductive switch := Pause | Enable.

Definition flip (s : state) (x : switch) : state :=
  match x with
  | Pause => pauseTracking s
  | Enable => enableTracking s
  end.

(** [n] calls of [resetTracking]. *)
Fixpoint resets (n : nat) (s : state) : state :=
  match n with
  | O => s
  | S n' => resets n' (resetTracking s)
  end.

(** *** Vocabulary *)

(** What an effect is for the triggers: whether it is active, its scheduler,
    whether it may trigger itself, and the cell it belongs to. *)
Definition role (ef : ReactiveEffect)
  : bool * option EffectScheduler * bool * option cid :=
  (active ef, scheduler ef, allowRecurse ef, computed ef).

(** How often the scheduler of the user was called for [e] in the part [r]
    of a record. *)
Definition scheduled (e : eff) (r : list event) : nat :=
  length (filter (λ x, x = Scheduled e) r).

End EffectMore.

(** ** scheduler.ts: the other entries *)

Module SchedulerMore.
Import Scheduler.

(** [queue.indexOf(job)]: [None] is [-1]. *)
Fixpoint indexOf (q : list job) (j : job) : option nat :=
  match q with
  | [] => None
  | k :: q' => if decide (k = j) then Some O else S <$> indexOf q' j
  end.

(** [invalidateJob(job)] *)
Definition invalidateJob (j : job) (s : state) : state :=
  match indexOf (queue s) j with
  | Some i => if (flushIndex s <? i)%nat then set_queue (delete i (queue s)) s else s
  | None => s
  end.

Section scheduler.

Context (jobs : job → SchedulerJob).
Context (DEV : bool).

(** [flushPreFlushCbs(instance, seen, i)]: [uid] is [instance.uid] when an
    instance is given, and [i] the index to start at. The loop reads
    [queue.length] at every turn, and a callback may queue jobs: [None] when
    the fuel runs out. A callback taken out of the queue is called as a job
    ([inl]). *)
Fixpoint preLoop (fuel : nat) (uid : option Z) (seen : gmap job nat) (i : nat) (s : state)
  : option (gmap job nat * state) :=
  match queue s !! i with
  | None => Some (seen, s)
  | Some cb =>
      match fuel with
      | O => None
      | S fuel' =>
          if pre (jobs cb) then
            if match uid with
               | Some u => negb (bool_decide (id (jobs cb) = Some u))
               | None => false
               end
            then preLoop fuel' uid seen (i + 1)%nat s
            else
              let '(seen', skip) := check DEV seen cb in
              if skip then preLoop fuel' uid seen' (i + 1)%nat s
              else
                let s := set_queue (delete i (queue s)) s in
                preLoop fuel' uid seen' i (call jobs (inl cb) cb s)
          else preLoop fuel' uid seen (i + 1)%nat s
      end
  end.

Definition flushPreFlushCbs (fuel : nat) (uid : option Z) (seen : gmap job nat)
  (s : state) : option (gmap job nat * state) :=
  preLoop fuel uid seen (if isFlushing s then (flushIndex s + 1)%nat else O) s.

(** The test of [findInsertionIndex] on the job in the middle:
    [middleJobId < id || (middleJobId === id && middleJob.pre)]. *)
Definition goesRight (jid : Z) (k : job) : bool :=
  match getId jobs k with
  | Fin m => bool_decide (m < jid) || (bool_decide (m = jid) && pre (jobs k))
  | _ => false
  end.

(** The entries of the queue that [flushPreFlushCbs] takes: the [pre] jobs,
    and with an instance those of them whose id is its [uid]. *)
Definition taken (uid : option Z) (k : job) : bool :=
  pre (jobs k)
  && match uid with
     | Some u => bool_decide (id (jobs k) = Some u)
     | None => true
     end.

(** *** Vocabulary *)

(** How often [j] was called, as a job or as a callback. *)
Definition callsOf (j : job) (r : list (job + job)) : nat :=
  length (filter (λ e, e = inl j ∨ e = inr j) r).

(** The callbacks called by [flushPostFlushCbs], in call order. *)
Definition cbsRan (s : state) : list job :=
  omap (λ e, match e with inr j => Some j | inl _ => None end) (ran s).

(** [a] is not behind [b] in the order of [flushPostFlushCbs]: its id is not
    greater, and a callback without an id is behind every one with an id. *)
Definition idLe (a b : job) : Prop :=
  match id (jobs a), id (jobs b) with
  | Some x, Some y => x ≤ y
  | Some _, None => True
  | None, Some _ => False
  | None, None => True
  end.

(** [queuePostFlushCb] for each callback of [cbs], in order. *)
Definition queuePostFlushCbs (cbs : list job) (s : state) : state :=
  foldl (λ s k, queuePostFlushCb jobs k s) s cbs.

End scheduler.

End SchedulerMore.

(** ** reactive.ts, baseHandlers.ts, ref.ts: the other entries *)

From stdpp Require Import pretty.

Open Scope Z_scope.

Module ReactiveMore.
Import Reactive.

(** *** reactive.ts *)

(** [isReactive(value)]: a readonly value is reactive when its [__v_raw]
    is. [None] when the fuel runs out. *)
Fixpoint isReactive_rec (fuel : nat) (s : state) (v : value) : option bool :=
  match fuel with
  | O => None
  | S fuel' =>
      ro ← isReadonly s v;
      if ro : bool then raw ← pureFlag RAW v s; isReactive_rec fuel' s raw
      else truthy <$> pureFlag IS_REACTIVE v s
  end.

Definition isReactive (s : state) (v : value) : option bool :=
  isReactive_rec (S (length (heap s))) s v.

(** [isProxy(value)] *)
Definition isProxy (s : state) (v : value) : option bool :=
  r ← isReactive s v;
  if r : bool then Some true else isReadonly s v.

(** [toReadonly(value)] *)
Definition toReadonly (v : value) (s : state) : option (value * state) :=
  if isObject v then readonly v s else Some (v, s).

(** The flags of the four wrapping functions. *)
Definition readonlyOf (w : variant) : bool :=
  match w with Readonly_ | ShallowReadonly_ => true | _ => false end.

Definition shallowOf (w : variant) : bool :=
  match w with ShallowReactive_ | ShallowReadonly_ => true | _ => false end.

(** *** ref.ts *)

(** [trackRefValue(ref)] for a ref that is no proxy: the call is recorded as
    the read of the key [value] of the ref, which is how the source
    describes it to [trackEffects]. *)
Definition trackRefValue (ref : addr) (s : state) : state :=
  emit (Track ref "value") s.

(** [get value()] of [RefImpl], for the ref at [this]. *)
Definition RefImpl_get (this : addr) (s : state) : option (value * state) :=
  o ← heap s !! this;
  match o with
  | RefImpl _ _value _ => Some (_value, trackRefValue this s)
  | _ => None
  end.

(** [r.value] for a value [r] with [isRef(r)]: the getter of [RefImpl]. The
    getter of a computed ref runs the effect engine, and a proxy of a ref
    runs the trap again with the proxy as [this]: both are outside what is
    modelled ([None]). *)
Definition readValue (r : value) (s : state) : option (value * state) :=
  match r with
  | VObj a => RefImpl_get a s
  | _ => None
  end.

(** [unref(ref)] *)
Definition unref (r : value) (s : state) : option (value * state) :=
  b ← isRef s r;
  if b : bool then readValue r s else Some (r, s).

(** [triggerRef(ref)] in a development build, for a [RefImpl]:
    [triggerRefValue(ref, ref.value)]. *)
Definition triggerRef (r : addr) (s : state) : option state :=
  '(v, s) ← RefImpl_get r s;
  Some (triggerRefValue r v s).

(** *** baseHandlers.ts: the [get], [has] and [deleteProperty] traps *)

(** The name under which a key reaches a trap: an index is its decimal
    string. *)
Definition keyName (k : key) : string :=
  match k with KStr s => s | KIdx n => pretty n end.

(** [isIntegerKey(key)] *)
Definition isIntegerKey (k : key) : bool :=
  match k with KIdx _ => true | KStr _ => false end.

(** [isNonTrackableKeys]: [makeMap(`__proto__,__v_isRef,__isVue`)] *)
Definition isNonTrackableKeys (k : key) : bool :=
  match k with
  | KStr s => bool_decide (s ∈ ["__proto__"; "__v_isRef"; "__isVue"])
  | KIdx _ => false
  end.

(** The keys of [arrayInstrumentations]. *)
Definition arrayInstrumentations : list string :=
  ["includes"; "indexOf"; "lastIndexOf"; "push"; "pop"; "shift"; "unshift"; "splice"].

(** The keys whose value is a function or a prototype, which the values at
    hand do not have: the instrumented methods of an array,
    [hasOwnProperty] and [__proto__]. *)
Definition unmodelled (ty : rawType) (k : key) : bool :=
  match k with
  | KStr s =>
      bool_decide (s = "hasOwnProperty") || bool_decide (s = "__proto__")
      || (bool_decide (ty = TArray) && bool_decide (s ∈ arrayInstrumentations))
  | KIdx _ => false
  end.

(** [BaseReactiveHandler.get(target, key, receiver)] for the handler with
    [_isReadonly = isReadonly] and [_shallow = shallow], and a key that is
    none of the flags. [Reflect.get] reads an own property of a plain object
    or array, where a key that the object does not have reads as
    [undefined], and runs the trap of a target that is itself a proxy with
    a base handler. [None] for the keys that are not modelled, for a
    target that ends in no plain object or array, and when the fuel runs
    out. *)
Fixpoint BaseReactiveHandler_get (fuel : nat) (isReadonly shallow : bool)
  (target : addr) (k : key) (receiver : addr) (s : state) : option (value * state) :=
  match fuel with
  | O => None
  | S fuel' =>
      '(_, o) ← underlying (S (length (heap s))) (heap s) target;
      match o with
      | Plain ty _ _ _ =>
          if unmodelled ty k then None else
          t ← heap s !! target;
          '(res, s) ←
            match t with
            | Plain _ _ _ props => Some (default VUndefined (props !! k), s)
            | Proxy t' ro sh false => BaseReactiveHandler_get fuel' ro sh t' k receiver s
            | _ => None
            end;
          if isNonTrackableKeys k then Some (res, s) else
          let s := if isReadonly then s else emit (Track target (keyName k)) s in
          if shallow then Some (res, s) else
          r ← isRef s res;
          if r : bool then
            if bool_decide (ty = TArray) && isIntegerKey k then Some (res, s)
            else readValue res s
          else if isObject res then
            if isReadonly then readonly res s else reactive res s
          else Some (res, s)
      | _ => None
      end
  end.

(** [proxy[key]] for a proxy with a base handler. *)
Definition proxyGet (proxy : addr) (k : key) (s : state) : option (value * state) :=
  o ← heap s !! proxy;
  match o with
  | Proxy target ro sh false =>
      BaseReactiveHandler_get (S (length (heap s))) ro sh target k proxy s
  | _ => None
  end.





(** *** ref.ts: [shallowUnwrapHandlers], the handlers of [proxyRefs] *)



(** *** Vocabulary *)

(** The state in which the read of [k] on [x] was tracked, unless the proxy
    is readonly. *)
Definition tracked (ro : bool) (x : addr) (k : key) (s : state) : state :=
  if ro then s else emit (Track x (keyName k)) s.

(** [hadKey] of [MutableReactiveHandler.set]. *)
Definition hadKey (ty : rawType) (props : gmap key value) (k : key) : bool :=
  match ty, k with
  | TArray, KIdx n => (n <? arrayLength props)%nat
  | _, _ => bool_decide (is_Some (props !! k))
  end.

End ReactiveMore.

(** ** renderer.ts: patching the children of an element *)

Module Diff.
Import Renderer.

(** A node of the host. *)
Abbreviation node := nat.

(** The children at hand are text and comment vnodes: vnodes without
    props, children, refs, directives or transitions, for which [patch],
    [move] and [unmount] come down to the host operations below. *)
Inductive VNodeType := Text | Comment.

#[global] Instance VNodeType_eq_dec : EqDecision VNodeType.
Proof. solve_decision. Defined.

(** A vnode: its type, its key ([None] for [null]) and its text. A child of
    the old list is mounted and comes with its [el]; a child of the new list
    is a vnode that was not mounted before and is none of the old ones. *)
Record VNode := { type : VNodeType; key : option nat; children : string }.

Abbreviation mounted := (VNode * node)%type.

(** The host: the child nodes of the container in order, the text of the
    nodes, and the number of nodes created so far, which names the next
    one. The host operations are those of the DOM: [insert(el, parent,
    anchor)] is [parent.insertBefore(el, anchor)], which takes [el] out of
    its place first, appends for the anchor [null] and raises an exception
    ([None]) for an anchor that is no child of the parent. *)
Record host := {
  childNodes : list node;
  data : gmap node string;
  created : nat
}.

Definition set_childNodes (l : list node) (h : host) : host :=
  {| childNodes := l; data := data h; created := created h |}.

(** [hostCreateText(text)] and [hostCreateComment(text)] *)
Definition hostCreate (text : string) (h : host) : node * host :=
  (created h,
   {| childNodes := childNodes h; data := <[created h := text]> (data h);
      created := S (created h) |}).

Fixpoint insertBefore (el anchor : node) (l : list node) : list node :=
  match l with
  | [] => []
  | x :: l' => if decide (x = anchor) then el :: x :: l' else x :: insertBefore el anchor l'
  end.

Definition hostInsert (el : node) (anchor : option node) (h : host) : option host :=
  let rest := filter (λ x, x ≠ el) (childNodes h) in
  match anchor with
  | None => Some (set_childNodes (rest ++ [el]) h)
  | Some a =>
      if decide (a ∈ childNodes h) then
        if decide (a = el) then Some h
        else Some (set_childNodes (insertBefore el a rest) h)
      else None
  end.

Definition hostRemove (el : node) (h : host) : host :=
  set_childNodes (filter (λ x, x ≠ el) (childNodes h)) h.

Fixpoint nextSibling (el : node) (l : list node) : option node :=
  match l with
  | [] => None
  | x :: l' => if decide (x = el) then head l' else nextSibling el l'
  end.

Definition hostNextSibling (el : node) (h : host) : option node :=
  nextSibling el (childNodes h).

Definition hostSetText (el : node) (text : string) (h : host) : host :=
  {| childNodes := childNodes h; data := <[el := text]> (data h);
     created := created h |}.

(** Modelled from the spec: [isSameVNodeType] of [vnode.ts], which the
    sources at hand import and do not define: two vnodes are of the same
    type when their types and their keys are the same. *)
Definition isSameVNodeType (n1 n2 : VNode) : bool :=
  bool_decide (type n1 = type n2 ∧ key n1 = key n2).

(** [processText(n1, n2, container, anchor)] and
    [processCommentNode(n1, n2, container, anchor)]; the result is [n2.el].
    The text of a comment that is patched stays as it is. *)
Definition process (n1 : option mounted) (n2 : VNode) (anchor : option node) (h : host)
  : option (node * host) :=
  match n1 with
  | None =>
      let '(el, h) := hostCreate (children n2) h in
      h ← hostInsert el anchor h; Some (el, h)
  | Some (v1, el) =>
      Some (el,
            match type n2 with
            | Text =>
                if bool_decide (children n2 = children v1) then h
                else hostSetText el (children n2) h
            | Comment => h
            end)
  end.

(** [unmount(vnode, parentComponent, parentSuspense, true)] *)
Definition unmount (n : mounted) (h : host) : host := hostRemove (snd n) h.

(** [getNextHostNode(vnode)] *)
Definition getNextHostNode (n : mounted) (h : host) : option node :=
  hostNextSibling (snd n) h.

(** [move(vnode, container, anchor, MoveType.REORDER)] for the vnode with
    the [el] given. *)
Definition move (el : node) (anchor : option node) (h : host) : option host :=
  hostInsert el anchor h.

(** [patch(n1, n2, container, anchor)] for two vnodes that are not the same
    object. *)
Definition patch (n1 : option mounted) (n2 : VNode) (anchor : option node) (h : host)
  : option (node * host) :=
  match n1 with
  | Some old =>
      if isSameVNodeType (fst old) n2 then process (Some old) n2 anchor h
      else process None n2 (getNextHostNode old h) (unmount old h)
  | None => process None n2 anchor h
  end.

(** [mountChildren(children, container, anchor, ..., start)] for the
    children from [start] on; the result lists their [el]. *)
Fixpoint mountChildren (c : list VNode) (anchor : option node) (h : host)
  : option (list node * host) :=
  match c with
  | [] => Some ([], h)
  | child :: c' =>
      '(el, h) ← patch None child anchor h;
      '(els, h) ← mountChildren c' anchor h;
      Some (el :: els, h)
  end.

(** [unmountChildren(children, ..., true, false, start)] for the children
    from [start] on. *)
Definition unmountChildren (c : list mounted) (h : host) : host :=
  foldl (λ h n, unmount n h) h c.

(** *** [patchUnkeyedChildren] *)

(** [for (i = 0; i < commonLength; i++) patch(c1[i], c2[i], container,
    null)] *)
Fixpoint patchCommon (c1 : list mounted) (c2 : list VNode) (h : host)
  : option (list node * host) :=
  match c1, c2 with
  | n1 :: c1', n2 :: c2' =>
      '(el, h) ← patch (Some n1) n2 None h;
      '(els, h) ← patchCommon c1' c2' h;
      Some (el :: els, h)
  | _, _ => Some ([], h)
  end.

(** The result lists the [el] of the new children. *)
Definition patchUnkeyedChildren (c1 : list mounted) (c2 : list VNode)
  (anchor : option node) (h : host) : option (list node * host) :=
  let oldLength := length c1 in
  let newLength := length c2 in
  let commonLength := (oldLength `min` newLength)%nat in
  '(els, h) ← patchCommon c1 c2 h;
  if (newLength <? oldLength)%nat then Some (els, unmountChildren (drop commonLength c1) h)
  else
    '(els', h) ← mountChildren (drop commonLength c2) anchor h;
    Some (els ++ els', h).

(** *** [patchKeyedChildren] *)

(** 1. sync from start: [while (i <= e1 && i <= e2)] the two children at
    [i] are patched when they are of the same type, and the loop ends when
    they are not. The result lists the [el] of the children patched. The
    loop from the end (2.) is this loop on the two lists reversed. *)
Fixpoint syncStart (c1 : list mounted) (c2 : list VNode) (h : host)
  : option (list node * host) :=
  match c1, c2 with
  | n1 :: c1', n2 :: c2' =>
      if isSameVNodeType (fst n1) n2 then
        '(el, h) ← patch (Some n1) n2 None h;
        '(els, h) ← syncStart c1' c2' h;
        Some (el :: els, h)
      else Some ([], h)
  | _, _ => Some ([], h)
  end.

(** 5.1 [keyToNewIndexMap]: the key of the child at [i] is set to [i], for
    [i] from [s2] up, so that the last child with a key holds it. *)
Fixpoint keyToNewIndexMap (i : nat) (c : list VNode) (m : gmap nat nat) : gmap nat nat :=
  match c with
  | [] => m
  | nextChild :: c' =>
      keyToNewIndexMap (S i) c'
        (match key nextChild with Some k => <[k := i]> m | None => m end)
  end.

(** The search for a child without a key: the first [j] from [s2] up with
    [newIndexToOldIndexMap[j - s2] === 0 && isSameVNodeType(prevChild,
    c2[j])]; the two lists start at [j]. *)
Fixpoint findSame (prevChild : VNode) (j : nat) (c : list VNode)
  (newIndexToOldIndexMap : list Z) : option nat :=
  match c, newIndexToOldIndexMap with
  | n :: c', x :: m' =>
      if bool_decide (x = 0) && isSameVNodeType prevChild n then Some j
      else findSame prevChild (S j) c' m'
  | _, _ => None
  end.

(** The variables of the loop over the old children (5.2), the [el] of the
    new children ([None] for a child that is not mounted) and the host. *)
Record walk := {
  patched : nat;
  moved : bool;
  maxNewIndexSoFar : nat;
  newIndexToOldIndexMap : list Z;
  els : list (option node);
  hst : host
}.

Definition set_hst (h : host) (w : walk) : walk :=
  {| patched := patched w; moved := moved w; maxNewIndexSoFar := maxNewIndexSoFar w;
     newIndexToOldIndexMap := newIndexToOldIndexMap w; els := els w; hst := h |}.

(** One turn of the loop, for the old child [prevChild] at index [i];
    [new] holds the new children from [s2] to [e2]. *)
Definition walkStep (s2 : nat) (new : list VNode) (keys : gmap nat nat)
  (i : nat) (prevChild : mounted) (w : walk) : option walk :=
  let toBePatched := length new in
  if (toBePatched <=? patched w)%nat then Some (set_hst (unmount prevChild (hst w)) w)
  else
    let newIndex :=
      match key (fst prevChild) with
      | Some k => keys !! k
      | None => findSame (fst prevChild) s2 new (newIndexToOldIndexMap w)
      end in
    match newIndex with
    | None => Some (set_hst (unmount prevChild (hst w)) w)
    | Some newIndex =>
        n2 ← new !! (newIndex - s2)%nat;
        '(el, h) ← patch (Some prevChild) n2 None (hst w);
        Some {| patched := S (patched w);
                moved := if (maxNewIndexSoFar w <=? newIndex)%nat then moved w else true;
                maxNewIndexSoFar :=
                  if (maxNewIndexSoFar w <=? newIndex)%nat then newIndex
                  else maxNewIndexSoFar w;
                newIndexToOldIndexMap :=
                  <[(newIndex - s2)%nat := Z.of_nat (i + 1)]> (newIndexToOldIndexMap w);
                els := <[newIndex := Some el]> (els w);
                hst := h |}
    end.

(** [for (i = s1; i <= e1; i++)]: [old] holds the old children from [i]
    on. *)
Fixpoint walkOld (s2 : nat) (new : list VNode) (keys : gmap nat nat)
  (i : nat) (old : list mounted) (w : walk) : option walk :=
  match old with
  | [] => Some w
  | prevChild :: old' =>
      w ← walkStep s2 new keys i prevChild w;
      walkOld s2 new keys (S i) old' w
  end.

(** [c2[i].el]: [None] is [null], the [el] of a child that is not mounted. *)
Definition elAt (els : list (option node)) (i : nat) : option node :=
  mjoin (els !! i).

(** The anchor of a host operation of the last loop (5.3):
    [nextIndex + 1 < l2 ? c2[nextIndex + 1].el : parentAnchor]. *)
Definition anchorEl (parentAnchor : option node) (els : list (option node))
  (anchor : option nat) : option node :=
  match anchor with
  | Some j => elAt els j
  | None => parentAnchor
  end.

(** A host operation of the last loop: [patch(null, nextChild, container,
    anchor)] or [move(nextChild, container, anchor, MoveType.REORDER)]. *)
Definition runOp (c2 : list VNode) (parentAnchor : option node)
  (st : list (option node) * host) (op : HostOp) : option (list (option node) * host) :=
  let '(els, h) := st in
  match op with
  | MountNew nextIndex anchor =>
      nextChild ← c2 !! nextIndex;
      '(el, h) ← patch None nextChild (anchorEl parentAnchor els anchor) h;
      Some (<[nextIndex := Some el]> els, h)
  | MoveNode nextIndex anchor =>
      el ← elAt els nextIndex;
      h ← move el (anchorEl parentAnchor els anchor) h;
      Some (els, h)
  end.

Fixpoint runOps (c2 : list VNode) (parentAnchor : option node)
  (ops : list HostOp) (st : list (option node) * host)
  : option (list (option node) * host) :=
  match ops with
  | [] => Some st
  | op :: ops' => st ← runOp c2 parentAnchor st op; runOps c2 parentAnchor ops' st
  end.

(** 3. the new children from [i] to [e2] are mounted before the one
    anchor; [j] is the index of the child that [new] starts with. *)
Fixpoint mountRange (j : nat) (new : list VNode) (anchor : option node)
  (st : list (option node) * host) : option (list (option node) * host) :=
  match new with
  | [] => Some st
  | child :: new' =>
      '(el, h) ← patch None child anchor (snd st);
      mountRange (S j) new' anchor (<[j := Some el]> (fst st), h)
  end.

(** [patchKeyedChildren(c1, c2, container, parentAnchor)]; the result
    lists [c2[i].el] for the new children. [front] and [back] are the [el]
    of the children that the two loops from the start and from the end
    patched, [old] holds the old children from [i] to [e1] and [new] the new
    children from [i] to [e2]. *)
Definition patchKeyedChildren (c1 : list mounted) (c2 : list VNode)
  (parentAnchor : option node) (h : host) : option (list (option node) * host) :=
  let l2 := length c2 in
  '(front, h) ← syncStart c1 c2 h;
  let i := length front in
  '(back, h) ← syncStart (reverse (drop i c1)) (reverse (drop i c2)) h;
  let old := take (length c1 - i - length back) (drop i c1) in
  let new := take (l2 - i - length back) (drop i c2) in
  let nodes := (Some <$> front) ++ replicate (length new) None ++ (Some <$> reverse back) in
  match old, new with
  | [], [] => Some (nodes, h)
  | [], _ :: _ =>
      let nextPos := (i + length new)%nat in
      let anchor := if (nextPos <? l2)%nat then elAt nodes nextPos else parentAnchor in
      mountRange i new anchor (nodes, h)
  | _ :: _, [] => Some (nodes, unmountChildren old h)
  | _ :: _, _ :: _ =>
      let keys := keyToNewIndexMap i new ∅ in
      w ← walkOld i new keys i old
             {| patched := O; moved := false; maxNewIndexSoFar := O;
                newIndexToOldIndexMap := replicate (length new) 0;
                els := nodes; hst := h |};
      ops ← moveAndMount (moved w) i l2 (newIndexToOldIndexMap w);
      runOps c2 parentAnchor ops (els w, hst w)
  end.

End Diff.

Module RendererSpec.
Import Renderer.

(** *** Lists read by position *)

Lemma StronglySorted_lookup {A} (R : relation A) (l : list A) :
  StronglySorted R l ↔
  ∀ (i j : nat) x y, (i < j)%nat → l !! i = Some x → l !! j = Some y → R x y.
Proof.
  split.
  - induction 1 as [|a l Hs IH Hall]; intros i j x y Hij Hi Hj.
    + rewrite lookup_nil in Hi. discriminate.
    + destruct j as [|j]; [lia|]. destruct i as [|i]; simpl in *.
      * injection Hi as <-. rewrite Forall_lookup in Hall. eauto.
      * eapply (IH i j); [lia|done..].
  - induction l as [|a l IH]; intros H; constructor.
    + apply IH. intros i j x y Hij Hi Hj. apply (H (S i) (S j)); [lia|done..].
    + apply Forall_lookup. intros i x Hi. apply (H O (S i)); [lia|done..].
Qed.

Lemma num_at_Some a i x : num_at a i = Some x → 0 ≤ i < Z.of_nat (length a).
Proof.
  unfold num_at. destruct (decide (0 ≤ i)); [|done].
  intros Hx%lookup_lt_Some. lia.
Qed.

Lemma num_at_of_nat a (i : nat) : num_at a (Z.of_nat i) = a !! i.
Proof. unfold num_at. rewrite decide_True by lia. by rewrite Nat2Z.id. Qed.

Lemma num_at_val a i : 0 ≤ i < Z.of_nat (length a) → num_at a i = Some (val a i).
Proof.
  intros Hi. unfold val, num_at. rewrite decide_True by lia.
  destruct (lookup_lt_is_Some_2 a (Z.to_nat i)) as [x ->]; [lia|done].
Qed.

Lemma num_at_insert_ne p (i : nat) x y : y ≠ Z.of_nat i →
  num_at (<[i := x]> p) y = num_at p y.
Proof.
  intros Hy. unfold num_at. destruct (decide (0 ≤ y)); [|done].
  apply list_lookup_insert_ne. lia.
Qed.

Lemma js_lt_Some a b : js_lt (Some a) (Some b) = bool_decide (a < b).
Proof. done. Qed.

(** *** The binary search *)

Section bsearch.
Context (arr result : list Z) (arrI : Z).
Hypothesis result_valid : Forall (λ r, 0 ≤ r < Z.of_nat (length arr)) result.
Hypothesis result_sorted : ∀ (s t : nat) a b, (s < t)%nat →
  result !! s = Some a → result !! t = Some b → val arr a < val arr b.

Lemma result_val (c : nat) r : result !! c = Some r →
  result !! c ≫= num_at arr = Some (val arr r).
Proof.
  intros Hc. rewrite Hc. simpl. apply num_at_val.
  rewrite Forall_lookup in result_valid. eauto.
Qed.

(** The search returns the first position whose value is not below [arrI]. *)
Lemma bsearch_spec fuel (u v : nat) rv :
  (v - u ≤ fuel)%nat → (u ≤ v)%nat →
  result !! v = Some rv → arrI ≤ val arr rv →
  (∀ (t : nat) r, (t < u)%nat → result !! t = Some r → val arr r < arrI) →
  ∃ (w : nat) rw, bsearch fuel arr result arrI u v = w ∧ (w ≤ v)%nat ∧
    result !! w = Some rw ∧ arrI ≤ val arr rw ∧
    (∀ (t : nat) r, (t < w)%nat → result !! t = Some r → val arr r < arrI).
Proof.
  revert u v rv. induction fuel as [|fuel IH]; intros u v rv Hfuel Huv Hv Hge Hlt.
  - assert (u = v) as -> by lia. simpl. eauto 10.
  - cbn [bsearch]. destruct (Nat.ltb_spec u v) as [Hlt'|Hge']; last first.
    { assert (u = v) as -> by lia. eauto 10. }
    rewrite Nat.shiftr_div_pow2. change (2 ^ 1)%nat with 2%nat.
    set (c := ((u + v) `div` 2)%nat).
    assert (u ≤ c < v)%nat as Hc.
    { subst c. split; [apply Nat.div_le_lower_bound|apply Nat.Div0.div_lt_upper_bound]; lia. }
    destruct (lookup_lt_is_Some_2 result c) as [rc Hrc].
    { apply lookup_lt_Some in Hv. lia. }
    rewrite (result_val c rc Hrc), js_lt_Some. case_bool_decide as Hcmp.
    + destruct (IH (c + 1)%nat v rv) as (w & rw & ? & ? & ? & ? & ?); try done; try lia.
      { intros t r Ht Hr. destruct (decide (t = c)) as [->|].
        - congruence.
        - assert (val arr r < val arr rc); [|lia].
          apply (result_sorted t c); [lia|done..]. }
      eauto 10.
    + destruct (IH u c rc) as (w & rw & ? & ? & ? & ? & ?); try done; try lia.
      exists w, rw. repeat split; try done. lia.
Qed.

End bsearch.

(** *** The invariant of the main loop *)

(** Consecutive entries of [l] are linked by [p]: each entry's predecessor
    is what [p] holds at that entry. *)
Inductive linked (p : list Z) : list Z → Prop :=
| linked_one x : linked p [x]
| linked_snoc l y x :
    linked p (l ++ [y]) → num_at p x = Some y → linked p ((l ++ [y]) ++ [x]).

Section invariant.
Context (arr : list Z).

Definition valid (l : list Z) : Prop :=
  Forall (λ r, 0 ≤ r < Z.of_nat (length arr)) l.

Definition below (i : nat) (l : list Z) : Prop := Forall (λ r, r < Z.of_nat i) l.

(** [l] is a candidate ending at [r] that the back-tracking pass rebuilds. *)
Definition chain (p : list Z) (l : list Z) (r : Z) : Prop :=
  last l = Some r ∧ linked p l ∧ increasing arr l ∧ seeded arr l.

Record Inv (i : nat) (p result : list Z) : Prop := {
  inv_len : length p = length arr;
  inv_ne : result ≠ [];
  inv_valid : valid result;
  inv_below : below i result;
  inv_sorted : ∀ (s t : nat) a b, (s < t)%nat →
    result !! s = Some a → result !! t = Some b → val arr a < val arr b;
  inv_chain : ∀ (t : nat) r, result !! t = Some r →
    ∃ l, length l = S t ∧ chain p l r;
  inv_best : ∀ l e, increasing arr l → seeded arr l → below i l →
    last l = Some e →
    ∃ r, result !! (length l - 1)%nat = Some r ∧ val arr r ≤ val arr e
}.

Lemma increasing_snoc l x :
  increasing arr (l ++ [x]) ↔
  increasing arr l ∧ 0 ≤ x < Z.of_nat (length arr) ∧
  ∀ y, y ∈ l → y < x ∧ val arr y < val arr x.
Proof.
  unfold increasing. rewrite fmap_app, !StronglySorted_app, Forall_app, Forall_singleton.
  simpl. split.
  - intros ((H1 & H2 & _) & (H3 & H4) & (H5 & H6 & _)).
    split; [done|]. split; [done|]. intros y Hy. split.
    + apply H1; [done|]. by apply list_elem_of_singleton.
    + apply H5; [|by apply list_elem_of_singleton]. by apply list_elem_of_fmap_2.
  - intros ((H1 & H2 & H3) & H4 & H5).
    split_and!; try done; try (by repeat constructor); try lia.
    + intros x1 x2 Hx1 ->%list_elem_of_singleton. by apply H5.
    + intros x1 x2 (y & -> & Hy)%list_elem_of_fmap ->%list_elem_of_singleton. by apply H5.
Qed.

Lemma increasing_nil : increasing arr [].
Proof. repeat split; constructor. Qed.

Lemma increasing_valid l : increasing arr l → valid l.
Proof. by intros (_ & ? & _). Qed.

(** The last entry of an increasing list bounds the others. *)
Lemma increasing_last_max l e y :
  increasing arr l → last l = Some e → y ∈ l → y ≤ e ∧ val arr y ≤ val arr e.
Proof.
  intros Hinc [l' ->]%last_Some Hy. apply increasing_snoc in Hinc as (_ & _ & H).
  apply elem_of_app in Hy as [Hy| ->%list_elem_of_singleton]; [|lia].
  specialize (H y Hy). lia.
Qed.

Lemma chain_below p l r (i : nat) : chain p l r → r < Z.of_nat i → below i l.
Proof.
  intros (Hlast & _ & Hinc & _) Hr. apply Forall_forall. intros y Hy.
  destruct (increasing_last_max l r y Hinc Hlast Hy). simpl. lia.
Qed.

(** Writing [p[i]] leaves the links of entries below [i] as they are. *)
Lemma linked_insert p l (i : nat) x : linked p l → below i l → linked (<[i := x]> p) l.
Proof.
  induction 1 as [y|l y z Hl IH Hz]; intros Hb; [constructor|].
  apply Forall_app in Hb as [Hb Hbz]. rewrite Forall_singleton in Hbz.
  constructor; [by apply IH|]. rewrite num_at_insert_ne by lia. done.
Qed.

Lemma chain_insert p l r (i : nat) x :
  chain p l r → r < Z.of_nat i → chain (<[i := x]> p) l r.
Proof.
  intros Hc Hr. pose proof (chain_below _ _ _ _ Hc Hr) as Hb.
  destruct Hc as (? & ? & ? & ?).
  split; [done|]. split; [by apply linked_insert|]. done.
Qed.

(** Extending the chain of [y] by [x], the new entry at index [x]. *)
Lemma chain_extend p l y x :
  chain p l y → num_at p x = Some y → 0 ≤ x < Z.of_nat (length arr) →
  y < x → val arr y < val arr x → val arr x ≠ 0 → chain p (l ++ [x]) x.
Proof.
  intros (Hlast & Hl & Hinc & Hs) Hp Hx Hyx Hv Hnz. split_and!.
  - apply last_snoc.
  - apply last_Some in Hlast as [l' ->]. by constructor.
  - apply increasing_snoc. split; [done|]. split; [done|]. intros z Hz.
    destruct (increasing_last_max l y z Hinc Hlast Hz). lia.
  - apply Forall_app. split; [done|]. apply Forall_singleton. by right.
Qed.

Lemma val_of_nat (i : nat) x : arr !! i = Some x → val arr (Z.of_nat i) = x.
Proof. intros H. unfold val. by rewrite num_at_of_nat, H. Qed.

Lemma below_S i l : below i l → below (S i) l.
Proof. intros H. eapply Forall_impl; [exact H|]. simpl. intros; lia. Qed.

(** A candidate over the indices up to [i] that does not end at [i] is a
    candidate over the indices below [i]. *)
Lemma below_not_last (i : nat) l e :
  increasing arr l → below (S i) l → last l = Some e → e ≠ Z.of_nat i → below i l.
Proof.
  intros Hinc Hb Hlast He. apply Forall_forall. intros y Hy.
  destruct (increasing_last_max l e y Hinc Hlast Hy) as [Hle _].
  assert (e < Z.of_nat (S i)).
  { unfold below in Hb. rewrite Forall_forall in Hb. apply Hb. apply last_Some in Hlast as [l' ->].
    apply elem_of_app. right. by apply list_elem_of_singleton. }
  simpl. lia.
Qed.

(** What a turn of the loop has to establish for the invariant to go on. *)
Lemma Inv_step (i : nat) p result p' result' :
  Inv i p result →
  length p' = length arr → result' ≠ [] → valid result' → below (S i) result' →
  (∀ (s t : nat) a b, (s < t)%nat →
     result' !! s = Some a → result' !! t = Some b → val arr a < val arr b) →
  (∀ (t : nat) r, result' !! t = Some r → ∃ l, length l = S t ∧ chain p' l r) →
  (∀ (t : nat) r, result !! t = Some r →
     ∃ r', result' !! t = Some r' ∧ val arr r' ≤ val arr r) →
  (val arr (Z.of_nat i) ≠ 0 → ∀ (t : nat),
     (t = O ∨ ∃ r0, result !! (t - 1)%nat = Some r0 ∧ val arr r0 < val arr (Z.of_nat i)) →
     ∃ r', result' !! t = Some r' ∧ val arr r' ≤ val arr (Z.of_nat i)) →
  (1 ≤ i)%nat →
  Inv (S i) p' result'.
Proof.
  intros HI Hlen Hne Hvalid Hbelow Hsorted Hchain Hold Hnew Hi.
  split; try done.
  intros l e Hinc Hseed Hb Hlast.
  destruct (decide (e = Z.of_nat i)) as [->|Hei].
  - apply last_Some in Hlast as [l0 ->].
    apply increasing_snoc in Hinc as (Hinc0 & _ & Hlt).
    apply Forall_app in Hseed as [Hseed0 Hseedi]. rewrite Forall_singleton in Hseedi.
    destruct Hseedi as [?|Hnz]; [lia|].
    rewrite length_app, Nat.add_sub. apply (Hnew Hnz).
    destruct (last l0) as [e0|] eqn:Hlast0; last first.
    { apply last_None in Hlast0 as ->. by left. }
    right. assert (e0 ∈ l0) as He0.
    { apply last_Some in Hlast0 as [l' ->]. apply elem_of_app. right.
      by apply list_elem_of_singleton. }
    destruct (Hlt e0 He0) as [Hlt1 Hlt2].
    destruct (inv_best _ _ _ HI l0 e0) as (r0 & Hr0 & Hle); try done.
    { apply Forall_forall. intros y Hy. destruct (Hlt y Hy). simpl. lia. }
    exists r0. split; [done|lia].
  - pose proof (below_not_last i l e Hinc Hb Hlast Hei) as Hb'.
    destruct (inv_best _ _ _ HI l e) as (r & Hr & Hle); try done.
    destruct (Hold _ _ Hr) as (r' & Hr' & Hle'). exists r'. split; [done|lia].
Qed.

Lemma Inv_last i p result : Inv i p result →
  ∃ j, last result = Some j ∧ result !! (length result - 1)%nat = Some j ∧
       (1 ≤ length result)%nat.
Proof.
  intros HI. destruct (last result) as [j|] eqn:Hlast.
  - exists j. split; [done|]. rewrite last_lookup in Hlast.
    pose proof (lookup_lt_Some _ _ _ Hlast).
    replace (length result - 1)%nat with (Init.Nat.pred (length result)) by lia.
    split; [done|lia].
  - apply last_None in Hlast. by destruct (inv_ne _ _ _ HI).
Qed.

(** Every entry of [result] is at most the last one in value. *)
Lemma Inv_le_last i p result j (s : nat) a : Inv i p result →
  last result = Some j → result !! s = Some a → val arr a ≤ val arr j.
Proof.
  intros HI Hlast Hs. rewrite last_lookup in Hlast.
  pose proof (lookup_lt_Some _ _ _ Hs).
  destruct (decide (s = Init.Nat.pred (length result))) as [->|].
  - assert (a = j) as -> by congruence. lia.
  - assert (val arr a < val arr j); [|lia].
    apply (inv_sorted _ _ _ HI s (Init.Nat.pred (length result))); [lia|done..].
Qed.

Lemma Inv_skip i p result :
  Inv i p result → (1 ≤ i)%nat → arr !! i = Some 0 → Inv (S i) p result.
Proof.
  intros HI Hi Harr. apply (Inv_step i p result); try apply HI; try done.
  - apply below_S, HI.
  - intros t r Hr. exists r. split; [done|lia].
  - rewrite (val_of_nat i 0 Harr). done.
Qed.

Lemma Inv_push i p result arrI j :
  Inv i p result → (1 ≤ i)%nat → arr !! i = Some arrI → arrI ≠ 0 →
  last result = Some j → val arr j < arrI →
  Inv (S i) (<[i := j]> p) (result ++ [Z.of_nat i]).
Proof.
  intros HI Hi Harr Hnz Hlast Hlt.
  pose proof (val_of_nat i arrI Harr) as Hval.
  pose proof (lookup_lt_Some _ _ _ Harr) as Hilen.
  pose proof (inv_below _ _ _ HI) as Hbelow. unfold below in Hbelow.
  rewrite Forall_lookup in Hbelow.
  apply (Inv_step i p result); try done.
  - rewrite length_insert. apply HI.
  - by destruct result.
  - apply Forall_app. split; [apply HI|]. apply Forall_singleton. lia.
  - apply Forall_app. split; [apply below_S, HI|]. apply Forall_singleton. lia.
  - intros s t a b Hst Ha Hb.
    apply lookup_snoc_Some in Hb as [[Ht Hb]|[-> <-]].
    + rewrite lookup_app_l in Ha by lia. by apply (inv_sorted _ _ _ HI s t).
    + rewrite lookup_app_l in Ha by lia. rewrite Hval.
      pose proof (Inv_le_last _ _ _ _ _ _ HI Hlast Ha). lia.
  - intros t r Hr. apply lookup_snoc_Some in Hr as [[Ht Hr]|[-> <-]].
    + destruct (inv_chain _ _ _ HI t r Hr) as (l & Hl & Hc). exists l. split; [done|].
      apply chain_insert; [done|]. by apply (Hbelow t).
    + destruct (Inv_last _ _ _ HI) as (j' & Hlast' & Hj & Hk).
      assert (j' = j) as -> by congruence.
      destruct (inv_chain _ _ _ HI _ j Hj) as (l & Hl & Hc).
      exists (l ++ [Z.of_nat i]). split; [rewrite length_app; simpl; lia|].
      specialize (Hbelow _ _ Hj). simpl in Hbelow.
      apply (chain_extend _ _ j); try lia.
      * by apply chain_insert.
      * rewrite num_at_of_nat. apply list_lookup_insert_eq.
        rewrite (inv_len _ _ _ HI). done.
  - intros t r Hr. exists r. rewrite lookup_app_l by (by eapply lookup_lt_Some).
    split; [done|lia].
  - intros _ t Ht. rewrite Hval.
    destruct (decide (t < length result)%nat) as [Hlt'|Hge].
    + destruct (lookup_lt_is_Some_2 result t Hlt') as [r Hr]. exists r.
      rewrite lookup_app_l by done. split; [done|].
      pose proof (Inv_le_last _ _ _ _ _ _ HI Hlast Hr). lia.
    + assert (t = length result) as ->.
      { destruct Ht as [->|(r0 & Hr0 & _)]; [lia|].
        apply lookup_lt_Some in Hr0. lia. }
      exists (Z.of_nat i). rewrite lookup_app_r, Nat.sub_diag by lia. simpl.
      split; [done|lia].
Qed.

(** A candidate whose last value is below [arrI] is no longer than the
    position [u] that the binary search returns. *)
Lemma position_le i p result arrI (u t : nat) ru :
  Inv i p result →
  result !! u = Some ru → arrI ≤ val arr ru →
  (t = O ∨ ∃ r0, result !! (t - 1)%nat = Some r0 ∧ val arr r0 < arrI) →
  (t ≤ u)%nat.
Proof.
  intros HI Hu Hge [->|(r0 & Hr0 & Hlt)]; [lia|].
  destruct (decide (t ≤ u)%nat) as [|Hn]; [done|exfalso].
  destruct (decide (t - 1 = u)%nat) as [Heq|Hne].
  - rewrite Heq in Hr0. assert (r0 = ru) as -> by congruence. lia.
  - assert (val arr ru < val arr r0); [|lia].
    apply (inv_sorted _ _ _ HI u (t - 1)%nat); [lia|done..].
Qed.

Lemma Inv_keep i p result arrI (u : nat) ru :
  Inv i p result → (1 ≤ i)%nat → arr !! i = Some arrI →
  result !! u = Some ru → val arr ru = arrI →
  (∀ (t : nat) r, (t < u)%nat → result !! t = Some r → val arr r < arrI) →
  Inv (S i) p result.
Proof.
  intros HI Hi Harr Hu Hru Hbefore.
  pose proof (val_of_nat i arrI Harr) as Hval.
  apply (Inv_step i p result); try apply HI; try done.
  - apply below_S, HI.
  - intros t r Hr. exists r. split; [done|lia].
  - intros _ t Ht. rewrite Hval in Ht |- *.
    assert (t ≤ u)%nat as Htu
      by (apply (position_le i p result arrI u t ru HI Hu); [lia|done]).
    destruct (decide (t = u)) as [->|].
    + exists ru. split; [done|lia].
    + destruct (lookup_lt_is_Some_2 result t) as [r Hr].
      { apply lookup_lt_Some in Hu. lia. }
      exists r. split; [done|]. assert (val arr r < arrI); [|lia].
      apply (Hbefore t); [lia|done].
Qed.

Lemma Inv_replace i p result arrI (u : nat) ru p' :
  Inv i p result → (1 ≤ i)%nat → arr !! i = Some arrI → arrI ≠ 0 →
  result !! u = Some ru → arrI < val arr ru →
  (∀ (t : nat) r, (t < u)%nat → result !! t = Some r → val arr r < arrI) →
  (if (0 <? u)%nat then x ← result !! (u - 1)%nat; Some (<[i := x]> p) else Some p)
    = Some p' →
  Inv (S i) p' (<[u := Z.of_nat i]> result).
Proof.
  intros HI Hi Harr Hnz Hu Hru Hbefore Hp'.
  pose proof (val_of_nat i arrI Harr) as Hval.
  pose proof (lookup_lt_Some _ _ _ Harr) as Hilen.
  pose proof (lookup_lt_Some _ _ _ Hu) as Hulen.
  pose proof (inv_below _ _ _ HI) as Hbelow. unfold below in Hbelow.
  rewrite Forall_lookup in Hbelow.
  assert (∀ l r, chain p l r → r < Z.of_nat i → chain p' l r) as Hframe.
  { intros l r Hc Hr. destruct (0 <? u)%nat; [|by injection Hp' as <-].
    destruct (result !! (u - 1)%nat); [|done]. injection Hp' as <-.
    by apply chain_insert. }
  apply (Inv_step i p result); try done.
  - destruct (0 <? u)%nat; [|injection Hp' as <-; apply HI].
    destruct (result !! (u - 1)%nat); [|done]. injection Hp' as <-.
    rewrite length_insert. apply HI.
  - intros Hnil. apply (f_equal length) in Hnil. rewrite length_insert in Hnil.
    simpl in Hnil. lia.
  - apply Forall_insert; [apply HI|lia].
  - apply Forall_insert; [apply below_S, HI|lia].
  - intros s t a b Hst Ha Hb.
    apply list_lookup_insert_Some in Ha as [(Hs & <- & _)|[Hsu Ha]];
      apply list_lookup_insert_Some in Hb as [(Ht & <- & _)|[Htu Hb]];
      try lia; rewrite ?Hval.
    + assert (val arr ru < val arr b); [|lia].
      apply (inv_sorted _ _ _ HI u t); [lia|done..].
    + apply (Hbefore s); [lia|done].
    + by apply (inv_sorted _ _ _ HI s t).
  - intros t r Hr. apply list_lookup_insert_Some in Hr as [(<- & <- & _)|[Htu Hr]].
    + destruct (Nat.ltb_spec 0 u) as [Hpos|Hz].
      * destruct (result !! (u - 1)%nat) as [x|] eqn:Hx; [|done].
        simpl in Hp'. injection Hp' as <-.
        destruct (inv_chain _ _ _ HI _ x Hx) as (l & Hl & Hc).
        exists (l ++ [Z.of_nat i]). split; [rewrite length_app; simpl; lia|].
        pose proof (Hbelow _ _ Hx) as Hxi. simpl in Hxi.
        apply (chain_extend _ _ x); try lia.
        -- by apply chain_insert.
        -- rewrite num_at_of_nat. apply list_lookup_insert_eq.
           rewrite (inv_len _ _ _ HI). done.
        -- rewrite Hval. apply (Hbefore (u - 1)%nat); [lia|done].
      * assert (u = O) as -> by lia. exists [Z.of_nat i]. split; [done|].
        split_and!; [done|constructor| |].
        -- apply (increasing_snoc []). split; [apply increasing_nil|].
           split; [lia|]. intros y Hy. by apply elem_of_nil in Hy.
        -- apply Forall_singleton. right. lia.
    + destruct (inv_chain _ _ _ HI t r Hr) as (l & Hl & Hc). exists l. split; [done|].
      apply Hframe; [done|]. by apply (Hbelow t).
  - intros t r Hr. destruct (decide (t = u)) as [->|Hne].
    + exists (Z.of_nat i). rewrite list_lookup_insert_eq by done.
      split; [done|]. assert (r = ru) as -> by congruence. lia.
    + exists r. rewrite list_lookup_insert_ne by done. split; [done|lia].
  - intros _ t Ht. rewrite Hval in Ht |- *.
    assert (t ≤ u)%nat as Htu
      by (apply (position_le i p result arrI u t ru HI Hu); [lia|done]).
    destruct (decide (t = u)) as [->|].
    + exists (Z.of_nat i). rewrite list_lookup_insert_eq by done. split; [done|lia].
    + destruct (lookup_lt_is_Some_2 result t) as [r Hr]; [lia|].
      exists r. rewrite list_lookup_insert_ne by done. split; [done|].
      assert (val arr r < arrI); [|lia]. apply (Hbefore t); [lia|done].
Qed.

Lemma step_Inv i p result arrI :
  Inv i p result → (1 ≤ i)%nat → arr !! i = Some arrI →
  ∃ p' result', step arr i arrI (p, result) = Some (p', result') ∧
                Inv (S i) p' result'.
Proof.
  intros HI Hi Harr. unfold step.
  destruct (decide (arrI ≠ 0)) as [Hnz|Hz]; last first.
  { assert (arrI = 0) as -> by lia. eexists _, _. split; [done|]. by apply Inv_skip. }
  destruct (Inv_last _ _ _ HI) as (j & Hlast & Hj & Hk).
  pose proof (inv_valid _ _ _ HI) as Hvalid.
  rewrite Hlast. change (Some j ≫= num_at arr) with (num_at arr j).
  rewrite (num_at_val arr j), js_lt_Some
    by (unfold valid in Hvalid; rewrite Forall_lookup in Hvalid; eauto).
  case_bool_decide as Hcmp.
  { simpl. eexists _, _. split; [done|]. by apply (Inv_push i p result arrI j). }
  destruct (bsearch_spec arr result arrI Hvalid (inv_sorted _ _ _ HI)
              (length result - 1) O (length result - 1) j)
    as (u & ru & Hbs & Hu & Hru & Hge & Hbefore); try done; try lia.
  rewrite Hbs, (result_val arr result Hvalid u ru Hru), js_lt_Some.
  case_bool_decide as Hcmp'; last first.
  { eexists _, _. split; [done|]. apply (Inv_keep i p result arrI u ru); try done. lia. }
  destruct (if (0 <? u)%nat then _ else _) as [p'|] eqn:Hp'.
  - simpl. eexists _, _. split; [done|]. by apply (Inv_replace i p result arrI u ru).
  - exfalso. destruct (Nat.ltb_spec 0 u); [|done].
    destruct (lookup_lt_is_Some_2 result (u - 1)) as [x Hx]; [lia|].
    by rewrite Hx in Hp'.
Qed.

Lemma loop_Inv rest : ∀ i p result,
  Inv i p result → (1 ≤ i)%nat → drop i arr = rest →
  ∃ p' result', loop arr i rest (p, result) = Some (p', result') ∧
                Inv (length arr) p' result'.
Proof.
  induction rest as [|arrI rest IH]; intros i p result HI Hi Hdrop.
  - simpl. exists p, result. split; [done|].
    apply drop_nil_inv in Hdrop.
    assert (below (length arr) result) as Hb.
    { pose proof (inv_valid _ _ _ HI) as Hv. eapply Forall_impl; [exact Hv|].
      simpl. intros; lia. }
    destruct HI as [H1 H2 H3 H4 H5 H6 H7]. split; try done.
    intros l e Hinc Hseed Hbl Hlast. apply H7; try done.
    eapply Forall_impl; [exact Hbl|]. simpl. intros; lia.
  - assert (arr !! i = Some arrI) as Harr.
    { rewrite <-(Nat.add_0_r i), <-lookup_drop, Hdrop. done. }
    destruct (step_Inv i p result arrI HI Hi Harr) as (p1 & result1 & Hstep & HI1).
    cbn [loop]. rewrite Hstep. cbn [mbind option_bind]. apply IH; [done|lia|].
    rewrite (drop_S _ _ _ Harr) in Hdrop. by injection Hdrop.
Qed.

Lemma step_first a0 arr' :
  step (a0 :: arr') 0 a0 (a0 :: arr', [0]) = Some (a0 :: arr', [0]).
Proof.
  unfold step. destruct (decide (a0 ≠ 0)); [|done].
  assert (∀ c : nat, c = O → [0] !! c ≫= num_at (a0 :: arr') = Some a0) as Hread
    by (by intros c ->).
  change (last [0]) with ([0] !! O). rewrite (Hread O), js_lt_Some by done.
  rewrite bool_decide_eq_false_2 by lia.
  change (bsearch _ _ _ _ _ _) with O.
  rewrite (Hread O), js_lt_Some by done.
  by rewrite bool_decide_eq_false_2 by lia.
Qed.

Lemma Inv_first : arr ≠ [] → Inv 1 arr [0].
Proof.
  intros Hne. assert (0 < length arr)%nat by (destruct arr; [done|simpl; lia]).
  split; try done.
  - apply Forall_singleton. lia.
  - by apply Forall_singleton.
  - intros s t a b Hst Ha Hb. apply lookup_lt_Some in Hb. simpl in Hb. lia.
  - intros t r Hr. apply list_lookup_singleton_Some in Hr as [-> <-].
    exists [0]. split; [done|]. split_and!; [done|constructor| |].
    + apply (increasing_snoc []). split; [apply increasing_nil|].
      split; [lia|]. intros y Hy. by apply elem_of_nil in Hy.
    + apply Forall_singleton. by left.
  - intros l e Hinc Hseed Hb Hlast. apply last_Some in Hlast as [l' ->].
    unfold below in Hb. apply Forall_app in Hb as [Hb' Hbe].
    rewrite Forall_singleton in Hbe.
    apply increasing_snoc in Hinc as (Hinc' & He & Hlt).
    assert (e = 0) as -> by lia.
    destruct l' as [|y l'].
    + simpl. exists 0. split; [done|lia].
    + exfalso. destruct (Hlt y) as [Hy _]; [by left|].
      apply increasing_valid in Hinc'. unfold valid in Hinc'.
      apply Forall_cons in Hinc' as [Hy' _]. lia.
Qed.

(** *** The back-tracking pass *)

Lemma backtrack_linked p l : linked p l → ∀ x result,
  last l = Some x → (length l ≤ length result)%nat →
  backtrack p (length l) (Some x) result = Some (l ++ drop (length l) result).
Proof.
  induction 1 as [y|l y z Hl IH Hz]; intros x result Hlast Hlen.
  - simpl in Hlast. injection Hlast as ->. simpl.
    destruct result as [|r0 result]; [simpl in Hlen; lia|]. simpl. by rewrite drop_0.
  - rewrite last_snoc in Hlast. injection Hlast as ->.
    rewrite length_app in Hlen |- *. simpl in Hlen |- *.
    rewrite Nat.add_1_r. simpl. rewrite Hz.
    rewrite (IH y) by (rewrite ?last_snoc, ?length_insert; done || lia).
    f_equal.
    destruct (lookup_lt_is_Some_2 result (length (l ++ [y]))) as [r Hr]; [lia|].
    rewrite drop_insert_ge, Nat.sub_diag by lia.
    rewrite (drop_S _ _ _ Hr). simpl.
    by rewrite <-(assoc (++) (l ++ [y]) [x]).
Qed.

End invariant.

(** *** [getSequence] returns a longest increasing subsequence *)

(** Over index 0 and the nonzero entries: [getSequence] returns, for every
    array that is not empty, a longest list of such indices with strictly
    increasing positions and values. *)
Lemma getSequence_seeded arr : arr ≠ [] →
  ∃ r, getSequence arr = Some r ∧ increasing arr r ∧ seeded arr r ∧
    ∀ l, increasing arr l → seeded arr l → (length l ≤ length r)%nat.
Proof.
  intros Hne. unfold getSequence.
  destruct arr as [|a0 arr'] eqn:Harr; [done|]. rewrite <-Harr in *.
  assert (loop arr 0 arr (arr, [0]) = loop arr 1 arr' (arr, [0])) as ->.
  { rewrite Harr at 2. cbn [loop]. rewrite Harr. by rewrite step_first. }
  destruct (loop_Inv arr arr' 1 arr [0]) as (p & result & -> & HI).
  { by apply Inv_first. } { lia. } { by rewrite Harr. }
  simpl. destruct (Inv_last _ _ _ _ HI) as (j & Hlast & Hj & Hk).
  destruct (inv_chain _ _ _ _ HI _ j Hj) as (l & Hl & Hlast' & Hlinked & Hinc & Hseed).
  replace (length result) with (length l) by lia.
  rewrite Hlast, (backtrack_linked p l Hlinked j result) by (done || lia).
  rewrite drop_ge, app_nil_r by lia.
  exists l. split; [done|]. split; [done|]. split; [done|].
  intros l' Hinc' Hseed'. destruct (last l') as [e|] eqn:He; last first.
  { apply last_None in He as ->. simpl. lia. }
  destruct (inv_best _ _ _ _ HI l' e) as (r & Hr & _); try done.
  { eapply Forall_impl; [exact (increasing_valid _ _ Hinc')|]. simpl. intros; lia. }
  apply lookup_lt_Some in Hr. lia.
Qed.

(** *** The move loop *)

Section moveLoop.
Context (s2 l2 : nat) (arr seq : list Z).
Hypothesis seq_sorted : StronglySorted Z.lt seq.
Hypothesis seq_seeded : seeded arr seq.

(** The pointer [j] splits [seq]: the positions up to [j] hold the entries
    below [n], which the loop has yet to meet. *)
Definition pointer (n : nat) (j : Z) : Prop :=
  -1 ≤ j < Z.of_nat (length seq) ∧
  ∀ (t : nat) x, seq !! t = Some x → Z.of_nat t ≤ j ↔ x < Z.of_nat n.

Lemma moveLoop_spec n : ∀ j, pointer n j →
  moveLoop true s2 l2 arr seq n j = moveSpec s2 l2 arr seq n.
Proof.
  pose proof (proj1 (StronglySorted_lookup _ _) seq_sorted) as Hsorted.
  induction n as [|i IH]; intros j [Hj Hp]; [done|].
  cbn [moveLoop moveSpec].
  destruct (decide (arr !! i = Some 0)) as [Hzero|Hnz].
  - simpl. f_equal. destruct i as [|i]; [done|]. apply IH. split; [done|].
    intros t x Hx. rewrite (Hp t x Hx).
    assert (x ≠ Z.of_nat (S i)); [|lia]. intros ->.
    unfold seeded in seq_seeded. rewrite Forall_lookup in seq_seeded.
    destruct (seq_seeded t _ Hx) as [?|Hv]; [lia|].
    apply Hv. unfold val. by rewrite num_at_of_nat, Hzero.
  - destruct (decide (j < 0 ∨ num_at seq j ≠ Some (Z.of_nat i))) as [Hmove|Hstay].
    + assert (Z.of_nat i ∉ seq) as Hnotin.
      { intros (t & Ht)%list_elem_of_lookup.
        assert (Z.of_nat t ≤ j) as Htj by (apply (Hp t _ Ht); lia).
        destruct Hmove as [?|Hne]; [lia|]. rewrite <-(Z2Nat.id j) in Hne by lia.
        rewrite num_at_of_nat in Hne.
        destruct (lookup_lt_is_Some_2 seq (Z.to_nat j)) as [y Hy]; [lia|].
        assert (y < Z.of_nat (S i)) by (apply (Hp _ _ Hy); lia).
        destruct (decide (t = Z.to_nat j)) as [->|]; [congruence|].
        assert (Z.of_nat i < y); [|lia].
        apply (Hsorted t (Z.to_nat j)); [lia|done..]. }
      rewrite decide_False by done. simpl. f_equal. apply IH. split; [done|].
      intros t x Hx. rewrite (Hp t x Hx).
      assert (x ≠ Z.of_nat i); [|lia]. intros ->. apply Hnotin.
      by eapply list_elem_of_lookup_2.
    + assert (0 ≤ j ∧ num_at seq j = Some (Z.of_nat i)) as [Hj0 Hji].
      { split; [lia|]. destruct (decide (num_at seq j = Some (Z.of_nat i))); [done|].
        destruct Hstay. by right. }
      rewrite <-(Z2Nat.id j) in Hji by lia. rewrite num_at_of_nat in Hji.
      rewrite decide_True by (by eapply list_elem_of_lookup_2). simpl.
      apply IH. split; [lia|]. intros t x Hx. split.
      * intros Ht. apply (Hsorted t (Z.to_nat j)); [lia|done..].
      * intros Hxi. assert (Z.of_nat t ≤ j) by (apply (Hp t x Hx); lia).
        destruct (decide (t = Z.to_nat j)) as [->|]; [|lia].
        assert (x = Z.of_nat i) by congruence. lia.
Qed.

End moveLoop.

(** With another list of the same mapped positions the move loop is to do
    the same: positions mapped to [0] are mounted whatever the list holds. *)
Lemma moveSpec_ext s2 l2 arr seq seq' n :
  (∀ i : nat, arr !! i ≠ Some 0 → Z.of_nat i ∈ seq ↔ Z.of_nat i ∈ seq') →
  moveSpec s2 l2 arr seq n = moveSpec s2 l2 arr seq' n.
Proof.
  intros Hext. induction n as [|i IH]; [done|]. cbn [moveSpec]. rewrite IH.
  destruct (decide (arr !! i = Some 0)); [done|].
  destruct (decide (Z.of_nat i ∈ seq)) as [Hin|Hout].
  - by rewrite decide_True by (by apply Hext).
  - rewrite decide_False; [done|]. intros Hin. by apply Hout, Hext.
Qed.

Lemma moveAndMount_spec s2 l2 arr r :
  getSequence arr = Some r → increasing arr r → seeded arr r →
  moveAndMount true s2 l2 arr = Some (moveSpec s2 l2 arr r (length arr)).
Proof.
  intros Hr (Hsorted & Hvalid & _) Hseed. unfold moveAndMount. rewrite Hr. simpl.
  f_equal. apply moveLoop_spec; [done..|]. split; [lia|].
  intros t x Hx. rewrite Forall_lookup in Hvalid.
  specialize (Hvalid t x Hx). simpl in Hvalid. apply lookup_lt_Some in Hx. lia.
Qed.

(** *** Nonzero entries *)

Lemma val_nonneg arr x : Forall (λ a, 0 ≤ a) arr → 0 ≤ val arr x.
Proof.
  intros Hall. unfold val. destruct (num_at arr x) as [a|] eqn:Ha; [|done].
  unfold num_at in Ha. destruct (decide (0 ≤ x)); [|done].
  rewrite Forall_lookup in Hall. by apply (Hall _ _ Ha).
Qed.

Lemma increasing_cons arr x l :
  increasing arr (x :: l) ↔
  0 ≤ x < Z.of_nat (length arr) ∧ increasing arr l ∧
  ∀ y, y ∈ l → x < y ∧ val arr x < val arr y.
Proof.
  unfold increasing. rewrite fmap_cons, !StronglySorted_cons, Forall_cons.
  rewrite !Forall_forall. split.
  - intros ((H2 & H1) & (H3 & H4) & (H6 & H5)). split_and!; try done; try lia.
    intros y Hy. split; [by apply H2|]. apply H6. by apply list_elem_of_fmap_2.
  - intros (H1 & (H2 & H3 & H4) & H5). split_and!; try done; try lia.
    all: try (intros y Hy; by apply H5).
    intros v (y & -> & Hy)%list_elem_of_fmap. by apply H5.
Qed.

Lemma seeded_nonzero arr l : val arr 0 ≠ 0 → seeded arr l → nonzero arr l.
Proof.
  intros H0 Hs. eapply Forall_impl; [exact Hs|]. simpl. intros x [->|?]; done.
Qed.

Lemma nonzero_seeded arr l : nonzero arr l → seeded arr l.
Proof. intros Hs. eapply Forall_impl; [exact Hs|]. simpl. by right. Qed.

(** When the first entry is nonzero, the result is a longest increasing
    subsequence of the nonzero entries. *)
Lemma getSequence_first_nonzero arr r :
  val arr 0 ≠ 0 → increasing arr r → seeded arr r →
  (∀ l, increasing arr l → seeded arr l → (length l ≤ length r)%nat) →
  lis_nonzero arr r.
Proof.
  intros H0 Hinc Hseed Hbest. split; [done|]. split; [by apply seeded_nonzero|].
  intros l Hl Hnz. apply Hbest; [done|]. by apply nonzero_seeded.
Qed.

(** When the first entry is [0], the result is index 0 followed by a longest
    increasing subsequence of the nonzero entries. *)
Lemma getSequence_first_zero arr r :
  Forall (λ a, 0 ≤ a) arr → arr ≠ [] → val arr 0 = 0 →
  increasing arr r → seeded arr r →
  (∀ l, increasing arr l → seeded arr l → (length l ≤ length r)%nat) →
  ∃ r', r = 0 :: r' ∧ lis_nonzero arr r'.
Proof.
  intros Hnn Hne H0 Hinc Hseed Hbest.
  assert (0 < Z.of_nat (length arr)) as Hlen by (destruct arr; [done|simpl; lia]).
  assert (∀ l, increasing arr l → nonzero arr l →
            increasing arr (0 :: l) ∧ seeded arr (0 :: l)) as Hcons.
  { intros l Hl Hnz. split.
    - apply increasing_cons. split; [lia|]. split; [done|]. intros y Hy.
      pose proof (increasing_valid _ _ Hl) as Hv. unfold valid in Hv.
      unfold nonzero in Hnz. rewrite Forall_forall in Hv, Hnz.
      specialize (Hv y Hy). specialize (Hnz y Hy). simpl in Hv.
      pose proof (val_nonneg arr y Hnn).
      assert (y ≠ 0) by (intros ->; done). lia.
    - apply Forall_cons. split; [by left|]. by apply nonzero_seeded. }
  assert (0 ∈ r) as Hin.
  { destruct (decide (0 ∈ r)) as [|Hout]; [done|exfalso].
    assert (nonzero arr r) as Hnz.
    { unfold seeded in Hseed. rewrite Forall_forall in Hseed. apply Forall_forall.
      intros y Hy. destruct (Hseed y Hy) as [->|]; done. }
    destruct (Hcons r Hinc Hnz) as [Hi Hs]. specialize (Hbest _ Hi Hs).
    simpl in Hbest. lia. }
  destruct r as [|x r']; [by apply elem_of_nil in Hin|].
  apply increasing_cons in Hinc as (Hx & Hinc' & Hlt).
  assert (x = 0) as ->.
  { apply elem_of_cons in Hin as [->|Hin]; [done|]. destruct (Hlt 0 Hin). lia. }
  exists r'. split; [done|]. split; [done|]. split.
  - apply Forall_cons in Hseed as [_ Hseed]. unfold seeded in Hseed.
    rewrite Forall_forall in Hseed. apply Forall_forall. intros y Hy.
    destruct (Hseed y Hy) as [->|]; [|done]. destruct (Hlt 0 Hy). lia.
  - intros l Hl Hnz. destruct (Hcons l Hl Hnz) as [Hi Hs].
    specialize (Hbest _ Hi Hs). simpl in Hbest. lia.
Qed.

(** ** C1 *)

(** C1, as amended. For every array of non-negative integers that is not
    empty, [getSequence] returns indices in strictly increasing order whose
    values increase strictly: a longest increasing subsequence of the
    nonzero entries when the first entry is nonzero, and index 0 followed by
    such a subsequence when the first entry is [0]. In the keyed diff with
    moves, mapped positions that belong to the sequence are left alone, the
    other mapped positions are moved and the positions mapped to [0] are
    mounted. *)
Theorem getSequence_lis (arr : list Z) (s2 l2 : nat) :
  arr ≠ [] → Forall (λ a, 0 ≤ a) arr →
  ∃ r, getSequence arr = Some r ∧ increasing arr r ∧
    (val arr 0 ≠ 0 → lis_nonzero arr r) ∧
    (val arr 0 = 0 → ∃ r', r = 0 :: r' ∧ lis_nonzero arr r') ∧
    moveAndMount true s2 l2 arr = Some (moveSpec s2 l2 arr r (length arr)).
Proof.
  intros Hne Hnn. destruct (getSequence_seeded arr Hne) as (r & Hr & Hinc & Hseed & Hbest).
  exists r. split_and!; try done.
  - intros H0. by apply getSequence_first_nonzero.
  - intros H0. by apply getSequence_first_zero.
  - by apply moveAndMount_spec.
Qed.

Lemma getSequence_lis_witness :
  ∃ r, getSequence [3; 4; 2] = Some r ∧ increasing [3; 4; 2] r ∧
    (val [3; 4; 2] 0 ≠ 0 → lis_nonzero [3; 4; 2] r) ∧
    (val [3; 4; 2] 0 = 0 → ∃ r', r = 0 :: r' ∧ lis_nonzero [3; 4; 2] r') ∧
    moveAndMount true 1 5 [3; 4; 2]
      = Some (moveSpec 1 5 [3; 4; 2] r (length [3; 4; 2])).
Proof.
  apply (getSequence_lis [3; 4; 2] 1 5); [done|].
  repeat (constructor; [lia|]). constructor.
Defined.

(** C1 as stated fails on [[0; 3; 2]], where the result [[0; 2]] holds
    index 0, whose entry is [0], and is longer than any increasing
    subsequence of the nonzero entries; and on the empty array, where the
    result [[0]] is not a list of indices of the array. *)
Lemma getSequence_lis_counterexample :
  (getSequence [0; 3; 2] = Some [0; 2] ∧ ¬ lis_nonzero [0; 3; 2] [0; 2]) ∧
  (getSequence [] = Some [0] ∧ ¬ lis_nonzero [] [0]).
Proof.
  split; (split; [reflexivity|]).
  - intros (_ & Hnz & _). apply Forall_cons in Hnz as [Hnz _]. by apply Hnz.
  - intros ((_ & Hv & _) & _). apply Forall_cons in Hv as [Hv _]. simpl in Hv. lia.
Qed.

(** ** C10 *)

(** C10. For an array of non-negative integers whose first entry is [0],
    the result of [getSequence] starts with index 0, whose entry is the zero
    entry; the rest of it is a longest increasing subsequence of the nonzero
    entries, and the move loop of the keyed diff does with this result what
    it is to do with that rest: position 0 is mounted before the sequence is
    looked at. *)
Theorem getSequence_seed_zero (arr : list Z) (s2 l2 : nat) :
  Forall (λ a, 0 ≤ a) arr → arr !! O = Some 0 →
  ∃ r', getSequence arr = Some (0 :: r') ∧ val arr 0 = 0 ∧ lis_nonzero arr r' ∧
    moveAndMount true s2 l2 arr = Some (moveSpec s2 l2 arr r' (length arr)).
Proof.
  intros Hnn H0. assert (arr ≠ []) as Hne by (by intros ->).
  assert (val arr 0 = 0) as Hv by (apply (val_of_nat arr O); done).
  destruct (getSequence_seeded arr Hne) as (r & Hr & Hinc & Hseed & Hbest).
  destruct (getSequence_first_zero arr r) as (r' & -> & Hlis); try done.
  exists r'. split_and!; try done.
  rewrite (moveAndMount_spec s2 l2 arr (0 :: r')) by done. f_equal.
  apply moveSpec_ext. intros i Hi. rewrite elem_of_cons.
  split; [|by right]. intros [Hi0|]; [|done].
  assert (i = O) as -> by lia. done.
Qed.

Lemma getSequence_seed_zero_witness :
  ∃ r', getSequence [0; 2; 3] = Some (0 :: r') ∧ val [0; 2; 3] 0 = 0 ∧
    lis_nonzero [0; 2; 3] r' ∧
    moveAndMount true 0 3 [0; 2; 3]
      = Some (moveSpec 0 3 [0; 2; 3] r' (length [0; 2; 3])).
Proof.
  apply (getSequence_seed_zero [0; 2; 3] 0 3); [|done].
  repeat (constructor; [lia|]). constructor.
Defined.

End RendererSpec.
Module SchedulerSpec.
Import Scheduler.

(** *** Sorting *)

Section sort.
Context {A : Type} (cmp : A → A → number).

(** [x] does not have to go behind [y]. *)
Definition notAfter (x y : A) : Prop := positive (cmp x y) = false.

Hypothesis notAfter_total : ∀ x y, notAfter x y ∨ notAfter y x.
Hypothesis notAfter_trans : ∀ x y z, notAfter x y → notAfter y z → notAfter x z.

Lemma sort_insert_perm x l : sort_insert cmp x l ≡ₚ x :: l.
Proof.
  induction l as [|y l IH]; simpl; [done|].
  destruct (positive (cmp y x)); [done|]. rewrite IH. apply Permutation_swap.
Qed.

Lemma sort_from_perm l : ∀ acc, foldl (λ acc x, sort_insert cmp x acc) acc l ≡ₚ acc ++ l.
Proof.
  induction l as [|x l IH]; intros acc; simpl.
  - by rewrite app_nil_r.
  - rewrite IH, sort_insert_perm. simpl. apply Permutation_middle.
Qed.

Lemma sort_perm l : sort cmp l ≡ₚ l.
Proof. unfold sort. by rewrite sort_from_perm. Qed.

Lemma sort_insert_sorted x l :
  StronglySorted notAfter l → StronglySorted notAfter (sort_insert cmp x l).
Proof.
  induction 1 as [|y l Hs IH Hall]; simpl; [repeat constructor|].
  destruct (positive (cmp y x)) eqn:Hyx.
  - assert (notAfter x y) as Hxy.
    { destruct (notAfter_total x y) as [|Hn]; [done|]. unfold notAfter in Hn. congruence. }
    constructor; [by constructor|]. constructor; [done|].
    eapply Forall_impl; [exact Hall|]. intros z Hz. by eapply notAfter_trans.
  - constructor; [done|]. rewrite sort_insert_perm. by constructor.
Qed.

Lemma sort_sorted l : StronglySorted notAfter (sort cmp l).
Proof.
  unfold sort. assert (StronglySorted notAfter []) as Hnil by constructor.
  revert Hnil. generalize (@nil A). induction l as [|x l IH]; intros acc Hacc; [done|].
  simpl. apply IH. by apply sort_insert_sorted.
Qed.

End sort.

Lemma filter_sorted {A} (R : relation A) (P : A → Prop) `{∀ x, Decision (P x)} l :
  StronglySorted R l → StronglySorted R (filter P l).
Proof.
  induction 1 as [|x l Hs IH Hall]; [constructor|].
  rewrite filter_cons. destruct (decide (P x)); [|done].
  constructor; [done|]. apply Forall_forall. intros y [_ Hy]%list_elem_of_filter.
  rewrite Forall_forall in Hall. by apply Hall.
Qed.

(** *** Counting *)








(** *** Queueing *)

Section queueing.
Context (jobs : job → SchedulerJob) (DEV : bool).

Lemma findLoop_ge fuel q jid : ∀ start end_,
  (start ≤ findLoop jobs fuel q jid start end_)%nat.
Proof.
  induction fuel as [|fuel IH]; intros start end_; cbn [findLoop]; [done|].
  destruct (Nat.ltb_spec start end_) as [Hlt|]; [|done].
  destruct (q !! _); [|done]. destruct (match getId jobs _ with Fin _ => _ | _ => _ end).
  - etrans; [|apply IH]. rewrite Nat.shiftr_div_pow2. change (2 ^ 1)%nat with 2%nat.
    assert (start ≤ (start + end_) `div` 2)%nat; [|lia].
    apply Nat.div_le_lower_bound; [done|lia].
  - apply IH.
Qed.

(** The same facts, whatever [queueFlush] does. *)
Lemma queueFlush_fields s :
  queue (queueFlush s) = queue s ∧ flushIndex (queueFlush s) = flushIndex s ∧
  ran (queueFlush s) = ran s ∧ isFlushing (queueFlush s) = isFlushing s ∧
  pendingPostFlushCbs (queueFlush s) = pendingPostFlushCbs s ∧
  activePostFlushCbs (queueFlush s) = activePostFlushCbs s ∧
  postFlushIndex (queueFlush s) = postFlushIndex s.
Proof. unfold queueFlush. by destruct (_ && _). Qed.

(** [queueJob] leaves the state alone or puts the job into the queue,
    behind the job that is running. *)
Lemma queueJob_cases k s :
  let s' := queueJob jobs k s in
  flushIndex s' = flushIndex s ∧ ran s' = ran s ∧ isFlushing s' = isFlushing s ∧
  pendingPostFlushCbs s' = pendingPostFlushCbs s ∧
  activePostFlushCbs s' = activePostFlushCbs s ∧
  postFlushIndex s' = postFlushIndex s ∧
  (queue s' = queue s ∨
   ∃ pos, (flushIndex s + 1 ≤ pos ∨ length (queue s) ≤ pos)%nat ∧
          queue s' = splice (queue s) pos k).
Proof.
  unfold queueJob. destruct (_ || _); [|by split_and!; try left].
  destruct (queueFlush_fields
    (match id (jobs k) with
     | None => set_queue (queue s ++ [k]) s
     | Some jid => set_queue (splice (queue s) (findInsertionIndex jobs jid s) k) s
     end)) as (-> & -> & -> & -> & -> & -> & ->).
  destruct (id (jobs k)) as [jid|]; simpl; split_and!; try done; right.
  - exists (findInsertionIndex jobs jid s). split; [|done]. left. apply findLoop_ge.
  - exists (length (queue s)). split; [by right|].
    unfold splice. by rewrite take_ge, drop_ge by done.
Qed.

Lemma queuePostFlushCb_fields k s :
  let s' := queuePostFlushCb jobs k s in
  queue s' = queue s ∧ flushIndex s' = flushIndex s ∧ ran s' = ran s ∧
  isFlushing s' = isFlushing s ∧ activePostFlushCbs s' = activePostFlushCbs s ∧
  postFlushIndex s' = postFlushIndex s.
Proof.
  unfold queuePostFlushCb.
  destruct (queueFlush_fields
    (if match activePostFlushCbs s with
        | None => true
        | Some acts => negb (includes acts k
            (if allowRecurse (jobs k) then (postFlushIndex s + 1)%nat else postFlushIndex s))
        end
     then set_pendingPostFlushCbs (pendingPostFlushCbs s ++ [k]) s else s))
    as (-> & -> & -> & -> & _ & -> & ->).
  by destruct (match activePostFlushCbs s with None => _ | Some _ => _ end).
Qed.

End queueing.

(** *** One job, queued and not queued again *)

Section dedupe.
Context (jobs : job → SchedulerJob) (DEV : bool) (j : job).
Hypothesis j_active : active (jobs j) = true.
Hypothesis j_not_requeued : ∀ k, QueueJob j ∉ body (jobs k).



Lemma jobsRan_log e s :
  jobsRan (log e s) = jobsRan s ++ match e with inl k => [k] | inr _ => [] end.
Proof. unfold jobsRan. simpl. rewrite omap_app. by destruct e. Qed.











End dedupe.

(** *** Before the flush *)

Lemma splice_perm q pos k : splice q pos k ≡ₚ k :: q.
Proof.
  unfold splice. rewrite <-Permutation_middle. by rewrite take_drop.
Qed.

Section idle.
Context (jobs : job → SchedulerJob) (DEV : bool).

(** No flush is running, and nothing but [queueJob] has been called. *)
Record idle (s : state) : Prop := {
  idle_flushing : isFlushing s = false;
  idle_index : flushIndex s = O;
  idle_ran : ran s = [];
  idle_pending : pendingPostFlushCbs s = [];
  idle_active : activePostFlushCbs s = None;
  idle_NoDup : NoDup (queue s)
}.

Lemma idle_initial : idle initial.
Proof. split; try done. constructor. Qed.

Lemma queueJob_idle k s : idle s →
  idle (queueJob jobs k s) ∧
  (∀ x, x ∈ queue (queueJob jobs k s) ↔ x = k ∨ x ∈ queue s) ∧
  (length (queue (queueJob jobs k s)) ≤ S (length (queue s)))%nat.
Proof.
  intros [Hfl Hfi Hran Hpend Hact Hnd].
  destruct (queueJob_cases jobs k s) as (Hfi' & Hran' & Hfl' & Hpend' & Hact' & _ & Hq).
  cbv zeta in *. unfold queueJob in *. rewrite Hfl in *. simpl in *. rewrite Hfi in *.
  unfold includes in *. rewrite drop_0 in *.
  destruct (bool_decide (length (queue s) = O) || negb (bool_decide (k ∈ queue s)))
    eqn:Hcond.
  - assert (k ∉ queue s) as Hk.
    { apply orb_true_iff in Hcond as [Hlen%bool_decide_eq_true|Hin].
      - destruct (queue s); [apply not_elem_of_nil|done].
      - apply negb_true_iff, bool_decide_eq_false in Hin. done. }
    destruct Hq as [Hq|(pos & _ & Hq)].
    + exfalso. destruct (id (jobs k)).
      * pose proof (queueFlush_fields
          (set_queue (splice (queue s) (findInsertionIndex jobs z s) k) s))
          as (Hq' & _). rewrite Hq' in Hq. simpl in Hq.
        apply (f_equal length) in Hq. rewrite (splice_perm _ _ _) in Hq.
        simpl in Hq. lia.
      * pose proof (queueFlush_fields (set_queue (queue s ++ [k]) s)) as (Hq' & _).
        rewrite Hq' in Hq. simpl in Hq.
        apply (f_equal length) in Hq. rewrite length_app in Hq. simpl in Hq. lia.
    + split_and!.
      * split; try congruence. rewrite Hq, splice_perm. by constructor.
      * intros x. rewrite Hq, splice_perm. apply elem_of_cons.
      * rewrite Hq, splice_perm. done.
  - assert (k ∈ queue s) as Hk.
    { apply orb_false_iff in Hcond as [_ Hin].
      apply negb_false_iff, bool_decide_eq_true in Hin. done. }
    split_and!; [by split| |lia].
    intros x. split; [by right|]. by intros [->|].
Qed.

Lemma queueJobs_idle js : ∀ s, idle s →
  idle (queueJobs jobs js s) ∧
  (∀ x, x ∈ queue (queueJobs jobs js s) ↔ x ∈ js ∨ x ∈ queue s) ∧
  (length (queue (queueJobs jobs js s)) ≤ length js + length (queue s))%nat.
Proof.
  unfold queueJobs. induction js as [|k js IH]; intros s Hs; simpl.
  - split_and!; [done| |done]. intros x. rewrite elem_of_nil. tauto.
  - destruct (queueJob_idle k s Hs) as (Hs' & Hin & Hlen).
    destruct (IH _ Hs') as (? & Hin' & Hlen'). split_and!; [done| |lia].
    intros x. rewrite Hin', Hin, elem_of_cons. tauto.
Qed.

(** *** A flush of jobs that queue nothing *)

(** The loop over a queue of such jobs, none of them called before, calls
    the active ones in queue order. *)
Lemma queueLoop_quiet n : ∀ fuel seen s,
  (length (queue s) - flushIndex s = n)%nat → (n ≤ fuel)%nat →
  NoDup (drop (flushIndex s) (queue s)) →
  (∀ k, k ∈ drop (flushIndex s) (queue s) → quiet jobs k ∧ seen !! k = None) →
  ∃ seen' s', queueLoop jobs DEV fuel seen s = Some (seen', s') ∧
    jobsRan s' = jobsRan s
      ++ filter (λ k, active (jobs k) = true) (drop (flushIndex s) (queue s)) ∧
    pendingPostFlushCbs s' = pendingPostFlushCbs s ∧
    activePostFlushCbs s' = activePostFlushCbs s.
Proof.
  induction n as [|n IH]; intros fuel seen s Hn Hfuel Hnd Hq.
  - exists seen, s. assert (queue s !! flushIndex s = None) as Hnone.
    { apply lookup_ge_None. lia. }
    destruct fuel; simpl; rewrite Hnone; rewrite drop_ge by lia;
      by rewrite filter_nil, app_nil_r.
  - destruct fuel as [|fuel]; [lia|].
    destruct (lookup_lt_is_Some_2 (queue s) (flushIndex s)) as [k Hk]; [lia|].
    pose proof (drop_S _ _ _ Hk) as Hdrop. rewrite Hdrop in Hnd, Hq |- *.
    apply NoDup_cons in Hnd as [Hknot Hnd].
    destruct (Hq k) as [Hquiet Hseen]; [by left|].
    assert (∀ s1 seen2, queue s1 = queue s → flushIndex s1 = S (flushIndex s) →
              pendingPostFlushCbs s1 = pendingPostFlushCbs s →
              activePostFlushCbs s1 = activePostFlushCbs s →
              (∀ k', k' ≠ k → seen2 !! k' = seen !! k') →
              ∃ seen' s', queueLoop jobs DEV fuel seen2 s1 = Some (seen', s') ∧
                jobsRan s' = jobsRan s1
                  ++ filter (λ k, active (jobs k) = true)
                       (drop (S (flushIndex s)) (queue s)) ∧
                pendingPostFlushCbs s' = pendingPostFlushCbs s ∧
                activePostFlushCbs s' = activePostFlushCbs s) as Hnext.
    { intros s1 seen2 Hq1 Hf1 Hp1 Ha1 Hseen2.
      destruct (IH fuel seen2 s1) as (seen' & s' & Hloop & Hr & Hp & Ha).
      { rewrite Hq1, Hf1. lia. } { lia. } { by rewrite Hq1, Hf1. }
      { rewrite Hq1, Hf1. intros k' Hk'. destruct (Hq k') as [? ?]; [by right|].
        split; [done|]. rewrite Hseen2; [done|]. by intros ->. }
      exists seen', s'. rewrite Hloop, Hr, Hp, Ha, Hq1, Hf1, Hp1, Ha1. done. }
    cbn [queueLoop]. rewrite Hk, filter_cons.
    destruct (active (jobs k)) eqn:Hact.
    + assert (call jobs (inl k) k s = log (inl k) s) as Hcall.
      { unfold call. unfold quiet in Hquiet. by rewrite Hquiet. }
      assert (∃ seen1, check DEV seen k = (seen1, false) ∧
                ∀ k', k' ≠ k → seen1 !! k' = seen !! k') as (seen1 & Hcheck & Hseen1).
      { unfold check, checkRecursiveUpdates. destruct DEV; [|by eexists].
        rewrite Hseen. eexists. split; [done|]. intros k' Hk'.
        by rewrite lookup_insert_ne. }
      rewrite Hcheck, Hcall, decide_True by done.
      destruct (Hnext (set_flushIndex (flushIndex (log (inl k) s) + 1) (log (inl k) s))
                  seen1) as (seen' & s' & Hloop & Hr & Hp & Ha); try done.
      { simpl. lia. }
      exists seen', s'. split; [done|]. rewrite Hr. split; [|done].
      change (jobsRan (set_flushIndex _ (log (inl k) s)))
        with (jobsRan (log (inl k) s)).
      rewrite (jobsRan_log (inl k)). by rewrite <-(assoc (++)).
    + rewrite decide_False by congruence.
      destruct (Hnext (set_flushIndex (flushIndex s + 1) s) seen)
        as (seen' & s' & Hloop & Hr & Hp & Ha); try done.
      { simpl. lia. }
      exists seen', s'. done.
Qed.

(** The flush of an idle state whose jobs queue nothing calls the active
    jobs in sorted order and stops. *)
Lemma flush_quiet fuel s :
  idle s → (length (queue s) ≤ fuel)%nat → (∀ k, k ∈ queue s → quiet jobs k) →
  ∃ s', flush jobs DEV (S fuel) s = Some s' ∧
    jobsRan s' = filter (λ k, active (jobs k) = true) (sort (comparator jobs) (queue s)).
Proof.
  intros [Hfl Hfi Hran Hpend Hact Hnd] Hfuel Hquiet.
  unfold flush. cbn [flushJobs].
  set (s1 := set_flushIndex 0 (set_queue _ _)).
  destruct (queueLoop_quiet (length (queue s1)) fuel ∅ s1)
    as (seen' & s' & Hloop & Hr & Hp & Ha).
  { simpl. lia. }
  { subst s1. simpl. by rewrite (sort_perm _ _). }
  { subst s1. simpl. by rewrite (sort_perm _ _). }
  { subst s1. simpl. intros k Hk. rewrite (sort_perm _ _) in Hk. split; [auto|done]. }
  rewrite Hloop. cbn [mbind option_bind].
  subst s1. simpl in Hp, Hr. rewrite Hpend in Hp.
  unfold flushPostFlushCbs. simpl. rewrite Hp. simpl. rewrite Hp. simpl.
  eexists. split; [done|].
  unfold jobsRan in *. simpl in *. rewrite Hr, Hran. done.
Qed.

End idle.

(** *** The order of [comparator] *)

Section order.
Context (jobs : job → SchedulerJob).

Lemma comparator_before a b :
  notAfter (comparator jobs) a b ↔ before jobs a b.
Proof.
  unfold notAfter, comparator, before, getId, minus.
  destruct (id (jobs a)) as [x|], (id (jobs b)) as [y|]; simpl; try done.
  destruct (x - y) as [|d|d] eqn:Hd.
  - assert (x = y) as -> by lia.
    destruct (pre (jobs a)), (pre (jobs b)); simpl; split; try done;
      try (intros _; right; done); intros [?|[_ Hp]]; try lia; by specialize (Hp eq_refl).
  - simpl. split; [done|]. intros [?|[? _]]; lia.
  - simpl. split; [|done]. intros _. left. lia.
Qed.

Lemma before_total a b : before jobs a b ∨ before jobs b a.
Proof.
  unfold before. destruct (id (jobs a)) as [x|], (id (jobs b)) as [y|]; try tauto.
  destruct (Z.lt_trichotomy x y) as [?|[->|?]]; try tauto.
  destruct (pre (jobs a)), (pre (jobs b)); tauto.
Qed.

Lemma before_trans a b c : before jobs a b → before jobs b c → before jobs a c.
Proof.
  unfold before.
  destruct (id (jobs a)) as [x|], (id (jobs b)) as [y|], (id (jobs c)) as [z|];
    try tauto.
  intros [?|[-> Hab]] [?|[-> Hbc]]; try (left; lia). right. split; [done|]. tauto.
Qed.

Lemma sort_comparator_sorted l :
  StronglySorted (before jobs) (sort (comparator jobs) l).
Proof.
  assert (StronglySorted (notAfter (comparator jobs)) (sort (comparator jobs) l)) as H.
  { apply sort_sorted.
    - intros x y. rewrite !comparator_before. apply before_total.
    - intros x y z. rewrite !comparator_before. apply before_trans. }
  induction H as [|x l' Hs IH Hall]; constructor; [done|].
  eapply Forall_impl; [exact Hall|]. intros y. by rewrite comparator_before.
Qed.

End order.

(** ** C3 *)

(** C3, as amended. For every list of jobs queued with [queueJob] before the
    flush starts, none of which queues a job when it runs, the flush calls
    the active ones among them, each once, in ascending order of their ids:
    a job without an id after every job with one, and of two jobs with the
    same id the [pre] job before the other. *)
Theorem flushJobs_order (jobs : job → SchedulerJob) (DEV : bool) (js : list job) :
  (∀ k, k ∈ js → quiet jobs k) →
  ∃ s', flush jobs DEV (S (length js)) (queueJobs jobs js initial) = Some s' ∧
    StronglySorted (before jobs) (jobsRan s') ∧
    NoDup (jobsRan s') ∧
    ∀ k, k ∈ jobsRan s' ↔ k ∈ js ∧ active (jobs k) = true.
Proof.
  intros Hquiet.
  destruct (queueJobs_idle jobs js initial idle_initial) as (Hidle & Hin & Hlen).
  simpl in Hlen.
  destruct (flush_quiet jobs DEV (length js) (queueJobs jobs js initial))
    as (s' & Hflush & Hran); [done|lia| |].
  { intros k Hk. apply Hquiet. apply Hin in Hk as [?|Hk]; [done|].
    by apply elem_of_nil in Hk. }
  exists s'. rewrite Hran. split_and!; [done| | |].
  - apply filter_sorted, sort_comparator_sorted.
  - apply NoDup_filter. rewrite (sort_perm _ _). apply Hidle.
  - intros k. rewrite list_elem_of_filter, (sort_perm _ _), Hin, elem_of_nil. tauto.
Qed.

Definition orderJobs (j : job) : SchedulerJob :=
  match j with
  | 1%nat => {| id := Some 1; pre := false; active := true; allowRecurse := false; body := [] |}
  | 2%nat => {| id := Some 2; pre := false; active := true; allowRecurse := false; body := [] |}
  | 3%nat => {| id := Some 2; pre := true; active := true; allowRecurse := false; body := [] |}
  | _ => {| id := None; pre := false; active := true; allowRecurse := false; body := [] |}
  end.

Lemma flushJobs_order_witness :
  ∃ s', flush orderJobs true 3 (queueJobs orderJobs [2; 1]%nat initial) = Some s' ∧
    StronglySorted (before orderJobs) (jobsRan s') ∧
    NoDup (jobsRan s') ∧
    ∀ k, k ∈ jobsRan s' ↔ k ∈ [2; 1]%nat ∧ active (orderJobs k) = true.
Proof.
  apply (flushJobs_order orderJobs true [2; 1]%nat).
  intros k Hk. unfold quiet, orderJobs. by repeat (destruct k as [|k]; try done).
Defined.

(** Jobs with the ids 2 and 1, queued in that order, run in the order 1, 2;
    a [pre] job (job 3, with id 2) runs before the job with the same id that
    is not [pre], and a job without an id (job 7) runs last. *)
Example flushJobs_order_2_1 :
  jobsRan <$> flush orderJobs true 3 (queueJobs orderJobs [2; 1]%nat initial)
    = Some [1; 2]%nat ∧
  jobsRan <$> flush orderJobs true 5 (queueJobs orderJobs [7; 2; 3; 1]%nat initial)
    = Some [1; 3; 2; 7]%nat.
Proof. split; reflexivity. Qed.

(** A job (10, with id 2) that queues a job with a smaller id (11, with
    id 1) when it runs. *)
Definition lateJobs (j : job) : SchedulerJob :=
  match j with
  | 10%nat => {| id := Some 2; pre := false; active := true; allowRecurse := false;
                 body := [QueueJob 11%nat] |}
  | _ => {| id := Some 1; pre := false; active := true; allowRecurse := false; body := [] |}
  end.

(** C3 as stated fails for a job that is queued while the flush runs: job 11
    is queued before the flush completes, and runs after job 10, whose id is
    greater. *)
Lemma flushJobs_order_counterexample :
  jobsRan <$> flush lateJobs true 3 (queueJobs lateJobs [10%nat] initial)
    = Some [10; 11]%nat ∧
  ¬ StronglySorted (before lateJobs) [10; 11]%nat.
Proof.
  split; [reflexivity|]. intros H. apply StronglySorted_inv in H as [_ H].
  apply Forall_cons in H as [H _]. unfold before in H. simpl in H.
  destruct H as [?|[? _]]; lia.
Qed.

(** ** C4 *)






End SchedulerSpec.
Module ReactiveSpec.
Import Reactive.

Definition exState : state :=
  {| heap := [Plain TObject true false ∅; Plain TMap true false ∅; RefImpl false (VNum 1) (VNum 1)];
     reactiveMap := ∅; shallowReactiveMap := ∅; readonlyMap := ∅; shallowReadonlyMap := ∅;
     events := [] |}.

Example wrap_ex1 : fst <$> reactive (VObj 0%nat) exState = Some (VObj 3%nat).
Proof. reflexivity. Qed.

Example wrap_ex2 :
  ('(p, s) ← reactive (VObj 1%nat) exState; '(q, s) ← readonly p s; '(q', s) ← readonly p s;
   r ← toRaw s q; Some (p, q, q', r, heap s))
  = Some (VObj 3%nat, VObj 4%nat, VObj 4%nat, VObj 1%nat,
          heap exState ++ [Proxy 1%nat false false true; Proxy 3%nat true false true]).
Proof. vm_compute. reflexivity. Qed.


(** *** Reading the flags of a plain object *)

Section plain.
Context (s : state) (x : addr) (ty : rawType) (ext skip : bool) (props : gmap key value).
Hypothesis Hx : heap s !! x = Some (Plain ty ext skip props).

Lemma flagOf_plain k :
  flagOf k (VObj x) s
  = Some (match k with SKIP => if skip then VBool true else VUndefined
                     | _ => VUndefined end, s).
Proof. unfold flagOf. cbn [getFlag]. rewrite Hx. done. Qed.

Lemma isReadonly_plain : isReadonly s (VObj x) = Some false.
Proof. unfold isReadonly, pureFlag. by rewrite flagOf_plain. Qed.

Lemma isShallow_plain : isShallow s (VObj x) = Some false.
Proof. unfold isShallow, pureFlag. by rewrite flagOf_plain. Qed.

Lemma isRef_plain : isRef s (VObj x) = Some false.
Proof. unfold isRef, pureFlag. by rewrite flagOf_plain. Qed.

Lemma underlying_plain fuel : underlying (S fuel) (heap s) x = Some (x, Plain ty ext skip props).
Proof. simpl. by rewrite Hx. Qed.

Lemma toRaw_plain : toRaw s (VObj x) = Some (VObj x).
Proof. unfold toRaw. cbn [toRaw_rec]. unfold pureFlag. by rewrite flagOf_plain. Qed.

Lemma getTargetType_plain :
  getTargetType x s
  = Some (if skip || negb ext then INVALID else targetTypeMap ty, s).
Proof.
  unfold getTargetType. rewrite (flagOf_plain SKIP). simpl. rewrite Hx. simpl.
  by destruct skip.
Qed.

(** Unwrapping a proxy of the plain object. *)
Lemma toRaw_proxy p ro sh c :
  heap s !! p = Some (Proxy x ro sh c) → toRaw s (VObj p) = Some (VObj x).
Proof.
  intros Hp. assert (1 ≤ length (heap s))%nat as Hlen.
  { apply lookup_lt_Some in Hx. lia. }
  unfold toRaw. destruct (length (heap s)) as [|n] eqn:Hn; [lia|].
  cbn [toRaw_rec].
  assert (pureFlag RAW (VObj p) s = Some (VObj x)) as ->.
  { unfold pureFlag, flagOf. rewrite Hn. cbn [getFlag]. rewrite Hp. simpl.
    destruct c; [done|]. unfold sameProto. cbn [underlying]. rewrite Hx, Hp. simpl.
    rewrite Hx. simpl. rewrite (bool_decide_eq_true_2 (ty = ty)) by done.
    by rewrite orb_true_r. }
  cbn [toRaw_rec mbind option_bind truthy]. unfold pureFlag.
  rewrite flagOf_plain. done.
Qed.

End plain.

(** A value that is not an object has no flag. *)
Lemma pureFlag_primitive k s v : isObject v = false →
  truthy <$> pureFlag k v s = Some false.
Proof.
  intros Hv. unfold pureFlag, flagOf. destruct v; try done; simpl.
  - by destruct b.
  - by destruct (negb (z =? 0)) eqn:E; simpl; rewrite ?E.
  - by destruct (negb (String.eqb s0 "")) eqn:E; simpl; rewrite ?E.
Qed.

Lemma isReadonly_primitive s v : isObject v = false → isReadonly s v = Some false.
Proof. apply pureFlag_primitive. Qed.

Lemma isShallow_primitive s v : isObject v = false → isShallow s v = Some false.
Proof. apply pureFlag_primitive. Qed.

(** *** Wrapping a plain object *)

Lemma proxyMap_set_lookup ro sh ro' sh' t p s :
  proxyMap ro' sh' (proxyMap_set ro sh t p s)
  = if bool_decide (ro' = ro ∧ sh' = sh) then <[t := p]> (proxyMap ro sh s)
    else proxyMap ro' sh' s.
Proof. by destruct ro, sh, ro', sh'. Qed.

(** [createReactiveObject] on a plain object, by cases. *)
Lemma createReactiveObject_plain_eq s x ty ext skip props ro sh :
  heap s !! x = Some (Plain ty ext skip props) →
  createReactiveObject (VObj x) ro sh s
  = match proxyMap ro sh s !! x with
    | Some p => Some (VObj p, s)
    | None =>
        match (if skip || negb ext then INVALID else targetTypeMap ty) with
        | INVALID => Some (VObj x, s)
        | targetType =>
            Some (VObj (length (heap s)),
                  proxyMap_set ro sh x (length (heap s))
                    (set_heap (heap s ++ [Proxy x ro sh (bool_decide (targetType = COLLECTION))]) s))
        end
    end.
Proof.
  intros Hx. unfold createReactiveObject.
  rewrite (flagOf_plain s x ty ext skip props Hx RAW).
  cbn [mbind option_bind truthy andb negb].
  destruct (proxyMap ro sh s !! x) as [p|]; [done|].
  rewrite (getTargetType_plain s x ty ext skip props Hx).
  cbn [mbind option_bind]. by destruct (if skip || negb ext then _ else _).
Qed.

Lemma createReactiveObject_plain s x ty ext skip props ro sh :
  wf s → heap s !! x = Some (Plain ty ext skip props) →
  ∃ p s1, createReactiveObject (VObj x) ro sh s = Some (p, s1) ∧
    createReactiveObject (VObj x) ro sh s1 = Some (p, s1) ∧
    toRaw s1 p = Some (VObj x) ∧ wf s1 ∧
    heap s1 !! x = Some (Plain ty ext skip props).
Proof.
  intros Hwf Hx.
  rewrite (createReactiveObject_plain_eq s x ty ext skip props ro sh Hx).
  destruct (proxyMap ro sh s !! x) as [p|] eqn:Hmap.
  { exists (VObj p), s.
    rewrite (createReactiveObject_plain_eq s x ty ext skip props ro sh Hx), Hmap.
    split_and!; try done.
    destruct (wf_map _ Hwf _ _ _ _ Hmap) as [c Hp]. by eapply toRaw_proxy. }
  set (tt := if skip || negb ext then INVALID else targetTypeMap ty).
  assert (tt = INVALID ∨ tt ≠ INVALID) as [Htt|Htt] by (destruct tt; auto).
  { rewrite Htt. exists (VObj x), s.
    rewrite (createReactiveObject_plain_eq s x ty ext skip props ro sh Hx), Hmap.
    fold tt. rewrite Htt. split_and!; try done. by eapply toRaw_plain. }
  set (s1 := proxyMap_set ro sh x (length (heap s))
    (set_heap (heap s ++ [Proxy x ro sh (bool_decide (tt = COLLECTION))]) s)).
  assert (heap s1 !! x = Some (Plain ty ext skip props)) as Hx1.
  { simpl. rewrite lookup_app_l; [done|by eapply lookup_lt_Some]. }
  assert (heap s1 !! length (heap s)
          = Some (Proxy x ro sh (bool_decide (tt = COLLECTION)))) as Hp1.
  { simpl. by rewrite lookup_app_r, Nat.sub_diag by done. }
  assert (proxyMap ro sh s1 !! x = Some (length (heap s))) as Hmap1.
  { subst s1. rewrite proxyMap_set_lookup, bool_decide_eq_true_2 by done.
    apply lookup_insert_eq. }
  assert (wf s1) as Hwf1.
  { split.
    - intros a t ro' sh' c Ha. simpl in Ha.
      apply lookup_app_Some in Ha as [Ha|[Hlen Ha]]; [by eapply (wf_target _ Hwf)|].
      apply list_lookup_singleton_Some in Ha as [Ha [= <- <- <- <-]].
      apply lookup_lt_Some in Hx. lia.
    - intros ro' sh' t p Hp. subst s1. rewrite proxyMap_set_lookup in Hp.
      assert (∀ t p, proxyMap ro' sh' s !! t = Some p →
                ∃ c, (heap s ++ [Proxy x ro sh (bool_decide (tt = COLLECTION))]) !! p
                     = Some (Proxy t ro' sh' c)) as Hold.
      { intros t' p' Hp'. destruct (wf_map _ Hwf _ _ _ _ Hp') as [c Hc]. exists c.
        rewrite lookup_app_l; [done|by eapply lookup_lt_Some]. }
      destruct (decide (ro' = ro ∧ sh' = sh)) as [[-> ->]|Hne].
      + rewrite bool_decide_eq_true_2 in Hp by done.
        apply lookup_insert_Some in Hp as [[<- <-]|[Hne Hp]];
          [by eexists|exact (Hold _ _ Hp)].
      + rewrite bool_decide_eq_false_2 in Hp by done. exact (Hold _ _ Hp). }
  exists (VObj (length (heap s))), s1. split.
  { by destruct tt. }
  rewrite (createReactiveObject_plain_eq s1 x ty ext skip props ro sh Hx1).
  rewrite Hmap1.
  split_and!; try done. by eapply (toRaw_proxy s1 x).
Qed.

(** ** C6 *)

(** C6. For every plain object, array or collection [x] of the heap and every
    kind of wrapper, wrapping [x] twice gives the same wrapper, [toRaw] of
    the wrapper is [x], and a value that is not an object is returned as it
    is. *)
Theorem wrap_identity (w : variant) (s : state) (x : addr)
  (ty : rawType) (ext skip : bool) (props : gmap key value) :
  wf s → heap s !! x = Some (Plain ty ext skip props) →
  (∃ p s1, wrap w (VObj x) s = Some (p, s1) ∧ wrap w (VObj x) s1 = Some (p, s1) ∧
           toRaw s1 p = Some (VObj x)) ∧
  (∀ v, isObject v = false → wrap w v s = Some (v, s)).
Proof.
  intros Hwf Hx. split.
  - assert (∀ ro sh, ∃ p s1,
      createReactiveObject (VObj x) ro sh s = Some (p, s1) ∧
      createReactiveObject (VObj x) ro sh s1 = Some (p, s1) ∧
      toRaw s1 p = Some (VObj x) ∧
      isReadonly s1 (VObj x) = Some false) as Hcro.
    { intros ro sh.
      destruct (createReactiveObject_plain s x ty ext skip props ro sh Hwf Hx)
        as (p & s1 & H1 & H2 & H3 & Hwf1 & Hx1).
      exists p, s1. split_and!; try done. by eapply isReadonly_plain. }
    destruct w; simpl; unfold reactive, shallowReactive, readonly, shallowReadonly.
    + destruct (Hcro false false) as (p & s1 & H1 & H2 & H3 & H4).
      exists p, s1. rewrite (isReadonly_plain s x ty ext skip props Hx), H4. done.
    + destruct (Hcro false true) as (p & s1 & H1 & H2 & H3 & H4). by exists p, s1.
    + destruct (Hcro true false) as (p & s1 & H1 & H2 & H3 & H4). by exists p, s1.
    + destruct (Hcro true true) as (p & s1 & H1 & H2 & H3 & H4). by exists p, s1.
  - intros v Hv.
    assert (createReactiveObject v false false s = Some (v, s) ∧
            createReactiveObject v false true s = Some (v, s) ∧
            createReactiveObject v true false s = Some (v, s) ∧
            createReactiveObject v true true s = Some (v, s)) as (H1 & H2 & H3 & H4)
      by (by destruct v).
    destruct w; simpl; unfold reactive, shallowReactive, readonly, shallowReadonly;
      try done.
    by rewrite (isReadonly_primitive s v Hv).
Qed.

Definition plainState : state :=
  {| heap := [Plain TObject true false ∅; Plain TMap true false ∅];
     reactiveMap := ∅; shallowReactiveMap := ∅; readonlyMap := ∅;
     shallowReadonlyMap := ∅; events := [] |}.

Lemma wf_plainState : wf plainState.
Proof.
  split.
  - intros a t ro sh c Ha. by repeat (destruct a as [|a]; simpl in Ha; try done).
  - intros ro sh t p Hp. by destruct ro, sh.
Qed.

Lemma wrap_identity_witness :
  (∃ p s1, wrap Readonly_ (VObj 1%nat) plainState = Some (p, s1) ∧
           wrap Readonly_ (VObj 1%nat) s1 = Some (p, s1) ∧
           toRaw s1 p = Some (VObj 1%nat)) ∧
  (∀ v, isObject v = false → wrap Readonly_ v plainState = Some (v, plainState)).
Proof.
  apply (wrap_identity Readonly_ plainState 1%nat TMap true false ∅).
  - exact wf_plainState.
  - reflexivity.
Defined.

(** *** Proxies of any depth *)

Definition isProxyObj (o : obj) : bool :=
  match o with Proxy _ _ _ _ => true | _ => false end.

(** [__v_isRef] of an object that is not a proxy. *)
Definition isRefObj (o : obj) : bool :=
  match o with RefImpl _ _ _ | ComputedRefImpl _ => true | _ => false end.

Section chains.
Context (s : state).
Hypothesis Hwf : wf s.

(** With fuel above the address, the chain of proxies is followed to its
    end. *)
Lemma underlying_total fuel : ∀ a,
  (a < fuel)%nat → (a < length (heap s))%nat →
  ∃ r o, underlying fuel (heap s) a = Some (r, o) ∧ heap s !! r = Some o ∧
         isProxyObj o = false ∧ (r ≤ a)%nat.
Proof.
  induction fuel as [|fuel IH]; intros a Ha Hlen; [lia|].
  destruct (lookup_lt_is_Some_2 _ _ Hlen) as [o Ho]. simpl. rewrite Ho. simpl.
  destruct o as [ty ext skip props|sh v raw|ro|t ro sh c]; try by eexists _, _.
  pose proof (wf_target _ Hwf _ _ _ _ _ Ho) as Ht.
  destruct (IH t) as (r & o & Hu & Hr & Hp & Hle); [lia..|].
  exists r, o. split_and!; try done. lia.
Qed.

Lemma underlying_fuel fuel fuel' a r o :
  underlying fuel (heap s) a = Some (r, o) → (fuel ≤ fuel')%nat →
  underlying fuel' (heap s) a = Some (r, o).
Proof.
  revert fuel' a. induction fuel as [|fuel IH]; intros fuel' a Hu Hle; [done|].
  destruct fuel' as [|fuel']; [lia|]. simpl in *.
  destruct (heap s !! a) as [o'|]; [|done]. simpl in *.
  destruct o'; try done. apply IH; [done|lia].
Qed.

Lemma underlying_proxy fuel a t ro sh c :
  heap s !! a = Some (Proxy t ro sh c) →
  underlying (S fuel) (heap s) a = underlying fuel (heap s) t.
Proof. intros Ha. simpl. by rewrite Ha. Qed.

(** A proxy and its target have the same prototype. *)
Lemma sameProto_target a t ro sh c :
  heap s !! a = Some (Proxy t ro sh c) →
  sameProto (S (length (heap s))) (heap s) t a = Some true.
Proof.
  intros Ha. pose proof (wf_target _ Hwf _ _ _ _ _ Ha) as Ht.
  pose proof (lookup_lt_Some _ _ _ Ha) as Hlen.
  destruct (underlying_total (length (heap s)) t) as (r & o & Hu & Hr & Hp & Hle);
    [lia..|].
  unfold sameProto. rewrite (underlying_proxy _ _ _ _ _ _ Ha), Hu.
  rewrite (underlying_fuel _ (S (length (heap s))) _ _ _ Hu) by lia. simpl.
  destruct o; try done. by rewrite bool_decide_eq_true_2.
Qed.

(** The flags other than [__v_skip] are read without a trace, and
    [__v_isRef] is that of the object at the end of the chain. *)
Lemma getFlag_isRef fuel : ∀ receiver a r o,
  (a < fuel)%nat → underlying fuel (heap s) a = Some (r, o) →
  getFlag fuel IS_REF receiver a s
  = Some (if isRefObj o then VBool true else VUndefined, s).
Proof.
  induction fuel as [|fuel IH]; intros receiver a r o Ha Hu; [lia|].
  simpl in *. destruct (heap s !! a) as [o'|] eqn:Ho'; [|done]. simpl in *.
  destruct o' as [ty ext skip props|sh v raw|ro|t ro sh c];
    try (injection Hu as <- <-; done).
  pose proof (wf_target _ Hwf _ _ _ _ _ Ho') as Ht.
  destruct c; by apply (IH receiver t r o); [lia|].
Qed.

Lemma isRef_underlying a r o :
  underlying (S (length (heap s))) (heap s) a = Some (r, o) →
  isRef s (VObj a) = Some (isRefObj o).
Proof.
  intros Hu. assert (a < length (heap s))%nat as Hlen.
  { simpl in Hu. destruct (heap s !! a) eqn:E; [|done]. by eapply lookup_lt_Some. }
  unfold isRef, pureFlag, flagOf.
  rewrite (getFlag_isRef _ a a r o) by (done || lia). simpl.
  by destruct (isRefObj o).
Qed.

(** [toRaw] of an object is the end of its chain. *)
Lemma toRaw_underlying fuel : ∀ a r o,
  (a < fuel)%nat → underlying fuel (heap s) a = Some (r, o) →
  toRaw_rec fuel s (VObj a) = Some (VObj r).
Proof.
  induction fuel as [|fuel IH]; intros a r o Ha Hu; [lia|].
  assert (a < length (heap s))%nat as Hlen.
  { simpl in Hu. destruct (heap s !! a) eqn:E; [|done]. by eapply lookup_lt_Some. }
  cbn [toRaw_rec]. unfold pureFlag, flagOf. cbn [getFlag].
  simpl in Hu. destruct (heap s !! a) as [o'|] eqn:Ho'; [|done]. simpl in *.
  destruct o' as [ty ext skip props|sh v raw|ro|t ro sh c];
    try (injection Hu as <- <-; done).
  pose proof (wf_target _ Hwf _ _ _ _ _ Ho') as Ht.
  assert (toRaw_rec fuel s (VObj t) = Some (VObj r)) as Hrec
    by (apply (IH t r o); [lia|done]).
  destruct c; simpl; [done|].
  rewrite (sameProto_target a t ro sh false Ho'). simpl.
  by rewrite orb_true_r.
Qed.

Lemma toRaw_object a :
  (a < length (heap s))%nat →
  ∃ r o, toRaw s (VObj a) = Some (VObj r) ∧ heap s !! r = Some o ∧
         isProxyObj o = false ∧
         underlying (S (length (heap s))) (heap s) a = Some (r, o).
Proof.
  intros Hlen.
  destruct (underlying_total (S (length (heap s))) a) as (r & o & Hu & Hr & Hp & _);
    [lia..|].
  exists r, o. split_and!; try done. by eapply toRaw_underlying; [lia|].
Qed.

(** [__v_isReadonly] and [__v_isShallow] are read without a trace. *)
Lemma getFlag_pure fuel k : ∀ receiver a,
  k = IS_READONLY ∨ k = IS_SHALLOW →
  (a < fuel)%nat → (a < length (heap s))%nat →
  ∃ v, getFlag fuel k receiver a s = Some (v, s).
Proof.
  intros receiver a Hk. revert a.
  induction fuel as [|fuel IH]; intros a Ha Hlen; [lia|].
  destruct (lookup_lt_is_Some_2 _ _ Hlen) as [o Ho]. simpl. rewrite Ho. simpl.
  destruct o as [ty ext skip props|sh v raw|ro|t ro sh c]; try by eexists.
  pose proof (wf_target _ Hwf _ _ _ _ _ Ho) as Ht.
  destruct c, Hk as [-> | ->]; try by eexists.
  apply IH; lia.
Qed.

End chains.

(** A value of the heap: an object of it, or a primitive value. *)
Definition valid (s : state) (v : value) : Prop :=
  match v with VObj a => (a < length (heap s))%nat | _ => True end.

Lemma isReadonly_total s v : wf s → valid s v → ∃ b, isReadonly s v = Some b.
Proof.
  intros Hwf Hv. destruct (isObject v) eqn:Hobj.
  - destruct v as [| | | | | |a]; try done. unfold isReadonly, pureFlag, flagOf.
    destruct (getFlag_pure s Hwf (S (length (heap s))) IS_READONLY a a)
      as [x ->]; [by left|simpl in *; lia..|]. by eexists.
  - exists false. by apply isReadonly_primitive.
Qed.

Lemma isShallow_total s v : wf s → valid s v → ∃ b, isShallow s v = Some b.
Proof.
  intros Hwf Hv. destruct (isObject v) eqn:Hobj.
  - destruct v as [| | | | | |a]; try done. unfold isShallow, pureFlag, flagOf.
    destruct (getFlag_pure s Hwf (S (length (heap s))) IS_SHALLOW a a)
      as [x ->]; [by right|simpl in *; lia..|]. by eexists.
  - exists false. by apply isShallow_primitive.
Qed.

Lemma toRaw_primitive s v : isObject v = false → toRaw s v = Some v.
Proof.
  intros Hv. unfold toRaw. cbn [toRaw_rec]. unfold pureFlag, flagOf.
  destruct v; try done; simpl.
  - by destruct b.
  - by destruct (negb (z =? 0)) eqn:E; simpl; rewrite ?E.
  - by destruct (negb (String.eqb s0 "")) eqn:E; simpl; rewrite ?E.
Qed.

(** [toRaw] returns a value of the heap that is not a proxy. *)
Lemma toRaw_total s v : wf s → valid s v →
  ∃ raw, toRaw s v = Some raw ∧ valid s raw ∧
    ∀ a, raw = VObj a → ∃ o, heap s !! a = Some o ∧ isProxyObj o = false.
Proof.
  intros Hwf Hv. destruct (isObject v) eqn:Hobj.
  - destruct v as [| | | | | |a]; try done.
    destruct (toRaw_object s Hwf a Hv) as (r & o & Hr & Ho & Hp & _).
    exists (VObj r). split_and!; [done|by eapply lookup_lt_Some|].
    intros ? [= <-]. by exists o.
  - exists v. rewrite toRaw_primitive by done. split_and!; [done..|].
    intros a ->. done.
Qed.

(** *** Wrapping a value that is not a proxy *)

Lemma flagOf_raw s a o k :
  heap s !! a = Some o → isProxyObj o = false →
  ∃ v, flagOf k (VObj a) s = Some (v, s) ∧ (k = RAW → v = VUndefined).
Proof.
  intros Ho Hp. unfold flagOf. cbn [getFlag]. rewrite Ho. simpl.
  destruct o; try done; eexists; (split; [done|]); by intros ->.
Qed.

Lemma createReactiveObject_raw s a o ro sh :
  heap s !! a = Some o → isProxyObj o = false →
  ∃ p s1, createReactiveObject (VObj a) ro sh s = Some (p, s1) ∧
          (∃ more, heap s1 = heap s ++ more) ∧ events s1 = events s.
Proof.
  intros Ho Hp. unfold createReactiveObject.
  destruct (flagOf_raw s a o RAW Ho Hp) as (v & -> & Hv). rewrite (Hv eq_refl).
  cbn [mbind option_bind truthy andb negb].
  destruct (proxyMap ro sh s !! a) as [p|].
  { eexists _, _. split; [done|]. split; [|done]. exists []. by rewrite app_nil_r. }
  unfold getTargetType. destruct (flagOf_raw s a o SKIP Ho Hp) as (skip & -> & _).
  cbn [mbind option_bind underlying]. rewrite Ho. cbn [mbind option_bind].
  assert (underlying (S (length (heap s))) (heap s) a = Some (a, o)) as Hu.
  { simpl. rewrite Ho. by destruct o. }
  replace (match o with Proxy t _ _ _ => underlying (length (heap s)) (heap s) t
                      | _ => Some (a, o) end) with (Some (a, o)) by (by destruct o).
  cbn [mbind option_bind].
  destruct (if truthy skip || negb (isExtensible o) then INVALID
            else targetTypeMap (toRawType o)).
  - eexists _, _. split; [done|]. split; [|done]. exists []. by rewrite app_nil_r.
  - eexists _, _. split; [done|]. split; [|by destruct ro, sh]. by eexists.
  - eexists _, _. split; [done|]. split; [|by destruct ro, sh]. by eexists.
Qed.

Lemma toReactive_raw s v :
  wf s → valid s v →
  (∀ a, v = VObj a → ∃ o, heap s !! a = Some o ∧ isProxyObj o = false) →
  ∃ w s1, toReactive v s = Some (w, s1) ∧
          (∃ more, heap s1 = heap s ++ more) ∧ events s1 = events s.
Proof.
  intros Hwf Hv Hraw. unfold toReactive. destruct (isObject v) eqn:Hobj; last first.
  { exists v, s. split; [done|]. split; [|done]. exists []. by rewrite app_nil_r. }
  destruct v as [| | | | | |a]; try done.
  destruct (Hraw a eq_refl) as (o & Ho & Hp). unfold reactive.
  destruct (isReadonly_total s (VObj a) Hwf Hv) as [b ->].
  cbn [mbind option_bind]. destruct b.
  { eexists _, _. split; [done|]. split; [|done]. exists []. by rewrite app_nil_r. }
  by eapply createReactiveObject_raw.
Qed.

(** *** The setter of a ref *)

Lemma RefImpl_set_cases (s : state) (this : addr) (sh : bool)
  (_value _rawValue newVal : value) :
  wf s → valid s newVal → heap s !! this = Some (RefImpl sh _value _rawValue) →
  ∃ newShallow newReadonly raw,
    isShallow s newVal = Some newShallow ∧ isReadonly s newVal = Some newReadonly ∧
    toRaw s newVal = Some raw ∧
    let useDirectValue := sh || newShallow || newReadonly in
    let nv := if useDirectValue then newVal else raw in
    if hasChanged nv _rawValue then
      ∃ wrapped s1 s',
        (if useDirectValue then Some (nv, s) else toReactive nv s) = Some (wrapped, s1) ∧
        RefImpl_set this newVal s = Some s' ∧
        heap s' !! this = Some (RefImpl sh wrapped nv) ∧
        events s' = events s ++ [TriggerRefValue this nv] ∧
        ∀ a o, a ≠ this → heap s !! a = Some o → heap s' !! a = Some o
    else RefImpl_set this newVal s = Some s.
Proof.
  intros Hwf Hv Hthis.
  destruct (isShallow_total s newVal Hwf Hv) as [newShallow HS].
  destruct (isReadonly_total s newVal Hwf Hv) as [newReadonly HR].
  destruct (toRaw_total s newVal Hwf Hv) as (raw & Hraw & Hvalid & Hnp).
  exists newShallow, newReadonly, raw. split_and!; try done. cbv zeta.
  unfold RefImpl_set. rewrite Hthis, HS, HR. cbn [mbind option_bind].
  set (useDirectValue := sh || newShallow || newReadonly).
  assert ((if useDirectValue then Some newVal else toRaw s newVal)
          = Some (if useDirectValue then newVal else raw)) as ->
    by (by destruct useDirectValue).
  cbn [mbind option_bind].
  destruct (hasChanged (if useDirectValue then newVal else raw) _rawValue); [|done].
  assert (∃ wrapped s1,
    (if useDirectValue
     then Some (if useDirectValue then newVal else raw, s)
     else toReactive (if useDirectValue then newVal else raw) s) = Some (wrapped, s1) ∧
    (∃ more, heap s1 = heap s ++ more) ∧ events s1 = events s)
    as (wrapped & s1 & Hwrap & [more Hheap] & Hev).
  { destruct useDirectValue.
    - eexists _, _. split; [done|]. split; [|done]. exists []. by rewrite app_nil_r.
    - by apply toReactive_raw. }
  exists wrapped, s1. rewrite Hwrap. cbn [mbind option_bind].
  eexists. split; [done|]. split; [done|]. split_and!.
  - simpl. apply list_lookup_insert_eq. rewrite Hheap, length_app.
    apply lookup_lt_Some in Hthis. lia.
  - simpl. by rewrite Hev.
  - intros a o Ha Ho. simpl. rewrite list_lookup_insert_ne by done.
    rewrite Hheap, lookup_app_l; [done|by eapply lookup_lt_Some].
Qed.

(** The setter returns, and touches no other object of the heap. *)
Lemma RefImpl_set_total (s : state) (this : addr) (sh : bool)
  (_value _rawValue newVal : value) :
  wf s → valid s newVal → heap s !! this = Some (RefImpl sh _value _rawValue) →
  ∃ s', RefImpl_set this newVal s = Some s' ∧
        ∀ a o, a ≠ this → heap s !! a = Some o → heap s' !! a = Some o.
Proof.
  intros Hwf Hv Hthis.
  destruct (RefImpl_set_cases s this sh _value _rawValue newVal Hwf Hv Hthis)
    as (b1 & b2 & raw & _ & _ & _ & H). cbv zeta in H.
  destruct (hasChanged _ _).
  - destruct H as (wrapped & s1 & s' & _ & Hset & _ & _ & Hframe). by exists s'.
  - by exists s.
Qed.

(** ** C7 *)

(** C7. The setter of a plain ref compares the new value, unwrapped to the
    raw value unless the ref is shallow or the value is shallow or readonly,
    with the raw value it holds; [hasChanged] takes NaN for equal to itself
    and is strict inequality otherwise. When the predicate reports a change,
    the setter stores the new raw value and its wrapper and triggers the
    subscribers of the ref; when it reports none, the state stays as it is:
    nothing is stored and nothing is triggered. *)
Theorem RefImpl_set_spec (s : state) (this : addr) (sh : bool)
  (_value _rawValue newVal : value) :
  wf s → valid s newVal → heap s !! this = Some (RefImpl sh _value _rawValue) →
  (∃ newShallow newReadonly raw,
     isShallow s newVal = Some newShallow ∧ isReadonly s newVal = Some newReadonly ∧
     toRaw s newVal = Some raw ∧
     let useDirectValue := sh || newShallow || newReadonly in
     let nv := if useDirectValue then newVal else raw in
     if hasChanged nv _rawValue then
       ∃ wrapped s1 s',
         (if useDirectValue then Some (nv, s) else toReactive nv s) = Some (wrapped, s1) ∧
         RefImpl_set this newVal s = Some s' ∧
         heap s' !! this = Some (RefImpl sh wrapped nv) ∧
         events s' = events s ++ [TriggerRefValue this nv]
     else RefImpl_set this newVal s = Some s) ∧
  hasChanged VNaN VNaN = false ∧
  (∀ x y, ¬ (x = VNaN ∧ y = VNaN) → hasChanged x y = negb (strictEquals x y)).
Proof.
  intros Hwf Hv Hthis. split; [|split; [done|]]; last first.
  { intros x y Hxy. destruct x, y; try done. destruct Hxy. done. }
  destruct (RefImpl_set_cases s this sh _value _rawValue newVal Hwf Hv Hthis)
    as (b1 & b2 & raw & H1 & H2 & H3 & H).
  exists b1, b2, raw. split_and!; try done. cbv zeta in *.
  destruct (hasChanged _ _); [|done].
  destruct H as (wrapped & s1 & s' & ? & ? & ? & ? & _). by exists wrapped, s1, s'.
Qed.

Definition refState : state :=
  {| heap := [RefImpl false (VNum 1) (VNum 1); Plain TObject true false ∅];
     reactiveMap := ∅; shallowReactiveMap := ∅; readonlyMap := ∅;
     shallowReadonlyMap := ∅; events := [] |}.

Lemma wf_refState : wf refState.
Proof.
  split.
  - intros a t ro sh c Ha. by repeat (destruct a as [|a]; simpl in Ha; try done).
  - intros ro sh t p Hp. by destruct ro, sh.
Qed.

Lemma RefImpl_set_spec_witness :
  (∃ newShallow newReadonly raw,
     isShallow refState (VNum 2) = Some newShallow ∧
     isReadonly refState (VNum 2) = Some newReadonly ∧
     toRaw refState (VNum 2) = Some raw ∧
     let useDirectValue := false || newShallow || newReadonly in
     let nv := if useDirectValue then VNum 2 else raw in
     if hasChanged nv (VNum 1) then
       ∃ wrapped s1 s',
         (if useDirectValue then Some (nv, refState) else toReactive nv refState)
           = Some (wrapped, s1) ∧
         RefImpl_set 0%nat (VNum 2) refState = Some s' ∧
         heap s' !! 0%nat = Some (RefImpl false wrapped nv) ∧
         events s' = events refState ++ [TriggerRefValue 0%nat nv]
     else RefImpl_set 0%nat (VNum 2) refState = Some refState) ∧
  hasChanged VNaN VNaN = false ∧
  (∀ x y, ¬ (x = VNaN ∧ y = VNaN) → hasChanged x y = negb (strictEquals x y)).
Proof.
  apply (RefImpl_set_spec refState 0%nat false (VNum 1) (VNum 1) (VNum 2)).
  - exact wf_refState.
  - exact I.
  - reflexivity.
Defined.

(** Assigning the value that a ref holds triggers nothing; assigning another
    one triggers once; NaN assigned over NaN triggers nothing. *)
Example RefImpl_set_examples :
  RefImpl_set 0%nat (VNum 1) refState = Some refState ∧
  events <$> RefImpl_set 0%nat (VNum 2) refState
    = Some [TriggerRefValue 0%nat (VNum 2)] ∧
  (s ← RefImpl_set 0%nat VNaN refState; events <$> RefImpl_set 0%nat VNaN s)
    = Some [TriggerRefValue 0%nat VNaN].
Proof. repeat split; reflexivity. Qed.

(** *** A property that holds a ref *)

Lemma isRef_toRaw s v raw :
  wf s → valid s v → toRaw s v = Some raw → isRef s raw = isRef s v.
Proof.
  intros Hwf Hv Hraw. destruct (isObject v) eqn:Hobj; last first.
  { rewrite toRaw_primitive in Hraw by done. congruence. }
  destruct v as [| | | | | |a]; try done.
  destruct (toRaw_object s Hwf a Hv) as (r & o & Hr & Ho & Hp & Hu).
  assert (raw = VObj r) as -> by congruence.
  rewrite (isRef_underlying s Hwf a r o Hu).
  apply (isRef_underlying s Hwf r r o). simpl. rewrite Ho. by destruct o.
Qed.

Lemma flags_RefImpl s r sh v raw :
  heap s !! r = Some (RefImpl sh v raw) →
  isReadonly s (VObj r) = Some false ∧ isRef s (VObj r) = Some true ∧
  toRaw s (VObj r) = Some (VObj r).
Proof.
  intros Hr. unfold isReadonly, isRef, toRaw, pureFlag, flagOf.
  cbn [toRaw_rec getFlag]. unfold pureFlag, flagOf. cbn [getFlag]. by rewrite Hr.
Qed.

(** ** C8 *)

(** C8, as amended. For every proxy made by [reactive] (mutable and not
    shallow) of a plain object that is not an array, assigning a value that
    is not a ref to a property that holds a [RefImpl] ref runs the setter of
    that ref with the value (unwrapped to the raw value unless it is shallow
    or readonly), and the property holds the same ref afterwards. *)
Theorem proxySet_forwards_to_ref (s : state) (proxy target r : addr) (k : key)
  (v : value) (ty : rawType) (ext skip : bool) (props : gmap key value)
  (rsh : bool) (rv rraw : value) :
  wf s → valid s v →
  heap s !! proxy = Some (Proxy target false false false) →
  heap s !! target = Some (Plain ty ext skip props) → ty ≠ TArray →
  props !! k = Some (VObj r) → heap s !! r = Some (RefImpl rsh rv rraw) →
  isRef s v = Some false →
  ∃ newShallow newReadonly raw s',
    isShallow s v = Some newShallow ∧ isReadonly s v = Some newReadonly ∧
    toRaw s v = Some raw ∧
    RefImpl_set r (if negb newShallow && negb newReadonly then raw else v) s = Some s' ∧
    proxySet proxy k v s = Some (true, s') ∧
    propOf s' target k = Some (VObj r).
Proof.
  intros Hwf Hv Hproxy Htarget Hty Hk Hr Hnotref.
  destruct (isShallow_total s v Hwf Hv) as [newShallow HS].
  destruct (isReadonly_total s v Hwf Hv) as [newReadonly HR].
  destruct (toRaw_total s v Hwf Hv) as (raw & Hraw & Hvalid & _).
  destruct (flags_RefImpl s r rsh rv rraw Hr) as (Hro & Href & Hrraw).
  set (v' := if negb newShallow && negb newReadonly then raw else v).
  assert (valid s v') as Hv' by (subst v'; by destruct (_ && _)).
  assert (isRef s v' = Some false) as Hnotref'.
  { subst v'. destruct (_ && _); [|done]. by rewrite (isRef_toRaw s v raw). }
  destruct (RefImpl_set_total s r rsh rv rraw v' Hwf Hv' Hr) as (s' & Hset & Hframe).
  exists newShallow, newReadonly, raw, s'. split_and!; try done.
  - unfold proxySet. rewrite Hproxy. cbn [mbind option_bind].
    unfold MutableReactiveHandler_set. rewrite Htarget. cbn [mbind option_bind].
    rewrite bool_decide_eq_false_2 by (intros [? _]; done).
    cbv zeta. rewrite Hk. change (default VUndefined (Some (VObj r))) with (VObj r).
    rewrite Hro, Href, Hnotref.
    cbn [mbind option_bind andb negb]. rewrite HS, HR. cbn [mbind option_bind].
    assert ((if negb newShallow && negb newReadonly
             then toRaw s (VObj r) ≫= λ o', toRaw s v ≫= λ v'0, Some (o', v'0)
             else Some (VObj r, v)) = Some (VObj r, v')) as ->.
    { subst v'. destruct (_ && _); [|done]. by rewrite Hrraw, Hraw. }
    cbn [mbind option_bind]. rewrite Href, Hnotref'. cbn [mbind option_bind].
    rewrite (bool_decide_eq_false_2 (ty = TArray)) by done.
    cbn [andb negb]. unfold assignValue. rewrite Hr. cbn [mbind option_bind].
    by rewrite Hset.
  - unfold propOf. rewrite (Hframe target (Plain ty ext skip props)); [done| |done].
    intros ->. congruence.
Qed.

(** A reactive object [{ a: ref(1) }]: the ref at 0, the object at 1, its
    proxy at 2. *)
Definition objWithRef (shallow : bool) : state :=
  {| heap := [RefImpl false (VNum 1) (VNum 1);
              Plain TObject true false {[ KStr "a" := VObj 0%nat ]};
              Proxy 1%nat false shallow false];
     reactiveMap := if shallow then ∅ else {[ 1%nat := 2%nat ]};
     shallowReactiveMap := if shallow then {[ 1%nat := 2%nat ]} else ∅;
     readonlyMap := ∅; shallowReadonlyMap := ∅; events := [] |}.

Lemma wf_objWithRef shallow : wf (objWithRef shallow).
Proof.
  split.
  - intros a t ro sh c Ha.
    repeat (destruct a as [|a]; simpl in Ha; try done). injection Ha as <- _ _ _. lia.
  - intros ro sh t p Hp. exists false.
    destruct shallow, ro, sh; simpl in Hp; try done;
      apply lookup_singleton_Some in Hp as [<- <-]; done.
Qed.

Lemma proxySet_forwards_to_ref_witness :
  ∃ newShallow newReadonly raw s',
    isShallow (objWithRef false) (VNum 2) = Some newShallow ∧
    isReadonly (objWithRef false) (VNum 2) = Some newReadonly ∧
    toRaw (objWithRef false) (VNum 2) = Some raw ∧
    RefImpl_set 0%nat (if negb newShallow && negb newReadonly then raw else VNum 2)
      (objWithRef false) = Some s' ∧
    proxySet 2%nat (KStr "a") (VNum 2) (objWithRef false) = Some (true, s') ∧
    propOf s' 1%nat (KStr "a") = Some (VObj 0%nat).
Proof.
  apply (proxySet_forwards_to_ref (objWithRef false) 2%nat 1%nat 0%nat (KStr "a")
           (VNum 2) TObject true false {[ KStr "a" := VObj 0%nat ]} false (VNum 1) (VNum 1)).
  - exact (wf_objWithRef false).
  - exact I.
  - reflexivity.
  - reflexivity.
  - discriminate.
  - reflexivity.
  - reflexivity.
  - reflexivity.
Defined.

(** A reactive object [{ a: c }] for a computed ref [c] without setter, which
    is a readonly ref: the ref at 0, the object at 1, its proxy at 2. *)
Definition objWithComputed : state :=
  {| heap := [ComputedRefImpl true;
              Plain TObject true false {[ KStr "a" := VObj 0%nat ]};
              Proxy 1%nat false false false];
     reactiveMap := {[ 1%nat := 2%nat ]}; shallowReactiveMap := ∅;
     readonlyMap := ∅; shallowReadonlyMap := ∅; events := [] |}.

(** C8 as stated fails for the proxy that [shallowReactive] makes, which is
    mutable: the assignment replaces the property by the plain value and
    leaves the ref alone. It also fails for a property that holds a readonly
    ref: the assignment is refused, and nothing reaches the ref. *)
Lemma proxySet_forwards_to_ref_counterexample :
  (∃ s', proxySet 2%nat (KStr "a") (VNum 2) (objWithRef true) = Some (true, s') ∧
         propOf s' 1%nat (KStr "a") = Some (VNum 2) ∧
         heap s' !! 0%nat = Some (RefImpl false (VNum 1) (VNum 1))) ∧
  proxySet 2%nat (KStr "a") (VNum 2) objWithComputed = Some (false, objWithComputed).
Proof.
  split; [|reflexivity]. eexists. split; [reflexivity|]. split; reflexivity.
Qed.

End ReactiveSpec.
Module EffectSpec.
Import Effect.

(** *** What the engine leaves as it was *)

(** What a read of a computed cell depends on. *)
Definition cellView (c : ComputedRefImpl) : eff * bool * bool * value :=
  (effect c, _cacheable c, _dirty c, _value c).

(** [static s s']: the functions of the effects and the cells but for their
    dependency sets are the same, and no function was called. *)
Definition static (s s' : state) : Prop :=
  (∀ x, fn <$> effects s' !! x = fn <$> effects s !! x) ∧
  (∀ c, cellView <$> computeds s' !! c = cellView <$> computeds s !! c) ∧
  ∀ e, calls e (record s') = calls e (record s).

(** [frame s s']: moreover the parents and the module variables but
    [shouldTrack] are the same. *)
Definition frame (s s' : state) : Prop :=
  static s s' ∧
  (∀ x, parentOf s' x = parentOf s x) ∧
  activeEffect s' = activeEffect s ∧
  effectTrackDepth s' = effectTrackDepth s ∧
  trackOpBit s' = trackOpBit s.

(** [keeps s s']: the module variables but [shouldTrack] and the parents of
    the running effects are the same. *)
Definition keeps (s s' : state) : Prop :=
  activeEffect s' = activeEffect s ∧
  effectTrackDepth s' = effectTrackDepth s ∧
  trackOpBit s' = trackOpBit s ∧
  ∀ l, chain s (activeEffect s) l → chain s' (activeEffect s) l.


Lemma static_trans s1 s2 s3 : static s1 s2 → static s2 s3 → static s1 s3.
Proof.
  intros (Hf & Hc & Hr) (Hf' & Hc' & Hr').
  split_and!; [intros x; by rewrite Hf'|intros x; by rewrite Hc'|intros x; by rewrite Hr'].
Qed.

Lemma frame_refl s : frame s s.
Proof. by unfold frame, static. Qed.

Lemma frame_trans s1 s2 s3 : frame s1 s2 → frame s2 s3 → frame s1 s3.
Proof.
  intros (Hs & Hp & Ha & Hd & Hb) (Hs' & Hp' & Ha' & Hd' & Hb').
  split_and!; [by eapply static_trans|intros x; by rewrite Hp' | congruence..].
Qed.

Lemma chain_frame s s' cur l :
  (∀ x, parentOf s' x = parentOf s x) → chain s cur l → chain s' cur l.
Proof.
  intros Hp. induction 1 as [|p q l Hq _ IH]; [constructor|].
  econstructor; [by rewrite Hp|done].
Qed.

Lemma frame_keeps s s' : frame s s' → keeps s s'.
Proof.
  intros (_ & Hp & Ha & Hd & Hb). split_and!; try done.
  intros l. by apply chain_frame.
Qed.

Lemma keeps_same s s' :
  effects s' = effects s → activeEffect s' = activeEffect s →
  effectTrackDepth s' = effectTrackDepth s → trackOpBit s' = trackOpBit s →
  keeps s s'.
Proof.
  intros He Ha Hd Hb. split_and!; try done.
  intros l. apply chain_frame. intros x. unfold parentOf. by rewrite He.
Qed.

Lemma keeps_refl s : keeps s s.
Proof. apply frame_keeps, frame_refl. Qed.

Lemma keeps_trans s1 s2 s3 : keeps s1 s2 → keeps s2 s3 → keeps s1 s3.
Proof.
  intros (Ha & Hd & Hb & Hc) (Ha' & Hd' & Hb' & Hc').
  split_and!; [congruence..|].
  intros l Hl. rewrite <- Ha. apply Hc'. rewrite Ha. by apply Hc.
Qed.

Lemma lookup_updEffect {A} (g : ReactiveEffect → A) e f s x :
  (∀ ef, g (f ef) = g ef) →
  g <$> effects (updEffect e f s) !! x = g <$> effects s !! x.
Proof.
  intros Hf. unfold updEffect, set_effects. cbn [effects].
  destruct (decide (x = e)) as [-> |Hne].
  - rewrite list_lookup_alter_eq. destruct (effects s !! e) as [ef|]; [|reflexivity].
    simpl. by rewrite Hf.
  - by rewrite list_lookup_alter_ne.
Qed.

Lemma lookup_updComputed {A} (g : ComputedRefImpl → A) c f s x :
  (∀ cell, g (f cell) = g cell) →
  g <$> computeds (updComputed c f s) !! x = g <$> computeds s !! x.
Proof.
  intros Hf. unfold updComputed, set_computeds. cbn [computeds].
  destruct (decide (x = c)) as [-> |Hne].
  - rewrite list_lookup_alter_eq. destruct (computeds s !! c) as [cell|]; [|reflexivity].
    simpl. by rewrite Hf.
  - by rewrite list_lookup_alter_ne.
Qed.

Lemma static_updEffect e f s :
  (∀ ef, fn (f ef) = fn ef) → static s (updEffect e f s).
Proof. intros Hf. split_and!; try done. intros x. by apply lookup_updEffect. Qed.

Lemma frame_updEffect e f s :
  (∀ ef, parent (f ef) = parent ef) → (∀ ef, fn (f ef) = fn ef) →
  frame s (updEffect e f s).
Proof.
  intros Hp Hf. split_and!; try done; [by apply static_updEffect|].
  intros x. by apply (lookup_updEffect parent).
Qed.

Lemma frame_updComputed c f s :
  (∀ cell, cellView (f cell) = cellView cell) → frame s (updComputed c f s).
Proof.
  intros Hf. split_and!; try done. split_and!; try done.
  intros x. by apply lookup_updComputed.
Qed.

Lemma frame_updDep d f s : frame s (updDep d f s).
Proof. done. Qed.

Lemma frame_foldl {A} (f : state → A → state) l s :
  (∀ s a, frame s (f s a)) → frame s (foldl f s l).
Proof.
  intros Hf. revert s. induction l as [|a l IH]; intros s; simpl; [apply frame_refl|].
  eapply frame_trans; [apply Hf|apply IH].
Qed.

Lemma frame_initDepMarkers e s : frame s (initDepMarkers e s).
Proof.
  unfold initDepMarkers. destruct (effects s !! e); [|apply frame_refl].
  apply frame_foldl. intros. apply frame_updDep.
Qed.

Lemma frame_cleanupEffect e s : frame s (cleanupEffect e s).
Proof.
  unfold cleanupEffect. destruct (effects s !! e); [|apply frame_refl].
  eapply frame_trans; [|by apply frame_updEffect].
  apply frame_foldl. intros. apply frame_updDep.
Qed.

Lemma frame_finalizeLoop e ds kept s :
  frame s (finalizeLoop e ds kept s).2.
Proof.
  revert kept s. induction ds as [|d ds IH]; intros kept s; simpl; [apply frame_refl|].
  destruct (depStore s !! d) as [x|]; [|apply IH].
  destruct (wasTracked s x && negb (newTracked s x));
    (eapply frame_trans; [|apply IH]); done.
Qed.

Lemma frame_finalizeDepMarkers e s : frame s (finalizeDepMarkers e s).
Proof.
  unfold finalizeDepMarkers. destruct (effects s !! e) as [ef|]; [|apply frame_refl].
  pose proof (frame_finalizeLoop e (deps ef) [] s) as H.
  destruct (finalizeLoop e (deps ef) [] s) as [kept s1]. simpl in H.
  eapply frame_trans; [exact H|]. by apply frame_updEffect.
Qed.

Lemma calls_note e x r : calls e (r ++ [x]) = (calls e r + if decide (x = Called e) then 1 else 0)%nat.
Proof.
  unfold calls. rewrite filter_app, length_app. f_equal.
  rewrite filter_cons, filter_nil. by destruct (decide (x = Called e)).
Qed.

Lemma frame_note x s : (∀ e, x ≠ Called e) → frame s (note x s).
Proof.
  intros Hx. split_and!; try done. split_and!; try done.
  intros e. change (record (note x s)) with (record s ++ [x]). rewrite calls_note.
  destruct (decide (x = Called e)) as [-> |]; [by destruct (Hx e)|lia].
Qed.

Lemma frame_trackEffects e d s : frame s (trackEffects e d s).
Proof.
  unfold trackEffects. cbv zeta.
  eapply frame_trans; [by apply (frame_note (Tracked e d))|].
  generalize (note (Tracked e d) s). clear s. intros s.
  destruct (depStore s !! d) as [x|]; [|apply frame_refl].
  destruct (effectTrackDepth s <=? maxMarkerBits).
  - destruct (negb (newTracked s x)); [|apply frame_refl].
    destruct (negb (wasTracked s x)); [|done].
    eapply frame_trans; [|by apply frame_updEffect]. done.
  - destruct (negb (bool_decide (e ∈ subs x))); [|apply frame_refl].
    eapply frame_trans; [|by apply frame_updEffect]. done.
Qed.

Lemma frame_track k s : frame s (track k s).
Proof.
  unfold track. destruct (shouldTrack s); [|apply frame_refl].
  destruct (activeEffect s) as [e|] eqn:He; [|apply frame_refl].
  destruct (targetMap s !! k) as [d|]; [apply frame_trackEffects|].
  simpl. eapply frame_trans; [|apply frame_trackEffects]. done.
Qed.

Lemma frame_trackRefValue c s : frame s (trackRefValue c s).
Proof.
  unfold trackRefValue. destruct (shouldTrack s); [|apply frame_refl].
  destruct (activeEffect s) as [e|] eqn:He; [|apply frame_refl].
  destruct (computeds s !! c) as [cell|]; [|apply frame_refl].
  destruct (cdep cell) as [d|]; [apply frame_trackEffects|].
  unfold createDep. cbv beta iota zeta.
  eapply frame_trans; [|apply frame_trackEffects].
  eapply (frame_trans _ (set_depStore _ s)); [done|].
  by apply (frame_updComputed c).
Qed.

Lemma frame_stop e s : frame s (stop e s).
Proof.
  unfold stop. destruct (effects s !! e) as [ef|]; [|apply frame_refl].
  case_bool_decide; [by apply frame_updEffect|].
  destruct (active ef); [|apply frame_refl].
  eapply frame_trans; [apply frame_cleanupEffect|by apply frame_updEffect].
Qed.


Lemma frame_pauseTracking s : frame s (pauseTracking s).
Proof. done. Qed.

Lemma frame_resetTracking s : frame s (resetTracking s).
Proof. unfold resetTracking. by destruct (last (trackStack s)). Qed.

(** *** The running effects *)

Lemma parentOf_bind s p q : parentOf s p = Some q → effects s !! p ≫= parent = q.
Proof.
  unfold parentOf. destruct (effects s !! p) as [ef|]; simpl; [|done]. by intros [= <-].
Qed.

Lemma chain_head s cur l : chain s cur l → cur = head l.
Proof. by destruct 1. Qed.

Lemma chain_effects s s' cur l : effects s' = effects s → chain s cur l → chain s' cur l.
Proof. intros He. apply chain_frame. intros x. unfold parentOf. by rewrite He. Qed.

Lemma chain_updEffect s e f cur l :
  e ∉ l → chain s cur l → chain (updEffect e f s) cur l.
Proof.
  intros Hn Hc. induction Hc as [|p q l Hq _ IH]; [constructor|].
  apply not_elem_of_cons in Hn as [Hne Hn].
  econstructor; [|by apply IH].
  unfold parentOf, updEffect, set_effects. cbn [effects].
  by rewrite list_lookup_alter_ne.
Qed.

Lemma chain_lt s cur l x : chain s cur l → x ∈ l → (x < length (effects s))%nat.
Proof.
  induction 1 as [|p q l Hq _ IH]; [by intros ?%elem_of_nil|].
  intros [-> |Hx]%elem_of_cons; [|by apply IH].
  unfold parentOf in Hq. destruct (effects s !! p) eqn:Hp; [|done].
  by apply lookup_lt_Some in Hp.
Qed.

Lemma chain_bound s cur l :
  chain s cur l → NoDup l → (length l ≤ length (effects s))%nat.
Proof.
  intros Hc Hnd.
  assert (l ⊆+ seq 0 (length (effects s))) as Hsub.
  { apply NoDup_submseteq; [done|]. intros x Hx.
    apply elem_of_seq. pose proof (chain_lt _ _ _ _ Hc Hx). lia. }
  apply submseteq_length in Hsub. by rewrite length_seq in Hsub.
Qed.

Lemma onStack_chain fuel s e cur l :
  chain s cur l → (length l ≤ fuel)%nat →
  onStack fuel s e cur = Some (bool_decide (e ∈ l)).
Proof.
  intros Hc. revert fuel. induction Hc as [|p q l Hq _ IH]; intros fuel Hf.
  - destruct fuel; simpl; f_equal; symmetry; apply bool_decide_eq_false_2, not_elem_of_nil.
  - assert (onStack fuel s e (Some p) =
            if decide (p = e) then Some true
            else match fuel with
                 | O => None
                 | S fuel' => onStack fuel' s e (effects s !! p ≫= parent)
                 end) as -> by (by destruct fuel).
    destruct (decide (p = e)) as [-> |Hne].
    + f_equal. symmetry. apply bool_decide_eq_true_2. by left.
    + destruct fuel as [|fuel]; [simpl in Hf; lia|].
      rewrite (parentOf_bind _ _ _ Hq). rewrite IH; [|simpl in Hf; lia].
      f_equal. apply bool_decide_ext. rewrite elem_of_cons.
      split; [auto|intros [?|?]; [congruence|done]].
Qed.

Lemma keeps_ok s s' : keeps s s' → stackOK s → bitOK s → stackOK s' ∧ bitOK s'.
Proof.
  intros (Ha & Hd & Hb & Hc) (l & Hl & Hnd) Hbit. split.
  - exists l. rewrite Ha. auto.
  - unfold bitOK in *. congruence.
Qed.

(** The [try] block puts [e] on top of the running effects. *)
Lemma runTry_spec e s l :
  chain s (activeEffect s) l → e ∉ l → is_Some (effects s !! e) →
  let s1 := runTry e s in
  activeEffect s1 = Some e ∧ shouldTrack s1 = true ∧
  effectTrackDepth s1 = effectTrackDepth s + 1 ∧
  trackOpBit s1 = shl1 (effectTrackDepth s + 1) ∧
  chain s1 (Some e) (e :: l).
Proof.
  intros Hc Hn [ef He]. unfold runTry. cbv zeta.
  set (s0 := set_trackOpBit _ _).
  assert (activeEffect s0 = Some e ∧ shouldTrack s0 = true ∧
    effectTrackDepth s0 = effectTrackDepth s + 1 ∧
    trackOpBit s0 = shl1 (effectTrackDepth s + 1) ∧
    chain s0 (Some e) (e :: l)) as H0.
  { split_and!; try done. econstructor.
    - unfold parentOf. subst s0. cbn [effects set_trackOpBit set_effectTrackDepth
        set_shouldTrack set_activeEffect updEffect set_effects].
      rewrite list_lookup_alter_eq, He. done.
    - eapply (chain_effects (updEffect e (with_parent (activeEffect s)) s)); [done|].
      by apply chain_updEffect. }
  destruct H0 as (Ha & Ht & Hd & Hb & Hch).
  assert (∀ s1, frame s0 s1 → shouldTrack s1 = shouldTrack s0 →
    activeEffect s1 = Some e ∧ shouldTrack s1 = true ∧
    effectTrackDepth s1 = effectTrackDepth s + 1 ∧
    trackOpBit s1 = shl1 (effectTrackDepth s + 1) ∧
    chain s1 (Some e) (e :: l)) as Hfr.
  { intros s1 (_ & Hp & Ha1 & Hd1 & Hb1) Ht1. split_and!; try congruence.
    by apply (chain_frame s0). }
  destruct (effectTrackDepth s0 <=? maxMarkerBits).
  - apply Hfr; [apply frame_initDepMarkers|].
    unfold initDepMarkers. destruct (effects s0 !! e) as [ef0|]; [|done].
    generalize (deps ef0) s0. clear. intros ds. induction ds as [|d ds IH]; intros s; [done|].
    simpl. by rewrite IH.
  - apply Hfr; [apply frame_cleanupEffect|].
    unfold cleanupEffect. destruct (effects s0 !! e) as [ef0|]; [|done].
    cbn [shouldTrack updEffect set_effects].
    generalize (deps ef0) s0. clear. intros ds. induction ds as [|d ds IH]; intros s; [done|].
    simpl. by rewrite IH.
Qed.

(** The [finally] block takes [e] off again. *)
Lemma runFinally_spec e b s l :
  chain s (Some e) (e :: l) → e ∉ l →
  let s1 := runFinally e b s in
  activeEffect s1 = head l ∧ shouldTrack s1 = b ∧
  effectTrackDepth s1 = effectTrackDepth s - 1 ∧
  trackOpBit s1 = shl1 (effectTrackDepth s - 1) ∧
  chain s1 (head l) l.
Proof.
  intros Hc Hn. unfold runFinally. cbv zeta.
  set (sa := if effectTrackDepth s <=? maxMarkerBits then finalizeDepMarkers e s else s).
  assert (frame s sa) as (_ & Hp & Ha & Hd & Hb).
  { subst sa. destruct (_ <=? _); [apply frame_finalizeDepMarkers|apply frame_refl]. }
  inversion Hc as [|p q' l' Hq Hl]; subst.
  pose proof (chain_head _ _ _ Hl) as ->.
  set (sb := updEffect e (with_parent None) _).
  assert (activeEffect sb = head l ∧ shouldTrack sb = b ∧
    effectTrackDepth sb = effectTrackDepth s - 1 ∧
    trackOpBit sb = shl1 (effectTrackDepth s - 1) ∧
    chain sb (head l) l) as Hsb.
  { subst sb. split_and!.
    - cbn. apply parentOf_bind. by rewrite Hp.
    - done.
    - cbn. by rewrite Hd.
    - cbn. by rewrite Hd.
    - apply chain_updEffect; [done|].
      eapply (chain_effects sa); [done|]. by apply (chain_frame s). }
  destruct Hsb as (Ha' & Ht' & Hd' & Hb' & Hc').
  assert (∀ s1, frame sb s1 → shouldTrack s1 = shouldTrack sb →
    activeEffect s1 = head l ∧ shouldTrack s1 = b ∧
    effectTrackDepth s1 = effectTrackDepth s - 1 ∧
    trackOpBit s1 = shl1 (effectTrackDepth s - 1) ∧
    chain s1 (head l) l) as Hfr.
  { intros s1 (_ & Hp1 & Ha1 & Hd1 & Hb1) Ht1. split_and!; try congruence.
    by apply (chain_frame sb). }
  destruct (effects sb !! e) as [ef'|]; [|by apply Hfr; [apply frame_refl|]].
  destruct (deferStop ef'); [|by apply Hfr; [apply frame_refl|]].
  apply Hfr; [apply frame_stop|].
  unfold stop. destruct (effects sb !! e) as [ef2|]; [|done].
  case_bool_decide; [done|]. destruct (active ef2); [|done].
  unfold cleanupEffect. cbn [shouldTrack updEffect set_effects].
  destruct (effects sb !! e) as [ef3|]; [|done].
  cbn [shouldTrack updEffect set_effects].
  generalize (deps ef3) sb. clear. intros ds. induction ds as [|d ds IH]; intros s; [done|].
  simpl. by rewrite IH.
Qed.


(** The equations of the engine. *)
Lemma run_S fuel e s :
  run (S fuel) e s =
  ef ← effects s !! e;
  if negb (active ef) then exec fuel (fn ef) (note (Called e) s)
  else
    running ← onStack (length (effects s)) s e (activeEffect s);
    if running : bool then Some (Normal VUndefined, s)
    else
      '(o, s') ← exec fuel (fn ef) (note (Called e) (runTry e s));
      Some (o, runFinally e (shouldTrack s) s').
Proof. reflexivity. Qed.

Lemma triggerEffects_S fuel d s :
  triggerEffects (S fuel) d s =
  match depStore s !! d with
  | Some x =>
      '(o, s1) ← triggerLoop (triggerEffect fuel)
                  (filter (λ e, isComputedEffect s e = true) (subs x))
                  (note (Triggered d) s);
      match o with
      | Normal _ =>
          triggerLoop (triggerEffect fuel)
            (filter (λ e, isComputedEffect s1 e = false) (subs x)) s1
      | Thrown => Some (Thrown, s1)
      end
  | None => Some (Normal VUndefined, note (Triggered d) s)
  end.
Proof. reflexivity. Qed.

Lemma triggerEffect_S fuel e s :
  triggerEffect (S fuel) e s =
  match effects s !! e with
  | Some ef =>
      if negb (bool_decide (activeEffect s = Some e)) || allowRecurse ef then
        match scheduler ef with
        | Some (ComputedScheduler c) => computedScheduler fuel c s
        | Some UserScheduler => Some (Normal VUndefined, note (Scheduled e) s)
        | None => run fuel e s
        end
      else Some (Normal VUndefined, s)
  | None => Some (Normal VUndefined, s)
  end.
Proof. reflexivity. Qed.

Lemma computedScheduler_S fuel c s :
  computedScheduler (S fuel) c s =
  match computeds s !! c with
  | Some cell =>
      if negb (_dirty cell) then
        match cdep cell with
        | Some cd => triggerEffects fuel cd (updComputed c (with_dirty true) s)
        | None => Some (Normal VUndefined, updComputed c (with_dirty true) s)
        end
      else Some (Normal VUndefined, s)
  | None => Some (Normal VUndefined, s)
  end.
Proof. reflexivity. Qed.

Lemma trigger_S fuel k s :
  trigger (S fuel) k s =
  match targetMap s !! k with
  | Some d => triggerEffects fuel d s
  | None => Some (Normal VUndefined, s)
  end.
Proof. reflexivity. Qed.

Lemma readComputed_S fuel c s :
  readComputed (S fuel) c s =
  match computeds (trackRefValue c s) !! c with
  | Some cell =>
      if _dirty cell || negb (_cacheable cell) then
        '(o, s') ← run fuel (effect cell) (updComputed c (with_dirty false) (trackRefValue c s));
        match o with
        | Normal v => Some (Normal v, updComputed c (with_value v) s')
        | Thrown => Some (Thrown, s')
        end
      else Some (Normal (_value cell), trackRefValue c s)
  | None => Some (Thrown, trackRefValue c s)
  end.
Proof. reflexivity. Qed.

(** *** Every piece of the engine keeps the running effects *)

Definition Keeps {A} (f : A → state → option (outcome * state)) : Prop :=
  ∀ a s o s', f a s = Some (o, s') → stackOK s → bitOK s → keeps s s'.

Lemma keeps_step s s1 s' :
  stackOK s → bitOK s → keeps s s1 →
  (stackOK s1 → bitOK s1 → keeps s1 s') → keeps s s'.
Proof.
  intros Hs Hb H1 H2. destruct (keeps_ok _ _ H1 Hs Hb).
  eapply keeps_trans; eauto.
Qed.

Lemma triggerLoop_keeps f : Keeps f → Keeps (triggerLoop f).
Proof.
  intros Hf es. induction es as [|e es IH]; intros s o s' H Hs Hb; simpl in H.
  - injection H as <- <-. apply keeps_refl.
  - destruct (f e s) as [[o1 s1]|] eqn:Hfe; simpl in H; [|done].
    apply (keeps_step s s1); [done|done|by eapply Hf|]. intros Hs1 Hb1.
    destruct o1; [by eapply IH|]. injection H as <- <-. apply keeps_refl.
Qed.

Lemma engine_keeps fuel :
  Keeps (exec fuel) ∧
  (∀ e s o s', run fuel e s = Some (o, s') → stackOK s → bitOK s →
     keeps s s' ∧
     (∀ ef, effects s !! e = Some ef → active ef = true →
        shouldTrack s' = shouldTrack s)) ∧
  Keeps (triggerEffects fuel) ∧ Keeps (triggerEffect fuel) ∧
  Keeps (computedScheduler fuel) ∧ Keeps (trigger fuel) ∧
  Keeps (readComputed fuel).
Proof.
  induction fuel as [|fuel (IHexec & IHrun & IHtes & IHte & IHcs & IHtr & IHrc)].
  { split_and!; intros ?; intros; done. }
  assert (Keeps (run fuel)) as IHrun'.
  { intros e s o s' H Hs Hb. by destruct (IHrun e s o s' H Hs Hb). }
  split_and!.
  - (* exec *)
    intros c s o s' H Hs Hb. destruct c; simpl in H.
    + injection H as <- <-. apply keeps_refl.
    + injection H as <- <-. apply keeps_refl.
    + apply (keeps_step s (track k (note (Read k) s))); [done|done| |by eapply IHexec].
      apply (keeps_trans _ (note (Read k) s)); [by apply keeps_same|].
      apply frame_keeps, frame_track.
    + set (s0 := set_store _ s) in H.
      assert (keeps s s0) as H0 by (by apply keeps_same).
      destruct (keeps_ok _ _ H0 Hs Hb) as [Hs0 Hb0].
      apply (keeps_trans s s0); [done|].
      destruct (_ || _).
      * destruct (trigger fuel k s0) as [[o1 s1]|] eqn:Ht; simpl in H; [|done].
        apply (keeps_step s0 s1); [done|done|by eapply IHtr|]. intros Hs1 Hb1.
        destruct o1; [by eapply IHexec|]. injection H as <- <-. apply keeps_refl.
      * simpl in H. by eapply IHexec.
    + destruct (readComputed fuel c s) as [[o1 s1]|] eqn:Ht; simpl in H; [|done].
      apply (keeps_step s s1); [done|done|by eapply IHrc|]. intros Hs1 Hb1.
      destruct o1; [by eapply IHexec|]. injection H as <- <-. apply keeps_refl.
    + destruct (run fuel e s) as [[o1 s1]|] eqn:Ht; simpl in H; [|done].
      apply (keeps_step s s1); [done|done|by eapply IHrun'|]. intros Hs1 Hb1.
      destruct o1; [by eapply IHexec|]. injection H as <- <-. apply keeps_refl.
    + apply (keeps_step s (stop e s)); [done|done| |by eapply IHexec].
      apply frame_keeps, frame_stop.
    + apply (keeps_step s (pauseTracking s)); [done|done| |by eapply IHexec].
      apply frame_keeps, frame_pauseTracking.
    + apply (keeps_step s (resetTracking s)); [done|done| |by eapply IHexec].
      apply frame_keeps, frame_resetTracking.
  - (* run *)
    intros e s o s' H Hs Hb. rewrite run_S in H.
    destruct (effects s !! e) as [ef|] eqn:He; simpl in H; [|done].
    destruct (active ef) eqn:Hact; simpl in H.
    + destruct Hs as (l & Hl & Hnd).
      rewrite (onStack_chain _ _ _ _ l) in H; [|done|by eapply chain_bound].
      simpl in H. case_bool_decide as Hin.
      { injection H as <- <-. split; [apply keeps_refl|done]. }
      destruct (runTry_spec e s l Hl Hin) as (Ha1 & Ht1 & Hd1 & Hb1 & Hc1); [by eexists|].
      destruct (exec fuel (fn ef) _) as [[o2 s2]|] eqn:Hex; simpl in H; [|done].
      injection H as <- <-.
      assert (stackOK (note (Called e) (runTry e s))) as Hs1.
      { exists (e :: l). split; [|by apply NoDup_cons].
        change (activeEffect (note (Called e) (runTry e s)))
          with (activeEffect (runTry e s)).
        rewrite Ha1. by apply (chain_effects (runTry e s)). }
      assert (bitOK (note (Called e) (runTry e s))) as Hbit1.
      { unfold bitOK.
        change (trackOpBit (runTry e s) = shl1 (effectTrackDepth (runTry e s))).
        by rewrite Hb1, Hd1. }
      destruct (IHexec _ _ _ _ Hex Hs1 Hbit1) as (Ha2 & Hd2 & Hb2 & Hc2).
      change (activeEffect s2 = activeEffect (runTry e s)) in Ha2.
      change (effectTrackDepth s2 = effectTrackDepth (runTry e s)) in Hd2.
      change (trackOpBit s2 = trackOpBit (runTry e s)) in Hb2.
      specialize (Hc2 (e :: l)).
      change (chain (note (Called e) (runTry e s)) (activeEffect (runTry e s)) (e :: l)
              → chain s2 (activeEffect (runTry e s)) (e :: l)) in Hc2.
      rewrite Ha1 in Hc2.
      specialize (Hc2 (chain_effects (runTry e s) (note (Called e) (runTry e s)) _ _ eq_refl Hc1)).
      destruct (runFinally_spec e (shouldTrack s) s2 l) as (Ha3 & Ht3 & Hd3 & Hb3 & Hc3);
        [done|done|].
      pose proof (chain_head _ _ _ Hl) as Hhd.
      split; [|by intros].
      split_and!.
      * by rewrite Ha3.
      * rewrite Hd3, Hd2, Hd1. lia.
      * rewrite Hb3, Hd2, Hd1, Hb. f_equal. lia.
      * intros l' Hl'. assert (l' = l) as ->.
        { clear -Hl Hl'. revert l' Hl'. induction Hl as [|p q l Hq _ IH]; intros l' Hl'.
          - by inversion Hl'.
          - inversion Hl' as [|p' q' l'' Hq' Hl'']; subst. f_equal. apply IH.
            rewrite Hq in Hq'. by injection Hq' as <-. }
        by rewrite Hhd.
    + split; [|intros ef' [= <-]; congruence].
      apply (keeps_step s (note (Called e) s)); [done|done|by apply keeps_same|].
      intros. by eapply IHexec.
  - (* triggerEffects *)
    intros d s o s' H Hs Hb. rewrite triggerEffects_S in H.
    set (s0 := note (Triggered d) s) in H.
    assert (keeps s s0) as H0 by (by apply keeps_same).
    destruct (keeps_ok _ _ H0 Hs Hb) as [Hs0 Hb0].
    apply (keeps_trans s s0); [done|].
    destruct (depStore s !! d) as [x|]; [|injection H as <- <-; apply keeps_refl].
    destruct (triggerLoop _ _ s0) as [[o1 s1]|] eqn:Ht; simpl in H; [|done].
    apply (keeps_step s0 s1); [done|done|by eapply (triggerLoop_keeps _ IHte)|].
    intros Hs1 Hb1.
    destruct o1; [by eapply (triggerLoop_keeps _ IHte)|].
    injection H as <- <-. apply keeps_refl.
  - (* triggerEffect *)
    intros e s o s' H Hs Hb. rewrite triggerEffect_S in H.
    destruct (effects s !! e) as [ef|]; [|injection H as <- <-; apply keeps_refl].
    destruct (_ || _); [|injection H as <- <-; apply keeps_refl].
    destruct (scheduler ef) as [[c|]|].
    + by eapply IHcs.
    + injection H as <- <-. by apply keeps_same.
    + by eapply IHrun'.
  - (* computedScheduler *)
    intros c s o s' H Hs Hb. rewrite computedScheduler_S in H.
    destruct (computeds s !! c) as [cell|]; [|injection H as <- <-; apply keeps_refl].
    destruct (negb (_dirty cell)); [|injection H as <- <-; apply keeps_refl].
    set (s0 := updComputed _ _ s) in H.
    assert (keeps s s0) as H0 by (by apply keeps_same).
    destruct (keeps_ok _ _ H0 Hs Hb) as [Hs0 Hb0].
    destruct (cdep cell) as [cd|].
    + apply (keeps_trans s s0); [done|]. by eapply IHtes.
    + by injection H as <- <-.
  - (* trigger *)
    intros k s o s' H Hs Hb. rewrite trigger_S in H.
    destruct (targetMap s !! k) as [d|]; [by eapply IHtes|].
    injection H as <- <-. apply keeps_refl.
  - (* readComputed *)
    intros c s o s' H Hs Hb. rewrite readComputed_S in H.
    set (s0 := trackRefValue c s) in H.
    assert (keeps s s0) as H0 by (apply frame_keeps, frame_trackRefValue).
    destruct (keeps_ok _ _ H0 Hs Hb) as [Hs0 Hb0].
    apply (keeps_trans s s0); [done|].
    destruct (computeds s0 !! c) as [cell|]; [|injection H as <- <-; apply keeps_refl].
    destruct (_ || _); [|injection H as <- <-; apply keeps_refl].
    set (s1 := updComputed _ _ s0) in H.
    assert (keeps s0 s1) as H1 by (by apply keeps_same).
    destruct (keeps_ok _ _ H1 Hs0 Hb0) as [Hs1 Hb1].
    apply (keeps_trans s0 s1); [done|].
    destruct (run fuel (effect cell) s1) as [[o2 s2]|] eqn:Hr; simpl in H; [|done].
    apply (keeps_trans s1 s2); [by eapply IHrun'|].
    destruct o2; injection H as <- <-; [by apply keeps_same|apply keeps_refl].
Qed.


(** A table of effects, in the state in which the module is loaded. *)
Definition mkEffect (f : code) : ReactiveEffect :=
  {| active := true; deps := []; parent := None; computed := None;
     allowRecurse := false; deferStop := false; scheduler := None; fn := f |}.

Definition initial (es : list ReactiveEffect) (cs : list ComputedRefImpl)
  (vals : list (key * value)) : state :=
  {| depStore := []; effects := es; computeds := cs; targetMap := ∅;
     store := list_to_map vals; activeEffect := None; shouldTrack := true;
     effectTrackDepth := 0; trackOpBit := 1; trackStack := []; record := [] |}.

(** *** Computed cells *)






























(** *** Invalidations *)

(** The events [evs] are added to the record. *)
Definition notes (evs : list event) (s : state) : state := foldl (λ s x, note x s) s evs.

Lemma notes_app evs x s : notes (evs ++ [x]) s = note x (notes evs s).
Proof. unfold notes. by rewrite foldl_app. Qed.










(** *** C5: the cache of a computed cell *)

(** What the constructor of [ComputedRefImpl] makes: the cell, dirty, and its
    effect, with the scheduler of the cell; [cacheable] is [!isSSR], and the
    effect is active when the cell caches. *)
Definition mkComputed (cacheable : bool) (e : eff) : ComputedRefImpl :=
  {| cdep := None; _value := VUndefined; _dirty := true; _cacheable := cacheable;
     effect := e |}.

Definition mkGetter (c : cid) (cacheable : bool) (f : code) : ReactiveEffect :=
  {| active := cacheable; deps := []; parent := None; computed := Some c;
     allowRecurse := false; deferStop := false;
     scheduler := Some (ComputedScheduler c); fn := f |}.

(** A cell whose getter reads the property 0 and adds one. *)
Definition successor (v : value) : value :=
  match v with VNum z => VNum (z + 1) | VUndefined => VUndefined end.

Definition cellState (cacheable : bool) : state :=
  initial [mkGetter 0 cacheable (ReadProp 0 (λ v, Ret (successor v)))]
          [mkComputed cacheable 0] [(0%nat, VNum 1)].

Lemma getters_cellState b : getters (cellState b).
Proof.
  intros [|c] cell Hc; [|done]. injection Hc as <-. eexists. split; [reflexivity|].
  simpl. constructor. intros v. constructor.
Qed.

Lemma owns_cellState b : owns (cellState b) 0 0.
Proof. by intros [|c] cell Hc _. Qed.









(** *** C9: what [run] restores *)

Lemma initial_ok es cs vals : stackOK (initial es cs vals) ∧ bitOK (initial es cs vals).
Proof. split; [exists []; split; constructor|reflexivity]. Qed.

(** C9, as amended. In a state in which the running effects are distinct
    and the generation bit is that of the depth (as in every state the
    engine reaches), when [run] of an effect returns, normally or with the
    exception of its function, [activeEffect], [trackOpBit] and
    [effectTrackDepth] are what they were before the call; so is
    [shouldTrack] when the effect is active. *)
Theorem run_restores fuel e s o s' :
  stackOK s → bitOK s →
  run fuel e s = Some (o, s') →
  activeEffect s' = activeEffect s ∧
  trackOpBit s' = trackOpBit s ∧
  effectTrackDepth s' = effectTrackDepth s ∧
  (∀ ef, effects s !! e = Some ef → active ef = true →
     shouldTrack s' = shouldTrack s).
Proof.
  intros Hs Hb H.
  destruct (engine_keeps fuel) as (_ & Hrun & _).
  destruct (Hrun e s o s' H Hs Hb) as ((Ha & Hd & Hbit & _) & Ht).
  auto.
Qed.

(** An effect whose function pauses the tracking and throws. *)
Definition throwing : state := initial [mkEffect (PauseTracking Throw)] [] [].

Lemma run_restores_witness :
  ∃ s', run 3 0 throwing = Some (Thrown, s') ∧
    activeEffect s' = activeEffect throwing ∧
    trackOpBit s' = trackOpBit throwing ∧
    effectTrackDepth s' = effectTrackDepth throwing ∧
    (∀ ef, effects throwing !! 0%nat = Some ef → active ef = true →
       shouldTrack s' = shouldTrack throwing).
Proof.
  destruct (run 3 0 throwing) as [[o s']|] eqn:H; [|by vm_compute in H].
  assert (o = Thrown) as -> by (vm_compute in H; by injection H as <- _).
  exists s'. split; [done|].
  apply (run_restores 3 0%nat throwing Thrown s'); [apply initial_ok..|exact H].
Defined.

(** The same effect, stopped: [run] calls its function as it is, and the
    tracking stays paused. *)
Lemma run_restores_counterexample :
  ∃ s', run 3 0 (stop 0 throwing) = Some (Thrown, s') ∧
    shouldTrack (stop 0 throwing) = true ∧ shouldTrack s' = false.
Proof. eexists. split; [vm_compute; reflexivity|]. by vm_compute. Qed.


(** *** The markers *)

Lemma testbit_lor_pow2 a j i :
  0 ≤ j → 0 ≤ i → Z.testbit (Z.lor a (2 ^ j)) i = Z.testbit a i || bool_decide (i = j).
Proof.
  intros Hj Hi. rewrite Z.lor_spec, Z.pow2_bits_eqb by done. f_equal.
  case_bool_decide; [by apply Z.eqb_eq|apply Z.eqb_neq; congruence].
Qed.

Lemma testbit_clear_pow2 a j i :
  0 ≤ j → 0 ≤ i →
  Z.testbit (Z.land a (Z.lnot (2 ^ j))) i = Z.testbit a i && negb (bool_decide (i = j)).
Proof.
  intros Hj Hi. rewrite Z.land_spec, Z.lnot_spec, Z.pow2_bits_eqb by done. do 2 f_equal.
  case_bool_decide; [by apply Z.eqb_eq|apply Z.eqb_neq; congruence].
Qed.

Lemma land_pow2 a j : 0 ≤ j → Z.land a (2 ^ j) = if Z.testbit a j then 2 ^ j else 0.
Proof.
  intros Hj. apply Z.bits_inj'. intros i Hi.
  rewrite Z.land_spec, Z.pow2_bits_eqb by done.
  destruct (Z.eqb_spec j i) as [-> |Hne].
  - rewrite andb_true_r. destruct (Z.testbit a i) eqn:Ha.
    + rewrite Z.pow2_bits_eqb by done. symmetry. by apply Z.eqb_eq.
    + by rewrite Z.bits_0.
  - rewrite andb_false_r. destruct (Z.testbit a j).
    + rewrite Z.pow2_bits_eqb by done. symmetry. by apply Z.eqb_neq.
    + by rewrite Z.bits_0.
Qed.

Lemma tracked_pow2 a j : 0 ≤ j → (0 <? Z.land a (2 ^ j)) = Z.testbit a j.
Proof.
  intros Hj. rewrite land_pow2 by done. destruct (Z.testbit a j).
  - apply Z.ltb_lt. by apply Z.pow_pos_nonneg.
  - done.
Qed.

Lemma shl1_pow2 j : 0 ≤ j ≤ maxMarkerBits → shl1 j = 2 ^ j.
Proof.
  unfold maxMarkerBits, shl1. intros Hj. rewrite Z.mod_small by lia.
  destruct (Z.eqb_spec j 31); [lia|]. rewrite Z.shiftl_mul_pow2 by lia. lia.
Qed.

(** *** The effect of a depth *)

Lemma running_Some l j e :
  running l j = Some e ↔
  1 ≤ j ≤ maxMarkerBits ∧ reverse l !! (Z.to_nat j - 1)%nat = Some e.
Proof.
  unfold running. destruct (decide (1 ≤ j ≤ maxMarkerBits)); [tauto|].
  split; [done|tauto].
Qed.

Lemma running_elem l j e : running l j = Some e → e ∈ l ∧ j ≤ Z.of_nat (length l).
Proof.
  intros [Hj Hl]%running_Some. split.
  - apply elem_of_reverse. by eapply list_elem_of_lookup_2.
  - apply lookup_lt_Some in Hl. rewrite length_reverse in Hl. lia.
Qed.

Lemma running_inj l j j' e :
  NoDup l → running l j = Some e → running l j' = Some e → j = j'.
Proof.
  intros Hnd [Hj Hl]%running_Some [Hj' Hl']%running_Some.
  assert (NoDup (reverse l)) as Hnd' by (by rewrite reverse_Permutation).
  pose proof (NoDup_lookup _ _ _ _ Hnd' Hl Hl'). lia.
Qed.

Lemma running_cons e l j :
  running (e :: l) j =
  if decide (j = Z.of_nat (length l) + 1 ∧ j ≤ maxMarkerBits) then Some e
  else running l j.
Proof.
  unfold running. rewrite reverse_cons.
  destruct (decide (1 ≤ j ≤ maxMarkerBits)) as [Hj|Hj].
  - destruct (decide (j = Z.of_nat (length l) + 1 ∧ j ≤ maxMarkerBits)) as [[-> _]|Hne].
    + rewrite lookup_app_r; rewrite length_reverse; [|lia].
      replace (Z.to_nat (Z.of_nat (length l) + 1) - 1 - length l)%nat with 0%nat by lia.
      done.
    + destruct (decide (Z.to_nat j - 1 < length l)%nat).
      * rewrite lookup_app_l; [done|by rewrite length_reverse].
      * rewrite !lookup_ge_None_2; [done|rewrite length_reverse; lia|].
        rewrite length_app, length_reverse. simpl. lia.
  - destruct (decide _) as [[-> ?]|]; [lia|done].
Qed.

Lemma running_top e l :
  Z.of_nat (length l) + 1 ≤ maxMarkerBits →
  running (e :: l) (Z.of_nat (length l) + 1) = Some e.
Proof. intros. rewrite running_cons. by rewrite decide_True. Qed.

Lemma running_over l j : Z.of_nat (length l) < j → running l j = None.
Proof.
  intros Hj. destruct (running l j) as [e|] eqn:H; [|done].
  apply running_elem in H. lia.
Qed.


(** *** What an update does to the sets and to the masks *)

Lemma subsOf_updDep d f s d' :
  subsOf (updDep d f s) d' =
  if decide (d' = d) then match depStore s !! d with Some x => subs (f x) | None => [] end
  else subsOf s d'.
Proof.
  unfold subsOf, updDep, set_depStore. cbn [depStore].
  destruct (decide (d' = d)) as [-> |Hne].
  - rewrite list_lookup_alter_eq. by destruct (depStore s !! d).
  - by rewrite list_lookup_alter_ne.
Qed.

Lemma wbitAt_updDep d f s d' j :
  wbitAt (updDep d f s) d' j =
  if decide (d' = d)
  then match depStore s !! d with Some x => Z.testbit (w (f x)) j | None => false end
  else wbitAt s d' j.
Proof.
  unfold wbitAt, updDep, set_depStore. cbn [depStore].
  destruct (decide (d' = d)) as [-> |Hne].
  - rewrite list_lookup_alter_eq. by destruct (depStore s !! d).
  - by rewrite list_lookup_alter_ne.
Qed.

Lemma nbitAt_updDep d f s d' j :
  nbitAt (updDep d f s) d' j =
  if decide (d' = d)
  then match depStore s !! d with Some x => Z.testbit (n (f x)) j | None => false end
  else nbitAt s d' j.
Proof.
  unfold nbitAt, updDep, set_depStore. cbn [depStore].
  destruct (decide (d' = d)) as [-> |Hne].
  - rewrite list_lookup_alter_eq. by destruct (depStore s !! d).
  - by rewrite list_lookup_alter_ne.
Qed.

Lemma depsOf_updEffect e f s e' :
  depsOf (updEffect e f s) e' =
  if decide (e' = e) then match effects s !! e with Some ef => deps (f ef) | None => [] end
  else depsOf s e'.
Proof.
  unfold depsOf, updEffect, set_effects. cbn [effects].
  destruct (decide (e' = e)) as [-> |Hne].
  - rewrite list_lookup_alter_eq. by destruct (effects s !! e).
  - by rewrite list_lookup_alter_ne.
Qed.

Lemma domain_updDep d f s d' :
  is_Some (depStore (updDep d f s) !! d') ↔ is_Some (depStore s !! d').
Proof.
  unfold updDep, set_depStore. cbn [depStore].
  rewrite !lookup_lt_is_Some, length_alter. done.
Qed.

(** [tracks added marker e d j s t]: from [s] to [t], the bit [j] of [n] of
    the set [d] was set, if [marker]; and [e] became a member of [d], which it
    was not, if [added]. *)
Definition tracks (added marker : bool) (e : eff) (d : dep) (j : Z) (s t : state) : Prop :=
  (∀ e', depsOf t e' = if added && bool_decide (e' = e) then depsOf s e ++ [d]
                       else depsOf s e') ∧
  (∀ d', subsOf t d' = if added && bool_decide (d' = d) then subsOf s d ++ [e]
                       else subsOf s d') ∧
  (∀ d' j', wbitAt t d' j' = wbitAt s d' j') ∧
  (∀ d' j', 0 ≤ j' →
     nbitAt t d' j' = nbitAt s d' j' || (marker && bool_decide (d' = d ∧ j' = j))).

Lemma mirror_tracks added marker e d j s t :
  tracks added marker e d j s t → (added = true → d ∉ depsOf s e) →
  mirror s → mirror t.
Proof.
  intros (Hd & Hs & _) Hnew [Hnd Hm]. split.
  - intros e'. rewrite Hd. destruct added; simpl; [|done].
    case_bool_decide as He; [subst e'|done].
    apply NoDup_app. split_and!; [done| |apply NoDup_singleton].
    intros x Hx ->%list_elem_of_singleton. by apply Hnew.
  - intros e' d'. rewrite Hd, Hs. destruct added; simpl; [|apply Hm].
    repeat case_bool_decide; subst; rewrite ?elem_of_app, ?list_elem_of_singleton.
    + tauto.
    + rewrite Hm. split; [intros [?|?]; [done|congruence]|auto].
    + rewrite Hm. split; [auto|intros [?|?]; [done|congruence]].
    + apply Hm.
Qed.

Lemma marked_tracks added marker e d j s t l :
  tracks added marker e d j s t → NoDup l → e ∈ l →
  (marker = true → running l j = Some e) →
  (marker = false → ∀ j', running l j' ≠ Some e) →
  (added = false → marker = true → d ∈ depsOf s e) →
  marked s l → marked t l.
Proof.
  intros (Hd & Hs & Hw & Hn) Hnd Hel Hrun Hfall Hknown Hm d' j' Hj'.
  specialize (Hm d' j' Hj'). rewrite Hw, Hn by done.
  destruct (running l j') as [e'|] eqn:Hr.
  - rewrite Hd. destruct marker; simpl.
    + specialize (Hrun eq_refl).
      destruct (decide (e' = e)) as [-> |Hne].
      * pose proof (running_inj _ _ _ _ Hnd Hr Hrun) as ->.
        rewrite (bool_decide_eq_true_2 (e = e)) by done.
        destruct (decide (d' = d)) as [-> |Hd'].
        -- rewrite (bool_decide_eq_true_2 (d = d ∧ _)) by done. rewrite !orb_true_r.
           destruct added; simpl.
           ++ rewrite elem_of_app, list_elem_of_singleton. tauto.
           ++ split; [intros _; by apply Hknown|done].
        -- rewrite (bool_decide_eq_false_2 (d' = d ∧ _)) by tauto. rewrite orb_false_r.
           destruct added; simpl; [|done].
           rewrite elem_of_app, list_elem_of_singleton. tauto.
      * rewrite (bool_decide_eq_false_2 (e' = e)) by done. rewrite andb_false_r.
        rewrite (bool_decide_eq_false_2 (d' = d ∧ _)).
        { by rewrite orb_false_r. }
        intros [_ ->]. rewrite Hrun in Hr. by injection Hr as ->.
    + rewrite orb_false_r.
      destruct (decide (e' = e)) as [-> |Hne]; [by destruct (Hfall eq_refl j')|].
      rewrite (bool_decide_eq_false_2 (e' = e)) by done. by rewrite andb_false_r.
  - destruct marker; simpl; [|by rewrite orb_false_r].
    rewrite (bool_decide_eq_false_2 (d' = d ∧ _)); [by rewrite orb_false_r|].
    intros [_ ->]. rewrite (Hrun eq_refl) in Hr. done.
Qed.


Lemma lookup_updDep d f s : depStore (updDep d f s) !! d = f <$> (depStore s !! d).
Proof. unfold updDep, set_depStore. cbn [depStore]. apply list_lookup_alter_eq. Qed.

Lemma stacked_top s e l :
  stacked s (e :: l) →
  activeEffect s = Some e ∧ is_Some (effects s !! e) ∧ (e ∉ l) ∧
  effectTrackDepth s = Z.of_nat (length l) + 1 ∧
  trackOpBit s = shl1 (Z.of_nat (length l) + 1).
Proof.
  intros (Hc & Hnd & Hd & Hb).
  apply NoDup_cons in Hnd as [Hin _].
  assert (effectTrackDepth s = Z.of_nat (length l) + 1) as Hd'.
  { rewrite Hd. simpl. lia. }
  split_and!; [by apply chain_head in Hc| |done|done|by rewrite Hb, Hd'].
  inversion Hc as [|p q l' Hq _]; subst. unfold parentOf in Hq.
  by destruct (effects s !! e).
Qed.

(** [trackEffects] for the effect that runs innermost. *)
Lemma trackEffects_tracks e d s l x :
  stacked s (e :: l) → mirror s → marked s (e :: l) →
  depStore s !! d = Some x →
  ∃ added marker,
    tracks added marker e d (effectTrackDepth s) s (trackEffects e d s) ∧
    (added = true → d ∉ depsOf s e) ∧
    marker = (effectTrackDepth s <=? maxMarkerBits) ∧
    (added = false → d ∈ depsOf s e).
Proof.
  intros Hst [Hnd Hm] Hmk Hx.
  destruct (stacked_top _ _ _ Hst) as (Ha & [ef Hef] & Hin & Hd & Hb).
  assert (subsOf s d = subs x) as Hsubs by (unfold subsOf; by rewrite Hx).
  assert (depsOf s e = deps ef) as Hdeps by (unfold depsOf; by rewrite Hef).
  unfold trackEffects. cbv zeta.
  change (depStore (note (Tracked e d) s) !! d) with (depStore s !! d). rewrite Hx.
  change (effectTrackDepth (note (Tracked e d) s)) with (effectTrackDepth s).
  set (j := effectTrackDepth s) in *.
  set (s0 := note (Tracked e d) s).
  destruct (j <=? maxMarkerBits) eqn:Hj.
  - apply Z.leb_le in Hj.
    assert (0 ≤ j) as Hj0 by lia.
    assert (trackOpBit s0 = 2 ^ j) as Hbit.
    { change (trackOpBit s0) with (trackOpBit s). rewrite Hb, <- Hd. apply shl1_pow2. lia. }
    assert (running (e :: l) j = Some e) as Hrun.
    { rewrite Hd. apply running_top. lia. }
    specialize (Hmk d j Hj0). rewrite Hrun in Hmk.
    unfold wbitAt, nbitAt in Hmk. rewrite Hx in Hmk.
    unfold newTracked, wasTracked. rewrite Hbit, !tracked_pow2 by done.
    destruct (Z.testbit (n x) j) eqn:Hn; cbn [negb].
    + exists false, true. split_and!; [|done|done|intros _; apply Hmk; by rewrite orb_true_r].
      split_and!; try done. intros d' j' Hj'. simpl.
      change (nbitAt s0 d' j') with (nbitAt s d' j').
      case_bool_decide as Hd'; [|by rewrite orb_false_r].
      destruct Hd' as [-> ->]. unfold nbitAt. by rewrite Hx, Hn.
    + set (s1 := updDep d _ s0).
      assert (∀ d' j', 0 ≤ j' →
        nbitAt s1 d' j' = nbitAt s d' j' || bool_decide (d' = d ∧ j' = j)) as Hn1.
      { intros d' j' Hj'. subst s1. rewrite nbitAt_updDep.
        change (depStore s0 !! d) with (depStore s !! d). rewrite Hx.
        destruct (decide (d' = d)) as [-> |Hne].
        - cbn [n with_n]. rewrite testbit_lor_pow2 by done.
          unfold nbitAt. rewrite Hx. f_equal. apply bool_decide_ext. tauto.
        - rewrite (bool_decide_eq_false_2 (d' = d ∧ _)) by tauto.
          by rewrite orb_false_r. }
      assert (∀ d' j', wbitAt s1 d' j' = wbitAt s d' j') as Hw1.
      { intros d' j'. subst s1. rewrite wbitAt_updDep.
        change (depStore s0 !! d) with (depStore s !! d). rewrite Hx.
        destruct (decide (d' = d)) as [-> |Hne]; [|done].
        unfold wbitAt. by rewrite Hx. }
      assert (∀ d', subsOf s1 d' = subsOf s d') as Hs1.
      { intros d'. subst s1. rewrite subsOf_updDep.
        change (depStore s0 !! d) with (depStore s !! d). rewrite Hx.
        destruct (decide (d' = d)) as [-> |Hne]; [|done].
        unfold subsOf. by rewrite Hx. }
      destruct (Z.testbit (w x) j) eqn:Hw; cbn [negb].
      * exists false, true. split_and!; [|done|done|intros _; by apply Hmk].
        split_and!; try done.
      * assert (d ∉ depsOf s e) as Hnew.
        { intros H. apply Hmk in H. done. }
        assert (e ∉ subs x) as Hnew'.
        { rewrite <- Hsubs, <- Hm. done. }
        exists true, true. split_and!; [|done|done|done].
        split_and!.
        -- intros e'. rewrite depsOf_updEffect. cbn [andb].
           change (effects (updDep d (depAdd e) s1) !! e) with (effects s !! e).
           rewrite Hef. cbn [deps with_deps].
           destruct (decide (e' = e)) as [-> |Hne].
           ++ by rewrite bool_decide_eq_true_2, Hdeps.
           ++ by rewrite bool_decide_eq_false_2.
        -- intros d'. cbn [andb].
           change (subsOf (updEffect e _ (updDep d (depAdd e) s1)) d')
             with (subsOf (updDep d (depAdd e) s1) d').
           rewrite subsOf_updDep. subst s1. rewrite lookup_updDep.
           change (depStore s0 !! d) with (depStore s !! d). rewrite Hx.
           cbn [fmap option_fmap option_map].
           destruct (decide (d' = d)) as [-> |Hne].
           ++ rewrite bool_decide_eq_true_2 by done. unfold depAdd. cbn [subs with_n].
              rewrite decide_False by done. by rewrite Hsubs.
           ++ rewrite bool_decide_eq_false_2 by done. apply Hs1.
        -- intros d' j'.
           change (wbitAt (updEffect e _ (updDep d (depAdd e) s1)) d' j')
             with (wbitAt (updDep d (depAdd e) s1) d' j').
           rewrite wbitAt_updDep. subst s1. rewrite lookup_updDep.
           change (depStore s0 !! d) with (depStore s !! d). rewrite Hx.
           cbn [fmap option_fmap option_map].
           destruct (decide (d' = d)) as [-> |Hne]; [|apply Hw1].
           unfold depAdd. cbn [subs with_n]. rewrite decide_False by done.
           unfold wbitAt. by rewrite Hx.
        -- intros d' j' Hj'. cbn [andb].
           change (nbitAt (updEffect e _ (updDep d (depAdd e) s1)) d' j')
             with (nbitAt (updDep d (depAdd e) s1) d' j').
           rewrite <- (Hn1 d' j' Hj'). rewrite nbitAt_updDep.
           destruct (decide (d' = d)) as [-> |Hne]; [|done].
           unfold nbitAt. destruct (depStore s1 !! d) as [x1|]; [|done].
           unfold depAdd. by destruct (decide (e ∈ subs x1)).
  - destruct (bool_decide (e ∈ subs x)) eqn:He; cbn [negb].
    + apply bool_decide_eq_true in He.
      exists false, false. split_and!; [|done|done|intros _; by rewrite Hm, Hsubs].
      split_and!; try done. intros d' j' _. by rewrite orb_false_r.
    + apply bool_decide_eq_false in He.
      assert (d ∉ depsOf s e) as Hnew by (by rewrite Hm, Hsubs).
      exists true, false. split_and!; [|done|done|done].
      split_and!.
      * intros e'. rewrite depsOf_updEffect. cbn [andb].
        change (effects (updDep d (depAdd e) s0) !! e) with (effects s !! e).
        rewrite Hef. cbn [deps with_deps].
        destruct (decide (e' = e)) as [-> |Hne].
        -- by rewrite bool_decide_eq_true_2, Hdeps.
        -- by rewrite bool_decide_eq_false_2.
      * intros d'. cbn [andb].
        change (subsOf (updEffect e _ (updDep d (depAdd e) s0)) d')
          with (subsOf (updDep d (depAdd e) s0) d').
        rewrite subsOf_updDep.
        change (depStore s0 !! d) with (depStore s !! d). rewrite Hx.
        destruct (decide (d' = d)) as [-> |Hne].
        -- rewrite bool_decide_eq_true_2 by done. unfold depAdd.
           rewrite decide_False by done. by rewrite Hsubs.
        -- by rewrite bool_decide_eq_false_2.
      * intros d' j'.
        change (wbitAt (updEffect e _ (updDep d (depAdd e) s0)) d' j')
          with (wbitAt (updDep d (depAdd e) s0) d' j').
        rewrite wbitAt_updDep.
        change (depStore s0 !! d) with (depStore s !! d). rewrite Hx.
        destruct (decide (d' = d)) as [-> |Hne]; [|done].
        unfold depAdd. rewrite decide_False by done. unfold wbitAt. by rewrite Hx.
      * intros d' j' _. rewrite orb_false_r.
        change (nbitAt (updEffect e _ (updDep d (depAdd e) s0)) d' j')
          with (nbitAt (updDep d (depAdd e) s0) d' j').
        rewrite nbitAt_updDep.
        change (depStore s0 !! d) with (depStore s !! d). rewrite Hx.
        destruct (decide (d' = d)) as [-> |Hne]; [|done].
        unfold depAdd. rewrite decide_False by done. unfold nbitAt. by rewrite Hx.
Qed.


(** *** What the tracking keeps of a sound state *)

(** [ghost l s t]: from [s] to [t] the record has grown; as for the bits of
    the running effects [l], those of [w] are the same and those of [n] were
    set where the effect was tracked; and a running effect is a member of the
    sets it was a member of and of those it was tracked against. *)
Definition ghost (l : list eff) (s t : state) : Prop :=
  ∃ evs, record t = record s ++ evs ∧
    (∀ d j e, running l j = Some e →
      wbitAt t d j = wbitAt s d j ∧
      nbitAt t d j = nbitAt s d j || bool_decide (Tracked e d ∈ evs)) ∧
    (∀ e d, e ∈ l → e ∈ subsOf t d ↔ e ∈ subsOf s d ∨ Tracked e d ∈ evs).

Lemma ghost_refl l s : ghost l s s.
Proof.
  exists []. split_and!; [by rewrite app_nil_r| |].
  - intros d j e _. split; [done|].
    rewrite bool_decide_eq_false_2; [by rewrite orb_false_r|apply not_elem_of_nil].
  - intros e d _. rewrite elem_of_nil. tauto.
Qed.

Lemma ghost_trans l s1 s2 s3 : ghost l s1 s2 → ghost l s2 s3 → ghost l s1 s3.
Proof.
  intros (evs1 & Hr1 & H1 & M1) (evs2 & Hr2 & H2 & M2). exists (evs1 ++ evs2).
  split_and!; [by rewrite Hr2, Hr1, app_assoc| |].
  - intros d j e Hrun. destruct (H1 d j e Hrun) as [Hw1 Hn1].
    destruct (H2 d j e Hrun) as [Hw2 Hn2]. split; [congruence|].
    rewrite Hn2, Hn1, <- orb_assoc. f_equal.
    apply eq_true_iff_eq. rewrite orb_true_iff, !bool_decide_eq_true, elem_of_app. done.
  - intros e d He. rewrite (M2 e d He), (M1 e d He), elem_of_app. tauto.
Qed.

(** The same for one step that sets no bit of the running effects and
    changes no member. *)
Lemma ghost_same l s t evs :
  record t = record s ++ evs →
  (∀ d j, wbitAt t d j = wbitAt s d j) → (∀ d j, nbitAt t d j = nbitAt s d j) →
  (∀ d, subsOf t d = subsOf s d) →
  (∀ e d, e ∈ l → Tracked e d ∉ evs) →
  ghost l s t.
Proof.
  intros Hr Hw Hn Hsu Hev. exists evs. split_and!; [done| |].
  - intros d j e Hrun.
    split; [done|]. rewrite Hn, bool_decide_eq_false_2; [by rewrite orb_false_r|].
    apply Hev. by apply running_elem in Hrun as [? _].
  - intros e d He. rewrite Hsu. split; [auto|]. intros [?|H]; [done|].
    by destruct (Hev e d He).
Qed.

(** The same for fewer running effects. *)
Lemma ghost_tail e l s t : ghost (e :: l) s t → ghost l s t.
Proof.
  intros (evs & Hr & H & M). exists evs. split_and!; [done| |].
  - intros d j e' Hrun.
    apply H. rewrite running_cons. rewrite decide_False; [done|].
    intros [-> _]. apply running_elem in Hrun. lia.
  - intros e' d He'. apply M. by right.
Qed.

Definition codeView (ef : ReactiveEffect) : code * bool := (fn ef, deferStop ef).

(** [quiet s t]: but for the sets, their members and masks, and the lists of
    the effects, nothing the soundness speaks of has changed. *)
Definition quiet (s t : state) : Prop :=
  (∀ x, codeView <$> effects t !! x = codeView <$> effects s !! x) ∧
  targetMap t = targetMap s ∧
  (∀ c, cdep <$> computeds t !! c = cdep <$> computeds s !! c) ∧
  (∀ d, is_Some (depStore s !! d) → is_Some (depStore t !! d)).

Lemma quiet_refl s : quiet s s.
Proof. by unfold quiet. Qed.

Lemma quiet_trans s1 s2 s3 : quiet s1 s2 → quiet s2 s3 → quiet s1 s3.
Proof.
  intros (Hc & Ht & Hd & Hs) (Hc' & Ht' & Hd' & Hs').
  split_and!; [intros x; by rewrite Hc'|congruence|intros x; by rewrite Hd'|auto].
Qed.

Lemma quiet_updDep d f s : quiet s (updDep d f s).
Proof. split_and!; try done. intros d'. by rewrite domain_updDep. Qed.

Lemma quiet_updEffect e f s :
  (∀ ef, codeView (f ef) = codeView ef) → quiet s (updEffect e f s).
Proof. intros Hf. split_and!; try done. intros x. by apply lookup_updEffect. Qed.

Lemma polite_quiet s t : quiet s t → polite s → polite t.
Proof.
  intros (Hc & _) Hp e ef He. specialize (Hc e). rewrite He in Hc. simpl in Hc.
  destruct (effects s !! e) as [ef0|] eqn:H0; [|done].
  simpl in Hc. unfold codeView in Hc. injection Hc as -> ->. by apply (Hp e).
Qed.

Lemma linked_quiet s t : quiet s t → linked s → linked t.
Proof.
  intros (_ & Ht & Hd & Hs) [Hk Hc]. split.
  - intros k d. rewrite Ht. intros. eapply Hs, Hk. done.
  - intros c cell d Hcell Hcd. specialize (Hd c). rewrite Hcell in Hd. simpl in Hd.
    destruct (computeds s !! c) as [cell0|] eqn:H0; [|done].
    simpl in Hd. injection Hd as Hd. eapply Hs, (Hc c cell0); [done|congruence].
Qed.

Lemma mirror_views s t :
  (∀ e, depsOf t e = depsOf s e) → (∀ d, subsOf t d = subsOf s d) →
  mirror s → mirror t.
Proof.
  intros Hd Hs [Hnd Hm]. split; [intros e; by rewrite Hd|].
  intros e d. rewrite Hd, Hs. apply Hm.
Qed.

Lemma marked_views s t l :
  (∀ e, depsOf t e = depsOf s e) →
  (∀ d j, wbitAt t d j = wbitAt s d j) → (∀ d j, nbitAt t d j = nbitAt s d j) →
  marked s l → marked t l.
Proof.
  intros Hd Hw Hn Hm d j Hj. specialize (Hm d j Hj). rewrite Hw, Hn.
  destruct (running l j); [by rewrite Hd|done].
Qed.

Lemma stacked_keeps s t l : keeps s t → stacked s l → stacked t l.
Proof.
  intros (Ha & Hd & Hb & Hc) (Hl & Hnd & Hdep & Hbit).
  split_and!; [rewrite Ha; by apply Hc|done|congruence|unfold bitOK in *; congruence].
Qed.

Lemma stacked_ok s l : stacked s l → stackOK s ∧ bitOK s.
Proof. intros (Hl & Hnd & _ & Hb). split; [by exists l|done]. Qed.


(** What a step within a sound state yields. *)
Definition inner (l : list eff) (s t : state) : Prop :=
  mirror t ∧ marked t l ∧ polite t ∧ linked t ∧ ghost l s t.

Lemma sound_inner s t l : keeps s t → sound s l → inner l s t → sound t l ∧ ghost l s t.
Proof.
  intros Hk (Hst & _) (Hm & Hmk & Hp & Hl & Hg).
  split; [|done]. split_and!; try done. by eapply stacked_keeps.
Qed.

Lemma quiet_trackEffects e d s : quiet s (trackEffects e d s).
Proof.
  unfold trackEffects. cbv zeta.
  eapply (quiet_trans _ (note (Tracked e d) s)); [done|].
  generalize (note (Tracked e d) s). clear s. intros s.
  destruct (depStore s !! d) as [x|]; [|apply quiet_refl].
  destruct (effectTrackDepth s <=? maxMarkerBits).
  - destruct (negb (newTracked s x)); [|apply quiet_refl].
    destruct (negb (wasTracked s x)); [|apply quiet_updDep].
    eapply quiet_trans; [apply quiet_updDep|].
    eapply quiet_trans; [apply quiet_updDep|]. by apply quiet_updEffect.
  - destruct (negb (bool_decide (e ∈ subs x))); [|apply quiet_refl].
    eapply quiet_trans; [apply quiet_updDep|]. by apply quiet_updEffect.
Qed.

Lemma record_trackEffects e d s :
  record (trackEffects e d s) = record s ++ [Tracked e d].
Proof.
  unfold trackEffects. cbv zeta.
  change (record s ++ [Tracked e d]) with (record (note (Tracked e d) s)).
  generalize (note (Tracked e d) s). clear s. intros s.
  destruct (depStore s !! d) as [x|]; [|done].
  destruct (effectTrackDepth s <=? maxMarkerBits).
  - destruct (negb (newTracked s x)); [|done]. by destruct (negb (wasTracked s x)).
  - by destruct (negb (bool_decide (e ∈ subs x))).
Qed.

Lemma trackEffects_inner e d s l :
  sound s (e :: l) → is_Some (depStore s !! d) →
  inner (e :: l) s (trackEffects e d s).
Proof.
  intros (Hst & Hm & Hmk & Hp & Hl) [x Hx].
  destruct (trackEffects_tracks e d s l x Hst Hm Hmk Hx)
    as (added & marker & Htr & Hnew & Hmarker & Hknown).
  destruct (stacked_top _ _ _ Hst) as (Ha & _ & Hin & Hd & Hb).
  pose proof Hst as (_ & Hnd & _).
  assert (marker = true → running (e :: l) (effectTrackDepth s) = Some e) as Hrun.
  { intros ->. symmetry in Hmarker. apply Z.leb_le in Hmarker.
    rewrite Hd. apply running_top. lia. }
  assert (marker = false → ∀ j', running (e :: l) j' ≠ Some e) as Hfall.
  { intros -> j' Hj'. symmetry in Hmarker. apply Z.leb_gt in Hmarker.
    rewrite running_cons in Hj'. destruct (decide _) as [[-> ?]|_]; [lia|].
    apply running_elem in Hj' as [? _]. done. }
  split_and!.
  - by eapply mirror_tracks.
  - eapply marked_tracks; try done; [by left|auto].
  - eapply polite_quiet; [apply quiet_trackEffects|done].
  - eapply linked_quiet; [apply quiet_trackEffects|done].
  - exists [Tracked e d]. split; [apply record_trackEffects|].
    destruct Htr as (_ & Hsu & Hw & Hn). split.
    + intros d' j' e' Hr. split; [apply Hw|].
      assert (0 ≤ j') as Hj' by (apply running_Some in Hr; lia).
      rewrite Hn by done. f_equal.
      apply eq_true_iff_eq. rewrite andb_true_iff, !bool_decide_eq_true.
      rewrite list_elem_of_singleton. split.
      * intros (-> & -> & ->). rewrite (Hrun eq_refl) in Hr. by injection Hr as ->.
      * intros [= -> ->]. destruct marker.
        -- split_and!; try done. by eapply running_inj; [|exact Hr|apply Hrun].
        -- by destruct (Hfall eq_refl j').
    + intros e' d' _. rewrite Hsu, list_elem_of_singleton.
      destruct added; cbn [andb].
      * case_bool_decide as Hd'.
        -- subst d'. rewrite elem_of_app, list_elem_of_singleton. split.
           ++ intros [?| ->]; [by left|by right].
           ++ intros [?|[= ->]]; [by left|by right].
        -- split; [by left|]. intros [?|[= _ ->]]; done.
      * split; [by left|]. intros [?|[= -> ->]]; [done|].
        apply (proj2 Hm), Hknown. done.
Qed.


Lemma inner_pre l s s1 t : ghost l s s1 → inner l s1 t → inner l s t.
Proof.
  intros Hg (Hm & Hmk & Hp & Hl & Hg'). split_and!; try done. by eapply ghost_trans.
Qed.

Lemma sound_ghost_same s t l :
  effects t = effects s → depStore t = depStore s →
  targetMap t = targetMap s →
  (∀ c, cdep <$> computeds t !! c = cdep <$> computeds s !! c) →
  activeEffect t = activeEffect s → effectTrackDepth t = effectTrackDepth s →
  trackOpBit t = trackOpBit s →
  sound s l → sound t l.
Proof.
  intros He Hd Ht Hc Ha Hdp Hb (Hst & Hm & Hmk & Hp & Hl).
  assert (∀ e, depsOf t e = depsOf s e) as Hde by (intros; unfold depsOf; by rewrite He).
  assert (∀ d, subsOf t d = subsOf s d) as Hsu by (intros; unfold subsOf; by rewrite Hd).
  assert (∀ d j, wbitAt t d j = wbitAt s d j) as Hw by (intros; unfold wbitAt; by rewrite Hd).
  assert (∀ d j, nbitAt t d j = nbitAt s d j) as Hn by (intros; unfold nbitAt; by rewrite Hd).
  assert (quiet s t) as Hq.
  { split_and!; [intros; by rewrite He|done|done|intros d; by rewrite Hd]. }
  split_and!.
  - eapply stacked_keeps; [|done]. by apply keeps_same.
  - by eapply mirror_views.
  - by eapply marked_views.
  - by eapply polite_quiet.
  - by eapply linked_quiet.
Qed.

(** A new, empty set changes nothing for the sets that are there. *)
Lemma fresh_views s t :
  effects t = effects s →
  depStore t = depStore s ++ [{| subs := []; w := 0; n := 0 |}] →
  (∀ e, depsOf t e = depsOf s e) ∧ (∀ d, subsOf t d = subsOf s d) ∧
  (∀ d j, wbitAt t d j = wbitAt s d j) ∧ (∀ d j, nbitAt t d j = nbitAt s d j) ∧
  (∀ d, is_Some (depStore s !! d) → is_Some (depStore t !! d)) ∧
  is_Some (depStore t !! length (depStore s)).
Proof.
  intros He Hd.
  assert (∀ d, depStore t !! d = depStore s !! d ∨
               (depStore s !! d = None ∧
                depStore t !! d = Some {| subs := []; w := 0; n := 0 |})) as Hcases.
  { intros d. rewrite Hd. destruct (decide (d < length (depStore s))%nat).
    - left. by apply lookup_app_l.
    - destruct (decide (d = length (depStore s))) as [-> |].
      + right. split; [by apply lookup_ge_None_2|]. by rewrite list_lookup_middle.
      + left. rewrite !lookup_ge_None_2; [done|lia|]. rewrite length_app. simpl. lia. }
  split_and!.
  - intros e. unfold depsOf. by rewrite He.
  - intros d. unfold subsOf. by destruct (Hcases d) as [-> |[-> ->]].
  - intros d j. unfold wbitAt. destruct (Hcases d) as [-> |[-> ->]]; [done|].
    simpl. apply Z.bits_0.
  - intros d j. unfold nbitAt. destruct (Hcases d) as [-> |[-> ->]]; [done|].
    simpl. apply Z.bits_0.
  - intros d [x Hx]. destruct (Hcases d) as [-> |[Hn _]]; [by eexists|congruence].
  - rewrite Hd, list_lookup_middle; [by eexists|done].
Qed.

Lemma sound_fresh s t l :
  effects t = effects s →
  depStore t = depStore s ++ [{| subs := []; w := 0; n := 0 |}] →
  activeEffect t = activeEffect s → effectTrackDepth t = effectTrackDepth s →
  trackOpBit t = trackOpBit s → record t = record s →
  linked t → sound s l → sound t l ∧ ghost l s t.
Proof.
  intros He Hd Ha Hdp Hb Hr Hl' (Hst & Hm & Hmk & Hp & Hl).
  destruct (fresh_views s t He Hd) as (Hde & Hsu & Hw & Hn & _).
  split.
  - split_and!.
    + eapply stacked_keeps; [|done]. by apply keeps_same.
    + by eapply mirror_views.
    + by eapply marked_views.
    + intros e ef. rewrite He. apply Hp.
    + done.
  - apply (ghost_same _ _ _ []); [by rewrite app_nil_r|done|done|done|].
    intros. apply not_elem_of_nil.
Qed.

Lemma stacked_active s l e : stacked s l → activeEffect s = Some e → ∃ l', l = e :: l'.
Proof.
  intros (Hc & _) Ha. apply chain_head in Hc. rewrite Ha in Hc.
  destruct l as [|e' l']; [done|]. injection Hc as ->. by exists l'.
Qed.

Lemma inner_refl s l : sound s l → inner l s s.
Proof. intros (_ & Hm & Hmk & Hp & Hl). split_and!; try done. apply ghost_refl. Qed.

Lemma track_inner k s l : sound s l → inner l s (track k s).
Proof.
  intros Hs. unfold track.
  destruct (shouldTrack s); [|by apply inner_refl].
  destruct (activeEffect s) as [e|] eqn:Ha; [|by apply inner_refl].
  pose proof Hs as (Hst & _ & _ & _ & [Hk Hc]).
  destruct (stacked_active _ _ _ Hst Ha) as [l' ->].
  destruct (targetMap s !! k) as [d|] eqn:Hd.
  - apply trackEffects_inner; [done|]. by eapply Hk.
  - cbn [createDep]. set (d := length (depStore s)).
    set (s1 := set_targetMap _ _).
    destruct (fresh_views s s1 eq_refl eq_refl) as (_ & _ & _ & _ & Hgrow & Hnew).
    destruct (sound_fresh s s1 (e :: l')) as [Hs1 Hg1]; try done.
    { split.
      - intros k' d'. subst s1. cbn [targetMap set_targetMap].
        destruct (decide (k' = k)) as [-> |Hne].
        + rewrite lookup_insert_eq. by intros [= <-].
        + rewrite lookup_insert_ne by done. intros. by eapply Hgrow, Hk.
      - intros c cell d' Hcell Hcd. by eapply Hgrow, (Hc c cell). }
    eapply inner_pre; [exact Hg1|]. by apply trackEffects_inner.
Qed.

Lemma trackRefValue_inner c s l : sound s l → inner l s (trackRefValue c s).
Proof.
  intros Hs. unfold trackRefValue.
  destruct (shouldTrack s); [|by apply inner_refl].
  destruct (activeEffect s) as [e|] eqn:Ha; [|by apply inner_refl].
  destruct (computeds s !! c) as [cell|] eqn:Hcell; [|by apply inner_refl].
  pose proof Hs as (Hst & _ & _ & _ & [Hk Hc]).
  destruct (stacked_active _ _ _ Hst Ha) as [l' ->].
  destruct (cdep cell) as [d|] eqn:Hd.
  - apply trackEffects_inner; [done|]. by eapply (Hc c cell).
  - cbn [createDep]. set (d := length (depStore s)).
    set (s1 := updComputed c _ _).
    destruct (fresh_views s s1 eq_refl eq_refl) as (_ & _ & _ & _ & Hgrow & Hnew).
    destruct (sound_fresh s s1 (e :: l')) as [Hs1 Hg1]; try done.
    { split.
      - intros k' d' Hk'. by eapply Hgrow, Hk.
      - intros c' cell' d' Hcell' Hcd.
        subst s1. unfold updComputed, set_computeds in Hcell'. cbn [computeds] in Hcell'.
        destruct (decide (c' = c)) as [-> |Hne].
        + rewrite list_lookup_alter_eq in Hcell'.
          change (computeds (set_depStore _ s)) with (computeds s) in Hcell'.
          rewrite Hcell in Hcell'. simpl in Hcell'. injection Hcell' as <-.
          simpl in Hcd. by injection Hcd as <-.
        + rewrite list_lookup_alter_ne in Hcell' by done. by eapply Hgrow, (Hc c' cell'). }
    eapply inner_pre; [exact Hg1|]. by apply trackEffects_inner.
Qed.


(** *** Entering a run *)

(** The loop of [initDepMarkers]. *)
Lemma initLoop_views ds s j :
  trackOpBit s = 2 ^ j → 0 ≤ j → (∀ d, d ∈ ds → is_Some (depStore s !! d)) →
  let t := foldl (λ s d, updDep d (λ x, with_w (Z.lor (w x) (trackOpBit s)) x) s) s ds in
  effects t = effects s ∧ record t = record s ∧ quiet s t ∧
  (∀ d, subsOf t d = subsOf s d) ∧ (∀ d j', nbitAt t d j' = nbitAt s d j') ∧
  (∀ d j', 0 ≤ j' → wbitAt t d j' = wbitAt s d j' || bool_decide (j' = j ∧ d ∈ ds)).
Proof.
  revert s. induction ds as [|d0 ds IH]; intros s Hb Hj Hv; cbn [foldl].
  - split_and!; try done.
    intros d j' _. rewrite bool_decide_eq_false_2; [by rewrite orb_false_r|].
    intros [_ ?%elem_of_nil]. done.
  - set (s1 := updDep d0 _ s).
    destruct (Hv d0) as [x0 Hx0]; [by left|].
    destruct (IH s1) as (He & Hr & Hq & Hs & Hn & Hw); [done|done| |].
    { intros d Hd. apply domain_updDep. apply Hv. by right. }
    split_and!.
    + by rewrite He.
    + by rewrite Hr.
    + eapply quiet_trans; [apply quiet_updDep|exact Hq].
    + intros d. rewrite Hs. subst s1. rewrite subsOf_updDep, Hx0.
      destruct (decide (d = d0)) as [-> |]; [|done]. unfold subsOf. by rewrite Hx0.
    + intros d j'. rewrite Hn. subst s1. rewrite nbitAt_updDep, Hx0.
      destruct (decide (d = d0)) as [-> |]; [|done]. unfold nbitAt. by rewrite Hx0.
    + intros d j' Hj'. rewrite Hw by done. subst s1. rewrite wbitAt_updDep, Hx0.
      destruct (decide (d = d0)) as [-> |Hne].
      * cbn [w with_w]. rewrite Hb, testbit_lor_pow2 by done.
        unfold wbitAt. rewrite Hx0. rewrite <- orb_assoc. f_equal.
        apply eq_true_iff_eq. rewrite orb_true_iff, !bool_decide_eq_true, elem_of_cons.
        tauto.
      * f_equal. apply bool_decide_ext. rewrite elem_of_cons. tauto.
Qed.

(** The loop of [cleanupEffect]. *)
Lemma cleanupLoop_views e ds s :
  let t := foldl (λ s d, updDep d (depDelete e) s) s ds in
  effects t = effects s ∧ record t = record s ∧ quiet s t ∧
  (∀ d j', wbitAt t d j' = wbitAt s d j') ∧ (∀ d j', nbitAt t d j' = nbitAt s d j') ∧
  (∀ d e', e' ∈ subsOf t d ↔ e' ∈ subsOf s d ∧ (d ∈ ds → e' ≠ e)).
Proof.
  revert s. induction ds as [|d0 ds IH]; intros s; cbn [foldl].
  - split_and!; try done.
    intros d e'. split; [intros ?; split; [done|by intros ?%elem_of_nil]|tauto].
  - set (s1 := updDep d0 _ s).
    destruct (IH s1) as (He & Hr & Hq & Hw & Hn & Hs).
    split_and!.
    + by rewrite He.
    + by rewrite Hr.
    + eapply quiet_trans; [apply quiet_updDep|exact Hq].
    + intros d j'. rewrite Hw. subst s1. rewrite wbitAt_updDep.
      destruct (decide (d = d0)) as [-> |]; [|done]. unfold wbitAt.
      by destruct (depStore s !! d0).
    + intros d j'. rewrite Hn. subst s1. rewrite nbitAt_updDep.
      destruct (decide (d = d0)) as [-> |]; [|done]. unfold nbitAt.
      by destruct (depStore s !! d0).
    + intros d e'. rewrite Hs. subst s1. rewrite subsOf_updDep, elem_of_cons.
      destruct (decide (d = d0)) as [-> |Hne].
      * unfold subsOf. destruct (depStore s !! d0) as [x0|].
        -- cbn [subs depDelete with_subs]. rewrite list_elem_of_filter. tauto.
        -- split; [intros [?%elem_of_nil _]; done|intros [?%elem_of_nil _]; done].
      * tauto.
Qed.

Lemma mirror_valid s e d : mirror s → d ∈ depsOf s e → is_Some (depStore s !! d).
Proof.
  intros [_ Hm] Hd. apply Hm in Hd. unfold subsOf in Hd.
  destruct (depStore s !! d); [by eexists|by apply elem_of_nil in Hd].
Qed.


Lemma depsOf_parent e p s e' : depsOf (updEffect e (with_parent p) s) e' = depsOf s e'.
Proof.
  rewrite depsOf_updEffect. destruct (decide (e' = e)) as [-> |]; [|done].
  unfold depsOf. by destruct (effects s !! e).
Qed.

Lemma runTry_sound e ef s l :
  sound s l → effects s !! e = Some ef → e ∉ l →
  sound (runTry e s) (e :: l) ∧ ghost l s (runTry e s) ∧
  record (runTry e s) = record s ∧
  (∀ d, nbitAt (runTry e s) d (Z.of_nat (length l) + 1) = false) ∧
  (maxMarkerBits < Z.of_nat (length l) + 1 → ∀ d, e ∉ subsOf (runTry e s) d).
Proof.
  intros (Hst & Hm & Hmk & Hp & Hl) He Hin.
  pose proof Hst as (Hch & Hnd & Hdep & Hbit).
  destruct (runTry_spec e s l Hch Hin) as (Ha1 & _ & Hd1 & Hb1 & Hc1); [by eexists|].
  assert (stacked (runTry e s) (e :: l)) as Hst1.
  { split_and!; [by rewrite Ha1|by apply NoDup_cons| |].
    - rewrite Hd1, Hdep. simpl. lia.
    - unfold bitOK. by rewrite Hb1, Hd1. }
  set (j := Z.of_nat (length l) + 1).
  assert (running l j = None) as Hrj by (apply running_over; lia).
  assert (∀ d, wbitAt s d j = false ∧ nbitAt s d j = false) as Hclear.
  { intros d. specialize (Hmk d j). rewrite Hrj in Hmk. apply Hmk. lia. }
  unfold runTry in *. cbv zeta in *.
  set (s0 := set_trackOpBit _ _) in *.
  assert (effects s0 !! e = Some (with_parent (activeEffect s) ef)) as He0.
  { subst s0. cbn [effects set_trackOpBit set_effectTrackDepth set_shouldTrack
      set_activeEffect updEffect set_effects].
    by rewrite list_lookup_alter_eq, He. }
  assert (∀ e', depsOf s0 e' = depsOf s e') as Hde0.
  { intros e'. apply (depsOf_parent e (activeEffect s) s e'). }
  assert (quiet s s0) as Hq0.
  { apply (quiet_trans _ (updEffect e (with_parent (activeEffect s)) s));
      [by apply quiet_updEffect|done]. }
  assert (effectTrackDepth s0 = j) as Hd0.
  { subst s0 j. cbn. rewrite Hdep. done. }
  assert (trackOpBit s0 = shl1 j) as Hb0.
  { subst s0 j. cbn. by rewrite Hdep. }
  assert (depsOf s e = deps ef) as Hdeps by (unfold depsOf; by rewrite He).
  rewrite Hd0 in *.
  destruct (j <=? maxMarkerBits) eqn:Hj.
  - apply Z.leb_le in Hj.
    unfold initDepMarkers in *. rewrite He0 in *. cbn [deps with_parent] in *.
    destruct (initLoop_views (deps ef) s0 j) as (Hef & Hr & Hq & Hs & Hn & Hw).
    { rewrite Hb0. apply shl1_pow2. lia. }
    { lia. }
    { intros d Hd. apply (mirror_valid s e); [done|by rewrite Hdeps]. }
    set (t := foldl _ s0 (deps ef)) in *.
    assert (∀ e', depsOf t e' = depsOf s e') as Hde.
    { intros e'. unfold depsOf. rewrite Hef. apply Hde0. }
    split_and!; [split_and!|..].
    + done.
    + by apply (mirror_views s).
    + intros d j' Hj'. rewrite running_cons, Hn, Hw by done. fold j.
      change (nbitAt s0 d j') with (nbitAt s d j').
      change (wbitAt s0 d j') with (wbitAt s d j').
      destruct (decide (j' = j ∧ j' ≤ maxMarkerBits)) as [[-> _]|Hne].
      * destruct (Hclear d) as [-> ->]. rewrite Hde, Hdeps. simpl.
        rewrite orb_false_r, bool_decide_eq_true. tauto.
      * rewrite (bool_decide_eq_false_2 (j' = j ∧ _)) by (intros [-> _]; lia).
        rewrite orb_false_r. specialize (Hmk d j' Hj').
        destruct (running l j'); [by rewrite Hde|done].
    + eapply polite_quiet; [|done]. by eapply quiet_trans.
    + eapply linked_quiet; [|done]. by eapply quiet_trans.
    + exists []. split_and!; [by rewrite app_nil_r, Hr| |].
      * intros d j' e' Hrun.
        assert (0 ≤ j' ∧ j' ≠ j) as [Hj' Hne].
        { pose proof (running_elem _ _ _ Hrun). apply running_Some in Hrun. lia. }
        rewrite Hn, Hw by done.
        rewrite (bool_decide_eq_false_2 (j' = j ∧ _)) by tauto.
        rewrite (bool_decide_eq_false_2 (Tracked e' d ∈ [])) by apply not_elem_of_nil.
        by rewrite !orb_false_r.
      * intros e' d _. rewrite Hs. change (subsOf s0 d) with (subsOf s d).
        rewrite elem_of_nil. tauto.
    + by rewrite Hr.
    + intros d. rewrite Hn. apply Hclear.
    + intros. lia.
  - apply Z.leb_gt in Hj.
    unfold cleanupEffect in *. rewrite He0 in *. cbn [deps with_parent] in *.
    destruct (cleanupLoop_views e (deps ef) s0) as (Hef & Hr & Hq & Hw & Hn & Hs).
    set (t0 := foldl _ s0 (deps ef)) in *.
    set (t := updEffect e (with_deps []) t0) in *.
    assert (∀ e', depsOf t e' = if decide (e' = e) then [] else depsOf s e') as Hde.
    { intros e'. subst t. rewrite depsOf_updEffect, Hef, He0.
      destruct (decide (e' = e)); [done|].
      unfold depsOf. rewrite Hef. apply Hde0. }
    assert (∀ d e', e' ∈ subsOf t d ↔ e' ∈ subsOf s d ∧ e' ≠ e) as Hsu.
    { intros d e'. change (subsOf t d) with (subsOf t0 d). rewrite Hs.
      change (subsOf s0 d) with (subsOf s d). split; [|tauto].
      intros [H1 H2]. split; [done|]. intros ->. apply H2; [|done].
      rewrite <- Hdeps. by apply Hm. }
    assert (quiet s t) as Hqt.
    { eapply quiet_trans; [exact Hq0|]. eapply quiet_trans; [exact Hq|].
      by apply quiet_updEffect. }
    split_and!; [split_and!|..].
    + done.
    + destruct Hm as [Hnd' Hm]. split.
      * intros e'. rewrite Hde. destruct (decide (e' = e)); [constructor|done].
      * intros e' d. rewrite Hde, Hsu. destruct (decide (e' = e)) as [-> |Hne].
        -- split; [by intros ?%elem_of_nil|tauto].
        -- rewrite Hm. tauto.
    + intros d j' Hj'. rewrite running_cons. fold j.
      rewrite decide_False by lia.
      change (wbitAt t d j') with (wbitAt t0 d j').
      change (nbitAt t d j') with (nbitAt t0 d j'). rewrite Hw, Hn.
      specialize (Hmk d j' Hj').
      destruct (running l j') as [e'|] eqn:Hrun; [|done].
      rewrite Hde. rewrite decide_False; [done|].
      intros ->. by apply running_elem in Hrun as [? _].
    + by eapply polite_quiet.
    + by eapply linked_quiet.
    + exists []. split_and!; [by rewrite app_nil_r| |].
      * intros d j' e' _. split; [apply Hw|].
        rewrite bool_decide_eq_false_2 by apply not_elem_of_nil.
        rewrite orb_false_r. apply Hn.
      * intros e' d He'. rewrite Hsu, elem_of_nil. split; [tauto|].
        intros [H|[]]. split; [done|]. by intros ->.
    + done.
    + intros d. change (nbitAt t d j) with (nbitAt t0 d j). rewrite Hn. apply Hclear.
    + intros _ d. rewrite Hsu. tauto.
Qed.


(** *** Leaving a run *)

(** A set stays in the list unless it was tracked in an earlier run and not
    in this one. *)
Definition keepDep (s : state) (j : Z) (d : dep) : bool :=
  negb (wbitAt s d j && negb (nbitAt s d j)).

Lemma finalizeLoop_cons e d ds kept s x :
  depStore s !! d = Some x →
  finalizeLoop e (d :: ds) kept s =
  finalizeLoop e ds
    (if wasTracked s x && negb (newTracked s x) then kept else kept ++ [d])
    (updDep d (λ x, with_n (Z.land (n x) (Z.lnot (trackOpBit s))) x)
       (updDep d (λ x, with_w (Z.land (w x) (Z.lnot (trackOpBit s))) x)
          (if wasTracked s x && negb (newTracked s x) then updDep d (depDelete e) s
           else s))).
Proof. intros Hx. cbn [finalizeLoop]. rewrite Hx. by destruct (_ && _). Qed.

Lemma finalizeLoop_views e ds kept s j :
  trackOpBit s = 2 ^ j → 0 ≤ j → NoDup ds →
  (∀ d, d ∈ ds → is_Some (depStore s !! d)) →
  let r := finalizeLoop e ds kept s in
  (∀ d, d ∈ r.1 ↔ d ∈ kept ∨ (d ∈ ds ∧ keepDep s j d = true)) ∧
  (NoDup kept → (∀ d, d ∈ kept → d ∉ ds) → NoDup r.1) ∧
  effects r.2 = effects s ∧ record r.2 = record s ∧ quiet s r.2 ∧
  (∀ d j', 0 ≤ j' →
     wbitAt r.2 d j' = wbitAt s d j' && negb (bool_decide (j' = j ∧ d ∈ ds))) ∧
  (∀ d j', 0 ≤ j' →
     nbitAt r.2 d j' = nbitAt s d j' && negb (bool_decide (j' = j ∧ d ∈ ds))) ∧
  (∀ d e', e' ∈ subsOf r.2 d ↔
     e' ∈ subsOf s d ∧ ¬ (e' = e ∧ d ∈ ds ∧ keepDep s j d = false)).
Proof.
  revert kept s. induction ds as [|d0 ds IH]; intros kept s Hb Hj Hnd Hv.
  - cbn [finalizeLoop fst snd]. split_and!; try done.
    + intros d. split; [auto|]. intros [?|[?%elem_of_nil _]]; done.
    + intros d j' _. rewrite bool_decide_eq_false_2; [by rewrite andb_true_r|].
      by intros [_ ?%elem_of_nil].
    + intros d j' _. rewrite bool_decide_eq_false_2; [by rewrite andb_true_r|].
      by intros [_ ?%elem_of_nil].
    + intros d e'. split; [|tauto]. intros H. split; [done|].
      by intros (_ & ?%elem_of_nil & _).
  - destruct (Hv d0) as [x0 Hx0]; [by left|].
    apply NoDup_cons in Hnd as [Hd0 Hnd].
    rewrite (finalizeLoop_cons _ _ _ _ _ _ Hx0).
    assert (wasTracked s x0 && negb (newTracked s x0) = negb (keepDep s j d0)) as Hcond.
    { unfold wasTracked, newTracked, keepDep, wbitAt, nbitAt.
      rewrite Hx0, Hb, !tracked_pow2 by done. by rewrite negb_involutive. }
    rewrite Hcond. rewrite Hb.
    set (s1 := if negb (keepDep s j d0) then updDep d0 (depDelete e) s else s).
    set (s2 := updDep d0 (λ x, with_w _ x) s1).
    set (s3 := updDep d0 (λ x, with_n _ x) s2).
    set (kept1 := if negb (keepDep s j d0) then kept else kept ++ [d0]).
    assert (depStore s1 !! d0 =
            Some (if negb (keepDep s j d0) then depDelete e x0 else x0)) as Hx1.
    { subst s1. destruct (keepDep s j d0); cbn [negb]; [done|].
      by rewrite lookup_updDep, Hx0. }
    assert (quiet s s3) as Hq3.
    { eapply (quiet_trans _ s1); [subst s1; destruct (keepDep s j d0); cbn [negb];
        [apply quiet_refl|apply quiet_updDep]|].
      eapply quiet_trans; apply quiet_updDep. }
    assert (∀ d j', 0 ≤ j' →
      wbitAt s3 d j' = wbitAt s d j' && negb (bool_decide (j' = j ∧ d = d0))) as Hw3.
    { intros d j' Hj'. subst s3. rewrite wbitAt_updDep.
      destruct (decide (d = d0)) as [-> |Hne].
      - subst s2. rewrite lookup_updDep, Hx1. cbn [fmap option_fmap option_map w with_n with_w].
        rewrite testbit_clear_pow2 by done. unfold wbitAt. rewrite Hx0.
        assert (w (if negb (keepDep s j d0) then depDelete e x0 else x0) = w x0) as ->
          by (by destruct (keepDep s j d0)).
        do 2 f_equal. apply bool_decide_ext. tauto.
      - subst s2. rewrite wbitAt_updDep, decide_False by done.
        rewrite (bool_decide_eq_false_2 (j' = j ∧ _)) by tauto. rewrite andb_true_r.
        subst s1. destruct (keepDep s j d0); cbn [negb]; [done|].
        by rewrite wbitAt_updDep, decide_False. }
    assert (∀ d j', 0 ≤ j' →
      nbitAt s3 d j' = nbitAt s d j' && negb (bool_decide (j' = j ∧ d = d0))) as Hn3.
    { intros d j' Hj'. subst s3. rewrite nbitAt_updDep.
      destruct (decide (d = d0)) as [-> |Hne].
      - subst s2. rewrite lookup_updDep, Hx1. cbn [fmap option_fmap option_map n with_n with_w].
        rewrite testbit_clear_pow2 by done. unfold nbitAt. rewrite Hx0.
        assert (n (if negb (keepDep s j d0) then depDelete e x0 else x0) = n x0) as ->
          by (by destruct (keepDep s j d0)).
        do 2 f_equal. apply bool_decide_ext. tauto.
      - subst s2. rewrite nbitAt_updDep, decide_False by done.
        rewrite (bool_decide_eq_false_2 (j' = j ∧ _)) by tauto. rewrite andb_true_r.
        subst s1. destruct (keepDep s j d0); cbn [negb]; [done|].
        by rewrite nbitAt_updDep, decide_False. }
    assert (∀ d e', e' ∈ subsOf s3 d ↔
      e' ∈ subsOf s d ∧ ¬ (e' = e ∧ d = d0 ∧ keepDep s j d0 = false)) as Hs3.
    { intros d e'. subst s3. rewrite subsOf_updDep.
      destruct (decide (d = d0)) as [-> |Hne].
      - subst s2. rewrite lookup_updDep, Hx1.
        cbn [fmap option_fmap option_map subs with_n with_w].
        unfold subsOf. rewrite Hx0. destruct (keepDep s j d0); cbn [negb].
        + split; [|tauto]. intros H. split; [done|]. by intros (_ & _ & ?).
        + cbn [subs depDelete with_subs]. rewrite list_elem_of_filter. tauto.
      - subst s2. rewrite subsOf_updDep, decide_False by done.
        subst s1. destruct (keepDep s j d0); cbn [negb].
        + tauto.
        + rewrite subsOf_updDep, decide_False by done. tauto. }
    assert (∀ d, d ∈ ds → keepDep s3 j d = keepDep s j d) as Hkeep.
    { intros d Hd. unfold keepDep. rewrite Hw3, Hn3 by done.
      rewrite (bool_decide_eq_false_2 (j = j ∧ _)); [by rewrite !andb_true_r|].
      intros [_ ->]. done. }
    assert (trackOpBit s3 = 2 ^ j ∧ effects s3 = effects s ∧ record s3 = record s)
      as (Hb3 & He3 & Hr3).
    { subst s3 s2 s1. by destruct (keepDep s j d0). }
    destruct (IH kept1 s3) as (Hk & Hndk & He & Hr & Hq & Hw & Hn & Hs); [done|done|done| |].
    { intros d Hd. apply Hq3. apply Hv. by right. }
    set (r := finalizeLoop e ds kept1 s3) in *.
    split_and!.
    + intros d. rewrite Hk, elem_of_cons. subst kept1.
      destruct (keepDep s j d0) eqn:Hk0; cbn [negb].
      * rewrite elem_of_app, list_elem_of_singleton. split.
        -- intros [[?| ->]|[Hd Hkd]]; [tauto|tauto|]. rewrite Hkeep in Hkd by done. tauto.
        -- intros [?|[[-> |Hd] Hkd]]; [tauto|tauto|]. rewrite <- Hkeep in Hkd by done. tauto.
      * split.
        -- intros [?|[Hd Hkd]]; [tauto|]. rewrite Hkeep in Hkd by done. tauto.
        -- intros [?|[[-> |Hd] Hkd]]; [tauto|congruence|].
           rewrite <- Hkeep in Hkd by done. tauto.
    + intros Hndkept Hdisj. apply Hndk.
      * subst kept1. destruct (keepDep s j d0); cbn [negb]; [|done].
        apply NoDup_app. split_and!; [done| |].
        -- intros d Hd ->%list_elem_of_singleton. apply (Hdisj d0); [done|by left].
        -- apply NoDup_singleton.
      * intros d Hd. subst kept1. destruct (keepDep s j d0); cbn [negb] in Hd.
        -- apply elem_of_app in Hd as [Hd| ->%list_elem_of_singleton]; [|done].
           intros Hd'. apply (Hdisj d); [done|by right].
        -- intros Hd'. apply (Hdisj d); [done|by right].
    + by rewrite He.
    + by rewrite Hr.
    + by eapply quiet_trans.
    + intros d j' Hj'. rewrite Hw, Hw3 by done. rewrite <- andb_assoc. f_equal.
      rewrite <- negb_orb. f_equal. apply eq_true_iff_eq.
      rewrite orb_true_iff, !bool_decide_eq_true, elem_of_cons. tauto.
    + intros d j' Hj'. rewrite Hn, Hn3 by done. rewrite <- andb_assoc. f_equal.
      rewrite <- negb_orb. f_equal. apply eq_true_iff_eq.
      rewrite orb_true_iff, !bool_decide_eq_true, elem_of_cons. tauto.
    + intros d e'. rewrite Hs, Hs3, elem_of_cons. split.
      * intros [[H1 H2] H3]. split; [done|]. intros (-> & [-> |Hd] & Hkd); [tauto|].
        apply H3. split_and!; try done. by rewrite Hkeep.
      * intros [H1 H2]. split_and!; [done| |].
        -- intros (-> & -> & Hkd). apply H2. tauto.
        -- intros (-> & Hd & Hkd). rewrite Hkeep in Hkd by done. tauto.
Qed.


Lemma quiet_lookup s t e ef :
  quiet s t → polite s → effects t !! e = Some ef → deferStop ef = false.
Proof. intros Hq Hp He. by apply (polite_quiet _ _ Hq Hp e ef). Qed.

Lemma runFinally_sound e b s l :
  sound s (e :: l) →
  sound (runFinally e b s) l ∧ ghost l s (runFinally e b s) ∧
  record (runFinally e b s) = record s ∧
  (Z.of_nat (length l) + 1 ≤ maxMarkerBits →
     ∀ d, e ∈ subsOf (runFinally e b s) d ↔
          nbitAt s d (Z.of_nat (length l) + 1) = true) ∧
  (maxMarkerBits < Z.of_nat (length l) + 1 →
     ∀ d, e ∈ subsOf (runFinally e b s) d ↔ e ∈ subsOf s d).
Proof.
  intros (Hst & Hm & Hmk & Hp & Hl).
  destruct (stacked_top _ _ _ Hst) as (Ha & [ef He] & Hin & Hd & Hb).
  pose proof Hst as (Hch & Hnd & _ & _).
  apply NoDup_cons in Hnd as [Hel Hnd]. rewrite Ha in Hch.
  destruct (runFinally_spec e b s l Hch Hin) as (Ha1 & _ & Hd1 & Hb1 & Hc1).
  assert (stacked (runFinally e b s) l) as Hst1.
  { split_and!; [by rewrite Ha1|done|rewrite Hd1, Hd; lia|].
    unfold bitOK. by rewrite Hb1, Hd1. }
  set (j := Z.of_nat (length l) + 1) in *.
  assert (depsOf s e = deps ef) as Hdeps by (unfold depsOf; by rewrite He).
  (* the state after [finalizeDepMarkers] *)
  set (sa := if effectTrackDepth s <=? maxMarkerBits then finalizeDepMarkers e s else s).
  assert (quiet s sa ∧ record sa = record s ∧ mirror sa ∧ marked sa l ∧
          (∀ d j' e', running l j' = Some e' →
             wbitAt sa d j' = wbitAt s d j' ∧ nbitAt sa d j' = nbitAt s d j') ∧
          (j ≤ maxMarkerBits → ∀ d, e ∈ subsOf sa d ↔ nbitAt s d j = true) ∧
          (∀ d e', e' ∈ subsOf sa d ↔
             e' ∈ subsOf s d ∧ (e' = e → j ≤ maxMarkerBits → nbitAt s d j = true)))
    as (Hqa & Hra & Hma & Hmka & Hga & Hfin & Hsua).
  { subst sa. rewrite Hd. destruct (j <=? maxMarkerBits) eqn:Hj.
    - apply Z.leb_le in Hj. unfold finalizeDepMarkers. rewrite He.
      destruct (finalizeLoop_views e (deps ef) [] s j)
        as (Hk & Hndk & Hef & Hr & Hq & Hw & Hn & Hs).
      { rewrite Hb. apply shl1_pow2. lia. }
      { lia. }
      { rewrite <- Hdeps. apply Hm. }
      { intros d Hd'. apply (mirror_valid s e); [done|by rewrite Hdeps]. }
      destruct (finalizeLoop e (deps ef) [] s) as [kept s1] eqn:Hloop.
      cbn [fst snd] in *.
      set (t := updEffect e (with_deps kept) s1).
      assert (running (e :: l) j = Some e) as Hrun by (by apply running_top).
      assert (∀ d, d ∈ deps ef → keepDep s j d = nbitAt s d j) as Hkeep.
      { intros d Hd'. specialize (Hmk d j). rewrite Hrun, Hdeps in Hmk.
        apply Hmk in Hd'; [|lia]. unfold keepDep.
        destruct (wbitAt s d j), (nbitAt s d j); done. }
      assert (∀ d, nbitAt s d j = true → d ∈ deps ef) as Hnin.
      { intros d Hn'. specialize (Hmk d j). rewrite Hrun, Hdeps in Hmk.
        apply Hmk; [lia|]. by rewrite Hn', orb_true_r. }
      assert (∀ e', depsOf t e' = if decide (e' = e) then kept else depsOf s e') as Hde.
      { intros e'. subst t. rewrite depsOf_updEffect, Hef, He.
        destruct (decide (e' = e)); [done|]. unfold depsOf. by rewrite Hef. }
      assert (∀ d, d ∈ kept ↔ nbitAt s d j = true) as Hkept.
      { intros d. rewrite Hk. split.
        - intros [?%elem_of_nil|[Hd' Hkd]]; [done|]. by rewrite <- Hkeep.
        - intros Hn'. right. split; [by apply Hnin|]. rewrite Hkeep; [done|by apply Hnin]. }
      assert (∀ d e', e' ∈ subsOf t d ↔
                e' ∈ subsOf s d ∧ (e' = e → nbitAt s d j = true)) as Hsu.
      { intros d e'. change (subsOf t d) with (subsOf s1 d). rewrite Hs. split.
        - intros [H1 H2]. split; [done|]. intros ->.
          assert (d ∈ deps ef) as Hd' by (rewrite <- Hdeps; by apply Hm).
          rewrite <- Hkeep by done. destruct (keepDep s j d); [done|tauto].
        - intros [H1 H2]. split; [done|]. intros (-> & Hd' & Hkd).
          rewrite Hkeep in Hkd by done. rewrite H2 in Hkd; done. }
      split_and!.
      + eapply quiet_trans; [exact Hq|]. by apply quiet_updEffect.
      + done.
      + destruct Hm as [Hnd' Hm]. split.
        * intros e'. rewrite Hde. destruct (decide (e' = e)); [|done].
          apply Hndk; [constructor|]. by intros d ?%elem_of_nil.
        * intros e' d. rewrite Hde, Hsu. destruct (decide (e' = e)) as [->|Hne].
          -- rewrite Hkept. split; [|tauto]. intros Hn'. split; [|done].
             apply Hm. rewrite Hdeps. by apply Hnin.
          -- rewrite Hm. tauto.
      + intros d j' Hj'.
        change (wbitAt t d j') with (wbitAt s1 d j').
        change (nbitAt t d j') with (nbitAt s1 d j'). rewrite Hw, Hn by done.
        specialize (Hmk d j' Hj'). rewrite running_cons in Hmk. fold j in Hmk.
        destruct (decide (j' = j ∧ j' ≤ maxMarkerBits)) as [[-> _]|Hne].
        * rewrite running_over by lia. rewrite Hdeps in Hmk.
          destruct (decide (d ∈ deps ef)) as [Hd'|Hd'].
          -- rewrite bool_decide_eq_true_2 by done. by rewrite !andb_false_r.
          -- rewrite bool_decide_eq_false_2 by tauto. rewrite !andb_true_r.
             destruct (wbitAt s d j), (nbitAt s d j); try done; tauto.
        * rewrite (bool_decide_eq_false_2 (j' = j ∧ _)) by (intros [-> _]; lia).
          rewrite !andb_true_r.
          destruct (running l j') as [e'|] eqn:Hr'; [|done].
          rewrite Hde, decide_False; [done|].
          intros ->. by apply running_elem in Hr' as [? _].
      + intros d j' e' Hr'.
        assert (0 ≤ j' ∧ j' ≠ j) as [Hj' Hne].
        { pose proof (running_elem _ _ _ Hr'). apply running_Some in Hr'. lia. }
        change (wbitAt t d j') with (wbitAt s1 d j').
        change (nbitAt t d j') with (nbitAt s1 d j'). rewrite Hw, Hn by done.
        rewrite (bool_decide_eq_false_2 (j' = j ∧ _)) by tauto.
        by rewrite !andb_true_r.
      + intros _ d. rewrite Hsu. split; [tauto|]. intros Hn'. split; [|done].
        apply Hm. rewrite Hdeps. by apply Hnin.
      + intros d e'. rewrite Hsu. tauto.
    - apply Z.leb_gt in Hj. split_and!.
      + apply quiet_refl.
      + done.
      + done.
      + intros d j' Hj'. specialize (Hmk d j' Hj'). rewrite running_cons in Hmk.
        fold j in Hmk. by rewrite decide_False in Hmk by lia.
      + done.
      + lia.
      + intros d e'. split; [|tauto]. intros H. split; [done|]. lia. }
  assert (∀ e' d, e' ∈ l → e' ∈ subsOf sa d ↔ e' ∈ subsOf s d ∨ Tracked e' d ∈ []) as Hmem.
  { intros e' d He'. rewrite Hsua, elem_of_nil. split; [tauto|].
    intros [H|[]]. split; [done|]. intros ->. done. }
  assert (maxMarkerBits < j → ∀ d, e ∈ subsOf sa d ↔ e ∈ subsOf s d) as Hfall.
  { intros Hj d. rewrite Hsua. split; [tauto|]. intros H. split; [done|]. lia. }
  (* the rest of the block changes neither sets nor lists *)
  unfold runFinally in *. cbv zeta in *. fold sa in Hst1, Ha1, Hd1, Hb1, Hc1 |- *.
  set (sb := updEffect e (with_parent None) _) in *.
  assert (quiet sa sb) as Hqb.
  { apply (quiet_trans _ (set_shouldTrack b (set_activeEffect (effects sa !! e ≫= parent)
      (set_trackOpBit (shl1 (effectTrackDepth sa - 1))
        (set_effectTrackDepth (effectTrackDepth sa - 1) sa))))); [done|].
    by apply quiet_updEffect. }
  assert (∀ e', depsOf sb e' = depsOf sa e') as Hdb.
  { intros e'. subst sb. by rewrite depsOf_parent. }
  assert (polite sb) as Hpb.
  { eapply polite_quiet; [|done]. by eapply quiet_trans. }
  destruct (effects sb !! e) as [ef'|] eqn:Hef'.
  - rewrite (proj2 (Hpb e ef' Hef')) in *.
    split_and!; [split_and!|..]; try done.
    + by apply (mirror_views sa).
    + by apply (marked_views sa).
    + eapply linked_quiet; [|done]. by eapply quiet_trans.
    + exists []. split_and!; [by rewrite app_nil_r| |exact Hmem].
      intros d j' e' Hr'.
      destruct (Hga d j' e' Hr') as [Hw Hn].
      rewrite (bool_decide_eq_false_2 (Tracked e' d ∈ [])) by apply not_elem_of_nil.
      by rewrite orb_false_r.
  - split_and!; [split_and!|..]; try done.
    + by apply (mirror_views sa).
    + by apply (marked_views sa).
    + eapply linked_quiet; [|done]. by eapply quiet_trans.
    + exists []. split_and!; [by rewrite app_nil_r| |exact Hmem].
      intros d j' e' Hr'.
      destruct (Hga d j' e' Hr') as [Hw Hn].
      rewrite (bool_decide_eq_false_2 (Tracked e' d ∈ [])) by apply not_elem_of_nil.
      by rewrite orb_false_r.
Qed.


(** *** Every piece of the engine keeps a sound state sound *)

Definition Sound {A} (f : A → state → option (outcome * state)) : Prop :=
  ∀ a s l o s', sound s l → f a s = Some (o, s') → sound s' l ∧ ghost l s s'.

Lemma sound_step s s1 s' l :
  sound s1 l ∧ ghost l s s1 → (sound s1 l → sound s' l ∧ ghost l s1 s') →
  sound s' l ∧ ghost l s s'.
Proof.
  intros [Hs1 Hg1] H. destruct (H Hs1) as [Hs' Hg']. split; [done|by eapply ghost_trans].
Qed.

Lemma inert_step s t l evs :
  effects t = effects s → depStore t = depStore s → targetMap t = targetMap s →
  (∀ c, cdep <$> computeds t !! c = cdep <$> computeds s !! c) →
  activeEffect t = activeEffect s → effectTrackDepth t = effectTrackDepth s →
  trackOpBit t = trackOpBit s → record t = record s ++ evs →
  (∀ e d, Tracked e d ∉ evs) →
  sound s l → sound t l ∧ ghost l s t.
Proof.
  intros He Hd Ht Hc Ha Hdp Hb Hr Hev Hs. split; [by eapply sound_ghost_same|].
  apply (ghost_same _ _ _ evs); [done| | | |by intros].
  - intros. unfold wbitAt. by rewrite Hd.
  - intros. unfold nbitAt. by rewrite Hd.
  - intros. unfold subsOf. by rewrite Hd.
Qed.

Lemma note_step x s l : (∀ e d, x ≠ Tracked e d) → sound s l → sound (note x s) l ∧ ghost l s (note x s).
Proof.
  intros Hx. apply (inert_step _ _ _ [x]); try done.
  intros e d Hx'%list_elem_of_singleton. by destruct (Hx e d).
Qed.

Lemma same_step s t l :
  effects t = effects s → depStore t = depStore s → targetMap t = targetMap s →
  (∀ c, cdep <$> computeds t !! c = cdep <$> computeds s !! c) →
  activeEffect t = activeEffect s → effectTrackDepth t = effectTrackDepth s →
  trackOpBit t = trackOpBit s → record t = record s →
  sound s l → sound t l ∧ ghost l s t.
Proof.
  intros. apply (inert_step _ _ _ []); try done; [by rewrite app_nil_r|].
  intros. apply not_elem_of_nil.
Qed.

Lemma cdep_updComputed c f s x :
  (∀ cell, cdep (f cell) = cdep cell) →
  cdep <$> computeds (updComputed c f s) !! x = cdep <$> computeds s !! x.
Proof. apply lookup_updComputed. Qed.

Lemma triggerLoop_sound f : Sound f → Sound (triggerLoop f).
Proof.
  intros Hf es. induction es as [|e es IH]; intros s l o s' Hs H; cbn [triggerLoop] in H.
  - injection H as <- <-. split; [done|apply ghost_refl].
  - destruct (f e s) as [[o1 s1]|] eqn:Hfe; cbn [mbind option_bind] in H; [|done].
    apply (sound_step s s1); [by eapply Hf|]. intros Hs1.
    destruct o1; [by eapply IH|]. injection H as <- <-. split; [done|apply ghost_refl].
Qed.

Lemma engine_sound fuel :
  (∀ c s l o s', noStop c → sound s l → exec fuel c s = Some (o, s') →
     sound s' l ∧ ghost l s s') ∧
  Sound (run fuel) ∧ Sound (triggerEffects fuel) ∧ Sound (triggerEffect fuel) ∧
  Sound (computedScheduler fuel) ∧ Sound (trigger fuel) ∧ Sound (readComputed fuel).
Proof.
  induction fuel as [|fuel (IHexec & IHrun & IHtes & IHte & IHcs & IHtr & IHrc)].
  { split_and!; intros ?; intros; done. }
  split_and!.
  - (* exec *)
    intros c s l o s' Hns Hs H.
    destruct Hns as [v| |k cont Hk|k v cont Hk|c cont Hk|e cont Hk|cont Hk|cont Hk];
      simpl in H.
    + injection H as <- <-. split; [done|apply ghost_refl].
    + injection H as <- <-. split; [done|apply ghost_refl].
    + apply (sound_step s (note (Read k) s)); [by apply note_step|]. intros Hs0.
      apply (sound_step _ (track k (note (Read k) s))).
      { apply sound_inner; [apply frame_keeps, frame_track|done|by apply track_inner]. }
      intros Hs1. by eapply IHexec.
    + set (s0 := set_store _ s) in H.
      apply (sound_step s s0); [by apply same_step|]. intros Hs0.
      destruct (_ || _).
      * destruct (trigger fuel k s0) as [[o1 s1]|] eqn:Ht; simpl in H; [|done].
        apply (sound_step s0 s1); [by eapply IHtr|]. intros Hs1.
        destruct o1; [by eapply IHexec|].
        injection H as <- <-. split; [done|apply ghost_refl].
      * simpl in H. by eapply IHexec.
    + destruct (readComputed fuel c s) as [[o1 s1]|] eqn:Ht; simpl in H; [|done].
      apply (sound_step s s1); [by eapply IHrc|]. intros Hs1.
      destruct o1; [by eapply IHexec|].
      injection H as <- <-. split; [done|apply ghost_refl].
    + destruct (run fuel e s) as [[o1 s1]|] eqn:Ht; simpl in H; [|done].
      apply (sound_step s s1); [by eapply IHrun|]. intros Hs1.
      destruct o1; [by eapply IHexec|].
      injection H as <- <-. split; [done|apply ghost_refl].
    + apply (sound_step s (pauseTracking s)); [by apply same_step|].
      intros Hs1. by eapply IHexec.
    + apply (sound_step s (resetTracking s)).
      { unfold resetTracking. destruct (last (trackStack s)); by apply same_step. }
      intros Hs1. by eapply IHexec.
  - (* run *)
    intros e s l o s' Hs H. rewrite run_S in H.
    destruct (effects s !! e) as [ef|] eqn:He; simpl in H; [|done].
    pose proof Hs as (Hst & _ & _ & Hp & _).
    destruct (Hp e ef He) as [Hns _].
    destruct (active ef); simpl in H.
    + pose proof Hst as (Hch & Hnd & _).
      rewrite (onStack_chain _ _ _ _ l) in H; [|done|by eapply chain_bound].
      simpl in H. case_bool_decide as Hin.
      { injection H as <- <-. split; [done|apply ghost_refl]. }
      destruct (exec fuel (fn ef) _) as [[o2 s2]|] eqn:Hex; simpl in H; [|done].
      injection H as <- <-.
      destruct (runTry_sound e ef s l Hs He Hin) as (Hs1 & Hg1 & _).
      destruct (note_step (Called e) (runTry e s) (e :: l)) as [Hs1' Hg1']; [done|done|].
      destruct (IHexec _ _ _ _ _ Hns Hs1' Hex) as [Hs2 Hg2].
      destruct (runFinally_sound e (shouldTrack s) s2 l Hs2) as (Hs3 & Hg3 & _).
      split; [done|].
      eapply ghost_trans; [exact Hg1|].
      eapply ghost_trans; [eapply ghost_tail, Hg1'|].
      eapply ghost_trans; [eapply ghost_tail, Hg2|exact Hg3].
    + apply (sound_step s (note (Called e) s)); [by apply note_step|].
      intros Hs1. by eapply IHexec.
  - (* triggerEffects *)
    intros d s l o s' Hs H. rewrite triggerEffects_S in H.
    destruct (note_step (Triggered d) s l) as [Hs0 Hg0]; [done|done|].
    destruct (depStore s !! d) as [x|].
    + destruct (triggerLoop _ _ (note _ s)) as [[o1 s1]|] eqn:Ht;
        cbn [mbind option_bind] in H; [|done].
      apply (sound_step s (note (Triggered d) s)); [done|]. intros _.
      apply (sound_step _ s1); [by eapply (triggerLoop_sound _ IHte)|]. intros Hs1.
      destruct o1; [by eapply (triggerLoop_sound _ IHte)|].
      injection H as <- <-. split; [done|apply ghost_refl].
    + by injection H as <- <-.
  - (* triggerEffect *)
    intros e s l o s' Hs H. rewrite triggerEffect_S in H.
    destruct (effects s !! e) as [ef|];
      [|injection H as <- <-; split; [done|apply ghost_refl]].
    destruct (_ || _); [|injection H as <- <-; split; [done|apply ghost_refl]].
    destruct (scheduler ef) as [[c|]|].
    + by eapply IHcs.
    + injection H as <- <-. by apply note_step.
    + by eapply IHrun.
  - (* computedScheduler *)
    intros c s l o s' Hs H. rewrite computedScheduler_S in H.
    destruct (computeds s !! c) as [cell|];
      [|injection H as <- <-; split; [done|apply ghost_refl]].
    destruct (negb (_dirty cell)); [|injection H as <- <-; split; [done|apply ghost_refl]].
    assert (sound (updComputed c (with_dirty true) s) l ∧
            ghost l s (updComputed c (with_dirty true) s)) as Hstep.
    { apply same_step; try done. intros x. by apply cdep_updComputed. }
    destruct (cdep cell) as [cd|].
    + apply (sound_step s _ s' l Hstep). intros Hs1. by eapply IHtes.
    + by injection H as <- <-.
  - (* trigger *)
    intros k s l o s' Hs H. rewrite trigger_S in H.
    destruct (targetMap s !! k) as [d|]; [by eapply IHtes|].
    injection H as <- <-. split; [done|apply ghost_refl].
  - (* readComputed *)
    intros c s l o s' Hs H. rewrite readComputed_S in H.
    set (s0 := trackRefValue c s) in H.
    apply (sound_step s s0).
    { apply sound_inner; [apply frame_keeps, frame_trackRefValue|done|
        by apply trackRefValue_inner]. }
    intros Hs0.
    destruct (computeds s0 !! c) as [cell|];
      [|injection H as <- <-; split; [done|apply ghost_refl]].
    destruct (_ || _); [|injection H as <- <-; split; [done|apply ghost_refl]].
    set (s1 := updComputed _ _ s0) in H.
    apply (sound_step s0 s1).
    { apply same_step; try done. intros x. by apply cdep_updComputed. }
    intros Hs1.
    destruct (run fuel (effect cell) s1) as [[o2 s2]|] eqn:Hr; simpl in H; [|done].
    apply (sound_step s1 s2); [by eapply IHrun|]. intros Hs2.
    destruct o2; injection H as <- <-; [|split; [done|apply ghost_refl]].
    apply same_step; try done. intros x. by apply cdep_updComputed.
Qed.


(** *** C2: the markers after a run *)







(** The state in which the module is loaded is sound, when the effects list
    no set, stop no effect and have no stop pending, and the cells have no
    set. *)
Lemma sound_initial es cs vals :
  Forall (λ ef, deps ef = [] ∧ noStop (fn ef) ∧ deferStop ef = false) es →
  Forall (λ cell, cdep cell = None) cs →
  sound (initial es cs vals) [].
Proof.
  intros Hes Hcs. split_and!.
  - split_and!; [constructor|constructor|done|done].
  - split.
    + intros e. unfold depsOf. cbn [effects initial].
      destruct (es !! e) as [ef|] eqn:He; [|constructor].
      rewrite Forall_forall in Hes. destruct (Hes ef) as (-> & _); [|constructor].
      by eapply list_elem_of_lookup_2.
    + intros e d. unfold depsOf, subsOf. cbn [effects depStore initial].
      rewrite lookup_nil.
      assert (∀ x : dep, d ∈ [] ↔ x ∈ @nil eff) as Hnil.
      { intros x. split; by intros ?%elem_of_nil. }
      destruct (es !! e) as [ef|] eqn:He; [|apply Hnil].
      rewrite Forall_forall in Hes. destruct (Hes ef) as (-> & _); [|apply Hnil].
      by eapply list_elem_of_lookup_2.
  - intros d j Hj. unfold running, wbitAt, nbitAt. cbn [depStore initial].
    rewrite lookup_nil. destruct (decide _); [|done]. by rewrite reverse_nil, lookup_nil.
  - intros e ef He. cbn [effects initial] in He. rewrite Forall_forall in Hes.
    destruct (Hes ef) as (_ & ? & ?); [|done]. by eapply list_elem_of_lookup_2.
  - split.
    + intros k d Hk. cbn [targetMap initial] in Hk. by rewrite lookup_empty in Hk.
    + intros c cell d Hc Hd. cbn [computeds initial] in Hc. rewrite Forall_forall in Hcs.
      rewrite (Hcs cell) in Hd; [done|]. by eapply list_elem_of_lookup_2.
Qed.











(** What the amended claim leaves out: an effect (1) that runs within the run
    of another (0) stops that one; the bit of the depth 1 then stays in the
    masks of the set of the property 0, and an effect (2) that reads the
    property later at that depth does not become a member of the set. *)
Example stop_of_a_running_effect :
  let s := initial
    [mkEffect (ReadProp 0 (λ v, if truthy v then RunEffect 1 Ret else Ret VUndefined));
     mkEffect (StopEffect 0 (Ret VUndefined));
     mkEffect (ReadProp 0 Ret)] [] [(0%nat, VNum 0)] in
  (λ r, (depStore r.2, map deps (effects r.2))) <$>
    exec 20 (RunEffect 0 (λ _, WriteProp 0 (VNum 1) (RunEffect 2 Ret))) s
  = Some ([{| subs := []; w := 2; n := 2 |}], [[]; []; []]).
Proof. by vm_compute. Qed.

End EffectSpec.
Module EffectMoreSpec.
Import Effect EffectSpec EffectMore.

(** *** The tracking switch *)

Lemma resets_flip x s :
  shouldTrack (resetTracking (flip s x)) = shouldTrack s ∧
  trackStack (resetTracking (flip s x)) = trackStack s.
Proof.
  destruct x; unfold flip, pauseTracking, enableTracking, resetTracking;
    cbn [trackStack shouldTrack set_shouldTrack set_trackStack];
    rewrite last_snoc; cbn [trackStack shouldTrack set_shouldTrack set_trackStack];
    by rewrite removelast_last.
Qed.

Lemma resets_stack n : ∀ s s',
  shouldTrack s' = shouldTrack s → trackStack s' = trackStack s →
  shouldTrack (resets n s') = shouldTrack (resets n s) ∧
  trackStack (resets n s') = trackStack (resets n s).
Proof.
  induction n as [|n IH]; intros s s' Ht Hs; [done|].
  cbn [resets]. apply IH; unfold resetTracking; rewrite Hs;
    destruct (last (trackStack s)); cbn; congruence.
Qed.

(** X1. the tracking switch is a stack. After any calls of [pauseTracking]
    and [enableTracking], as many calls of [resetTracking] bring
    [shouldTrack] and the stack back to what they were; a pause turns the
    tracking off and an enabling turns it on; and a reset with nothing on the
    stack turns the tracking on. *)
Theorem resetTracking_restores (ops : list switch) (s : state) :
  (shouldTrack (resets (length ops) (foldl flip s ops)) = shouldTrack s ∧
   trackStack (resets (length ops) (foldl flip s ops)) = trackStack s) ∧
  shouldTrack (pauseTracking s) = false ∧
  shouldTrack (enableTracking s) = true ∧
  (trackStack s = [] →
   shouldTrack (resetTracking s) = true ∧ trackStack (resetTracking s) = []).
Proof.
  split; [|split; [done|split; [done|]]].
  - induction ops as [|x ops IH] using rev_ind; [done|].
    rewrite foldl_app, length_app, Nat.add_comm. cbn [foldl length Nat.add resets].
    destruct (resets_flip x (foldl flip s ops)) as [Ht Hs].
    destruct (resets_stack (length ops) (foldl flip s ops)
                (resetTracking (flip (foldl flip s ops) x)) Ht Hs) as [-> ->].
    exact IH.
  - intros Hs. unfold resetTracking. rewrite Hs. cbn. by rewrite Hs.
Qed.


(** *** The masks while no effect runs *)

Lemma running_nil j : running [] j = None.
Proof. unfold running. destruct (decide _); [|done]. by rewrite reverse_nil, lookup_nil. Qed.

Lemma marked_idle s d x : marked s [] → depStore s !! d = Some x → w x = 0 ∧ n x = 0.
Proof.
  intros Hm Hx.
  assert (∀ j, 0 ≤ j → Z.testbit (w x) j = false ∧ Z.testbit (n x) j = false) as Hbits.
  { intros j Hj. specialize (Hm d j Hj). rewrite running_nil in Hm.
    unfold wbitAt, nbitAt in Hm. by rewrite Hx in Hm. }
  split; apply Z.bits_inj'; intros j Hj; rewrite Z.bits_0; by apply Hbits.
Qed.

Lemma stacked_idle s : stacked s [] →
  activeEffect s = None ∧ effectTrackDepth s = 0 ∧ trackOpBit s = 1.
Proof.
  intros (Hc & _ & Hd & Hb). split_and!; [by inversion Hc|done|].
  unfold bitOK in Hb. by rewrite Hb, Hd.
Qed.

(** X2. what the engine keeps between the runs. Started where the module is
    loaded, with effects that list no set, and run by code that stops no
    effect, the engine is left, when the code has returned or thrown, with
    both masks of every dependency set at zero, with every effect listing
    exactly the sets it is a member of, each once, and with no active effect,
    the depth 0 and the generation bit 1. *)
Theorem idle_invariant (es : list ReactiveEffect) (cs : list ComputedRefImpl)
  (vals : list (key * value)) (c : code) (fuel : nat) (o : outcome) (s' : state) :
  Forall (λ ef, deps ef = [] ∧ noStop (fn ef) ∧ deferStop ef = false) es →
  Forall (λ cell, cdep cell = None) cs →
  noStop c →
  exec fuel c (initial es cs vals) = Some (o, s') →
  (∀ d x, depStore s' !! d = Some x → w x = 0 ∧ n x = 0) ∧
  (∀ e, NoDup (depsOf s' e)) ∧
  (∀ e d, d ∈ depsOf s' e ↔ e ∈ subsOf s' d) ∧
  activeEffect s' = None ∧ effectTrackDepth s' = 0 ∧ trackOpBit s' = 1.
Proof.
  intros Hes Hcs Hc H.
  destruct (engine_sound fuel) as (Hexec & _).
  destruct (Hexec c _ [] o s' Hc (sound_initial es cs vals Hes Hcs) H)
    as [(Hst & [Hnd Hm] & Hmk & _) _].
  destruct (stacked_idle s' Hst) as (Ha & Hd & Hb).
  split_and!; try done. intros d x. by apply marked_idle.
Qed.

(** One effect that reads the property 0 and then the property 1 or 2. *)
Definition branching : code :=
  ReadProp 0 (λ c, if truthy c then ReadProp 1 Ret else ReadProp 2 Ret).

Definition branchState : state :=
  initial [mkEffect branching] [] [(0%nat, VNum 1); (1%nat, VNum 10); (2%nat, VNum 20)].

Lemma noStop_branching : noStop branching.
Proof. constructor. intros v. destruct (truthy v); constructor; intros; constructor. Qed.

Lemma idle_invariant_witness :
  ∃ o s', exec 12 (RunEffect 0 (λ _, WriteProp 0 (VNum 0) (Ret VUndefined))) branchState
            = Some (o, s') ∧
    (∀ d x, depStore s' !! d = Some x → w x = 0 ∧ n x = 0) ∧
    (∀ e, NoDup (depsOf s' e)) ∧
    (∀ e d, d ∈ depsOf s' e ↔ e ∈ subsOf s' d) ∧
    activeEffect s' = None ∧ effectTrackDepth s' = 0 ∧ trackOpBit s' = 1.
Proof.
  destruct (exec 12 (RunEffect 0 (λ _, WriteProp 0 (VNum 0) (Ret VUndefined))) branchState)
    as [[o s']|] eqn:H; [|by vm_compute in H].
  exists o, s'. split; [done|].
  apply (idle_invariant [mkEffect branching] []
           [(0%nat, VNum 1); (1%nat, VNum 10); (2%nat, VNum 20)]
           (RunEffect 0 (λ _, WriteProp 0 (VNum 0) (Ret VUndefined))) 12 o s').
  - constructor; [|constructor]. split_and!; [done|apply noStop_branching|done].
  - constructor.
  - constructor. intros v. constructor. constructor.
  - exact H.
Defined.


(** *** Stopping an effect *)

(** X3. [stop] of an active effect that is not running. In a sound state the
    effect leaves every dependency set and lists none, it is not active any
    more, the members of the sets are otherwise the same, the state is sound
    again, and a second [stop] changes nothing. *)
Theorem stop_unsubscribes (e : eff) (ef : ReactiveEffect) (s : state) (l : list eff) :
  sound s l → e ∉ l → effects s !! e = Some ef → active ef = true →
  sound (stop e s) l ∧
  active <$> effects (stop e s) !! e = Some false ∧
  depsOf (stop e s) e = [] ∧
  (∀ d, e ∉ subsOf (stop e s) d) ∧
  (∀ e' d, e' ≠ e → e' ∈ subsOf (stop e s) d ↔ e' ∈ subsOf s d) ∧
  (∀ e', e' ≠ e → depsOf (stop e s) e' = depsOf s e') ∧
  stop e (stop e s) = stop e s.
Proof.
  intros (Hst & Hm & Hmk & Hp & Hl) Hin He Hact.
  pose proof Hst as (Hch & Hnd & Hdep & Hbit).
  assert (activeEffect s ≠ Some e) as Hne.
  { intros Ha. apply chain_head in Hch. rewrite Ha in Hch.
    destruct l as [|x l]; [done|]. injection Hch as ->. apply Hin. by left. }
  assert (stop e s = updEffect e (with_active false) (cleanupEffect e s)) as Hstop.
  { unfold stop. rewrite He, bool_decide_eq_false_2 by done. by rewrite Hact. }
  assert (depsOf s e = deps ef) as Hdeps by (unfold depsOf; by rewrite He).
  unfold cleanupEffect in Hstop. rewrite He in Hstop.
  destruct (cleanupLoop_views e (deps ef) s) as (Hef & Hr & Hq & Hw & Hn & Hs).
  set (t0 := foldl _ s (deps ef)) in *.
  set (t1 := updEffect e (with_deps []) t0) in *.
  assert (effects t1 !! e = Some (with_deps [] ef)) as He1.
  { subst t1. unfold updEffect, set_effects. cbn [effects].
    by rewrite list_lookup_alter_eq, Hef, He. }
  assert (effects (stop e s) !! e = Some (with_active false (with_deps [] ef))) as He2.
  { rewrite Hstop. unfold updEffect at 1. unfold set_effects. cbn [effects].
    by rewrite list_lookup_alter_eq, He1. }
  assert (∀ e', depsOf (stop e s) e' = if decide (e' = e) then [] else depsOf s e') as Hde.
  { intros e'. rewrite Hstop, depsOf_updEffect, He1.
    destruct (decide (e' = e)) as [-> |Hne']; [done|].
    subst t1. rewrite depsOf_updEffect, decide_False by done.
    unfold depsOf. by rewrite Hef. }
  assert (∀ d e', e' ∈ subsOf (stop e s) d ↔ e' ∈ subsOf s d ∧ e' ≠ e) as Hsu.
  { intros d e'. rewrite Hstop.
    change (subsOf (updEffect e (with_active false) t1) d) with (subsOf t0 d).
    rewrite Hs. split; [|tauto]. intros [H1 H2]. split; [done|]. intros ->.
    apply H2; [|done]. rewrite <- Hdeps. by apply Hm. }
  assert (quiet s (stop e s)) as Hqs.
  { rewrite Hstop. eapply quiet_trans; [exact Hq|].
    eapply quiet_trans; by apply quiet_updEffect. }
  split_and!.
  - split_and!.
    + eapply stacked_keeps; [apply frame_keeps, frame_stop|done].
    + destruct Hm as [Hnd' Hm]. split.
      * intros e'. rewrite Hde. destruct (decide (e' = e)); [constructor|done].
      * intros e' d. rewrite Hde, Hsu. destruct (decide (e' = e)) as [-> |Hne'].
        -- split; [by intros ?%elem_of_nil|tauto].
        -- rewrite Hm. tauto.
    + intros d j Hj. specialize (Hmk d j Hj).
      assert (wbitAt (stop e s) d j = wbitAt s d j) as ->.
      { rewrite Hstop. change (wbitAt (updEffect e _ t1) d j) with (wbitAt t0 d j). apply Hw. }
      assert (nbitAt (stop e s) d j = nbitAt s d j) as ->.
      { rewrite Hstop. change (nbitAt (updEffect e _ t1) d j) with (nbitAt t0 d j). apply Hn. }
      destruct (running l j) as [e'|] eqn:Hrun; [|done].
      rewrite Hde, decide_False; [done|].
      intros ->. by apply running_elem in Hrun as [? _].
    + by eapply polite_quiet.
    + by eapply linked_quiet.
  - by rewrite He2.
  - by rewrite Hde, decide_True.
  - intros d. rewrite Hsu. tauto.
  - intros e' d Hne'. rewrite Hsu. tauto.
  - intros e' Hne'. by rewrite Hde, decide_False.
  - unfold stop at 1. rewrite He2.
    rewrite bool_decide_eq_false_2; [done|].
    destruct (frame_stop e s) as (_ & _ & Ha & _). by rewrite Ha.
Qed.

(** An effect that reads the property 0, before and after its first run. *)
Definition reader0 : state := initial [mkEffect (ReadProp 0 Ret)] [] [(0%nat, VNum 1)].

Definition readerRan : state :=
  match run 4 0 reader0 with Some (_, s) => s | None => reader0 end.

Lemma noStop_reader : noStop (ReadProp 0 Ret).
Proof. constructor. intros v. constructor. Qed.

Lemma sound_readerRan : sound readerRan [].
Proof.
  destruct (run 4 0 reader0) as [[o s]|] eqn:H; [|by vm_compute in H].
  assert (readerRan = s) as -> by (unfold readerRan; by rewrite H).
  destruct (engine_sound 4) as (_ & Hrun & _).
  eapply (Hrun 0%nat reader0 [] o s); [|exact H].
  apply sound_initial; [|constructor].
  constructor; [|constructor]. split_and!; [done|apply noStop_reader|done].
Qed.

Lemma stop_unsubscribes_witness :
  (0%nat ∈ subsOf readerRan 0 ∧ depsOf readerRan 0 = [0%nat]) ∧
  sound (stop 0 readerRan) [] ∧
  active <$> effects (stop 0 readerRan) !! 0%nat = Some false ∧
  depsOf (stop 0 readerRan) 0 = [] ∧
  (∀ d, 0%nat ∉ subsOf (stop 0 readerRan) d) ∧
  (∀ e' d, e' ≠ 0%nat → e' ∈ subsOf (stop 0 readerRan) d ↔ e' ∈ subsOf readerRan d) ∧
  (∀ e', e' ≠ 0%nat → depsOf (stop 0 readerRan) e' = depsOf readerRan e') ∧
  stop 0 (stop 0 readerRan) = stop 0 readerRan.
Proof.
  split.
  - split; [|by vm_compute]. vm_compute. by left.
  - apply (stop_unsubscribes 0%nat
             {| active := true; deps := [0%nat]; parent := None; computed := None;
                allowRecurse := false; deferStop := false; scheduler := None;
                fn := ReadProp 0 Ret |} readerRan []).
    + apply sound_readerRan.
    + apply not_elem_of_nil.
    + by vm_compute.
    + reflexivity.
Defined.


(** *** What the engine leaves of the effects *)

Section view.
Context {A : Type} (g : ReactiveEffect → A).
Context (Hdeps : ∀ ds ef, g (with_deps ds ef) = g ef).
Context (Hparent : ∀ p ef, g (with_parent p ef) = g ef).

(** The view [g] of every effect is the same in [s] and [t]. *)
Definition alike_by (s t : state) : Prop :=
  ∀ x, g <$> effects t !! x = g <$> effects s !! x.

Lemma alike_by_refl s : alike_by s s.
Proof. done. Qed.

Lemma alike_by_trans s1 s2 s3 : alike_by s1 s2 → alike_by s2 s3 → alike_by s1 s3.
Proof. intros H1 H2 x. by rewrite H2. Qed.

Lemma alike_by_eq s t : effects t = effects s → alike_by s t.
Proof. intros He x. by rewrite He. Qed.

Lemma alike_by_updEffect e f s : (∀ ef, g (f ef) = g ef) → alike_by s (updEffect e f s).
Proof. intros Hf x. by apply lookup_updEffect. Qed.

Lemma alike_by_foldl {B} (f : state → B → state) l s :
  (∀ s a, alike_by s (f s a)) → alike_by s (foldl f s l).
Proof.
  intros Hf. revert s. induction l as [|a l IH]; intros s; simpl; [done|].
  eapply alike_by_trans; [apply Hf|apply IH].
Qed.

Lemma alike_by_initDepMarkers e s : alike_by s (initDepMarkers e s).
Proof.
  unfold initDepMarkers. destruct (effects s !! e); [|done].
  apply alike_by_foldl. intros. by apply alike_by_eq.
Qed.

Lemma alike_by_cleanupEffect e s : alike_by s (cleanupEffect e s).
Proof.
  unfold cleanupEffect. destruct (effects s !! e); [|done].
  eapply alike_by_trans; [|by apply alike_by_updEffect].
  apply alike_by_foldl. intros. by apply alike_by_eq.
Qed.

Lemma alike_by_finalizeLoop e ds kept s : alike_by s (finalizeLoop e ds kept s).2.
Proof.
  revert kept s. induction ds as [|d ds IH]; intros kept s; simpl; [done|].
  destruct (depStore s !! d) as [x|]; [|apply IH].
  destruct (wasTracked s x && negb (newTracked s x));
    (eapply alike_by_trans; [|apply IH]); by apply alike_by_eq.
Qed.

Lemma alike_by_finalizeDepMarkers e s : alike_by s (finalizeDepMarkers e s).
Proof.
  unfold finalizeDepMarkers. destruct (effects s !! e) as [ef|]; [|done].
  pose proof (alike_by_finalizeLoop e (deps ef) [] s) as H.
  destruct (finalizeLoop e (deps ef) [] s) as [kept s1]. simpl in H.
  eapply alike_by_trans; [exact H|]. by apply alike_by_updEffect.
Qed.

Lemma alike_by_trackEffects e d s : alike_by s (trackEffects e d s).
Proof.
  unfold trackEffects. cbv zeta.
  eapply (alike_by_trans _ (note (Tracked e d) s)); [by apply alike_by_eq|].
  generalize (note (Tracked e d) s). clear s. intros s.
  destruct (depStore s !! d) as [x|]; [|done].
  destruct (effectTrackDepth s <=? maxMarkerBits).
  - destruct (negb (newTracked s x)); [|done].
    destruct (negb (wasTracked s x)); [|by apply alike_by_eq].
    eapply alike_by_trans; [|by apply alike_by_updEffect]. by apply alike_by_eq.
  - destruct (negb (bool_decide (e ∈ subs x))); [|done].
    eapply alike_by_trans; [|by apply alike_by_updEffect]. by apply alike_by_eq.
Qed.

Lemma alike_by_track k s : alike_by s (track k s).
Proof.
  unfold track. destruct (shouldTrack s); [|done].
  destruct (activeEffect s) as [e|]; [|done].
  destruct (targetMap s !! k) as [d|]; [apply alike_by_trackEffects|].
  simpl. eapply alike_by_trans; [|apply alike_by_trackEffects]. by apply alike_by_eq.
Qed.

Lemma alike_by_trackRefValue c s : alike_by s (trackRefValue c s).
Proof.
  unfold trackRefValue. destruct (shouldTrack s); [|done].
  destruct (activeEffect s) as [e|]; [|done].
  destruct (computeds s !! c) as [cell|]; [|done].
  destruct (cdep cell) as [d|]; [apply alike_by_trackEffects|].
  unfold createDep. cbv beta iota zeta.
  eapply alike_by_trans; [|apply alike_by_trackEffects]. by apply alike_by_eq.
Qed.

Lemma alike_by_runTry e s : alike_by s (runTry e s).
Proof.
  unfold runTry. cbv zeta. set (s0 := set_trackOpBit _ _).
  assert (alike_by s s0) as H0.
  { eapply (alike_by_trans _ (updEffect e (with_parent (activeEffect s)) s));
      [by apply alike_by_updEffect|by apply alike_by_eq]. }
  destruct (effectTrackDepth s0 <=? maxMarkerBits);
    (eapply alike_by_trans; [exact H0|]);
    [apply alike_by_initDepMarkers|apply alike_by_cleanupEffect].
Qed.

(** The [finally] block up to the test of [deferStop]. *)
Definition unwound (e : eff) (b : bool) (s : state) : state :=
  let s := if effectTrackDepth s <=? maxMarkerBits then finalizeDepMarkers e s else s in
  let s := set_effectTrackDepth (effectTrackDepth s - 1) s in
  let s := set_trackOpBit (shl1 (effectTrackDepth s)) s in
  let s := set_activeEffect (effects s !! e ≫= parent) s in
  let s := set_shouldTrack b s in
  updEffect e (with_parent None) s.

Lemma alike_by_unwound e b s : alike_by s (unwound e b s).
Proof.
  unfold unwound. cbv zeta.
  set (sa := if effectTrackDepth s <=? maxMarkerBits then finalizeDepMarkers e s else s).
  assert (alike_by s sa) as Ha.
  { subst sa. destruct (_ <=? _); [apply alike_by_finalizeDepMarkers|done]. }
  eapply alike_by_trans; [exact Ha|].
  eapply alike_by_trans; [|by apply alike_by_updEffect]. by apply alike_by_eq.
Qed.

End view.

Lemma runFinally_unwound e b s : polite s → runFinally e b s = unwound e b s.
Proof.
  intros Hp. unfold runFinally. cbv zeta. fold (unwound e b s).
  pose proof (alike_by_unwound deferStop (λ _ _, eq_refl) (λ _ _, eq_refl) e b s e) as H.
  destruct (effects (unwound e b s) !! e) as [ef'|]; [|done].
  destruct (effects s !! e) as [ef|] eqn:He; [|done].
  simpl in H. injection H as H. by rewrite H, (proj2 (Hp e ef He)).
Qed.

Definition settled : state → state → Prop := alike_by role.

Lemma settled_runFinally e b s : polite s → settled s (runFinally e b s).
Proof. intros Hp. rewrite runFinally_unwound by done. by apply alike_by_unwound. Qed.

(** Code that stops no effect leaves the role of every effect as it was. *)
Definition Settled {A} (f : A → state → option (outcome * state)) : Prop :=
  ∀ a s l o s', sound s l → f a s = Some (o, s') → settled s s'.

Lemma settled_sound_step s s1 s' l :
  sound s1 l → settled s s1 → (sound s1 l → settled s1 s') → settled s s'.
Proof. intros Hs H1 H2. eapply alike_by_trans; [exact H1|by apply H2]. Qed.

Lemma triggerLoop_settled f : Sound f → Settled f → Settled (triggerLoop f).
Proof.
  intros Hsf Hf es. induction es as [|e es IH]; intros s l o s' Hs H; cbn [triggerLoop] in H.
  - by injection H as <- <-.
  - destruct (f e s) as [[o1 s1]|] eqn:Hfe; cbn [mbind option_bind] in H; [|done].
    destruct (Hsf e s l o1 s1 Hs Hfe) as [Hs1 _].
    eapply (alike_by_trans _ _ s1); [by eapply Hf|].
    destruct o1; [by eapply IH|]. by injection H as <- <-.
Qed.

Lemma engine_settled fuel :
  (∀ c s l o s', noStop c → sound s l → exec fuel c s = Some (o, s') → settled s s') ∧
  Settled (run fuel) ∧ Settled (triggerEffects fuel) ∧ Settled (triggerEffect fuel) ∧
  Settled (computedScheduler fuel) ∧ Settled (trigger fuel) ∧ Settled (readComputed fuel).
Proof.
  induction fuel as [|fuel (IHexec & IHrun & IHtes & IHte & IHcs & IHtr & IHrc)].
  { split_and!; intros ?; intros; done. }
  destruct (engine_sound fuel) as (Sexec & Srun & Stes & Ste & Scs & Str & Src).
  split_and!.
  - (* exec *)
    intros c s l o s' Hns Hs H.
    destruct Hns as [v| |k cont Hk|k v cont Hk|c cont Hk|e cont Hk|cont Hk|cont Hk];
      simpl in H.
    + by injection H as <- <-.
    + by injection H as <- <-.
    + destruct (note_step (Read k) s l) as [Hs0 _]; [done|done|].
      assert (sound (track k (note (Read k) s)) l) as Hs1.
      { apply (sound_inner (note (Read k) s));
          [apply frame_keeps, frame_track|done|by apply track_inner]. }
      eapply (alike_by_trans _ _ (track k (note (Read k) s))); [|by eapply IHexec].
      eapply (alike_by_trans _ _ (note (Read k) s)); [by apply alike_by_eq|].
      by apply alike_by_track.
    + set (s0 := set_store _ s) in H.
      assert (sound s0 l) as Hs0 by (by apply (same_step s s0 l)).
      eapply (alike_by_trans _ _ s0); [by apply alike_by_eq|].
      destruct (_ || _).
      * destruct (trigger fuel k s0) as [[o1 s1]|] eqn:Ht; simpl in H; [|done].
        destruct (Str k s0 l o1 s1 Hs0 Ht) as [Hs1 _].
        eapply (alike_by_trans _ _ s1); [by eapply IHtr|].
        destruct o1; [by eapply IHexec|]. by injection H as <- <-.
      * simpl in H. by eapply IHexec.
    + destruct (readComputed fuel c s) as [[o1 s1]|] eqn:Ht; simpl in H; [|done].
      destruct (Src c s l o1 s1 Hs Ht) as [Hs1 _].
      eapply (alike_by_trans _ _ s1); [by eapply IHrc|].
      destruct o1; [by eapply IHexec|]. by injection H as <- <-.
    + destruct (run fuel e s) as [[o1 s1]|] eqn:Ht; simpl in H; [|done].
      destruct (Srun e s l o1 s1 Hs Ht) as [Hs1 _].
      eapply (alike_by_trans _ _ s1); [by eapply IHrun|].
      destruct o1; [by eapply IHexec|]. by injection H as <- <-.
    + assert (sound (pauseTracking s) l) as Hs1 by (by apply (same_step s)).
      eapply (alike_by_trans _ _ (pauseTracking s)); [by apply alike_by_eq|].
      by eapply IHexec.
    + assert (sound (resetTracking s) l ∧ effects (resetTracking s) = effects s)
        as [Hs1 He1].
      { unfold resetTracking. destruct (last (trackStack s)); (split; [|done]);
          by apply (same_step s). }
      eapply (alike_by_trans _ _ (resetTracking s)); [by apply alike_by_eq|].
      by eapply IHexec.
  - (* run *)
    intros e s l o s' Hs H. rewrite run_S in H.
    destruct (effects s !! e) as [ef|] eqn:He; simpl in H; [|done].
    pose proof Hs as (Hst & _ & _ & Hp & _).
    destruct (Hp e ef He) as [Hns _].
    destruct (active ef); simpl in H.
    + pose proof Hst as (Hch & Hnd & _).
      rewrite (onStack_chain _ _ _ _ l) in H; [|done|by eapply chain_bound].
      simpl in H. case_bool_decide as Hin.
      { by injection H as <- <-. }
      destruct (exec fuel (fn ef) _) as [[o2 s2]|] eqn:Hex; simpl in H; [|done].
      injection H as <- <-.
      destruct (runTry_sound e ef s l Hs He Hin) as (Hs1 & _).
      destruct (note_step (Called e) (runTry e s) (e :: l)) as [Hs1' _]; [done|done|].
      destruct (Sexec _ _ _ _ _ Hns Hs1' Hex) as [Hs2 _].
      eapply (alike_by_trans _ _ (runTry e s)); [by apply alike_by_runTry|].
      eapply (alike_by_trans _ _ (note (Called e) (runTry e s))); [by apply alike_by_eq|].
      eapply (alike_by_trans _ _ s2); [by eapply IHexec|].
      apply settled_runFinally. apply Hs2.
    + destruct (note_step (Called e) s l) as [Hs1 _]; [done|done|].
      eapply (alike_by_trans _ _ (note (Called e) s)); [by apply alike_by_eq|].
      by eapply IHexec.
  - (* triggerEffects *)
    intros d s l o s' Hs H. rewrite triggerEffects_S in H.
    destruct (note_step (Triggered d) s l) as [Hs0 _]; [done|done|].
    eapply (alike_by_trans _ _ (note (Triggered d) s)); [by apply alike_by_eq|].
    destruct (depStore s !! d) as [x|].
    + destruct (triggerLoop _ _ (note _ s)) as [[o1 s1]|] eqn:Ht;
        cbn [mbind option_bind] in H; [|done].
      destruct (triggerLoop_sound _ Ste _ _ _ _ _ Hs0 Ht) as [Hs1 _].
      eapply (alike_by_trans _ _ s1); [by eapply (triggerLoop_settled _ Ste IHte)|].
      destruct o1; [by eapply (triggerLoop_settled _ Ste IHte)|].
      by injection H as <- <-.
    + by injection H as <- <-.
  - (* triggerEffect *)
    intros e s l o s' Hs H. rewrite triggerEffect_S in H.
    destruct (effects s !! e) as [ef|]; [|by injection H as <- <-].
    destruct (_ || _); [|by injection H as <- <-].
    destruct (scheduler ef) as [[c|]|].
    + by eapply IHcs.
    + injection H as <- <-. by apply alike_by_eq.
    + by eapply IHrun.
  - (* computedScheduler *)
    intros c s l o s' Hs H. rewrite computedScheduler_S in H.
    destruct (computeds s !! c) as [cell|]; [|by injection H as <- <-].
    destruct (negb (_dirty cell)); [|by injection H as <- <-].
    assert (sound (updComputed c (with_dirty true) s) l) as Hs1.
    { apply (same_step s); try done. intros x. by apply cdep_updComputed. }
    eapply (alike_by_trans _ _ (updComputed c (with_dirty true) s));
      [by apply alike_by_eq|].
    destruct (cdep cell) as [cd|]; [by eapply IHtes|]. by injection H as <- <-.
  - (* trigger *)
    intros k s l o s' Hs H. rewrite trigger_S in H.
    destruct (targetMap s !! k) as [d|]; [by eapply IHtes|]. by injection H as <- <-.
  - (* readComputed *)
    intros c s l o s' Hs H. rewrite readComputed_S in H.
    set (s0 := trackRefValue c s) in H.
    assert (sound s0 l) as Hs0.
    { apply (sound_inner s); [apply frame_keeps, frame_trackRefValue|done|
        by apply trackRefValue_inner]. }
    eapply (alike_by_trans _ _ s0); [by apply alike_by_trackRefValue|].
    destruct (computeds s0 !! c) as [cell|]; [|by injection H as <- <-].
    destruct (_ || _); [|by injection H as <- <-].
    set (s1 := updComputed _ _ s0) in H.
    assert (sound s1 l) as Hs1.
    { apply (same_step s0); try done. intros x. by apply cdep_updComputed. }
    eapply (alike_by_trans _ _ s1); [by apply alike_by_eq|].
    destruct (run fuel (effect cell) s1) as [[o2 s2]|] eqn:Hr; simpl in H; [|done].
    eapply (alike_by_trans _ _ s2); [by eapply IHrun|].
    destruct o2; injection H as <- <-; [|done]. by apply alike_by_eq.
Qed.


(** *** A write calls the subscribers *)

(** The record of [t] continues that of [s]. *)
Definition grows (s t : state) : Prop := ∃ evs, record t = record s ++ evs.

Lemma grows_refl s : grows s s.
Proof. exists []. by rewrite app_nil_r. Qed.

Lemma grows_trans s1 s2 s3 : grows s1 s2 → grows s2 s3 → grows s1 s3.
Proof. intros [e1 H1] [e2 H2]. exists (e1 ++ e2). by rewrite H2, H1, app_assoc. Qed.

Lemma grows_eq s t : record t = record s → grows s t.
Proof. intros H. exists []. by rewrite app_nil_r. Qed.

Lemma grows_note x s : grows s (note x s).
Proof. by exists [x]. Qed.

Lemma ghost_grows l s t : ghost l s t → grows s t.
Proof. intros (evs & Hr & _). by exists evs. Qed.

Lemma grows_count (x : event) s t :
  grows s t →
  (length (filter (λ y, y = x) (record s)) ≤ length (filter (λ y, y = x) (record t)))%nat.
Proof. intros [evs ->]. rewrite filter_app, length_app. lia. Qed.

Lemma note_count (x : event) s :
  length (filter (λ y, y = x) (record (note x s)))
  = S (length (filter (λ y, y = x) (record s))).
Proof.
  change (record (note x s)) with (record s ++ [x]).
  rewrite filter_app, length_app, filter_cons, decide_True by done. simpl. lia.
Qed.

(** A loop of [triggerEffects] that ends without an exception has come to
    every member of its list. *)
Lemma triggerLoop_reaches fuel es e : ∀ s l o s',
  sound s l → e ∈ es →
  triggerLoop (triggerEffect fuel) es s = Some (Normal o, s') →
  ∃ s1 o1 s2, sound s1 l ∧ settled s s1 ∧ grows s s1 ∧
    triggerEffect fuel e s1 = Some (o1, s2) ∧ grows s2 s'.
Proof.
  destruct (engine_sound fuel) as (_ & _ & _ & Ste & _).
  destruct (engine_settled fuel) as (_ & _ & _ & Hte & _).
  induction es as [|e0 es IH]; intros s l o s' Hs Hin H; [by apply elem_of_nil in Hin|].
  cbn [triggerLoop] in H.
  destruct (triggerEffect fuel e0 s) as [[o1 s1]|] eqn:Hfe; cbn [mbind option_bind] in H;
    [|done].
  destruct o1 as [v1|]; [|done].
  destruct (Ste e0 s l (Normal v1) s1 Hs Hfe) as [Hs1 Hg1].
  apply elem_of_cons in Hin as [-> |Hin].
  - exists s, (Normal v1), s1. split_and!; [done|done|apply grows_refl|done|].
    eapply ghost_grows. by eapply (triggerLoop_sound _ Ste).
  - destruct (IH s1 l o s' Hs1 Hin H) as (sa & oa & sb & Hsa & Hset & Hga & Hrun & Hgb).
    exists sa, oa, sb. split_and!; try done.
    + eapply alike_by_trans; [by eapply Hte|done].
    + eapply grows_trans; [by eapply ghost_grows|done].
Qed.

(** Triggering an effect while no effect runs: its function is called, or
    its scheduler, when that is one of the user. *)
Lemma triggerEffect_idle fuel e ef s o s' :
  sound s [] → effects s !! e = Some ef →
  triggerEffect fuel e s = Some (o, s') →
  (scheduler ef = None →
     (calls e (record s) < calls e (record s'))%nat) ∧
  (scheduler ef = Some UserScheduler →
     (scheduled e (record s) < scheduled e (record s'))%nat).
Proof.
  intros Hs He H. destruct fuel as [|fuel]; [done|].
  rewrite triggerEffect_S, He in H.
  pose proof Hs as (Hst & _ & _ & Hp & _).
  destruct (stacked_idle s Hst) as (Ha & _).
  rewrite Ha in H. rewrite bool_decide_eq_false_2 in H by done. cbn [negb orb] in H.
  split.
  - intros Hsch. rewrite Hsch in H.
    destruct fuel as [|fuel]; [done|]. rewrite run_S, He in H. simpl in H.
    destruct (engine_sound fuel) as (Sexec & _).
    destruct (Hp e ef He) as [Hns _].
    assert (∀ s0 o0 s1, sound s0 [] ∨ sound s0 [e] →
      exec fuel (fn ef) (note (Called e) s0) = Some (o0, s1) →
      (calls e (record s0) < calls e (record s1))%nat) as Hcall.
    { intros s0 o0 s1 Hs0 Hex.
      assert (grows (note (Called e) s0) s1) as Hg.
      { destruct Hs0 as [Hs0|Hs0].
        - destruct (note_step (Called e) s0 []) as [Hs0' _]; [done|done|].
          eapply ghost_grows. by eapply (Sexec _ _ _ _ _ Hns Hs0' Hex).
        - destruct (note_step (Called e) s0 [e]) as [Hs0' _]; [done|done|].
          eapply ghost_grows. by eapply (Sexec _ _ _ _ _ Hns Hs0' Hex). }
      pose proof (grows_count (Called e) _ _ Hg) as Hle.
      rewrite note_count in Hle. unfold calls. lia. }
    destruct (active ef); simpl in H.
    + rewrite Ha in H. destruct (effects s) as [|x xs] eqn:Hes; [done|].
      simpl in H.
      destruct (exec fuel (fn ef) _) as [[o2 s2]|] eqn:Hex; simpl in H; [|done].
      injection H as <- <-. rewrite <- Hes in *.
      destruct (runTry_sound e ef s [] Hs He) as (Hs1 & _ & Hr1 & _);
        [apply not_elem_of_nil|].
      pose proof (Hcall (runTry e s) o2 s2 (or_intror Hs1) Hex) as Hlt.
      rewrite Hr1 in Hlt.
      destruct (note_step (Called e) (runTry e s) [e]) as [Hs1' _]; [done|done|].
      destruct (Sexec _ _ _ _ _ Hns Hs1' Hex) as [Hs2 _].
      destruct (runFinally_sound e (shouldTrack s) s2 [] Hs2) as (_ & _ & Hr3 & _).
      by rewrite Hr3.
    + by eapply (Hcall s o s' (or_introl Hs)).
  - intros Hsch. rewrite Hsch in H. injection H as <- <-.
    unfold scheduled. rewrite note_count. lia.
Qed.

(** X4. a write calls the subscribers. While no effect runs, in a sound
    state, a write that adds the property [k] or changes its value, and that
    ends without an exception, has called the function of every effect
    without a scheduler that is a member of the set of [k], and the scheduler
    of every member that has one of the user. *)
Theorem write_reruns (e : eff) (ef : ReactiveEffect) (k : key) (v o : value)
  (s s' : state) (fuel : nat) :
  sound s [] → subscribed s e k → effects s !! e = Some ef →
  store s !! k ≠ Some v →
  exec fuel (WriteProp k v (Ret VUndefined)) s = Some (Normal o, s') →
  (scheduler ef = None →
     (calls e (record s) < calls e (record s'))%nat) ∧
  (scheduler ef = Some UserScheduler →
     (scheduled e (record s) < scheduled e (record s'))%nat).
Proof.
  intros Hs (d & x & Hk & Hx & Hin) He Hv H.
  destruct fuel as [|fuel]; [done|]. cbn [exec] in H.
  assert (negb (bool_decide (is_Some (store s !! k)))
          || hasChanged v (default VUndefined (store s !! k)) = true) as Hch.
  { destruct (store s !! k) as [old|] eqn:Hold.
    - rewrite bool_decide_eq_true_2 by (by eexists). simpl. unfold hasChanged.
      rewrite bool_decide_eq_false_2; [done|]. intros ->. done.
    - rewrite bool_decide_eq_false_2; [done|]. by intros [? ?]. }
  rewrite Hch in H.
  set (s0 := set_store _ s) in H.
  assert (sound s0 []) as Hs0 by (by apply (same_step s s0)).
  destruct (trigger fuel k s0) as [[o1 s1]|] eqn:Ht; cbn [mbind option_bind] in H; [|done].
  destruct o1 as [v1|]; [|by destruct fuel].
  assert (grows s1 s') as Hg1.
  { destruct fuel as [|fuel]; [done|]. cbn [exec] in H. injection H as _ <-.
    apply grows_refl. }
  destruct fuel as [|fuel]; [done|]. rewrite trigger_S in Ht.
  change (targetMap s0) with (targetMap s) in Ht. rewrite Hk in Ht.
  destruct fuel as [|fuel]; [done|]. rewrite triggerEffects_S in Ht.
  change (depStore s0) with (depStore s) in Ht. rewrite Hx in Ht.
  set (sn := note (Triggered d) s0) in Ht.
  destruct (note_step (Triggered d) s0 []) as [Hsn _]; [done|done|].
  fold sn in Hsn.
  destruct (engine_sound fuel) as (_ & _ & _ & Ste & _).
  destruct (engine_settled fuel) as (_ & _ & _ & Hte & _).
  destruct (triggerLoop _ _ sn) as [[o2 s2]|] eqn:Hl1; cbn [mbind option_bind] in Ht;
    [|done].
  destruct o2 as [v2|]; [|done].
  destruct (triggerLoop_sound _ Ste _ _ _ _ _ Hsn Hl1) as [Hs2 Hg2].
  pose proof (triggerLoop_settled _ Ste Hte _ _ _ _ _ Hsn Hl1) as Hset2.
  assert (∃ sa oa sb, sound sa [] ∧ settled sn sa ∧ grows sn sa ∧
            triggerEffect fuel e sa = Some (oa, sb) ∧ grows sb s1)
    as (sa & oa & sb & Hsa & Hseta & Hga & Hrun & Hgb).
  { destruct (isComputedEffect sn e) eqn:Hc.
    - assert (e ∈ filter (λ e, isComputedEffect s0 e = true) (subs x)) as Hin1.
      { apply list_elem_of_filter. split; [exact Hc|done]. }
      destruct (triggerLoop_reaches fuel _ e _ _ _ _ Hsn Hin1 Hl1) as
        (sa & oa & sb & ? & ? & ? & ? & ?).
      exists sa, oa, sb. split_and!; try done.
      eapply grows_trans; [done|]. eapply ghost_grows.
      by eapply (triggerLoop_sound _ Ste _ _ _ _ _ Hs2 Ht).
    - assert (e ∈ filter (λ e, isComputedEffect s2 e = false) (subs x)) as Hin2.
      { apply list_elem_of_filter. split; [|done].
        unfold isComputedEffect in *. specialize (Hset2 e). unfold role in Hset2.
        destruct (effects s2 !! e) as [ef2|], (effects sn !! e) as [efn|];
          simpl in Hset2; try done. injection Hset2 as _ _ _ ->. done. }
      destruct (triggerLoop_reaches fuel _ e _ _ _ _ Hs2 Hin2 Ht) as
        (sa & oa & sb & ? & ? & ? & ? & ?).
      exists sa, oa, sb. split_and!; try done.
      + eapply alike_by_trans; done.
      + eapply grows_trans; [by eapply ghost_grows|done]. }
  assert (∃ efa, effects sa !! e = Some efa ∧ scheduler efa = scheduler ef)
    as (efa & Hefa & Hsch).
  { specialize (Hseta e). change (effects sn) with (effects s) in Hseta.
    rewrite He in Hseta. destruct (effects sa !! e) as [efa|]; [|done].
    simpl in Hseta. unfold role in Hseta. injection Hseta as _ Hsch _ _.
    by exists efa. }
  destruct (triggerEffect_idle fuel e efa sa oa sb Hsa Hefa Hrun) as [H1 H2].
  assert (grows s sa) as Hpre.
  { eapply grows_trans; [|exact Hga]. apply (grows_note (Triggered d) s0). }
  assert (grows sb s') as Hpost by (by eapply grows_trans).
  split.
  - intros Hn. rewrite Hsch, Hn in H1. specialize (H1 eq_refl).
    pose proof (grows_count (Called e) _ _ Hpre).
    pose proof (grows_count (Called e) _ _ Hpost). unfold calls in *. lia.
  - intros Hu. rewrite Hsch, Hu in H2. specialize (H2 eq_refl).
    pose proof (grows_count (Scheduled e) _ _ Hpre).
    pose proof (grows_count (Scheduled e) _ _ Hpost). unfold scheduled in *. lia.
Qed.


Lemma write_reruns_witness :
  ∃ o s', exec 8 (WriteProp 0 (VNum 2) (Ret VUndefined)) readerRan = Some (Normal o, s') ∧
    (calls 0 (record readerRan) < calls 0 (record s'))%nat.
Proof.
  destruct (exec 8 (WriteProp 0 (VNum 2) (Ret VUndefined)) readerRan)
    as [[[o|] s']|] eqn:H; [|by vm_compute in H..].
  exists o, s'. split; [done|].
  destruct (write_reruns 0%nat
              {| active := true; deps := [0%nat]; parent := None; computed := None;
                 allowRecurse := false; deferStop := false; scheduler := None;
                 fn := ReadProp 0 Ret |} 0%nat (VNum 2) o readerRan s' 8) as [H1 _].
  - apply sound_readerRan.
  - exists 0%nat, {| subs := [0%nat]; w := 0; n := 0 |}.
    split; [by vm_compute|]. split; [by vm_compute|]. cbn. by left.
  - by vm_compute.
  - by vm_compute.
  - exact H.
  - by apply H1.
Defined.

End EffectMoreSpec.
Module SchedulerMoreSpec.
Import Scheduler SchedulerSpec SchedulerMore.

(** *** The recursion limit *)

Section limit.

Context (jobs : job → SchedulerJob).

(** The count that [seen] holds for [j]. *)
Definition count (seen : gmap job nat) (j : job) : nat := default O (seen !! j).

(** No count is beyond the limit by more than one. *)
Definition bounded (seen : gmap job nat) : Prop :=
  ∀ j, (count seen j ≤ S RECURSION_LIMIT)%nat.

(** From [(seen, s)] to [(seen', s')] every call was counted. *)
Definition counted (seen : gmap job nat) (s : state) (seen' : gmap job nat) (s' : state)
  : Prop :=
  bounded seen' ∧
  ∀ j, (callsOf j (ran s') + count seen j ≤ callsOf j (ran s) + count seen' j)%nat.

Lemma counted_refl seen s : bounded seen → counted seen s seen s.
Proof. intros Hb. split; [done|]. intros j. lia. Qed.

Lemma counted_trans seen1 s1 seen2 s2 seen3 s3 :
  counted seen1 s1 seen2 s2 → counted seen2 s2 seen3 s3 → counted seen1 s1 seen3 s3.
Proof.
  intros [_ H1] [Hb H2]. split; [done|]. intros j. specialize (H1 j). specialize (H2 j). lia.
Qed.

Lemma counted_same seen s s' : bounded seen → ran s' = ran s → counted seen s seen s'.
Proof. intros Hb Hr. split; [done|]. intros j. rewrite Hr. lia. Qed.

Lemma perform_ran s a : ran (perform jobs s a) = ran s.
Proof.
  destruct a as [k|k]; simpl.
  - by destruct (queueJob_cases jobs k s) as (_ & ? & _).
  - by destruct (queuePostFlushCb_fields jobs k s) as (_ & _ & ? & _).
Qed.

Lemma body_ran l : ∀ s, ran (foldl (perform jobs) s l) = ran s.
Proof. induction l as [|a l IH]; intros s; simpl; [done|]. by rewrite IH, perform_ran. Qed.

Lemma call_ran e k s : ran (call jobs e k s) = ran s ++ [e].
Proof. unfold call. by rewrite body_ran. Qed.

Lemma callsOf_snoc j r e :
  callsOf j (r ++ [e])
  = (callsOf j r + if decide (e = inl j ∨ e = inr j) then 1 else 0)%nat.
Proof.
  unfold callsOf. rewrite filter_app, length_app. f_equal.
  rewrite filter_cons, filter_nil. by destruct (decide _).
Qed.

Lemma check_counted seen k : bounded seen →
  bounded (check true seen k).1 ∧
  (∀ j, j ≠ k → count (check true seen k).1 j = count seen j) ∧
  (if (check true seen k).2 then (check true seen k).1 = seen
   else count (check true seen k).1 k = S (count seen k)).
Proof.
  intros Hb. unfold check, checkRecursiveUpdates, count.
  destruct (seen !! k) as [c|] eqn:Hk.
  - destruct (RECURSION_LIMIT <? c)%nat eqn:Hc; cbn [fst snd]; [done|].
    apply Nat.ltb_ge in Hc. split_and!.
    + intros j. unfold count. destruct (decide (j = k)) as [-> |Hne].
      * rewrite lookup_insert_eq. simpl. lia.
      * rewrite lookup_insert_ne by done. apply Hb.
    + intros j Hne. by rewrite lookup_insert_ne.
    + rewrite lookup_insert_eq. simpl. lia.
  - cbn [fst snd]. split_and!.
    + intros j. unfold count. destruct (decide (j = k)) as [-> |Hne].
      * rewrite lookup_insert_eq. simpl. unfold RECURSION_LIMIT. lia.
      * rewrite lookup_insert_ne by done. apply Hb.
    + intros j Hne. by rewrite lookup_insert_ne.
    + by rewrite lookup_insert_eq.
Qed.

(** One checked call, of a job or of a callback. *)
Lemma checked_call_counted (side : job → job + job) seen k s :
  (side = inl ∨ side = inr) → bounded seen →
  counted seen s (check true seen k).1
    (if (check true seen k).2 then s else call jobs (side k) k s).
Proof.
  intros Hside Hb. destruct (check_counted seen k Hb) as (Hb' & Hother & Hk).
  destruct (check true seen k) as [seen' skip]. cbn [fst snd] in *.
  destruct skip; [subst seen'; by apply counted_refl|].
  split; [done|]. intros j. rewrite call_ran, callsOf_snoc.
  destruct (decide (j = k)) as [-> |Hne].
  - rewrite Hk. destruct (decide _); lia.
  - rewrite (Hother j Hne). rewrite decide_False; [lia|].
    destruct Hside as [-> | ->]; intros [[=]|[=]]; congruence.
Qed.

Lemma queueLoop_counted fuel : ∀ seen s seen' s',
  bounded seen → queueLoop jobs true fuel seen s = Some (seen', s') →
  counted seen s seen' s'.
Proof.
  induction fuel as [|fuel IH]; intros seen s seen' s' Hb H; cbn [queueLoop] in H.
  - destruct (queue s !! flushIndex s); [done|]. injection H as <- <-.
    by apply counted_refl.
  - destruct (queue s !! flushIndex s) as [j|]; [|injection H as <- <-; by apply counted_refl].
    destruct (active (jobs j)).
    + pose proof (checked_call_counted inl seen j s (or_introl eq_refl) Hb) as Hc.
      destruct (check true seen j) as [seen1 skip]. cbn [fst snd] in Hc.
      eapply counted_trans; [exact Hc|].
      eapply counted_trans; [|eapply IH; [apply Hc|exact H]].
      apply counted_same; [apply Hc|done].
    + eapply counted_trans; [|eapply IH; [done|exact H]]. by apply counted_same.
Qed.

Lemma postLoop_counted cbs : ∀ seen s seen' s',
  bounded seen → postLoop jobs true cbs seen s = (seen', s') →
  counted seen s seen' s'.
Proof.
  induction cbs as [|cb cbs IH]; intros seen s seen' s' Hb H; cbn [postLoop] in H.
  - injection H as <- <-. by apply counted_refl.
  - pose proof (checked_call_counted inr seen cb s (or_intror eq_refl) Hb) as Hc.
    destruct (check true seen cb) as [seen1 skip]. cbn [fst snd] in Hc.
    eapply counted_trans; [exact Hc|].
    eapply counted_trans; [|eapply IH; [apply Hc|exact H]].
    apply counted_same; [apply Hc|done].
Qed.

Lemma flushPostFlushCbs_counted seen s seen' s' :
  bounded seen → flushPostFlushCbs jobs true seen s = (seen', s') →
  counted seen s seen' s'.
Proof.
  intros Hb H. unfold flushPostFlushCbs in H.
  destruct (pendingPostFlushCbs s) as [|cb0 cbs]; [injection H as <- <-; by apply counted_refl|].
  cbn [activePostFlushCbs set_pendingPostFlushCbs] in H.
  destruct (activePostFlushCbs s) as [acts|];
    [injection H as <- <-; by apply counted_same|].
  destruct (postLoop _ _ _ _ _) as [seen1 s1] eqn:Hloop. injection H as <- <-.
  apply postLoop_counted in Hloop; [|done].
  eapply counted_trans; [by apply counted_same|].
  eapply counted_trans; [exact Hloop|]. apply counted_same; [apply Hloop|done].
Qed.

Lemma flushJobs_counted fuel : ∀ seen s seen' s',
  bounded seen → flushJobs jobs true fuel seen s = Some (seen', s') →
  counted seen s seen' s'.
Proof.
  induction fuel as [|fuel IH]; intros seen s seen' s' Hb H; [done|].
  cbn [flushJobs] in H.
  set (s0 := set_flushIndex 0 _) in H.
  destruct (queueLoop jobs true fuel seen s0) as [[seen1 s1]|] eqn:Hloop;
    cbn [mbind option_bind] in H; [|done].
  apply queueLoop_counted in Hloop; [|done].
  destruct (flushPostFlushCbs jobs true seen1 (set_queue [] (set_flushIndex 0 s1)))
    as [seen2 s2] eqn:Hpost.
  apply flushPostFlushCbs_counted in Hpost; [|apply Hloop].
  assert (counted seen s seen2 (set_isFlushing false s2)) as Hc.
  { eapply counted_trans; [by apply (counted_same seen s s0)|].
    eapply counted_trans; [exact Hloop|].
    eapply counted_trans; [by apply (counted_same _ s1 (set_queue [] (set_flushIndex 0 s1)));
      [apply Hloop|]|].
    eapply counted_trans; [exact Hpost|]. apply counted_same; [apply Hpost|done]. }
  set (sf := set_isFlushing false s2) in *.
  destruct (queue sf) as [|? ?]; [destruct (pendingPostFlushCbs sf) as [|? ?]|].
  - by injection H as <- <-.
  - eapply counted_trans; [exact Hc|]. eapply IH; [apply Hc|exact H].
  - eapply counted_trans; [exact Hc|]. eapply IH; [apply Hc|exact H].
Qed.

End limit.

(** X5. the recursion limit. In a development build ([__DEV__]), whatever
    the jobs and callbacks queue while they run, a flush that comes to an end
    has called no job or callback more than 101 times: the first call and
    [RECURSION_LIMIT] further ones. *)
Theorem recursion_limit (jobs : job → SchedulerJob) (fuel : nat) (s s' : state) :
  flush jobs true fuel s = Some s' →
  ∀ j, (callsOf j (ran s') ≤ callsOf j (ran s) + S RECURSION_LIMIT)%nat.
Proof.
  unfold flush. intros H j.
  destruct (flushJobs jobs true fuel ∅ s) as [[seen' s1]|] eqn:Hf; [|done].
  injection H as <-.
  destruct (flushJobs_counted jobs fuel ∅ s seen' s1) as [Hb Hc]; [|done|].
  { intros k. unfold count. rewrite lookup_empty. simpl. lia. }
  specialize (Hc j). specialize (Hb j). unfold count in Hc at 1.
  rewrite lookup_empty in Hc. simpl in Hc. lia.
Qed.

(** A job that may trigger itself and queues itself when it runs. *)
Definition selfJobs (j : job) : SchedulerJob :=
  {| id := Some 1; pre := false; active := true; allowRecurse := true;
     body := [QueueJob j] |}.

Lemma recursion_limit_witness :
  ∃ s', flush selfJobs true 104 (queueJob selfJobs 0%nat initial) = Some s' ∧
    callsOf 0%nat (ran s') = 101%nat ∧
    ∀ j, (callsOf j (ran s')
          ≤ callsOf j (ran (queueJob selfJobs 0%nat initial)) + S RECURSION_LIMIT)%nat.
Proof.
  destruct (flush selfJobs true 104 (queueJob selfJobs 0%nat initial)) as [s'|] eqn:H;
    [|by vm_compute in H].
  exists s'. split; [done|]. split.
  - vm_compute in H. injection H as <-. by vm_compute.
  - exact (recursion_limit selfJobs 104 (queueJob selfJobs 0%nat initial) s' H).
Defined.

(** *** The callbacks of a flush *)

Lemma dedupe_spec l : ∀ seen,
  NoDup (dedupe seen l) ∧ ∀ x, x ∈ dedupe seen l ↔ x ∈ l ∧ x ∉ seen.
Proof.
  induction l as [|a l IH]; intros seen; simpl.
  - split; [constructor|]. intros x. rewrite elem_of_nil. tauto.
  - destruct (decide (a ∈ seen)) as [Ha|Ha].
    + destruct (IH seen) as [Hnd Hin]. split; [done|]. intros x.
      rewrite Hin, elem_of_cons. split; [tauto|]. intros [[->|?] ?]; [done|tauto].
    + destruct (IH (a :: seen)) as [Hnd Hin]. split.
      * constructor; [|done]. rewrite Hin, elem_of_cons. tauto.
      * intros x. rewrite !elem_of_cons, Hin, !elem_of_cons.
        destruct (decide (x = a)) as [->|Hne].
        { split; [intros _; split; [by left|done]|intros _; by left]. }
        split.
        { intros [?|[? Hn]]; [done|]. split; [by right|]. intros ?. apply Hn. by right. }
        intros [[?|?] Hn]; [done|]. right. split; [done|]. by intros [?|?].
Qed.

Section callbacks.

Context (jobs : job → SchedulerJob) (DEV : bool).

Lemma idLe_notAfter a b :
  notAfter (λ a b, minus (getId jobs a) (getId jobs b)) a b ↔ idLe jobs a b.
Proof.
  unfold notAfter, idLe, getId.
  destruct (id (jobs a)) as [x|], (id (jobs b)) as [y|]; simpl; try done.
  rewrite bool_decide_eq_false. lia.
Qed.

Lemma idLe_total a b : idLe jobs a b ∨ idLe jobs b a.
Proof.
  unfold idLe. destruct (id (jobs a)) as [x|], (id (jobs b)) as [y|]; try tauto. lia.
Qed.

Lemma idLe_trans a b c : idLe jobs a b → idLe jobs b c → idLe jobs a c.
Proof.
  unfold idLe.
  destruct (id (jobs a)) as [x|], (id (jobs b)) as [y|], (id (jobs c)) as [z|];
    try tauto. lia.
Qed.

Lemma sort_ids_sorted l :
  StronglySorted (idLe jobs) (sort (λ a b, minus (getId jobs a) (getId jobs b)) l).
Proof.
  assert (StronglySorted (notAfter (λ a b, minus (getId jobs a) (getId jobs b)))
            (sort (λ a b, minus (getId jobs a) (getId jobs b)) l)) as H.
  { apply sort_sorted.
    - intros x y. rewrite !idLe_notAfter. apply idLe_total.
    - intros x y z. rewrite !idLe_notAfter. apply idLe_trans. }
  induction H as [|x l' Hs IH Hall]; constructor; [done|].
  eapply Forall_impl; [exact Hall|]. intros y. by rewrite idLe_notAfter.
Qed.

(** [s'] differs from [s] in [ran], [flushIndex] and [postFlushIndex] at
    most. *)
Definition calm (s s' : state) : Prop :=
  queue s' = queue s ∧ pendingPostFlushCbs s' = pendingPostFlushCbs s ∧
  activePostFlushCbs s' = activePostFlushCbs s ∧ isFlushing s' = isFlushing s.

(** The loop over a queue of jobs that queue nothing, none of them called
    before: the active ones are called in queue order, and each is counted
    once. *)
Lemma queueLoop_calm n : ∀ fuel seen s,
  (length (queue s) - flushIndex s = n)%nat → (n ≤ fuel)%nat →
  NoDup (drop (flushIndex s) (queue s)) →
  (∀ k, k ∈ drop (flushIndex s) (queue s) → quiet jobs k ∧ seen !! k = None) →
  ∃ seen' s', queueLoop jobs DEV fuel seen s = Some (seen', s') ∧
    ran s' = ran s
      ++ (inl <$> filter (λ k, active (jobs k) = true) (drop (flushIndex s) (queue s))) ∧
    calm s s' ∧
    ∀ k, seen' !! k = seen !! k ∨ (seen !! k = None ∧ seen' !! k = Some 1%nat).
Proof.
  induction n as [|n IH]; intros fuel seen s Hn Hfuel Hnd Hq.
  - exists seen, s. assert (queue s !! flushIndex s = None) as Hnone.
    { apply lookup_ge_None. lia. }
    destruct fuel; simpl; rewrite Hnone; rewrite drop_ge by lia;
      rewrite filter_nil, app_nil_r; split_and!; try done; by left.
  - destruct fuel as [|fuel]; [lia|].
    destruct (lookup_lt_is_Some_2 (queue s) (flushIndex s)) as [k Hk]; [lia|].
    pose proof (drop_S _ _ _ Hk) as Hdrop. rewrite Hdrop in Hnd, Hq |- *.
    apply NoDup_cons in Hnd as [Hknot Hnd].
    destruct (Hq k) as [Hquiet Hseen]; [by left|].
    assert (∀ s1 seen2, calm s s1 → flushIndex s1 = S (flushIndex s) →
              (∀ k', k' ≠ k → seen2 !! k' = seen !! k') →
              (seen2 !! k = None ∨ seen2 !! k = Some 1%nat) →
              ∃ seen' s', queueLoop jobs DEV fuel seen2 s1 = Some (seen', s') ∧
                ran s' = ran s1
                  ++ (inl <$> filter (λ k, active (jobs k) = true)
                       (drop (S (flushIndex s)) (queue s))) ∧
                calm s s' ∧
                ∀ k, seen' !! k = seen !! k
                     ∨ (seen !! k = None ∧ seen' !! k = Some 1%nat)) as Hnext.
    { intros s1 seen2 (Hq1 & Hp1 & Ha1 & Hf1) Hi1 Hseen2 Hk2.
      destruct (IH fuel seen2 s1) as (seen' & s' & Hloop & Hr & Hc & Hs').
      { rewrite Hq1, Hi1. lia. } { lia. } { by rewrite Hq1, Hi1. }
      { rewrite Hq1, Hi1. intros k' Hk'. destruct (Hq k') as [? ?]; [by right|].
        split; [done|]. rewrite Hseen2; [done|]. by intros ->. }
      exists seen', s'. rewrite Hloop, Hr, Hq1, Hi1. split_and!; try done.
      - unfold calm in *. destruct Hc as (? & ? & ? & ?). split_and!; congruence.
      - intros k'. destruct (decide (k' = k)) as [->|Hne].
        + destruct (Hs' k) as [->|[_ ->]]; [|by right].
          destruct Hk2 as [->| ->]; [by left|by right].
        + rewrite <-(Hseen2 k' Hne). apply Hs'. }
    cbn [queueLoop]. rewrite Hk, filter_cons.
    destruct (active (jobs k)) eqn:Hact.
    + assert (call jobs (inl k) k s = log (inl k) s) as Hcall.
      { unfold call. unfold quiet in Hquiet. by rewrite Hquiet. }
      assert (∃ seen1, check DEV seen k = (seen1, false) ∧
                (∀ k', k' ≠ k → seen1 !! k' = seen !! k') ∧
                (seen1 !! k = None ∨ seen1 !! k = Some 1%nat))
        as (seen1 & Hcheck & Hseen1 & Hk1).
      { unfold check, checkRecursiveUpdates. destruct DEV; [|by eexists; split_and!; [| |left]].
        rewrite Hseen. eexists. split; [done|]. split.
        - intros k' Hk'. by rewrite lookup_insert_ne.
        - right. by rewrite lookup_insert_eq. }
      rewrite Hcheck, Hcall, decide_True by done.
      destruct (Hnext (set_flushIndex (flushIndex (log (inl k) s) + 1) (log (inl k) s))
                  seen1) as (seen' & s' & Hloop & Hr & Hc & Hs'); try done.
      { simpl. lia. }
      exists seen', s'. split; [done|]. rewrite Hr. split; [|done].
      simpl. by rewrite <-(assoc (++)).
    + rewrite decide_False by congruence.
      destruct (Hnext (set_flushIndex (flushIndex s + 1) s) seen)
        as (seen' & s' & Hloop & Hr & Hc & Hs'); try done.
      { simpl. lia. } { by left. }
      exists seen', s'. done.
Qed.

(** The loop over callbacks that queue nothing and are not near the limit
    calls each of them, in order, whether it is active or not. *)
Lemma postLoop_calm cbs : ∀ seen s,
  NoDup cbs →
  (∀ k, k ∈ cbs → quiet jobs k ∧ (count seen k ≤ RECURSION_LIMIT)%nat) →
  ∃ seen' s', postLoop jobs DEV cbs seen s = (seen', s') ∧
    ran s' = ran s ++ (inr <$> cbs) ∧ calm s s'.
Proof.
  induction cbs as [|cb cbs IH]; intros seen s Hnd Hq; simpl.
  - exists seen, s. rewrite app_nil_r. by split_and!.
  - apply NoDup_cons in Hnd as [Hnot Hnd].
    destruct (Hq cb) as [Hquiet Hcount]; [by left|].
    assert (call jobs (inr cb) cb s = log (inr cb) s) as Hcall.
    { unfold call. unfold quiet in Hquiet. by rewrite Hquiet. }
    assert (∃ seen1, check DEV seen cb = (seen1, false) ∧
              ∀ k', k' ≠ cb → seen1 !! k' = seen !! k') as (seen1 & Hcheck & Hseen1).
    { unfold check, checkRecursiveUpdates. destruct DEV; [|by eexists].
      unfold count in Hcount. destruct (seen !! cb) as [c|] eqn:Hc; simpl in Hcount.
      - destruct (Nat.ltb_spec RECURSION_LIMIT c); [lia|].
        eexists. split; [done|]. intros k' Hk'. by rewrite lookup_insert_ne.
      - eexists. split; [done|]. intros k' Hk'. by rewrite lookup_insert_ne. }
    rewrite Hcheck, Hcall.
    destruct (IH seen1 (set_postFlushIndex (postFlushIndex (log (inr cb) s) + 1)
                          (log (inr cb) s))) as (seen' & s' & Hloop & Hr & Hc);
      [done| |].
    { intros k Hk. destruct (Hq k) as [? ?]; [by right|]. split; [done|].
      unfold count. rewrite Hseen1; [done|]. by intros ->. }
    exists seen', s'. split; [done|]. rewrite Hr. simpl.
    rewrite <-(assoc (++)). split; [done|]. unfold calm in *. simpl in Hc.
    destruct Hc as (? & ? & ? & ?). split_and!; congruence.
Qed.

Lemma queuePostFlushCbs_fields cbs : ∀ s,
  activePostFlushCbs s = None →
  let s' := queuePostFlushCbs jobs cbs s in
  queue s' = queue s ∧ flushIndex s' = flushIndex s ∧ ran s' = ran s ∧
  isFlushing s' = isFlushing s ∧ activePostFlushCbs s' = None ∧
  pendingPostFlushCbs s' = pendingPostFlushCbs s ++ cbs.
Proof.
  unfold queuePostFlushCbs. induction cbs as [|cb cbs IH]; intros s Ha; simpl.
  - rewrite app_nil_r. by split_and!.
  - destruct (queuePostFlushCb_fields jobs cb s) as (Hq & Hi & Hr & Hf & Ha' & _).
    cbv zeta in *.
    assert (pendingPostFlushCbs (queuePostFlushCb jobs cb s)
            = pendingPostFlushCbs s ++ [cb]) as Hp.
    { unfold queuePostFlushCb. rewrite Ha.
      by destruct (queueFlush_fields
        (set_pendingPostFlushCbs (pendingPostFlushCbs s ++ [cb]) s))
        as (_ & _ & _ & _ & -> & _). }
    destruct (IH (queuePostFlushCb jobs cb s)) as (-> & -> & -> & -> & -> & ->);
      [congruence|].
    rewrite Hp, <-(assoc (++)). by split_and!.
Qed.

Lemma cbsRan_app s l1 l2 :
  ran s = (inl <$> l1) ++ (inr <$> l2) → jobsRan s = l1 ∧ cbsRan s = l2.
Proof.
  intros Hr. unfold jobsRan, cbsRan. rewrite Hr, !omap_app. split.
  - rewrite <-(app_nil_r l1) at 2. f_equal.
    + clear Hr. induction l1 as [|x l1 IH]; simpl; [done|]. f_equal. exact IH.
    + clear Hr. induction l2 as [|x l2 IH]; simpl; [done|]. exact IH.
  - rewrite <-(app_nil_l l2) at 2. f_equal.
    + clear Hr. induction l1 as [|x l1 IH]; simpl; [done|]. exact IH.
    + clear Hr. induction l2 as [|x l2 IH]; simpl; [done|]. f_equal. exact IH.
Qed.

(** The flush of an idle state with pending callbacks, where no job and no
    callback queues anything. *)
Lemma flush_calm fuel s :
  isFlushing s = false → flushIndex s = O → ran s = [] →
  activePostFlushCbs s = None → NoDup (queue s) →
  (length (queue s) ≤ fuel)%nat →
  (∀ k, k ∈ queue s → quiet jobs k) →
  (∀ k, k ∈ pendingPostFlushCbs s → quiet jobs k) →
  ∃ s', flush jobs DEV (S fuel) s = Some s' ∧
    ran s' =
      (inl <$> filter (λ k, active (jobs k) = true) (sort (comparator jobs) (queue s)))
      ++ (inr <$> sort (λ a b, minus (getId jobs a) (getId jobs b))
                    (dedupe [] (pendingPostFlushCbs s))).
Proof.
  intros Hfl Hfi Hran Hact Hnd Hfuel Hquiet Hquiet'.
  unfold flush. cbn [flushJobs].
  set (s1 := set_flushIndex 0 (set_queue _ _)).
  destruct (queueLoop_calm (length (queue s1)) fuel ∅ s1)
    as (seen' & s' & Hloop & Hr & (Hq & Hp & Ha & Hf) & Hseen).
  { simpl. lia. }
  { subst s1. simpl. by rewrite (sort_perm _ _). }
  { subst s1. simpl. by rewrite (sort_perm _ _). }
  { subst s1. simpl. intros k Hk. rewrite (sort_perm _ _) in Hk. split; [auto|done]. }
  rewrite Hloop. cbn [mbind option_bind].
  subst s1. simpl in Hp, Hr, Ha, Hq, Hf. rewrite Hran in Hr. simpl in Hr.
  unfold flushPostFlushCbs. cbn [pendingPostFlushCbs set_queue set_flushIndex].
  rewrite Hp. destruct (pendingPostFlushCbs s) as [|cb cbs] eqn:Hpend.
  - simpl. rewrite Hp. eexists. split; [done|]. simpl. by rewrite Hr, app_nil_r.
  - rewrite <-Hpend in *.
    cbn [activePostFlushCbs set_pendingPostFlushCbs set_queue set_flushIndex].
    rewrite Ha, Hact.
    set (sorted := sort _ (dedupe [] (pendingPostFlushCbs s))).
    set (s2 := set_postFlushIndex 0 _).
    destruct (dedupe_spec (pendingPostFlushCbs s) []) as [Hdnd Hdin].
    destruct (postLoop_calm sorted seen' s2) as (seen2 & s3 & Hpost & Hr3 & Hq3 & Hp3 & _).
    { subst sorted. by rewrite (sort_perm _ _). }
    { intros k Hk. subst sorted. rewrite (sort_perm _ _) in Hk.
      apply Hdin in Hk as [Hk _]. split; [auto|].
      unfold count. destruct (Hseen k) as [->|[_ ->]]; simpl.
      - rewrite lookup_empty. simpl. lia.
      - unfold RECURSION_LIMIT. lia. }
    rewrite Hpost. subst s2. simpl in Hr3, Hq3, Hp3. simpl. rewrite Hq3, Hp3.
    eexists. split; [done|]. simpl. by rewrite Hr3, Hr.
Qed.

End callbacks.

(** X6. Jobs queued with [queueJob] and callbacks queued with
    [queuePostFlushCb] before the flush starts, none of which queues
    anything when it runs: the flush calls the active jobs first, then every
    callback once, active or not, in ascending order of the ids, a
    callback without an id after every one with an id. *)
Theorem postFlushCbs_order (jobs : job → SchedulerJob) (DEV : bool) (js cbs : list job) :
  (∀ k, k ∈ js → quiet jobs k) → (∀ k, k ∈ cbs → quiet jobs k) →
  ∃ s', flush jobs DEV (S (length js))
          (queuePostFlushCbs jobs cbs (queueJobs jobs js initial)) = Some s' ∧
    ran s' = (inl <$> jobsRan s') ++ (inr <$> cbsRan s') ∧
    (∀ k, k ∈ jobsRan s' ↔ k ∈ js ∧ active (jobs k) = true) ∧
    StronglySorted (idLe jobs) (cbsRan s') ∧
    NoDup (cbsRan s') ∧
    ∀ k, k ∈ cbsRan s' ↔ k ∈ cbs.
Proof.
  intros Hquiet Hquiet'.
  destruct (queueJobs_idle jobs js initial idle_initial) as (Hidle & Hin & Hlen).
  simpl in Hlen. destruct Hidle as [Hfl Hfi Hran Hpend Hact Hnd].
  destruct (queuePostFlushCbs_fields jobs cbs (queueJobs jobs js initial) Hact)
    as (Hq & Hi & Hr & Hf & Ha & Hp).
  cbv zeta in *. rewrite Hpend in Hp. simpl in Hp.
  destruct (flush_calm jobs DEV (length js)
              (queuePostFlushCbs jobs cbs (queueJobs jobs js initial)))
    as (s' & Hflush & Hran'); try congruence.
  { rewrite Hq. lia. }
  { rewrite Hq. intros k Hk. apply Hquiet. apply Hin in Hk as [?|Hk]; [done|].
    by apply elem_of_nil in Hk. }
  { rewrite Hp. done. }
  exists s'. split; [done|]. rewrite Hq, Hp in Hran'.
  destruct (cbsRan_app _ _ _ Hran') as [Hj Hc]. rewrite Hj, Hc.
  destruct (dedupe_spec cbs []) as [Hdnd Hdin].
  split_and!; [done| | | |].
  - intros k. rewrite list_elem_of_filter, (sort_perm _ _), Hin, elem_of_nil. tauto.
  - apply sort_ids_sorted.
  - by rewrite (sort_perm _ _).
  - intros k. rewrite (sort_perm _ _), Hdin, elem_of_nil. tauto.
Qed.


(** Callbacks without a body; callback 1 is not active, callback 0 has no id. *)
Definition hookJobs (j : job) : SchedulerJob :=
  match j with
  | 1%nat => {| id := Some 3; pre := false; active := false; allowRecurse := false; body := [] |}
  | 2%nat => {| id := Some 1; pre := false; active := true; allowRecurse := false; body := [] |}
  | 3%nat => {| id := Some 2; pre := false; active := true; allowRecurse := false; body := [] |}
  | _ => {| id := None; pre := false; active := true; allowRecurse := false; body := [] |}
  end.

Lemma postFlushCbs_order_witness :
  ∃ s', flush hookJobs true 3
          (queuePostFlushCbs hookJobs [0; 1; 3; 1]%nat
             (queueJobs hookJobs [2; 1]%nat initial)) = Some s' ∧
    ran s' = (inl <$> jobsRan s') ++ (inr <$> cbsRan s') ∧
    (∀ k, k ∈ jobsRan s' ↔ k ∈ [2; 1]%nat ∧ active (hookJobs k) = true) ∧
    StronglySorted (idLe hookJobs) (cbsRan s') ∧
    NoDup (cbsRan s') ∧
    ∀ k, k ∈ cbsRan s' ↔ k ∈ [0; 1; 3; 1]%nat.
Proof.
  apply (postFlushCbs_order hookJobs true [2; 1]%nat [0; 1; 3; 1]%nat);
    intros k Hk; unfold quiet, hookJobs; by repeat (destruct k as [|k]; try done).
Defined.

(** Job 2 runs, job 1 is not active and does not run as a job; as a
    callback it runs, once, behind callback 3 and before callback 0. *)
Example postFlushCbs_order_run :
  ran <$> flush hookJobs true 3
            (queuePostFlushCbs hookJobs [0; 1; 3; 1]%nat
               (queueJobs hookJobs [2; 1]%nat initial))
  = Some [inl 2; inr 3; inr 1; inr 0]%nat.
Proof. reflexivity. Qed.

(** *** [invalidateJob] *)

Lemma indexOf_spec q j :
  match indexOf q j with
  | Some i => q !! i = Some j ∧ ∀ i', (i' < i)%nat → q !! i' ≠ Some j
  | None => j ∉ q
  end.
Proof.
  induction q as [|k q IH]; simpl; [apply not_elem_of_nil|].
  destruct (decide (k = j)) as [->|Hne].
  - split; [done|]. intros i' Hi'. lia.
  - destruct (indexOf q j) as [i|]; simpl.
    + destruct IH as [Hi Hlt]. split; [done|]. intros [|i'] Hi'; simpl.
      * congruence.
      * apply Hlt. lia.
    + rewrite elem_of_cons. intros [?|?]; [congruence|done].
Qed.

Lemma invalidateJob_idle j s : idle s →
  idle (invalidateJob j s) ∧
  ∀ k, k ∈ queue (invalidateJob j s)
       ↔ k ∈ queue s ∧ (k = j → head (queue s) = Some j).
Proof.
  intros [Hfl Hfi Hran Hpend Hact Hnd]. unfold invalidateJob.
  pose proof (indexOf_spec (queue s) j) as Hi.
  destruct (indexOf (queue s) j) as [i|].
  - destruct Hi as [Hi Hfirst]. rewrite Hfi.
    destruct (Nat.ltb_spec 0 i) as [Hpos|Hpos].
    + split; [split; try done; simpl; by eapply sublist_NoDup, sublist_delete|].
      simpl. intros k.
      assert (queue s = take i (queue s) ++ j :: drop (S i) (queue s)) as Hsplit.
      { by rewrite <-(drop_S _ _ _ Hi), take_drop. }
      assert (delete i (queue s) = take i (queue s) ++ drop (S i) (queue s)) as Hdel.
      { by rewrite delete_take_drop. }
      rewrite Hdel. rewrite Hsplit in Hnd. apply NoDup_app in Hnd as (_ & Hdis & Hnd).
      apply NoDup_cons in Hnd as [Hnot _].
      rewrite Hsplit at 3. rewrite !elem_of_app, elem_of_cons.
      assert (head (queue s) ≠ Some j) as Hhead.
      { rewrite head_lookup. apply Hfirst. done. }
      split.
      * intros [Hk|Hk]; (split; [tauto|]); intros ->; exfalso.
        -- apply (Hdis j Hk). by left.
        -- done.
      * intros [[Hk|[->|Hk]] Hj]; [by left| |by right]. by specialize (Hj eq_refl).
    + assert (i = O) as -> by lia. split; [by split|]. intros k.
      split; [|tauto]. intros Hk. split; [done|]. intros ->. by rewrite head_lookup.
  - split; [by split|]. intros k. split; [|tauto]. intros Hk. split; [done|].
    by intros ->.
Qed.

Section invalidate.

Context (jobs : job → SchedulerJob) (DEV : bool).

(** While no flush is running, a job queued behind a non-empty queue goes
    behind its first entry. *)
Lemma queueJob_head k s : idle s → queue s ≠ [] →
  head (queue (queueJob jobs k s)) = head (queue s).
Proof.
  intros Hs Hne.
  destruct (queueJob_cases jobs k s) as (_ & _ & _ & _ & _ & _ & Hq).
  cbv zeta in Hq. destruct Hq as [->|(pos & Hpos & ->)]; [done|].
  unfold splice. destruct (queue s) as [|x q] eqn:Hqs; [done|].
  destruct pos as [|pos]; [|done]. simpl in Hpos. lia.
Qed.

Lemma queueJobs_head js : ∀ s, idle s → queue s ≠ [] →
  head (queue (queueJobs jobs js s)) = head (queue s).
Proof.
  unfold queueJobs. induction js as [|k js IH]; intros s Hs Hne; simpl; [done|].
  destruct (queueJob_idle jobs k s Hs) as (Hs' & Hin & _).
  rewrite IH; [by apply queueJob_head|done|].
  intros Hnil. specialize (Hin k). rewrite Hnil, elem_of_nil in Hin. tauto.
Qed.

Lemma queueJobs_first js :
  head (queue (queueJobs jobs js initial)) = head js.
Proof.
  destruct js as [|k js]; [done|]. unfold queueJobs. simpl.
  change (foldl _ ?s js) with (queueJobs jobs js s).
  assert (queueJob jobs k initial
          = set_isFlushPending true (set_queue [k] initial)) as ->.
  { unfold queueJob. simpl. by destruct (id (jobs k)). }
  rewrite queueJobs_head; [done| |done].
  split; try done. simpl. apply NoDup_singleton.
Qed.

End invalidate.

(** X7. [invalidateJob] while no flush is running: of the jobs queued with
    [queueJob], none of which queues anything when it runs, the next flush
    calls the active ones except the invalidated job; but when the
    invalidated job is the one that was queued first, it stays in the queue
    and is called. *)
Theorem invalidateJob_first (jobs : job → SchedulerJob) (DEV : bool)
  (js : list job) (j : job) :
  (∀ k, k ∈ js → quiet jobs k) →
  ∃ s', flush jobs DEV (S (length js))
          (invalidateJob j (queueJobs jobs js initial)) = Some s' ∧
    ∀ k, k ∈ jobsRan s'
         ↔ k ∈ js ∧ active (jobs k) = true ∧ (k = j → head js = Some j).
Proof.
  intros Hquiet.
  destruct (queueJobs_idle jobs js initial idle_initial) as (Hidle & Hin & Hlen).
  simpl in Hlen.
  destruct (invalidateJob_idle j _ Hidle) as [Hidle' Hin'].
  assert (∀ k, k ∈ queue (queueJobs jobs js initial) ↔ k ∈ js) as Hjs.
  { intros k. rewrite Hin, elem_of_nil. tauto. }
  destruct (flush_quiet jobs DEV (length js)
              (invalidateJob j (queueJobs jobs js initial)))
    as (s' & Hflush & Hran); [done| | |].
  { unfold invalidateJob. destruct (indexOf _ _); [|lia].
    destruct (_ <? _)%nat; [|lia]. simpl.
    pose proof (sublist_length _ _ (sublist_delete (queue (queueJobs jobs js initial)) n)).
    lia. }
  { intros k Hk. apply Hquiet, Hjs. by apply Hin' in Hk as [? _]. }
  exists s'. split; [done|]. intros k.
  rewrite Hran, list_elem_of_filter, (sort_perm _ _), Hin', Hjs, queueJobs_first.
  tauto.
Qed.

Lemma invalidateJob_first_witness :
  ∃ s', flush hookJobs true 4
          (invalidateJob 3%nat (queueJobs hookJobs [3; 2; 0]%nat initial)) = Some s' ∧
    ∀ k, k ∈ jobsRan s'
         ↔ k ∈ [3; 2; 0]%nat ∧ active (hookJobs k) = true
           ∧ (k = 3%nat → head [3; 2; 0]%nat = Some 3%nat).
Proof.
  apply (invalidateJob_first hookJobs true [3; 2; 0]%nat 3%nat).
  intros k Hk. unfold quiet, hookJobs. by repeat (destruct k as [|k]; try done).
Defined.

(** Job 3, queued first, runs although it was invalidated; job 2, queued
    second, does not. *)
Example invalidateJob_runs :
  jobsRan <$> flush hookJobs true 4
                (invalidateJob 3%nat (queueJobs hookJobs [3; 2; 0]%nat initial))
    = Some [2; 3; 0]%nat ∧
  jobsRan <$> flush hookJobs true 4
                (invalidateJob 2%nat (queueJobs hookJobs [3; 2; 0]%nat initial))
    = Some [3; 0]%nat.
Proof. split; reflexivity. Qed.

(** *** The place of a queued job *)

Lemma sorted_lookup {A} (R : relation A) (l : list A) :
  StronglySorted R l →
  ∀ i i' a b, (i < i')%nat → l !! i = Some a → l !! i' = Some b → R a b.
Proof.
  induction 1 as [|x l Hs IH Hall]; intros i i' a b Hlt Ha Hb; [done|].
  destruct i' as [|i']; [lia|]. simpl in Hb. destruct i as [|i]; simpl in Ha.
  - injection Ha as ->. rewrite Forall_lookup in Hall. by eapply Hall.
  - eapply IH; [|done..]. lia.
Qed.

Section insertion.

Context (jobs : job → SchedulerJob).

Lemma findLoop_S fuel q jid start end_ :
  findLoop jobs (S fuel) q jid start end_ =
  if (start <? end_)%nat then
    match q !! Nat.shiftr (start + end_) 1 with
    | Some middleJob =>
        if goesRight jobs jid middleJob
        then findLoop jobs fuel q jid (Nat.shiftr (start + end_) 1 + 1)%nat end_
        else findLoop jobs fuel q jid start (Nat.shiftr (start + end_) 1)
    | None => start
    end
  else start.
Proof. reflexivity. Qed.

(** The binary search finds the border between the jobs that the test sends
    to the right and the others, when there is one. *)
Lemma findLoop_spec q jid : ∀ fuel start end_,
  (start ≤ end_ ≤ length q)%nat → (end_ - start ≤ fuel)%nat →
  (∀ i i' a b, (start ≤ i ≤ i')%nat → (i' < end_)%nat →
     q !! i = Some a → q !! i' = Some b →
     goesRight jobs jid b = true → goesRight jobs jid a = true) →
  (start ≤ findLoop jobs fuel q jid start end_ ≤ end_)%nat ∧
  (∀ i a, (start ≤ i < findLoop jobs fuel q jid start end_)%nat →
     q !! i = Some a → goesRight jobs jid a = true) ∧
  (∀ i a, (findLoop jobs fuel q jid start end_ ≤ i < end_)%nat →
     q !! i = Some a → goesRight jobs jid a = false).
Proof.
  induction fuel as [|fuel IH]; intros start end_ Hse Hfuel Hmono.
  - simpl. split; [lia|]. split; intros i a Hi; lia.
  - rewrite findLoop_S. destruct (Nat.ltb_spec start end_) as [Hlt|Hge].
    2:{ split; [lia|]. split; intros i a Hi; lia. }
    set (middle := Nat.shiftr (start + end_) 1).
    assert (start ≤ middle < end_)%nat as Hmid.
    { subst middle. rewrite Nat.shiftr_div_pow2. change (2 ^ 1)%nat with 2%nat.
      split; [apply Nat.div_le_lower_bound|apply Nat.Div0.div_lt_upper_bound]; lia. }
    destruct (lookup_lt_is_Some_2 q middle) as [mj Hmj]; [lia|]. rewrite Hmj.
    destruct (goesRight jobs jid mj) eqn:Hright.
    + destruct (IH (middle + 1)%nat end_) as (Hr & Hleft & Hrest); [lia|lia| |].
      { intros i i' a b Hi Hi'. apply Hmono; lia. }
      split; [lia|]. split; [|done]. intros i a Hi Ha.
      destruct (Nat.le_gt_cases i middle) as [Hle|Hgt].
      * apply (Hmono i middle a mj); [lia|lia|done|done|done].
      * apply (Hleft i a); [lia|done].
    + destruct (IH start middle) as (Hr & Hleft & Hrest); [lia|lia| |].
      { intros i i' a b Hi Hi'. apply Hmono; lia. }
      split; [lia|]. split; [done|]. intros i a Hi Ha.
      destruct (Nat.le_gt_cases middle i) as [Hle|Hgt].
      * destruct (goesRight jobs jid a) eqn:Hga; [|done].
        rewrite (Hmono middle i mj a) in Hright; [done|lia|lia|done|done|done].
      * apply (Hrest i a); [lia|done].
Qed.

Lemma goesRight_mono jid a b :
  before jobs a b → goesRight jobs jid b = true → goesRight jobs jid a = true.
Proof.
  unfold before, goesRight, getId.
  destruct (id (jobs a)) as [x|], (id (jobs b)) as [y|]; try done.
  rewrite !orb_true_iff, !andb_true_iff, !bool_decide_eq_true.
  intros [Hxy|[-> Hp]] [Hy|[Hy Hpb]]; try (left; lia). right. split; [done|auto].
Qed.

Lemma goesRight_before jid a j : id (jobs j) = Some jid →
  goesRight jobs jid a = true → before jobs a j.
Proof.
  unfold before, goesRight, getId. intros ->.
  destruct (id (jobs a)) as [x|]; [|done].
  rewrite !orb_true_iff, !andb_true_iff, !bool_decide_eq_true.
  intros [?|[-> ?]]; [by left|]. by right.
Qed.

Lemma before_goesRight jid b j : id (jobs j) = Some jid →
  goesRight jobs jid b = false → before jobs j b.
Proof.
  unfold before, goesRight, getId. intros ->.
  destruct (id (jobs b)) as [y|]; [|done].
  rewrite !orb_false_iff, !andb_false_iff, !bool_decide_eq_false.
  intros [Hlt [Hne|Hp]]; [left; lia|].
  destruct (decide (jid = y)) as [->|]; [|left; lia]. right. split; [done|].
  intros Hp'. congruence.
Qed.

End insertion.

(** X8. [queueJob] keeps the part of the queue behind the running job in
    order: when the jobs behind index [flushIndex] are sorted (ascending
    ids, no id last, a [pre] job before the others of its id), they still
    are after [queueJob], and the jobs up to index [flushIndex] are the ones
    they were. *)
Theorem queueJob_sorted (jobs : job → SchedulerJob) (j : job) (s : state) :
  StronglySorted (before jobs) (drop (S (flushIndex s)) (queue s)) →
  StronglySorted (before jobs)
    (drop (S (flushIndex s)) (queue (queueJob jobs j s))) ∧
  ((flushIndex s < length (queue s))%nat →
   take (S (flushIndex s)) (queue (queueJob jobs j s))
   = take (S (flushIndex s)) (queue s)).
Proof.
  intros Hs. unfold queueJob. destruct (_ || _); [|done].
  match goal with |- context [queueFlush ?s1] =>
    destruct (queueFlush_fields s1) as (-> & _) end.
  destruct (id (jobs j)) as [jid|] eqn:Hid; simpl.
  - unfold findInsertionIndex, splice.
    destruct (Nat.le_gt_cases (S (flushIndex s)) (length (queue s))) as [Hle|Hgt].
    + destruct (findLoop_spec jobs (queue s) jid (length (queue s))
                  (flushIndex s + 1)%nat (length (queue s)))
        as (Hr & Hleft & Hright); [lia|lia| |].
      { intros i i' a b Hi Hi' Ha Hb. destruct (decide (i = i')) as [->|Hne].
        - rewrite Ha in Hb. by injection Hb as ->.
        - apply goesRight_mono.
          apply (sorted_lookup _ _ Hs (i - S (flushIndex s)) (i' - S (flushIndex s)));
            [lia| |]; rewrite lookup_drop; [rewrite <-Ha|rewrite <-Hb]; f_equal; lia. }
      set (pos := findLoop _ _ _ _ _ _) in *.
      split.
      * rewrite drop_app_le by (rewrite length_take; lia).
        rewrite <-(drop_take_drop (queue s) (S (flushIndex s)) pos) in Hs by lia.
        apply StronglySorted_app in Hs as (Hab & Ha & Hb).
        apply StronglySorted_app_2; [|done|].
        -- intros x1 x2 Hx1 Hx2. apply elem_of_cons in Hx2 as [->|Hx2]; [|by apply Hab].
           apply list_elem_of_lookup in Hx1 as [i Hi].
           rewrite lookup_drop in Hi.
           assert (S (flushIndex s) + i < pos)%nat as Hlt.
           { apply lookup_lt_Some in Hi. rewrite length_take in Hi. lia. }
           rewrite lookup_take_lt in Hi by done.
           eapply goesRight_before; [done|]. eapply Hleft; [|done]. lia.
        -- constructor; [done|]. apply Forall_forall. intros b Hb'.
           apply list_elem_of_lookup in Hb' as [i Hi]. rewrite lookup_drop in Hi.
           eapply before_goesRight; [done|]. eapply Hright; [|done].
           apply lookup_lt_Some in Hi. lia.
      * intros _. rewrite take_app_le by (rewrite length_take; lia).
        rewrite take_take. f_equal. lia.
    + split; [|lia].
      rewrite drop_ge; [constructor|].
      rewrite length_app, length_take. simpl. rewrite length_drop.
      assert (findLoop jobs (length (queue s)) (queue s) jid (flushIndex s + 1)
                (length (queue s)) = (flushIndex s + 1)%nat) as ->.
      { destruct (length (queue s)) as [|n] eqn:Hlen; [done|]. rewrite findLoop_S.
        destruct (Nat.ltb_spec (flushIndex s + 1) (S n)); [lia|done]. }
      lia.
  - split.
    + destruct (Nat.le_gt_cases (S (flushIndex s)) (length (queue s))) as [Hle|Hgt].
      * rewrite drop_app_le by done. apply StronglySorted_app_2; [|done|].
        -- intros x1 x2 _ Hx2. apply list_elem_of_singleton in Hx2 as ->.
           unfold before. rewrite Hid. by destruct (id (jobs x1)).
        -- repeat constructor.
      * rewrite drop_ge; [constructor|]. rewrite length_app. simpl. lia.
    + intros Hlt. by rewrite take_app_le by lia.
Qed.

Lemma queueJob_sorted_witness :
  StronglySorted (before hookJobs)
    (drop 1 (queue (queueJob hookJobs 3%nat (queueJobs hookJobs [2; 1; 0]%nat initial)))) ∧
  queue (queueJob hookJobs 3%nat (queueJobs hookJobs [2; 1; 0]%nat initial))
  = [2; 3; 1; 0]%nat.
Proof.
  split; [|reflexivity].
  apply (queueJob_sorted hookJobs 3%nat (queueJobs hookJobs [2; 1; 0]%nat initial)).
  change (StronglySorted (before hookJobs) [1; 0]%nat).
  repeat constructor.
Defined.


(** *** The callbacks that run before the flush *)

Section pre.

Context (jobs : job → SchedulerJob) (DEV : bool).

Lemma preLoop_calm uid n : ∀ fuel seen i s,
  (length (queue s) - i = n)%nat → (n ≤ fuel)%nat →
  NoDup (drop i (queue s)) →
  (∀ k, k ∈ drop i (queue s) → taken jobs uid k = true →
        quiet jobs k ∧ (count seen k ≤ RECURSION_LIMIT)%nat) →
  ∃ seen' s', preLoop jobs DEV fuel uid seen i s = Some (seen', s') ∧
    ran s' = ran s ++ (inl <$> filter (λ k, taken jobs uid k = true) (drop i (queue s))) ∧
    queue s' = take i (queue s) ++ filter (λ k, taken jobs uid k = false) (drop i (queue s)) ∧
    flushIndex s' = flushIndex s ∧ isFlushing s' = isFlushing s ∧
    pendingPostFlushCbs s' = pendingPostFlushCbs s ∧
    activePostFlushCbs s' = activePostFlushCbs s.
Proof.
  induction n as [|n IH]; intros fuel seen i s Hn Hfuel Hnd Hq.
  - exists seen, s. assert (queue s !! i = None) as Hnone.
    { apply lookup_ge_None. lia. }
    destruct fuel; simpl; rewrite Hnone; rewrite drop_ge by lia;
      rewrite !filter_nil, !app_nil_r, take_ge by lia; by split_and!.
  - destruct fuel as [|fuel]; [lia|].
    destruct (lookup_lt_is_Some_2 (queue s) i) as [cb Hcb]; [lia|].
    pose proof (drop_S _ _ _ Hcb) as Hdrop. rewrite Hdrop in Hnd, Hq |- *.
    apply NoDup_cons in Hnd as [Hnot Hnd].
    assert (∃ seen' s', preLoop jobs DEV fuel uid seen (i + 1) s = Some (seen', s') ∧
      ran s' = ran s
        ++ (inl <$> filter (λ k, taken jobs uid k = true) (drop (S i) (queue s))) ∧
      queue s' = take i (queue s)
        ++ cb :: filter (λ k, taken jobs uid k = false) (drop (S i) (queue s)) ∧
      flushIndex s' = flushIndex s ∧ isFlushing s' = isFlushing s ∧
      pendingPostFlushCbs s' = pendingPostFlushCbs s ∧
      activePostFlushCbs s' = activePostFlushCbs s) as Hskip.
    { destruct (IH fuel seen (i + 1)%nat s) as (seen' & s' & Hloop & Hr & Hq' & Hrest);
        [lia|lia| | |].
      { by rewrite Nat.add_1_r. }
      { rewrite Nat.add_1_r. intros k Hk. apply Hq. by right. }
      exists seen', s'. rewrite Nat.add_1_r in Hr, Hq'.
      rewrite (take_S_r _ _ _ Hcb), <-(assoc (++)) in Hq'. done. }
    cbn [preLoop]. rewrite Hcb, !filter_cons.
    destruct (taken jobs uid cb) eqn:Ht.
    2:{ rewrite decide_False, decide_True by done. unfold taken in Ht.
        destruct (pre (jobs cb)); [|exact Hskip]. simpl in Ht.
        destruct uid as [u|]; [|done]. rewrite Ht. exact Hskip. }
    rewrite decide_True, decide_False by done.
    pose proof Ht as Ht'. unfold taken in Ht'.
    apply andb_true_iff in Ht' as [Hpre Huid]. rewrite Hpre.
    assert (match uid with
            | Some u => negb (bool_decide (id (jobs cb) = Some u))
            | None => false
            end = false) as ->.
    { destruct uid; [|done]. by rewrite Huid. }
    destruct (Hq cb) as [Hquiet Hcount]; [by left|done|].
    assert (∃ seen1, check DEV seen cb = (seen1, false) ∧
              ∀ k', k' ≠ cb → seen1 !! k' = seen !! k') as (seen1 & Hcheck & Hseen1).
    { unfold check, checkRecursiveUpdates. destruct DEV; [|by eexists].
      unfold count in Hcount. destruct (seen !! cb) as [c|] eqn:Hc; simpl in Hcount.
      - destruct (Nat.ltb_spec RECURSION_LIMIT c); [lia|].
        eexists. split; [done|]. intros k' Hk'. by rewrite lookup_insert_ne.
      - eexists. split; [done|]. intros k' Hk'. by rewrite lookup_insert_ne. }
    rewrite Hcheck.
    assert (call jobs (inl cb) cb (set_queue (delete i (queue s)) s)
            = log (inl cb) (set_queue (delete i (queue s)) s)) as ->.
    { unfold call. unfold quiet in Hquiet. by rewrite Hquiet. }
    assert (delete i (queue s) = take i (queue s) ++ drop (S i) (queue s)) as Hdel.
    { by rewrite delete_take_drop. }
    assert (length (take i (queue s)) = i) as Hlen.
    { rewrite length_take. apply lookup_lt_Some in Hcb. lia. }
    destruct (IH fuel seen1 i (log (inl cb) (set_queue (delete i (queue s)) s)))
      as (seen' & s' & Hloop & Hr & Hq' & Hrest).
    { simpl. rewrite Hdel, length_app, length_drop, Hlen. lia. }
    { lia. }
    { simpl. rewrite Hdel, drop_app_length'; done. }
    { simpl. rewrite Hdel, drop_app_length' by done. intros k Hk Htk.
      destruct (Hq k) as [? ?]; [by right|done|]. split; [done|].
      unfold count. rewrite Hseen1; [done|]. by intros ->. }
    exists seen', s'. split; [done|]. simpl in Hr, Hq', Hrest.
    rewrite Hdel, drop_app_length', take_app_length' in Hq' by done.
    rewrite Hdel, drop_app_length' in Hr by done.
    rewrite Hr, <-(assoc (++)). done.
Qed.

End pre.

(** X9. [flushPreFlushCbs], called with or without an instance while the
    entries of the queue from the start index on are distinct: it calls the
    [pre] jobs among them (with an instance, those whose id is the uid of
    the instance) in queue order, active or not, and takes them out of the
    queue; the other entries stay in the queue, in their order. The jobs
    called queue nothing and are not beyond the recursion limit. *)
Theorem flushPreFlushCbs_takes (jobs : job → SchedulerJob) (DEV : bool)
  (uid : option Z) (seen : gmap job nat) (s : state) :
  let i := if isFlushing s then (flushIndex s + 1)%nat else O in
  NoDup (drop i (queue s)) →
  (∀ k, k ∈ drop i (queue s) → taken jobs uid k = true →
        quiet jobs k ∧ (count seen k ≤ RECURSION_LIMIT)%nat) →
  ∃ seen' s', flushPreFlushCbs jobs DEV (length (queue s)) uid seen s = Some (seen', s') ∧
    ran s' = ran s
      ++ (inl <$> filter (λ k, taken jobs uid k = true) (drop i (queue s))) ∧
    queue s' = take i (queue s)
      ++ filter (λ k, taken jobs uid k = false) (drop i (queue s)) ∧
    flushIndex s' = flushIndex s.
Proof.
  intros i Hnd Hq. unfold flushPreFlushCbs. fold i.
  destruct (preLoop_calm jobs DEV uid (length (queue s) - i) (length (queue s)) seen i s)
    as (seen' & s' & Hloop & Hr & Hq' & Hi & _); [done|lia|done|done|].
  exists seen', s'. done.
Qed.

(** Watchers 1 and 3 are [pre] jobs of the instances 7 and 8; job 2 is the
    update of instance 7. *)
Definition watchJobs (j : job) : SchedulerJob :=
  match j with
  | 1%nat => {| id := Some 7; pre := true; active := false; allowRecurse := false; body := [] |}
  | 2%nat => {| id := Some 7; pre := false; active := true; allowRecurse := false; body := [] |}
  | _ => {| id := Some 8; pre := true; active := true; allowRecurse := false; body := [] |}
  end.

Lemma flushPreFlushCbs_takes_witness :
  ∃ seen' s',
    flushPreFlushCbs watchJobs true 3 (Some 7) ∅
      (queueJobs watchJobs [2; 3; 1]%nat initial) = Some (seen', s') ∧
    ran s' = [inl 1%nat] ∧ queue s' = [2; 3]%nat ∧ flushIndex s' = O.
Proof.
  apply (flushPreFlushCbs_takes watchJobs true (Some 7) ∅
           (queueJobs watchJobs [2; 3; 1]%nat initial)).
  - change (NoDup [2; 1; 3]%nat). apply (bool_decide_unpack _). by vm_compute.
  - intros k _ _. split; [|by vm_compute; lia].
    unfold quiet, watchJobs. by repeat (destruct k as [|k]; try done).
Defined.


End SchedulerMoreSpec.
Module ReactiveMoreSpec.
Import Reactive ReactiveSpec ReactiveMore.

(** *** The flags of a proxy *)

Lemma wf_emit e s : wf s → wf (emit e s).
Proof.
  intros [H1 H2]. split; [exact H1|]. intros ro sh t p Hp.
  apply (H2 ro sh t p). by destruct ro, sh.
Qed.

Section proxy.
Context (s : state) (p t : addr) (ro sh c : bool).
Hypothesis Hp : heap s !! p = Some (Proxy t ro sh c).

Lemma isReadonly_proxy : isReadonly s (VObj p) = Some ro.
Proof.
  unfold isReadonly, pureFlag, flagOf. cbn [getFlag]. rewrite Hp. simpl.
  destruct c; simpl; by destruct ro.
Qed.

Lemma isReactive_flag_proxy : pureFlag IS_REACTIVE (VObj p) s = Some (VBool (negb ro)).
Proof. unfold pureFlag, flagOf. cbn [getFlag]. rewrite Hp. simpl. by destruct c. Qed.

Lemma flagOf_isReactive_proxy :
  flagOf IS_REACTIVE (VObj p) s = Some (VBool (negb ro), s).
Proof. unfold flagOf. cbn [getFlag]. rewrite Hp. simpl. by destruct c. Qed.

(** [__v_raw] of a proxy in a well-formed heap is its target. *)
Lemma flagOf_raw_proxy : wf s → flagOf RAW (VObj p) s = Some (VObj t, s).
Proof.
  intros Hwf. unfold flagOf. cbn [getFlag]. rewrite Hp. simpl.
  destruct c; [done|].
  rewrite (sameProto_target s Hwf p t ro sh false Hp). simpl.
  by rewrite orb_true_r.
Qed.

Lemma isReactive_rec_proxy fuel : wf s →
  isReactive_rec (S fuel) s (VObj p)
  = if ro then isReactive_rec fuel s (VObj t) else Some true.
Proof.
  intros Hwf. cbn [isReactive_rec]. rewrite isReadonly_proxy. cbn [mbind option_bind].
  pose proof (flagOf_raw_proxy Hwf) as Hraw. pose proof isReactive_flag_proxy as Hre.
  destruct ro.
  - unfold pureFlag. by rewrite Hraw.
  - by rewrite Hre.
Qed.

End proxy.

Lemma isReactive_rec_plain s x ty ext skip props fuel :
  heap s !! x = Some (Plain ty ext skip props) →
  isReactive_rec (S fuel) s (VObj x) = Some false.
Proof.
  intros Hx. cbn [isReactive_rec].
  rewrite (isReadonly_plain s x ty ext skip props Hx). cbn [mbind option_bind].
  unfold pureFlag. by rewrite (flagOf_plain s x ty ext skip props Hx).
Qed.

(** The flags of a proxy of a plain object. *)
Lemma flags_proxy_of_plain s p x ro sh c ty ext skip props :
  wf s → heap s !! p = Some (Proxy x ro sh c) →
  heap s !! x = Some (Plain ty ext skip props) →
  isReadonly s (VObj p) = Some ro ∧
  isReactive s (VObj p) = Some (negb ro) ∧
  isShallow s (VObj p) = Some (sh && negb c) ∧
  isProxy s (VObj p) = Some true ∧
  isProxy s (VObj x) = Some false.
Proof.
  intros Hwf Hp Hx.
  assert (isReactive s (VObj p) = Some (negb ro)) as Hre.
  { unfold isReactive. rewrite (isReactive_rec_proxy s p x ro sh c Hp _ Hwf).
    destruct ro; [|done]. simpl.
    destruct (length (heap s)) as [|n] eqn:Hn.
    { apply lookup_lt_Some in Hx. lia. }
    by eapply isReactive_rec_plain. }
  assert (isReadonly s (VObj p) = Some ro) as Hro by (by eapply isReadonly_proxy).
  split_and!; [done|done| | |].
  - unfold isShallow, pureFlag, flagOf. cbn [getFlag]. rewrite Hp. simpl.
    destruct c; simpl.
    + destruct (length (heap s)) as [|n] eqn:Hn.
      { apply lookup_lt_Some in Hx. lia. }
      cbn [getFlag]. rewrite Hx. simpl. by rewrite andb_false_r.
    + rewrite andb_true_r. by destruct sh.
  - unfold isProxy. rewrite Hre, Hro. by destruct ro.
  - unfold isProxy, isReactive.
    rewrite (isReactive_rec_plain s x ty ext skip props _ Hx). simpl.
    by eapply isReadonly_plain.
Qed.

(** [wrap] is [createReactiveObject] with the flags of the variant, for a
    value that is not readonly. *)
Lemma wrap_createReactiveObject w v s :
  isReadonly s v = Some false →
  wrap w v s = createReactiveObject v (readonlyOf w) (shallowOf w) s.
Proof.
  intros Hro. destruct w; try done. simpl. unfold reactive. by rewrite Hro.
Qed.

(** The state after a new proxy of [x] was made. *)
Lemma wf_new_proxy s x o ro sh c :
  wf s → heap s !! x = Some o →
  wf (proxyMap_set ro sh x (length (heap s)) (set_heap (heap s ++ [Proxy x ro sh c]) s)).
Proof.
  intros Hwf Hx. split.
  - intros a t ro' sh' c' Ha. simpl in Ha.
    apply lookup_app_Some in Ha as [Ha|[Hlen Ha]]; [by eapply (wf_target _ Hwf)|].
    apply list_lookup_singleton_Some in Ha as [Ha [= <- <- <- <-]].
    apply lookup_lt_Some in Hx. lia.
  - intros ro' sh' t p Hp. rewrite proxyMap_set_lookup in Hp.
    assert (∀ t p, proxyMap ro' sh' s !! t = Some p →
              ∃ c', (heap s ++ [Proxy x ro sh c]) !! p = Some (Proxy t ro' sh' c'))
      as Hold.
    { intros t' p' Hp'. destruct (wf_map _ Hwf _ _ _ _ Hp') as [c' Hc]. exists c'.
      rewrite lookup_app_l; [done|by eapply lookup_lt_Some]. }
    destruct (decide (ro' = ro ∧ sh' = sh)) as [[-> ->]|Hne].
    + rewrite bool_decide_eq_true_2 in Hp by done.
      apply lookup_insert_Some in Hp as [[<- <-]|[Hne Hp]]; [|exact (Hold _ _ Hp)].
      exists c. simpl. by rewrite lookup_app_r, Nat.sub_diag by done.
    + rewrite bool_decide_eq_false_2 in Hp by done. exact (Hold _ _ Hp).
Qed.

(** X10. The four wrapping functions on a plain object, array or collection
    that can be wrapped (extensible, not marked raw, of a class that
    [targetTypeMap] lists): the result is a proxy of the object with the
    flags of the function, for which [isReadonly] and [isReactive] answer
    accordingly and [isProxy] answers true, while the object itself stays
    no proxy. [isShallow] answers true for a shallow proxy with a base
    handler only: a shallow proxy of a collection is not shallow for it. *)
Theorem wrapper_flags (w : variant) (s : state) (x : addr) (ty : rawType)
  (props : gmap key value) :
  wf s → heap s !! x = Some (Plain ty true false props) → ty ≠ TOther →
  ∃ p c s1, wrap w (VObj x) s = Some (VObj p, s1) ∧
    heap s1 !! p = Some (Proxy x (readonlyOf w) (shallowOf w) c) ∧
    (proxyMap (readonlyOf w) (shallowOf w) s !! x = None →
     c = bool_decide (targetTypeMap ty = COLLECTION)) ∧
    isReadonly s1 (VObj p) = Some (readonlyOf w) ∧
    isReactive s1 (VObj p) = Some (negb (readonlyOf w)) ∧
    isShallow s1 (VObj p) = Some (shallowOf w && negb c) ∧
    isProxy s1 (VObj p) = Some true ∧
    isProxy s1 (VObj x) = Some false.
Proof.
  intros Hwf Hx Hty.
  rewrite wrap_createReactiveObject by (by eapply isReadonly_plain).
  set (ro := readonlyOf w). set (sh := shallowOf w).
  rewrite (createReactiveObject_plain_eq s x ty true false props ro sh Hx).
  destruct (proxyMap ro sh s !! x) as [p|] eqn:Hmap.
  - destruct (wf_map _ Hwf _ _ _ _ Hmap) as [c Hp].
    exists p, c, s. split; [done|]. split; [done|]. split; [done|].
    by eapply flags_proxy_of_plain.
  - simpl. set (c := bool_decide (targetTypeMap ty = COLLECTION)).
    set (s1 := proxyMap_set ro sh x (length (heap s))
                 (set_heap (heap s ++ [Proxy x ro sh c]) s)).
    assert (wf s1) as Hwf1 by (by eapply wf_new_proxy).
    assert (heap s1 !! x = Some (Plain ty true false props)) as Hx1.
    { simpl. rewrite lookup_app_l; [done|by eapply lookup_lt_Some]. }
    assert (heap s1 !! length (heap s) = Some (Proxy x ro sh c)) as Hp1.
    { simpl. by rewrite lookup_app_r, Nat.sub_diag by done. }
    exists (length (heap s)), c, s1. split.
    { subst c s1. by destruct ty. }
    split; [done|]. split; [done|]. by eapply flags_proxy_of_plain.
Qed.

Lemma wrapper_flags_witness :
  ∃ p c s1, wrap ShallowReactive_ (VObj 1%nat) plainState = Some (VObj p, s1) ∧
    heap s1 !! p = Some (Proxy 1%nat false true c) ∧
    (proxyMap false true plainState !! 1%nat = None →
     c = bool_decide (targetTypeMap TMap = COLLECTION)) ∧
    isReadonly s1 (VObj p) = Some false ∧
    isReactive s1 (VObj p) = Some true ∧
    isShallow s1 (VObj p) = Some (true && negb c) ∧
    isProxy s1 (VObj p) = Some true ∧
    isProxy s1 (VObj 1%nat) = Some false.
Proof.
  apply (wrapper_flags ShallowReactive_ plainState 1%nat TMap ∅).
  - exact wf_plainState.
  - reflexivity.
  - discriminate.
Defined.

(** A shallow reactive [Map] is reactive, and not shallow for [isShallow]. *)
Example shallow_collection :
  ('(p, s) ← shallowReactive (VObj 1%nat) plainState;
   r ← isReactive s p; sh ← isShallow s p; Some (r, sh)) = Some (true, false).
Proof. reflexivity. Qed.

(** *** Wrapping a proxy *)

Lemma underlying_of_plain s x ty ext skip props fuel :
  heap s !! x = Some (Plain ty ext skip props) →
  underlying (S fuel) (heap s) x = Some (x, Plain ty ext skip props).
Proof. intros Hx. simpl. by rewrite Hx. Qed.

(** The flags and the raw object of a proxy of a proxy of a plain object. *)
Lemma flags_proxy_of_proxy s q p t ro sh c sh' c' ty ext skip props :
  wf s → heap s !! q = Some (Proxy p ro sh c) →
  heap s !! p = Some (Proxy t false sh' c') →
  heap s !! t = Some (Plain ty ext skip props) →
  isReadonly s (VObj q) = Some ro ∧ isReactive s (VObj q) = Some true ∧
  toRaw s (VObj q) = Some (VObj t).
Proof.
  intros Hwf Hq Hp Ht.
  pose proof (lookup_lt_Some _ _ _ Hq) as Hlen.
  pose proof (wf_target _ Hwf _ _ _ _ _ Hq) as Hpq.
  pose proof (wf_target _ Hwf _ _ _ _ _ Hp) as Htp.
  split_and!.
  - by eapply isReadonly_proxy.
  - unfold isReactive. rewrite (isReactive_rec_proxy s q p ro sh c Hq _ Hwf).
    destruct ro; [|done].
    destruct (length (heap s)) as [|n] eqn:Hn; [lia|].
    by rewrite (isReactive_rec_proxy s p t false sh' c' Hp _ Hwf).
  - unfold toRaw.
    apply (toRaw_underlying s Hwf _ q t (Plain ty ext skip props)); [lia|].
    destruct (length (heap s)) as [|[|n]] eqn:Hn; [lia|lia|].
    rewrite (underlying_proxy s _ q p ro sh c Hq).
    rewrite (underlying_proxy s _ p t false sh' c' Hp).
    by apply underlying_of_plain.
Qed.

(** X11. Wrapping a proxy. A proxy is returned as it is by the four wrapping
    functions, with one exception: [readonly] and [shallowReadonly] of a
    proxy that is not readonly. They give a readonly proxy whose target is
    the given proxy: it is readonly and reactive, its raw object is the one
    of the given proxy, and asking again gives the same proxy. Making it
    reads [__v_skip] through the given proxy, which tracks that key on its
    target when the proxy has a base handler. *)
Theorem wrap_proxy (w : variant) (s : state) (p t : addr) (rop shp c : bool) :
  wf s → heap s !! p = Some (Proxy t rop shp c) →
  (readonlyOf w = false ∨ rop = true → wrap w (VObj p) s = Some (VObj p, s)) ∧
  (readonlyOf w = true → rop = false →
   ∀ ty props, heap s !! t = Some (Plain ty true false props) → ty ≠ TOther →
   ∃ q c' s1, wrap w (VObj p) s = Some (VObj q, s1) ∧ q ≠ p ∧
     heap s1 !! q = Some (Proxy p true (shallowOf w) c') ∧
     isReadonly s1 (VObj q) = Some true ∧ isReactive s1 (VObj q) = Some true ∧
     toRaw s1 (VObj q) = Some (VObj t) ∧
     wrap w (VObj p) s1 = Some (VObj q, s1) ∧
     (proxyMap true (shallowOf w) s !! p = None →
      events s1 = events s ++ if c then [] else [Track t "__v_skip"])).
Proof.
  intros Hwf Hp.
  pose proof (flagOf_raw_proxy s p t rop shp c Hp Hwf) as Hraw.
  pose proof (flagOf_isReactive_proxy s p t rop shp c Hp) as Hre.
  pose proof (isReadonly_proxy s p t rop shp c Hp) as Hro.
  assert (∀ ro sh, ro = false ∨ rop = true →
            createReactiveObject (VObj p) ro sh s = Some (VObj p, s)) as Hsame.
  { intros ro sh Hor. unfold createReactiveObject. rewrite Hraw.
    cbn [mbind option_bind truthy andb]. destruct ro.
    - destruct Hor as [?|Hrop]; [done|]. rewrite Hre, Hrop. done.
    - done. }
  split.
  - intros Hor.
    destruct w; cbn [wrap readonlyOf] in *;
      unfold shallowReactive, readonly, shallowReadonly.
    + unfold reactive. rewrite Hro. cbn [mbind option_bind].
      destruct rop; [done|]. apply Hsame. by left.
    + by apply Hsame.
    + by apply Hsame.
    + by apply Hsame.
  - intros Hw -> ty props Ht Hty.
    assert (wrap w (VObj p) = createReactiveObject (VObj p) true (shallowOf w)) as ->.
    { by destruct w. }
    set (sh := shallowOf w).
    pose proof (wf_target _ Hwf _ _ _ _ _ Hp) as Htp.
    pose proof (lookup_lt_Some _ _ _ Hp) as Hlen.
    assert (∀ s0 : state, heap s0 !! p = Some (Proxy t false shp c) → wf s0 →
              ∀ q, proxyMap true sh s0 !! p = Some q →
              createReactiveObject (VObj p) true sh s0 = Some (VObj q, s0)) as Hexist.
    { intros s0 Hp0 Hwf0 q Hq. unfold createReactiveObject.
      rewrite (flagOf_raw_proxy s0 p t false shp c Hp0 Hwf0).
      cbn [mbind option_bind truthy andb].
      rewrite (flagOf_isReactive_proxy s0 p t false shp c Hp0).
      cbn [mbind option_bind truthy andb negb]. by rewrite Hq. }
    destruct (proxyMap true sh s !! p) as [q|] eqn:Hmap.
    + destruct (wf_map _ Hwf _ _ _ _ Hmap) as [c' Hq].
      exists q, c', s. split; [by apply Hexist|]. split; [intros ->; congruence|].
      split; [done|].
      destruct (flags_proxy_of_proxy s q p t true sh c' shp c ty true false props)
        as (? & ? & ?); try done.
      split_and!; try done. by apply Hexist.
    + set (s' := if c then s else emit (Track t "__v_skip") s).
      assert (flagOf SKIP (VObj p) s = Some (VUndefined, s')) as Hskip.
      { unfold flagOf. cbn [getFlag]. rewrite Hp. cbn [mbind option_bind].
        destruct (length (heap s)) as [|n] eqn:Hn; [lia|].
        subst s'. destruct c; cbn [getFlag]; rewrite Ht; done. }
      assert (heap s' = heap s) as Hheap by (subst s'; by destruct c).
      assert (wf s') as Hwf' by (subst s'; destruct c; [done|by apply wf_emit]).
      assert (proxyMap true sh s' = proxyMap true sh s) as Hmap'.
      { subst s'. destruct c; [done|]. by destruct sh. }
      set (c' := bool_decide (targetTypeMap ty = COLLECTION)).
      set (s1 := proxyMap_set true sh p (length (heap s'))
                   (set_heap (heap s' ++ [Proxy p true sh c']) s')).
      assert (createReactiveObject (VObj p) true sh s
              = Some (VObj (length (heap s')), s1)) as Hcro.
      { unfold createReactiveObject. rewrite Hraw.
        cbn [mbind option_bind truthy andb]. rewrite Hre.
        cbn [mbind option_bind truthy andb negb]. rewrite Hmap.
        unfold getTargetType. rewrite Hskip. cbn [mbind option_bind].
        rewrite Hheap at 1 2.
        rewrite (underlying_proxy s _ p t false shp c Hp).
        destruct (length (heap s)) as [|n] eqn:Hn; [lia|].
        rewrite (underlying_of_plain s t ty true false props n Ht).
        cbn [mbind option_bind truthy isExtensible toRawType orb negb].
        subst s1 c'. by destruct ty. }
      assert (wf s1) as Hwf1.
      { subst s1. eapply wf_new_proxy; [done|]. rewrite Hheap. done. }
      assert (heap s1 !! length (heap s') = Some (Proxy p true sh c')) as Hq1.
      { simpl. by rewrite lookup_app_r, Nat.sub_diag by done. }
      assert (∀ a o, heap s !! a = Some o → heap s1 !! a = Some o) as Hold.
      { intros a o Ha. simpl. rewrite Hheap, lookup_app_l; [done|].
        by eapply lookup_lt_Some. }
      exists (length (heap s')), c', s1. split; [done|].
      split; [rewrite Hheap; lia|]. split; [done|].
      destruct (flags_proxy_of_proxy s1 (length (heap s')) p t true sh c' shp c
                  ty true false props) as (? & ? & ?); auto.
      split_and!; try done.
      * apply Hexist; [by apply Hold|done|]. subst s1.
        rewrite proxyMap_set_lookup, bool_decide_eq_true_2 by done.
        apply lookup_insert_eq.
      * intros _. subst s1 s'. simpl. destruct c; simpl; [|done].
        by rewrite app_nil_r.
Qed.

(** A reactive object at 0 with its proxy at 1. *)
Definition wrapped : state :=
  {| heap := [Plain TObject true false ∅; Proxy 0%nat false false false];
     reactiveMap := {[ 0%nat := 1%nat ]}; shallowReactiveMap := ∅; readonlyMap := ∅;
     shallowReadonlyMap := ∅; events := [] |}.

Lemma wf_wrapped : wf wrapped.
Proof.
  split.
  - intros a t ro sh c Ha.
    repeat (destruct a as [|a]; simpl in Ha; try done). injection Ha as <- _ _ _. lia.
  - intros ro sh t p Hp. destruct ro, sh; simpl in Hp; try done.
    apply lookup_singleton_Some in Hp as [<- <-]. by eexists.
Qed.

Lemma wrap_proxy_witness :
  (wrap ShallowReactive_ (VObj 1%nat) wrapped = Some (VObj 1%nat, wrapped)) ∧
  (∃ q c' s1, wrap Readonly_ (VObj 1%nat) wrapped = Some (VObj q, s1) ∧ q ≠ 1%nat ∧
     heap s1 !! q = Some (Proxy 1%nat true false c') ∧
     isReadonly s1 (VObj q) = Some true ∧ isReactive s1 (VObj q) = Some true ∧
     toRaw s1 (VObj q) = Some (VObj 0%nat) ∧
     wrap Readonly_ (VObj 1%nat) s1 = Some (VObj q, s1) ∧
     (proxyMap true false wrapped !! 1%nat = None →
      events s1 = events wrapped ++ [Track 0%nat "__v_skip"])).
Proof.
  split.
  - apply (proj1 (wrap_proxy ShallowReactive_ wrapped 1%nat 0%nat false false false
                    wf_wrapped eq_refl)). by left.
  - apply (proj2 (wrap_proxy Readonly_ wrapped 1%nat 0%nat false false false
                    wf_wrapped eq_refl) eq_refl eq_refl TObject ∅ eq_refl).
    discriminate.
Defined.


(** *** Reading a property through a proxy *)

Lemma heap_tracked ro x k s : heap (tracked ro x k s) = heap s.
Proof. by destruct ro. Qed.

Lemma proxyMap_tracked ro x k ro' sh' s :
  proxyMap ro' sh' (tracked ro x k s) = proxyMap ro' sh' s.
Proof. destruct ro; [done|]. by destruct ro', sh'. Qed.

Lemma wf_tracked ro x k s : wf s → wf (tracked ro x k s).
Proof. destruct ro; [done|]. apply wf_emit. Qed.

Lemma events_tracked ro x k s :
  events (tracked ro x k s) = events s ++ if ro then [] else [Track x (keyName k)].
Proof. destruct ro; simpl; [by rewrite app_nil_r|done]. Qed.

(** The trap on a proxy of a plain object or array. *)
Lemma proxyGet_plain s p x ro sh ty ext skip props k :
  heap s !! p = Some (Proxy x ro sh false) →
  heap s !! x = Some (Plain ty ext skip props) →
  unmodelled ty k = false → isNonTrackableKeys k = false →
  proxyGet p k s =
    let res := default VUndefined (props !! k) in
    let s' := tracked ro x k s in
    if sh then Some (res, s') else
    r ← isRef s' res;
    if r : bool then
      if bool_decide (ty = TArray) && isIntegerKey k then Some (res, s')
      else readValue res s'
    else if isObject res then
      if ro then readonly res s' else reactive res s'
    else Some (res, s').
Proof.
  intros Hp Hx Hun Hnt. unfold proxyGet. rewrite Hp. cbn [mbind option_bind].
  cbn [BaseReactiveHandler_get].
  rewrite (underlying_of_plain s x ty ext skip props _ Hx).
  cbn [mbind option_bind]. rewrite Hun, Hx. cbn [mbind option_bind].
  rewrite Hnt. done.
Qed.

(** [createReactiveObject] on a plain object gives the same result in every
    later state with the same heap and map. *)
Lemma createReactiveObject_stable s y ty ext skip props ro sh :
  wf s → heap s !! y = Some (Plain ty ext skip props) →
  ∃ q s1, createReactiveObject (VObj y) ro sh s = Some (q, s1) ∧
    (∃ more, heap s1 = heap s ++ more) ∧ events s1 = events s ∧ wf s1 ∧
    toRaw s1 q = Some (VObj y) ∧
    (q = VObj y ∨ ∃ a c, q = VObj a ∧ heap s1 !! a = Some (Proxy y ro sh c)) ∧
    ∀ s2, heap s2 !! y = Some (Plain ty ext skip props) →
          proxyMap ro sh s2 = proxyMap ro sh s1 →
          createReactiveObject (VObj y) ro sh s2 = Some (q, s2).
Proof.
  intros Hwf Hy.
  rewrite (createReactiveObject_plain_eq s y ty ext skip props ro sh Hy).
  destruct (proxyMap ro sh s !! y) as [q|] eqn:Hmap.
  { exists (VObj q), s. split; [done|]. split; [exists []; by rewrite app_nil_r|].
    split; [done|]. split; [done|].
    destruct (wf_map _ Hwf _ _ _ _ Hmap) as [c Hq]. split; [|split].
    - by eapply toRaw_proxy.
    - right. by exists q, c.
    - intros s2 Hh Hm.
      rewrite (createReactiveObject_plain_eq s2 y ty ext skip props ro sh Hh).
      by rewrite Hm, Hmap. }
  set (tt := if skip || negb ext then INVALID else targetTypeMap ty).
  assert (tt = INVALID ∨ tt ≠ INVALID) as [Htt|Htt] by (destruct tt; auto).
  { rewrite Htt. exists (VObj y), s. split; [done|].
    split; [exists []; by rewrite app_nil_r|].
    split; [done|]. split; [done|]. split; [|split].
    - by eapply toRaw_plain.
    - by left.
    - intros s2 Hh Hm.
      rewrite (createReactiveObject_plain_eq s2 y ty ext skip props ro sh Hh).
      rewrite Hm, Hmap. fold tt. by rewrite Htt. }
  set (c := bool_decide (tt = COLLECTION)).
  set (s1 := proxyMap_set ro sh y (length (heap s))
               (set_heap (heap s ++ [Proxy y ro sh c]) s)).
  assert (wf s1) as Hwf1 by (by eapply wf_new_proxy).
  assert (heap s1 !! y = Some (Plain ty ext skip props)) as Hy1.
  { simpl. rewrite lookup_app_l; [done|by eapply lookup_lt_Some]. }
  assert (heap s1 !! length (heap s) = Some (Proxy y ro sh c)) as Hq1.
  { simpl. by rewrite lookup_app_r, Nat.sub_diag by done. }
  assert (proxyMap ro sh s1 !! y = Some (length (heap s))) as Hmap1.
  { subst s1. rewrite proxyMap_set_lookup, bool_decide_eq_true_2 by done.
    apply lookup_insert_eq. }
  exists (VObj (length (heap s))), s1. split; [by destruct tt|].
  split; [by eexists|]. split; [by destruct ro, sh|]. split; [done|].
  split; [|split].
  - by eapply (toRaw_proxy s1 y).
  - right. by exists (length (heap s)), c.
  - intros s2 Hh Hm.
    rewrite (createReactiveObject_plain_eq s2 y ty ext skip props ro sh Hh).
    by rewrite Hm, Hmap1.
Qed.

(** X12. Reading a property that holds a plain object, array or collection
    through a proxy that is not shallow: the result is the proxy of that
    object, reactive under a reactive proxy and readonly under a readonly
    one (the object itself when it cannot be wrapped). Its raw object is the
    one stored, reading again gives the same result, and so does wrapping
    the stored object by hand. The read is tracked under the key on the
    target, unless the proxy is readonly. *)
Theorem get_wraps (s : state) (p x y : addr) (ro : bool) (k : key)
  (ty tyy : rawType) (ext skip exty skipy : bool) (props propsy : gmap key value) :
  wf s → heap s !! p = Some (Proxy x ro false false) →
  heap s !! x = Some (Plain ty ext skip props) →
  unmodelled ty k = false → isNonTrackableKeys k = false →
  props !! k = Some (VObj y) → heap s !! y = Some (Plain tyy exty skipy propsy) →
  ∃ q s1, proxyGet p k s = Some (q, s1) ∧
    events s1 = events s ++ (if ro then [] else [Track x (keyName k)]) ∧
    toRaw s1 q = Some (VObj y) ∧
    fst <$> proxyGet p k s1 = Some q ∧
    fst <$> wrap (if ro then Readonly_ else Reactive_) (VObj y) s1 = Some q.
Proof.
  intros Hwf Hp Hx Hun Hnt Hk Hy.
  assert (∀ s0, heap s0 !! y = Some (Plain tyy exty skipy propsy) →
            (if ro then readonly (VObj y) s0 else reactive (VObj y) s0)
            = createReactiveObject (VObj y) ro false s0) as Hwrap.
  { intros s0 Hy0. destruct ro; [done|]. unfold reactive.
    by rewrite (isReadonly_plain s0 y tyy exty skipy propsy Hy0). }
  assert (∀ s0, heap s0 !! p = Some (Proxy x ro false false) →
            heap s0 !! x = Some (Plain ty ext skip props) →
            heap s0 !! y = Some (Plain tyy exty skipy propsy) →
            proxyGet p k s0
            = createReactiveObject (VObj y) ro false (tracked ro x k s0)) as Hget.
  { intros s0 Hp0 Hx0 Hy0.
    rewrite (proxyGet_plain s0 p x ro false ty ext skip props k Hp0 Hx0 Hun Hnt).
    cbv zeta. rewrite Hk. change (default VUndefined (Some (VObj y))) with (VObj y).
    assert (heap (tracked ro x k s0) !! y = Some (Plain tyy exty skipy propsy)) as Hy'.
    { by rewrite heap_tracked. }
    rewrite (isRef_plain _ y tyy exty skipy propsy Hy'). cbn [mbind option_bind isObject].
    by apply Hwrap. }
  destruct (createReactiveObject_stable (tracked ro x k s) y tyy exty skipy propsy
              ro false) as (q & s1 & Hcro & [more Hheap] & Hev & Hwf1 & Hraw & _ & Hagain).
  { by apply wf_tracked. } { by rewrite heap_tracked. }
  rewrite heap_tracked in Hheap.
  assert (∀ a o, heap s !! a = Some o → heap s1 !! a = Some o) as Hold.
  { intros a o Ha. rewrite Hheap, lookup_app_l; [done|]. by eapply lookup_lt_Some. }
  exists q, s1. split; [by rewrite Hget|]. split; [by rewrite Hev, events_tracked|].
  split; [done|]. split.
  - rewrite Hget by auto. rewrite (Hagain (tracked ro x k s1)); [done| |].
    + rewrite heap_tracked. auto.
    + by rewrite proxyMap_tracked.
  - assert (wrap (if ro then Readonly_ else Reactive_) (VObj y) s1
            = createReactiveObject (VObj y) ro false s1) as ->.
    { rewrite <-(Hwrap s1) by auto. by destruct ro. }
    rewrite (Hagain s1); auto.
Qed.

(** An object [{ a: {} }] at 1, whose property is the object at 0, and its
    reactive proxy at 2. *)
Definition nestedState : state :=
  {| heap := [Plain TObject true false ∅;
              Plain TObject true false {[ KStr "a" := VObj 0%nat ]};
              Proxy 1%nat false false false];
     reactiveMap := {[ 1%nat := 2%nat ]}; shallowReactiveMap := ∅; readonlyMap := ∅;
     shallowReadonlyMap := ∅; events := [] |}.

Lemma wf_nestedState : wf nestedState.
Proof.
  split.
  - intros a t ro sh c Ha.
    repeat (destruct a as [|a]; simpl in Ha; try done). injection Ha as <- _ _ _. lia.
  - intros ro sh t p Hp. destruct ro, sh; simpl in Hp; try done.
    apply lookup_singleton_Some in Hp as [<- <-]. by eexists.
Qed.

Lemma get_wraps_witness :
  ∃ q s1, proxyGet 2%nat (KStr "a") nestedState = Some (q, s1) ∧
    events s1 = events nestedState ++ [Track 1%nat "a"] ∧
    toRaw s1 q = Some (VObj 0%nat) ∧
    fst <$> proxyGet 2%nat (KStr "a") s1 = Some q ∧
    fst <$> wrap Reactive_ (VObj 0%nat) s1 = Some q.
Proof.
  apply (get_wraps nestedState 2%nat 1%nat 0%nat false (KStr "a")
           TObject TObject true false true false {[ KStr "a" := VObj 0%nat ]} ∅
           wf_nestedState eq_refl eq_refl eq_refl eq_refl eq_refl eq_refl).
Defined.





(** *** Writing and reading back *)

Lemma isRef_primitive s v : isObject v = false → isRef s v = Some false.
Proof.
  intros Hv. unfold isRef, pureFlag, flagOf. destruct v; try done; simpl;
    match goal with |- context [if ?b then _ else _] => by destruct b end.
Qed.





(** *** Deleting a property *)



(** *** Making a ref and reading it *)

(** X16. [ref] and [shallowRef] of a value that is no object, or of a plain
    object, array or collection: the result is a new ref that holds the
    value as its raw value. [unref] gives the value of the ref and records
    the read. That value is the given one for a shallow ref and for a value
    that is no object, and otherwise the reactive proxy of the given
    object, the one that [toReactive] gives, whose raw object is the given
    one. A ref of the ref is the ref itself. *)
Theorem ref_unref (sh : bool) (s : state) (v : value) :
  wf s →
  (∀ a, v = VObj a →
        ∃ ty ext skip props, heap s !! a = Some (Plain ty ext skip props)) →
  ∃ r w s1, createRef v sh s = Some (VObj r, s1) ∧ heap s !! r = None ∧
    heap s1 !! r = Some (RefImpl sh w v) ∧
    unref (VObj r) s1 = Some (w, trackRefValue r s1) ∧
    toRaw s1 w = Some v ∧
    (sh = true ∨ isObject v = false → w = v) ∧
    (sh = false → fst <$> toReactive v s1 = Some w) ∧
    createRef (VObj r) sh s1 = Some (VObj r, s1).
Proof.
  intros Hwf Hplain.
  assert (isRef s v = Some false ∧ toRaw s v = Some v) as [Hnotref Hrawv].
  { destruct (isObject v) eqn:Hobj.
    - destruct v as [| | | | | |a]; try done.
      destruct (Hplain a eq_refl) as (ty & ext & skip & props & Ha).
      split; [by eapply isRef_plain|by eapply toRaw_plain].
    - split; [by apply isRef_primitive|by apply toRaw_primitive]. }
  assert (∃ w s',
    (if sh then Some (v, s) else toReactive v s) = Some (w, s') ∧
    (∃ more, heap s' = heap s ++ more) ∧
    (∀ s2, (∀ a o, heap s' !! a = Some o → heap s2 !! a = Some o) →
           toRaw s2 w = Some v) ∧
    (sh = true ∨ isObject v = false → w = v) ∧
    (sh = false →
     ∀ s2, (∀ a o, heap s' !! a = Some o → heap s2 !! a = Some o) →
           proxyMap false false s2 = proxyMap false false s' →
           toReactive v s2 = Some (w, s2)))
    as (w & s' & Hw & [more Hheap] & Hraw & Hsame & Hagain).
  { assert (∀ s2 : state, (∀ a o, heap s !! a = Some o → heap s2 !! a = Some o) →
              toRaw s2 v = Some v) as Hrawv2.
    { intros s2 Hold. destruct (isObject v) eqn:Hobj.
      - destruct v as [| | | | | |a]; try done.
        destruct (Hplain a eq_refl) as (ty & ext & skip & props & Ha).
        eapply toRaw_plain. by apply Hold.
      - by apply toRaw_primitive. }
    destruct (isObject v) eqn:Hobj; last first.
    { exists v, s. split; [destruct sh; [done|]; unfold toReactive; by rewrite Hobj|].
      split; [exists []; by rewrite app_nil_r|]. split; [done|]. split; [done|].
      intros _ s2 _ _. unfold toReactive. by rewrite Hobj. }
    destruct sh.
    { exists v, s. split; [done|]. split; [exists []; by rewrite app_nil_r|].
      split; [done|]. split; [done|]. done. }
    destruct v as [| | | | | |a]; try done.
    destruct (Hplain a eq_refl) as (ty & ext & skip & props & Ha).
    destruct (createReactiveObject_stable s a ty ext skip props false false Hwf Ha)
      as (q & s' & Hcro & [more Hheap] & Hev & Hwf' & Hraw & Hq & Hagain).
    assert (heap s' !! a = Some (Plain ty ext skip props)) as Ha'.
    { rewrite Hheap, lookup_app_l; [done|]. by eapply lookup_lt_Some. }
    exists q, s'. split.
    { unfold toReactive, reactive. cbn [isObject].
      by rewrite (isReadonly_plain s a ty ext skip props Ha). }
    split; [by exists more|]. split; [|split; [by intros [?|?]|]].
    - intros s2 Hold. destruct Hq as [->|(q' & c & -> & Hq')].
      + eapply toRaw_plain. by apply Hold.
      + eapply toRaw_proxy; by apply Hold.
    - intros _ s2 Hold Hmap. unfold toReactive, reactive. cbn [isObject].
      rewrite (isReadonly_plain s2 a ty ext skip props (Hold _ _ Ha')).
      cbn [mbind option_bind]. apply Hagain; [by apply Hold|done]. }
  set (r := length (heap s')).
  set (s1 := set_heap (heap s' ++ [RefImpl sh w v]) s').
  assert (heap s1 !! r = Some (RefImpl sh w v)) as Hr.
  { simpl. subst r. by rewrite lookup_app_r, Nat.sub_diag by done. }
  assert (∀ a o, heap s' !! a = Some o → heap s1 !! a = Some o) as Hold.
  { intros a o Ha. simpl. rewrite lookup_app_l; [done|]. by eapply lookup_lt_Some. }
  destruct (flags_RefImpl s1 r sh w v Hr) as (_ & Hisref & _).
  exists r, w, s1. split_and!.
  - unfold createRef. rewrite Hnotref. cbn [mbind option_bind].
    unfold RefImpl_new.
    assert ((if sh then Some v else toRaw s v) = Some v) as -> by (by destruct sh).
    cbn [mbind option_bind]. rewrite Hw. done.
  - apply lookup_ge_None. subst r. rewrite Hheap, length_app. lia.
  - done.
  - unfold unref. rewrite Hisref. cbn [mbind option_bind].
    unfold readValue, RefImpl_get. by rewrite Hr.
  - by apply Hraw.
  - done.
  - intros Hsh. by rewrite (Hagain Hsh s1 Hold).
  - unfold createRef. by rewrite Hisref.
Qed.

Lemma ref_unref_witness :
  ∃ r w s1, createRef (VObj 0%nat) false plainState = Some (VObj r, s1) ∧
    heap plainState !! r = None ∧
    heap s1 !! r = Some (RefImpl false w (VObj 0%nat)) ∧
    unref (VObj r) s1 = Some (w, trackRefValue r s1) ∧
    toRaw s1 w = Some (VObj 0%nat) ∧
    (false = true ∨ isObject (VObj 0%nat) = false → w = VObj 0%nat) ∧
    (false = false → fst <$> toReactive (VObj 0%nat) s1 = Some w) ∧
    createRef (VObj r) false s1 = Some (VObj r, s1).
Proof.
  apply (ref_unref false plainState (VObj 0%nat) wf_plainState).
  intros a [= <-]. by eexists _, _, _, _.
Defined.


(** *** A readonly proxy of a reactive proxy *)





(** *** Writing through the handlers of [proxyRefs] *)






End ReactiveMoreSpec.

Module DiffSpec.
Import Renderer RendererSpec Diff.

(** *** The host *)

Lemma insertBefore_app el a (A B : list node) :
  a ∉ A → insertBefore el a (A ++ a :: B) = A ++ el :: a :: B.
Proof.
  induction A as [|x A IH]; intros Ha; simpl.
  - by rewrite decide_True.
  - rewrite decide_False by (intros ->; apply Ha; by left).
    f_equal. apply IH. intros ?. apply Ha. by right.
Qed.

Lemma nextSibling_app el (A B : list node) :
  el ∉ A → nextSibling el (A ++ el :: B) = head B.
Proof.
  induction A as [|x A IH]; intros Ha; simpl.
  - by rewrite decide_True.
  - rewrite decide_False by (intros ->; apply Ha; by left).
    apply IH. intros ?. apply Ha. by right.
Qed.

Lemma filter_ne_id (e : node) (l : list node) : e ∉ l → filter (λ x, x ≠ e) l = l.
Proof.
  induction l as [|x l IH]; [done|]. intros Hn.
  rewrite filter_cons_True by (intros ->; apply Hn; by left).
  f_equal. apply IH. intros ?. apply Hn. by right.
Qed.

Lemma filter_notin_nil (l : list node) : filter (λ x, x ∉ @nil node) l = l.
Proof.
  induction l as [|x l IH]; [done|].
  rewrite filter_cons_True by apply not_elem_of_nil. by rewrite IH.
Qed.

Lemma filter_within {A} (P Q : A → Prop) `{∀ x, Decision (P x)} `{∀ x, Decision (Q x)}
  (l : list A) :
  (∀ x, x ∈ l → P x ↔ Q x) → filter P l = filter Q l.
Proof.
  induction l as [|x l IH]; intros Hl; [done|].
  rewrite !filter_cons, IH by (intros y Hy; apply Hl; by right).
  destruct (decide (P x)) as [HP|HP], (decide (Q x)) as [HQ|HQ]; try done.
  - destruct HQ. apply Hl; [by left|done].
  - destruct HP. apply Hl; [by left|done].
Qed.

Lemma split_unique (A : list node) a B A' B' :
  a ∉ A → a ∉ A' → A ++ a :: B = A' ++ a :: B' → A = A' ∧ B = B'.
Proof.
  revert A'. induction A as [|x A IH]; intros [|y A'] HA HA' Heq; simpl in *.
  - by injection Heq as ->.
  - injection Heq as -> _. exfalso. apply HA'. by left.
  - injection Heq as -> _. exfalso. apply HA. by left.
  - injection Heq as -> Heq. destruct (IH A') as [-> ->]; try done.
    + intros ?. apply HA. by right.
    + intros ?. apply HA'. by right.
Qed.

(** Every child of the container was created before. *)
Definition fresh (h : host) : Prop := ∀ x, x ∈ childNodes h → (x < created h)%nat.

(** [hostInsert] seen through the nodes outside of [U], the nodes that are
    yet to be moved: the node [e], one of [U] or a new one, goes to its
    place before the anchor, the first node of [B]. *)
Lemma hostInsert_filter h (U U' A B : list node) e :
  NoDup (childNodes h) →
  filter (λ x, x ∉ U) (childNodes h) = A ++ B →
  e ∈ U ∨ e ∉ childNodes h →
  (∀ x, x ∈ U' ↔ x ∈ U ∧ x ≠ e) →
  ∃ h', hostInsert e (head B) h = Some h' ∧
    data h' = data h ∧ created h' = created h ∧
    NoDup (childNodes h') ∧
    (∀ x, x ∈ childNodes h' ↔ x ∈ childNodes h ∨ x = e) ∧
    filter (λ x, x ∉ U') (childNodes h') = A ++ e :: B.
Proof.
  intros Hnd Hf He HU'.
  assert (e ∉ U') as HeU' by (rewrite HU'; tauto).
  assert (∀ l, l ⊆ childNodes h →
            filter (λ x, x ∉ U') (filter (λ x, x ≠ e) l) = filter (λ x, x ∉ U) l) as Hff.
  { intros l Hl. rewrite list_filter_filter. apply filter_within. intros x Hx.
    rewrite HU'. split.
    - intros [Hn Hne] HxU. apply Hn. done.
    - intros HxU. split; [tauto|]. intros ->. destruct He as [?|He]; [done|].
      apply He. by apply Hl. }
  assert (NoDup (filter (λ x, x ≠ e) (childNodes h))) as Hndf by (by apply NoDup_filter).
  assert (e ∉ filter (λ x, x ≠ e) (childNodes h)) as Henot.
  { rewrite list_elem_of_filter. tauto. }
  destruct B as [|a B']; simpl.
  - eexists. split; [done|]. split; [done|]. split; [done|]. simpl. split_and!.
    + apply NoDup_app. split_and!; [done| |apply NoDup_singleton].
      intros x Hx ->%list_elem_of_singleton. done.
    + intros x. rewrite elem_of_app, list_elem_of_filter, list_elem_of_singleton.
      destruct (decide (x = e)); tauto.
    + rewrite filter_app, Hff, Hf by done.
      rewrite filter_cons_True, filter_nil by done. by rewrite app_nil_r.
  - assert (a ∈ childNodes h ∧ a ∉ U) as [Ha HaU].
    { assert (a ∈ filter (λ x, x ∉ U) (childNodes h)) as Hin.
      { rewrite Hf. apply elem_of_app. right. by left. }
      apply list_elem_of_filter in Hin. tauto. }
    assert (a ≠ e) as Hae.
    { intros ->. destruct He; done. }
    apply list_elem_of_split in Ha as (L & R & Hkids).
    rewrite Hkids in Hnd. pose proof Hnd as Hnd'.
    apply NoDup_app in Hnd' as (HndL & HLa & HndR).
    apply NoDup_cons in HndR as [HaR HndR].
    assert (a ∉ L) as HaL.
    { intros HaL. apply (HLa a HaL). by left. }
    assert (filter (λ x, x ∉ U) L = A ∧ filter (λ x, x ∉ U) R = B') as [HfL HfR].
    { rewrite Hkids, filter_app, filter_cons_True in Hf by done.
      apply split_unique in Hf; [done| |].
      - rewrite list_elem_of_filter. tauto.
      - intros HaA. assert (NoDup (A ++ a :: B')) as HndAB.
        { rewrite <-Hf. apply NoDup_app. split_and!.
          - by apply NoDup_filter.
          - intros x Hx%list_elem_of_filter Hx'. apply (HLa x); [tauto|].
            apply elem_of_cons in Hx' as [->|Hx']; [by left|right].
            apply list_elem_of_filter in Hx'. tauto.
          - apply NoDup_cons. split; [rewrite list_elem_of_filter; tauto|].
            by apply NoDup_filter. }
        apply NoDup_app in HndAB as (_ & HAB & _). apply (HAB a HaA). by left. }
    unfold hostInsert.
    rewrite decide_True by (rewrite Hkids; apply elem_of_app; right; by left).
    rewrite decide_False by done.
    eexists. split; [done|]. split; [done|]. split; [done|]. simpl.
    rewrite Hkids, filter_app, filter_cons_True by done.
    rewrite insertBefore_app by (rewrite list_elem_of_filter; tauto).
    rewrite Hkids, filter_app, filter_cons_True in Hndf, Henot by done.
    split_and!.
    + apply NoDup_app in Hndf as (H1 & H2 & H3). apply NoDup_app. split_and!; [done| |].
      * intros x Hx Hx'. apply elem_of_cons in Hx' as [->|Hx'].
        -- apply Henot. apply elem_of_app. by left.
        -- by apply (H2 x).
      * apply NoDup_cons. split; [|done]. intros Hx. apply Henot.
        apply elem_of_app. by right.
    + intros x. rewrite !elem_of_app, !elem_of_cons, !list_elem_of_filter.
      destruct (decide (x = e)); tauto.
    + assert (a ∉ U') as HaU' by (rewrite HU'; tauto).
      rewrite filter_app, filter_cons_True, filter_cons_True by done.
      assert (L ⊆ childNodes h) as HL.
      { intros x Hx. rewrite Hkids. apply elem_of_app. by left. }
      assert (R ⊆ childNodes h) as HR.
      { intros x Hx. rewrite Hkids. apply elem_of_app. right. by right. }
      by rewrite (Hff L HL), (Hff R HR), HfL, HfR.
Qed.

(** The plain case: a new node goes before the anchor. *)
Lemma hostInsert_new h (A B : list node) e :
  NoDup (childNodes h) → childNodes h = A ++ B → e ∉ childNodes h →
  ∃ h', hostInsert e (head B) h = Some h' ∧
    data h' = data h ∧ created h' = created h ∧
    NoDup (childNodes h') ∧ childNodes h' = A ++ e :: B.
Proof.
  intros Hnd Hk He.
  destruct (hostInsert_filter h [] [] A B e) as (h' & Hi & Hd & Hc & Hnd' & _ & Hf);
    try done.
  { by rewrite filter_notin_nil. } { by right. }
  { intros x. rewrite elem_of_nil. tauto. }
  exists h'. rewrite filter_notin_nil in Hf. done.
Qed.

(** *** [patch] *)

Lemma patch_same old n2 anchor h :
  isSameVNodeType (fst old) n2 = true →
  ∃ h', patch (Some old) n2 anchor h = Some (snd old, h') ∧
    childNodes h' = childNodes h ∧ created h' = created h.
Proof.
  intros Hs. unfold patch. rewrite Hs. destruct old as [v1 el]. simpl.
  eexists. split; [done|]. destruct (type n2); [|done]. by destruct (bool_decide _).
Qed.

(** Mounting a vnode: the new node goes before the anchor, seen through
    the nodes outside of [U]. *)
Lemma patch_mount_filter n2 h (U A B : list node) :
  NoDup (childNodes h) → fresh h →
  filter (λ x, x ∉ U) (childNodes h) = A ++ B → created h ∉ U →
  ∃ h', patch None n2 (head B) h = Some (created h, h') ∧
    created h' = S (created h) ∧ NoDup (childNodes h') ∧ fresh h' ∧
    (∀ x, x ∈ childNodes h' ↔ x ∈ childNodes h ∨ x = created h) ∧
    filter (λ x, x ∉ U) (childNodes h') = A ++ created h :: B.
Proof.
  intros Hnd Hfr Hf HU. unfold patch, process, hostCreate.
  set (h1 := {| childNodes := childNodes h; data := _; created := _ |}).
  assert (created h ∉ childNodes h) as Hnew.
  { intros Hin. apply Hfr in Hin. lia. }
  destruct (hostInsert_filter h1 U U A B (created h)) as (h' & Hi & Hd & Hc & Hnd' & Hin & Hf');
    try done.
  { by right. }
  { intros x. split; [|tauto]. intros Hx. split; [done|]. by intros ->. }
  rewrite Hi. exists h'. split; [done|]. split; [done|]. split; [done|].
  split; [|done]. intros x Hx. apply Hin in Hx as [Hx| ->]; rewrite Hc; simpl.
  - apply Hfr in Hx. lia.
  - lia.
Qed.

Lemma patch_mount n2 h (A B : list node) :
  NoDup (childNodes h) → fresh h → childNodes h = A ++ B →
  ∃ h', patch None n2 (head B) h = Some (created h, h') ∧
    created h' = S (created h) ∧ NoDup (childNodes h') ∧ fresh h' ∧
    childNodes h' = A ++ created h :: B.
Proof.
  intros Hnd Hfr Hk.
  destruct (patch_mount_filter n2 h [] A B) as (h' & Hp & Hc & Hnd' & Hfr' & _ & Hf);
    try done.
  { by rewrite filter_notin_nil. } { apply not_elem_of_nil. }
  exists h'. rewrite filter_notin_nil in Hf. done.
Qed.

(** Patching a mounted vnode leaves a node in its place: its own when the
    new vnode is of the same type, and a new one when it is not. *)
Lemma patch_at old n2 anchor h (A B : list node) :
  NoDup (childNodes h) → fresh h → childNodes h = A ++ snd old :: B →
  ∃ el h', patch (Some old) n2 anchor h = Some (el, h') ∧
    childNodes h' = A ++ el :: B ∧ NoDup (childNodes h') ∧ fresh h' ∧
    (created h ≤ created h')%nat ∧
    (if isSameVNodeType (fst old) n2 then el = snd old else el = created h).
Proof.
  intros Hnd Hfr Hk. destruct (isSameVNodeType (fst old) n2) eqn:Hs.
  - destruct (patch_same old n2 anchor h Hs) as (h' & Hp & Hk' & Hc).
    exists (snd old), h'. split; [done|]. rewrite Hk', Hk. split; [done|].
    split; [by rewrite <-Hk|]. split; [|split; [lia|done]].
    intros x Hx. rewrite Hk' in Hx. rewrite Hc. by apply Hfr.
  - unfold patch. rewrite Hs. unfold getNextHostNode, unmount, hostNextSibling, hostRemove.
    rewrite Hk in Hnd. pose proof Hnd as Hnd'.
    apply NoDup_app in Hnd' as (HndA & HAB & HndB).
    apply NoDup_cons in HndB as [HeB HndB].
    assert (snd old ∉ A) as HeA.
    { intros HA. apply (HAB _ HA). by left. }
    rewrite Hk, nextSibling_app by done.
    rewrite filter_app, filter_cons_False, !filter_ne_id by (done || tauto).
    set (h1 := set_childNodes (A ++ B) h).
    destruct (patch_mount n2 h1 A B) as (h' & Hp & Hc & Hnd1 & Hfr1 & Hk1); try done.
    { simpl. apply NoDup_app. split_and!; [done| |done].
      intros x Hx Hx'. apply (HAB x Hx). by right. }
    { intros x Hx. simpl in *. apply Hfr. rewrite Hk.
      apply elem_of_app in Hx as [?|?]; apply elem_of_app; [by left|right; by right]. }
    unfold patch in Hp. exists (created h), h'. split; [exact Hp|].
    split; [done|]. split; [done|]. split; [done|]. split; [simpl in Hc; lia|done].
Qed.

(** *** The text of the nodes *)

(** The node [el] holds the text of the vnode [n], when this is a text. *)
Definition shows (h : host) (el : node) (n : VNode) : Prop :=
  type n = Text → data h !! el = Some (children n).

Lemma hostInsert_data el anchor h h' : hostInsert el anchor h = Some h' → data h' = data h.
Proof.
  unfold hostInsert. intros H. destruct anchor as [a|].
  - destruct (decide (a ∈ childNodes h)); [|done].
    destruct (decide (a = el)); by injection H as <-.
  - by injection H as <-.
Qed.

(** [patch] writes the text of no node but the one it returns, which holds
    the text of the new vnode afterwards; for a vnode that is patched in
    place this takes that the node held the text of the old vnode. *)
Lemma patch_data n1 n2 anchor h el h' :
  patch n1 n2 anchor h = Some (el, h') →
  (∀ x, x ≠ el → data h' !! x = data h !! x) ∧
  ((∀ old, n1 = Some old → isSameVNodeType (fst old) n2 = true →
      shows h (snd old) (fst old)) → shows h' el n2).
Proof.
  assert (∀ a h0, process None n2 a h0 = Some (el, h') →
            el = created h0 ∧ data h' = <[created h0 := children n2]> (data h0)) as Hmount.
  { intros a h0 Hp. unfold process, hostCreate in Hp.
    destruct (hostInsert _ _ _) as [h1|] eqn:Hi; [|done].
    injection Hp as <- <-. split; [done|]. by rewrite (hostInsert_data _ _ _ _ Hi). }
  assert (∀ a h0, process None n2 a h0 = Some (el, h') →
            (∀ x, x ≠ el → data h' !! x = data h0 !! x) ∧
            data h' !! el = Some (children n2)) as Hmount'.
  { intros a h0 Hp. apply Hmount in Hp as [-> ->]. split.
    - intros x Hx. by rewrite lookup_insert_ne.
    - by rewrite lookup_insert_eq. }
  unfold patch. destruct n1 as [old|].
  - destruct (isSameVNodeType old.1 n2) eqn:Hs.
    + destruct old as [v1 el1]. intros Hp. simpl in Hp. injection Hp as <- <-.
      pose proof Hs as Hs'. unfold isSameVNodeType in Hs'.
      apply bool_decide_eq_true in Hs' as [Hty _]. simpl in Hty.
      destruct (type n2) eqn:Ht.
      * destruct (bool_decide (children n2 = children v1)) eqn:Hc.
        -- apply bool_decide_eq_true in Hc. split; [done|]. intros Hold _.
           rewrite Hc. by apply (Hold (v1, el1)).
        -- split.
           ++ intros x Hx. simpl. by rewrite lookup_insert_ne.
           ++ intros _ _. simpl. by rewrite lookup_insert_eq.
      * split; [done|]. intros _ Hn. congruence.
    + intros Hp. apply Hmount' in Hp as [Hfr Hel]. split; [done|]. by intros _ _.
  - intros Hp. apply Hmount' in Hp as [Hfr Hel]. split; [done|]. by intros _ _.
Qed.

(** *** The loops over children *)

Lemma patchCommon_spec c1 : ∀ c2 h A B,
  NoDup (childNodes h) → fresh h → childNodes h = A ++ (snd <$> c1) ++ B →
  ∃ els h', patchCommon c1 c2 h = Some (els, h') ∧
    length els = (length c1 `min` length c2)%nat ∧
    childNodes h' = A ++ els ++ (snd <$> drop (length els) c1) ++ B ∧
    NoDup (childNodes h') ∧ fresh h' ∧
    (∀ i old n2, c1 !! i = Some old → c2 !! i = Some n2 →
       isSameVNodeType (fst old) n2 = true → els !! i = Some (snd old)) ∧
    (∀ x, x ∉ els → data h' !! x = data h !! x) ∧
    ((∀ o : mounted, o ∈ c1 → shows h (snd o) (fst o)) →
     Forall2 (shows h') els (take (length els) c2)).
Proof.
  induction c1 as [|n1 c1 IH]; intros c2 h A B Hnd Hfr Hk.
  { exists [], h. split; [done|]. split_and!; try done; intros _; constructor. }
  destruct c2 as [|n2 c2].
  { exists [], h. split; [done|]. split_and!; try done; intros _; constructor. }
  cbn [patchCommon]. simpl in Hk.
  destruct (patch_at n1 n2 None h A ((snd <$> c1) ++ B) Hnd Hfr Hk)
    as (el & h1 & Hp & Hk1 & Hnd1 & Hfr1 & _ & Hel).
  destruct (patch_data _ _ _ _ _ _ Hp) as [Hframe1 Hshows1].
  destruct (IH c2 h1 (A ++ [el]) B)
    as (els & h' & Hpc & Hlen & Hk' & Hnd' & Hfr' & Hreuse & Hframe & Hshows);
    try done.
  { by rewrite Hk1, <-(assoc (++)). }
  assert (el ∉ els) as Hel'.
  { rewrite Hk', <-(assoc (++)) in Hnd'. apply NoDup_app in Hnd' as (_ & _ & Hnd').
    simpl in Hnd'. apply NoDup_cons in Hnd' as [Hn _]. intros Hin. apply Hn.
    apply elem_of_app. by left. }
  exists (el :: els), h'.
  split; [rewrite Hp; cbn [mbind option_bind]; by rewrite Hpc|].
  split; [simpl; lia|]. split; [|split; [done|split; [done|split; [|split]]]].
  - rewrite Hk', <-(assoc (++)). done.
  - intros [|i] old n Ho Hn Hs; simpl in *.
    + injection Ho as <-. injection Hn as <-. rewrite Hs in Hel. by rewrite Hel.
    + by eapply Hreuse.
  - intros x Hx. apply not_elem_of_cons in Hx as [Hx1 Hx2].
    by rewrite Hframe, Hframe1.
  - intros Hold. simpl. constructor.
    + intros Ht. rewrite Hframe by done. apply Hshows1; [|done].
      intros old [= <-] _. apply Hold. by left.
    + apply Hshows. intros o Ho Ht. rewrite Hframe1; [by apply Hold; [right|]|].
      assert (snd o ∈ snd <$> c1) as Hin.
      { apply list_elem_of_fmap. by exists o. }
      destruct (isSameVNodeType n1.1 n2).
      * subst el. rewrite Hk in Hnd. apply NoDup_app in Hnd as (_ & _ & Hnd).
        apply NoDup_cons in Hnd as [Hn _]. intros Heq. apply Hn. rewrite <-Heq.
        apply elem_of_app. by left.
      * subst el. assert (o.2 < created h)%nat; [|lia]. apply Hfr. rewrite Hk.
        apply elem_of_app. right. right. apply elem_of_app. by left.
Qed.

Lemma unmountChildren_spec c : ∀ h A B,
  NoDup (childNodes h) → childNodes h = A ++ (snd <$> c) ++ B →
  childNodes (unmountChildren c h) = A ++ B ∧
  created (unmountChildren c h) = created h.
Proof.
  unfold unmountChildren. induction c as [|n c IH]; intros h A B Hnd Hk; [done|].
  cbn [foldl]. simpl in Hk.
  rewrite Hk in Hnd. pose proof Hnd as Hnd'.
  apply NoDup_app in Hnd' as (HndA & HAB & HndB).
  apply NoDup_cons in HndB as [HeB HndB].
  assert (snd n ∉ A) as HeA.
  { intros HA. apply (HAB _ HA). by left. }
  destruct (IH (unmount n h) A B) as [-> ->]; [| |done].
  - simpl. rewrite Hk. apply NoDup_filter. done.
  - simpl. rewrite Hk, filter_app, filter_cons_False, !filter_ne_id by (done || tauto).
    done.
Qed.

Lemma unmountChildren_data c : ∀ h, data (unmountChildren c h) = data h.
Proof.
  unfold unmountChildren. induction c as [|n c IH]; intros h; [done|].
  cbn [foldl]. by rewrite IH.
Qed.

Lemma mountChildren_spec c : ∀ h A B,
  NoDup (childNodes h) → fresh h → childNodes h = A ++ B →
  ∃ els h', mountChildren c (head B) h = Some (els, h') ∧
    length els = length c ∧ childNodes h' = A ++ els ++ B ∧
    NoDup (childNodes h') ∧ fresh h' ∧
    (∀ x, x ∉ els → data h' !! x = data h !! x) ∧
    Forall2 (shows h') els c.
Proof.
  induction c as [|n c IH]; intros h A B Hnd Hfr Hk.
  { exists [], h. split_and!; try done. }
  cbn [mountChildren].
  destruct (patch_mount n h A B Hnd Hfr Hk) as (h1 & Hp & Hc & Hnd1 & Hfr1 & Hk1).
  destruct (patch_data _ _ _ _ _ _ Hp) as [Hframe1 Hshows1].
  destruct (IH h1 (A ++ [created h]) B)
    as (els & h' & Hm & Hlen & Hk' & Hnd' & Hfr' & Hframe & Hshows); try done.
  { by rewrite Hk1, <-(assoc (++)). }
  assert (created h ∉ els) as Hel'.
  { rewrite Hk', <-(assoc (++)) in Hnd'. apply NoDup_app in Hnd' as (_ & _ & Hnd').
    simpl in Hnd'. apply NoDup_cons in Hnd' as [Hn _]. intros Hin. apply Hn.
    apply elem_of_app. by left. }
  exists (created h :: els), h'.
  split; [rewrite Hp; cbn [mbind option_bind]; by rewrite Hm|].
  split; [simpl; lia|]. split; [|split; [done|split; [done|split]]].
  - by rewrite Hk', <-(assoc (++)).
  - intros x Hx. apply not_elem_of_cons in Hx as [Hx1 Hx2].
    by rewrite Hframe, Hframe1.
  - constructor; [|done]. intros Ht. rewrite Hframe by done. by apply Hshows1.
Qed.

(** *** A row of four children *)

Definition rowHost : host :=
  {| childNodes := [0; 1; 2; 3; 4; 5]%nat; data := ∅; created := 6%nat |}.

Definition oldRow : list mounted :=
  [({| type := Text; key := Some 1; children := "a" |}, 1);
   ({| type := Text; key := Some 2; children := "b" |}, 2);
   ({| type := Comment; key := Some 3; children := "c" |}, 3);
   ({| type := Text; key := Some 4; children := "d" |}, 4)]%nat.

Definition newRow : list VNode :=
  [{| type := Text; key := Some 1; children := "a" |};
   {| type := Text; key := Some 4; children := "d" |};
   {| type := Text; key := Some 9; children := "x" |};
   {| type := Text; key := Some 2; children := "b2" |};
   {| type := Text; key := Some 3; children := "c" |}]%nat.

Lemma fresh_Forall h : Forall (λ x, (x < created h)%nat) (childNodes h) → fresh h.
Proof. intros H x Hx. rewrite Forall_forall in H. by apply H. Qed.

Lemma rowHost_NoDup : NoDup (childNodes rowHost).
Proof. apply (bool_decide_unpack _). by vm_compute. Qed.

Lemma rowHost_fresh : fresh rowHost.
Proof. apply fresh_Forall. apply (bool_decide_unpack _). by vm_compute. Qed.

Lemma oldRow_keys : NoDup (omap (λ o : mounted, key (fst o)) oldRow).
Proof. apply (bool_decide_unpack _). by vm_compute. Qed.

Lemma newRow_keys : NoDup (omap key newRow).
Proof. apply (bool_decide_unpack _). by vm_compute. Qed.

(** What [patchUnkeyedChildren] returns and leaves in the container. *)
Lemma patchUnkeyedChildren_spec (c1 : list mounted) (c2 : list VNode)
  (h : host) (pre post : list node) :
  NoDup (childNodes h) → fresh h →
  childNodes h = pre ++ (snd <$> c1) ++ post →
  ∃ els h', patchUnkeyedChildren c1 c2 (head post) h = Some (els, h') ∧
    length els = length c2 ∧
    childNodes h' = pre ++ els ++ post ∧
    NoDup (childNodes h') ∧
    (∀ i old n2, c1 !! i = Some old → c2 !! i = Some n2 →
       isSameVNodeType (fst old) n2 = true → els !! i = Some (snd old)) ∧
    (∀ x, x ∉ els → data h' !! x = data h !! x) ∧
    ((∀ o : mounted, o ∈ c1 → shows h (snd o) (fst o)) → Forall2 (shows h') els c2).
Proof.
  intros Hnd Hfr Hk. unfold patchUnkeyedChildren.
  destruct (patchCommon_spec c1 c2 h pre post Hnd Hfr Hk)
    as (els & h1 & Hpc & Hlen & Hk1 & Hnd1 & Hfr1 & Hreuse & Hframe & Hshows).
  rewrite Hpc. cbn [mbind option_bind]. rewrite <-Hlen.
  destruct (Nat.ltb_spec (length c2) (length c1)) as [Hlt|Hge].
  - destruct (unmountChildren_spec (drop (length els) c1) h1 (pre ++ els) post)
      as [Hk' Hc']; [done|by rewrite Hk1, <-(assoc (++))|].
    eexists _, _. split; [done|]. split; [lia|]. split; [by rewrite Hk', <-(assoc (++))|].
    split; [|split; [done|split]].
    + rewrite Hk', <-(assoc (++)).
      rewrite Hk1 in Hnd1. rewrite !(assoc (++)) in Hnd1.
      apply NoDup_app in Hnd1 as (H1 & H2 & H3).
      apply NoDup_app in H1 as (H1 & H4 & H5).
      rewrite (assoc (++)). apply NoDup_app. split_and!; [done| |done].
      intros x Hx. apply H2. apply elem_of_app. by left.
    + intros x Hx. rewrite unmountChildren_data. by apply Hframe.
    + intros Hold. specialize (Hshows Hold). rewrite take_ge in Hshows by lia.
      eapply Forall2_impl; [exact Hshows|]. intros el n Hs Ht.
      rewrite unmountChildren_data. by apply Hs.
  - rewrite drop_ge in Hk1 by lia. simpl in Hk1.
    destruct (mountChildren_spec (drop (length els) c2) h1 (pre ++ els) post)
      as (els' & h' & Hm & Hlen' & Hk' & Hnd' & Hfr' & Hframe' & Hshows'); try done.
    { by rewrite Hk1, <-(assoc (++)). }
    assert (∀ x, x ∈ els → x ∉ els') as Hdis.
    { rewrite Hk', <-(assoc (++)) in Hnd'. apply NoDup_app in Hnd' as (_ & _ & Hnd').
      apply NoDup_app in Hnd' as (_ & Hdis & _). intros x Hx Hx'.
      apply (Hdis x Hx). apply elem_of_app. by left. }
    exists (els ++ els'), h'.
    split; [by rewrite Hm|]. split; [rewrite length_app, Hlen', length_drop; lia|].
    split; [by rewrite Hk', <-!(assoc (++))|]. split; [done|]. split; [|split].
    + intros i old n2 Ho Hn Hs. rewrite lookup_app_l; [by eapply Hreuse|].
      rewrite Hlen. apply lookup_lt_Some in Ho, Hn. lia.
    + intros x Hx. apply not_elem_of_app in Hx as [Hx1 Hx2].
      by rewrite Hframe', Hframe.
    + intros Hold. rewrite <-(take_drop (length els) c2). apply Forall2_app; [|done].
      specialize (Hshows Hold). apply Forall2_same_length_lookup.
      split; [by eapply Forall2_length|].
      intros i el n Hel Hn Ht. rewrite Hframe'.
      * by eapply (Forall2_lookup_lr _ _ _ _ _ _ Hshows).
      * apply Hdis. by eapply list_elem_of_lookup_2.
Qed.

(** X19. [patchUnkeyedChildren] on text and comment children, where the
    old children are the nodes of the container between the nodes [pre]
    and the nodes [post], in order, and the anchor is the first node of
    [post] (none when there is no node behind): afterwards the container
    holds the nodes of the new children there, in order. A new child takes
    over the node of the old child at its index when the two are of the
    same type. *)
Theorem patchUnkeyedChildren_order (c1 : list mounted) (c2 : list VNode)
  (h : host) (pre post : list node) :
  NoDup (childNodes h) → fresh h →
  childNodes h = pre ++ (snd <$> c1) ++ post →
  ∃ els h', patchUnkeyedChildren c1 c2 (head post) h = Some (els, h') ∧
    length els = length c2 ∧
    childNodes h' = pre ++ els ++ post ∧
    NoDup (childNodes h') ∧
    ∀ i old n2, c1 !! i = Some old → c2 !! i = Some n2 →
      isSameVNodeType (fst old) n2 = true → els !! i = Some (snd old).
Proof.
  intros Hnd Hfr Hk.
  destruct (patchUnkeyedChildren_spec c1 c2 h pre post Hnd Hfr Hk)
    as (els & h' & Hp & Hlen & Hk' & Hnd' & Hreuse & _).
  exists els, h'. by split_and!.
Qed.

Lemma patchUnkeyedChildren_order_witness :
  ∃ els h', patchUnkeyedChildren oldRow newRow (head [5%nat]) rowHost = Some (els, h') ∧
    length els = length newRow ∧ childNodes h' = [0%nat] ++ els ++ [5%nat] ∧
    NoDup (childNodes h') ∧
    ∀ i old n2, oldRow !! i = Some old → newRow !! i = Some n2 →
      isSameVNodeType (fst old) n2 = true → els !! i = Some (snd old).
Proof.
  apply (patchUnkeyedChildren_order oldRow newRow rowHost [0%nat] [5%nat]).
  - exact rowHost_NoDup.
  - exact rowHost_fresh.
  - reflexivity.
Defined.

Example patchUnkeyedChildren_run :
  (r ← patchUnkeyedChildren oldRow newRow (head [5%nat]) rowHost;
   Some (r.1, childNodes r.2))
  = Some ([1; 6; 7; 8; 9]%nat, [0; 1; 6; 7; 8; 9; 5]%nat).
Proof. by vm_compute. Qed.

(** A row of children whose nodes hold their text. *)
Definition textHost : host :=
  {| childNodes := [0; 1; 2; 3; 4; 5]%nat;
     data := list_to_map [(1, "a"); (2, "b"); (3, "c"); (4, "d")]%nat;
     created := 6%nat |}.

Lemma textHost_shows : ∀ o : mounted, o ∈ oldRow → shows textHost (snd o) (fst o).
Proof.
  intros o Ho _. unfold oldRow in Ho.
  repeat (apply elem_of_cons in Ho as [->|Ho]; [by vm_compute|]).
  by apply elem_of_nil in Ho.
Qed.

(** X20. [patchUnkeyedChildren] brings the text up to date: when the node of
    every old text child holds the text of that child, then afterwards the
    node of every new text child holds the text of the new child, and no
    node besides those of the new children has its text changed. *)
Theorem patchUnkeyedChildren_text (c1 : list mounted) (c2 : list VNode)
  (h h' : host) (pre post els : list node) :
  NoDup (childNodes h) → fresh h →
  childNodes h = pre ++ (snd <$> c1) ++ post →
  (∀ o : mounted, o ∈ c1 → type (fst o) = Text →
     data h !! snd o = Some (children (fst o))) →
  patchUnkeyedChildren c1 c2 (head post) h = Some (els, h') →
  (∀ i n2, c2 !! i = Some n2 → type n2 = Text →
     ∃ el, els !! i = Some el ∧ data h' !! el = Some (children n2)) ∧
  (∀ x, x ∉ els → data h' !! x = data h !! x).
Proof.
  intros Hnd Hfr Hk Hold Hp.
  destruct (patchUnkeyedChildren_spec c1 c2 h pre post Hnd Hfr Hk)
    as (els' & h'' & Hp' & _ & _ & _ & _ & Hframe & Hshows).
  rewrite Hp in Hp'. injection Hp' as <- <-. split; [|done].
  intros i n2 Hn Ht.
  destruct (Forall2_lookup_r _ _ _ _ _ (Hshows Hold) Hn) as (el & Hel & Hs).
  exists el. split; [done|]. by apply Hs.
Qed.

Lemma patchUnkeyedChildren_text_witness :
  ∃ els h', patchUnkeyedChildren oldRow newRow (head [5%nat]) textHost = Some (els, h') ∧
    (∀ i n2, newRow !! i = Some n2 → type n2 = Text →
       ∃ el, els !! i = Some el ∧ data h' !! el = Some (children n2)) ∧
    (∀ x, x ∉ els → data h' !! x = data textHost !! x).
Proof.
  destruct (patchUnkeyedChildren oldRow newRow (head [5%nat]) textHost)
    as [[els h']|] eqn:Hp; [|by vm_compute in Hp].
  exists els, h'. split; [reflexivity|].
  apply (patchUnkeyedChildren_text oldRow newRow textHost h' [0%nat] [5%nat] els).
  - apply (bool_decide_unpack _). by vm_compute.
  - apply fresh_Forall. apply (bool_decide_unpack _). by vm_compute.
  - reflexivity.
  - exact textHost_shows.
  - exact Hp.
Defined.

(** *** The last loop of [patchKeyedChildren] *)

(** The nodes that the new children from [s2] to [e2] end with: the node of
    a child that is mounted, and for the others the nodes that the host
    creates, from the last child to the first; [cr] is the number of nodes
    created before. The second component is the number of nodes after. *)
Fixpoint finalEls (mid : list (option node)) (cr : nat) : list node * nat :=
  match mid with
  | [] => ([], cr)
  | o :: mid' =>
      let '(E, cr') := finalEls mid' cr in
      match o with
      | Some el => (el :: E, cr')
      | None => (cr' :: E, S cr')
      end
  end.

Lemma finalEls_length mid cr : length (finalEls mid cr).1 = length mid.
Proof.
  induction mid as [|o mid IH]; [done|]. simpl.
  destruct (finalEls mid cr) as [E cr']. simpl in *. destruct o; simpl; by rewrite IH.
Qed.

Lemma finalEls_ge mid cr : (cr ≤ (finalEls mid cr).2)%nat.
Proof.
  induction mid as [|o mid IH]; [done|]. simpl.
  destruct (finalEls mid cr) as [E cr']. simpl in *. destruct o; simpl; lia.
Qed.

Lemma finalEls_drop mid cr : ∀ j,
  drop j (finalEls mid cr).1 = (finalEls (drop j mid) cr).1.
Proof.
  induction mid as [|o mid IH]; intros [|j]; try done. simpl.
  specialize (IH j). destruct (finalEls mid cr) as [E cr'].
  simpl in IH. destruct o; simpl; exact IH.
Qed.

Lemma finalEls_Some mid cr t el :
  mid !! t = Some (Some el) → (finalEls mid cr).1 !! t = Some el.
Proof.
  revert t. induction mid as [|o mid IH]; intros [|t] Ht; try done; simpl in *.
  - injection Ht as ->. by destruct (finalEls mid cr).
  - specialize (IH t Ht). destruct (finalEls mid cr) as [E cr']. by destruct o.
Qed.

Lemma finalEls_None mid cr t :
  mid !! t = Some None →
  (finalEls mid cr).1 !! t = Some (finalEls (drop (S t) mid) cr).2 ∧
  (finalEls (drop t mid) cr).2 = S (finalEls (drop (S t) mid) cr).2.
Proof.
  revert t. induction mid as [|o mid IH]; intros [|t] Ht; try done; simpl in *.
  - injection Ht as ->. rewrite drop_0. by destruct (finalEls mid cr).
  - specialize (IH t Ht). destruct (finalEls mid cr) as [E cr']. by destruct o.
Qed.

Lemma finalEls_Some_snd mid cr t el :
  mid !! t = Some (Some el) →
  (finalEls (drop t mid) cr).2 = (finalEls (drop (S t) mid) cr).2.
Proof.
  revert t. induction mid as [|o mid IH]; intros [|t] Ht; try done; simpl in *.
  - injection Ht as ->. rewrite drop_0. by destruct (finalEls mid cr).
  - by apply IH.
Qed.

Lemma runOps_app c2 pa ops1 ops2 st :
  runOps c2 pa (ops1 ++ ops2) st = st' ← runOps c2 pa ops1 st; runOps c2 pa ops2 st'.
Proof.
  revert st. induction ops1 as [|op ops1 IH]; intros st; simpl; [done|].
  destruct (runOp c2 pa st op) as [st1|]; simpl; [apply IH|done].
Qed.

Lemma filter_keep {A} (P : A → Prop) `{∀ x, Decision (P x)} (l : list A) :
  (∀ x, x ∈ l → P x) → filter P l = l.
Proof.
  induction l as [|x l IH]; intros Hl; [done|].
  rewrite filter_cons_True by (apply Hl; by left).
  f_equal. apply IH. intros y Hy. apply Hl. by right.
Qed.

Lemma StronglySorted_filter_rel {A} (P : A → Prop) `{∀ x, Decision (P x)}
  (R : relation A) (l : list A) :
  StronglySorted (λ x y, P x → P y → R x y) l → StronglySorted R (filter P l).
Proof.
  induction 1 as [|x l Hs IH Hall]; [constructor|].
  rewrite filter_cons. destruct (decide (P x)) as [HP|HP]; [|done].
  constructor; [done|]. apply Forall_forall. intros y Hy.
  apply list_elem_of_filter in Hy as [HPy Hy].
  rewrite Forall_forall in Hall. by apply Hall.
Qed.

Section reorder.

Context (c2 : list VNode) (pa : option node).
Context (s2 : nat) (arr sq : list Z).
Context (E1 mid : list (option node)) (S2 PRE post : list node) (cr0 : nat).
Context (D : gmap node string).

Hypothesis len_E1 : length E1 = s2.
Hypothesis len_mid : length mid = length arr.
Hypothesis len_c2 : length c2 = (s2 + length arr + length S2)%nat.
Hypothesis pa_head : pa = head post.
Hypothesis zero_mid : ∀ t, arr !! t = Some 0 ↔ mid !! t = Some None.
Hypothesis mid_old : ∀ t el, mid !! t = Some (Some el) → (el < cr0)%nat.
Hypothesis mid_inj : ∀ t1 t2 el,
  mid !! t1 = Some (Some el) → mid !! t2 = Some (Some el) → t1 = t2.

(** The position [t] is mapped and stays where it is. *)
Definition keeps (t : nat) : bool :=
  bool_decide (Z.of_nat t ∈ sq) && negb (bool_decide (arr !! t = Some 0)).

(** The nodes of the positions below [j] that are yet to be moved, and of
    those that stay. *)
Definition moving (j : nat) : list node :=
  omap (λ t, if keeps t then None else mjoin (mid !! t)) (seq 0 j).

Definition staying (j : nat) : list node :=
  omap (λ t, if keeps t then mjoin (mid !! t) else None) (seq 0 j).

Lemma moving_S j :
  moving (S j) = moving j ++ (if keeps j then [] else option_list (mjoin (mid !! j))).
Proof.
  unfold moving. rewrite seq_S, omap_app. simpl. f_equal.
  destruct (keeps j); [done|]. by destruct (mjoin (mid !! j)).
Qed.

Lemma staying_S j :
  staying (S j) = staying j ++ (if keeps j then option_list (mjoin (mid !! j)) else []).
Proof.
  unfold staying. rewrite seq_S, omap_app. simpl. f_equal.
  destruct (keeps j); [|done]. by destruct (mjoin (mid !! j)).
Qed.

Lemma moving_elem j x : x ∈ moving j → ∃ t, mid !! t = Some (Some x).
Proof.
  unfold moving. rewrite list_elem_of_omap. intros (t & _ & Ht).
  destruct (keeps t); [done|]. exists t.
  destruct (mid !! t) as [[y|]|]; simpl in Ht; try done. by injection Ht as ->.
Qed.

Lemma moving_below j x : x ∈ moving j → ∃ t, (t < j)%nat ∧ mid !! t = Some (Some x).
Proof.
  unfold moving. rewrite list_elem_of_omap. intros (t & Hin & Ht).
  apply elem_of_seq in Hin. destruct (keeps t); [done|]. exists t. split; [lia|].
  destruct (mid !! t) as [[y|]|]; simpl in Ht; try done. by injection Ht as ->.
Qed.

Lemma moving_spec j x :
  x ∈ moving j ↔ ∃ t, (t < j)%nat ∧ keeps t = false ∧ mid !! t = Some (Some x).
Proof.
  clear len_E1 len_mid len_c2 pa_head zero_mid mid_old.
  unfold moving. rewrite list_elem_of_omap. split.
  - intros (t & Hin & Ht). apply elem_of_seq in Hin. exists t.
    destruct (keeps t); [done|]. split; [lia|]. split; [done|].
    destruct (mid !! t) as [[y|]|]; simpl in Ht; try done. by injection Ht as ->.
  - intros (t & Hlt & Hk & Hm). exists t. split; [apply elem_of_seq; lia|].
    by rewrite Hk, Hm.
Qed.

Lemma staying_spec j x :
  x ∈ staying j ↔ ∃ t, (t < j)%nat ∧ keeps t = true ∧ mid !! t = Some (Some x).
Proof.
  clear len_E1 len_mid len_c2 pa_head zero_mid mid_old.
  unfold staying. rewrite list_elem_of_omap. split.
  - intros (t & Hin & Ht). apply elem_of_seq in Hin. exists t.
    destruct (keeps t); [|done]. split; [lia|]. split; [done|].
    destruct (mid !! t) as [[y|]|]; simpl in Ht; try done. by injection Ht as ->.
  - intros (t & Hlt & Hk & Hm). exists t. split; [apply elem_of_seq; lia|].
    by rewrite Hk, Hm.
Qed.

(** [x] stands before [y] among the new children. *)
Definition before (x y : node) : Prop :=
  ∃ t1 t2, mid !! t1 = Some (Some x) ∧ mid !! t2 = Some (Some y) ∧ (t1 < t2)%nat.

Lemma staying_sorted j : StronglySorted before (staying j) ∧ NoDup (staying j).
Proof.
  clear len_E1 len_mid len_c2 pa_head zero_mid mid_old.
  induction j as [|j [IHs IHn]]; [split; constructor|]. rewrite staying_S.
  destruct (keeps j) eqn:Hk; [|by rewrite app_nil_r].
  destruct (mid !! j) as [[el|]|] eqn:Hm; simpl; try by rewrite app_nil_r.
  split.
  - apply StronglySorted_app_2; [|done|repeat constructor].
    intros x y Hx ->%list_elem_of_singleton.
    apply staying_spec in Hx as (t & Ht & _ & Hmt). by exists t, j.
  - apply NoDup_app. split; [done|]. split; [|apply NoDup_singleton].
    intros x Hx ->%list_elem_of_singleton.
    apply staying_spec in Hx as (t & Ht & _ & Hmt).
    assert (t = j) by (by eapply mid_inj). lia.
Qed.

(** When the loop over the old children is done, the nodes that stay stand
    in the order of the new children, given that this is their order among
    the old ones. [pl] lists the position and the node of the new children
    that were patched, in the order of the old children. *)
Lemma view_start (pl : list (nat * node)) (kids : list node) :
  NoDup kids → kids = PRE ++ pl.*2 ++ S2 ++ post →
  (∀ t el, mid !! t = Some (Some el) ↔ (t, el) ∈ pl) →
  (∀ a b ta ela tb elb, pl !! a = Some (ta, ela) → pl !! b = Some (tb, elb) →
     keeps ta = true → keeps tb = true → (ta < tb)%nat → (a < b)%nat) →
  filter (λ x, x ∉ moving (length mid)) kids
  = PRE ++ staying (length mid) ++ S2 ++ post.
Proof.
  clear len_E1 len_mid len_c2 pa_head zero_mid mid_old.
  intros Hnd -> Hpl Hagree.
  assert (∀ x, x ∈ moving (length mid) → x ∈ pl.*2) as Hsub.
  { intros x (t & _ & _ & Hm)%moving_spec. apply list_elem_of_fmap.
    exists (t, x). split; [done|]. by apply Hpl. }
  apply NoDup_app in Hnd as (_ & Hpre & Hnd).
  apply NoDup_app in Hnd as (Hndp & Hpost & _).
  rewrite (filter_app _ PRE), (filter_app _ pl.*2). f_equal; [|f_equal].
  - apply filter_keep. intros x Hx Hm. apply (Hpre x Hx).
    apply elem_of_app. left. by apply Hsub.
  - apply (StronglySorted_unique_strong before).
    + intros x y _ _ (t1 & t2 & H1 & H2 & Hlt) (t2' & t1' & H2' & H1' & Hlt').
      assert (t1 = t1') by (by eapply mid_inj).
      assert (t2 = t2') by (by eapply mid_inj). lia.
    + apply StronglySorted_filter_rel, StronglySorted_lookup.
      intros a b x y Hab Ha Hb Hx Hy.
      rewrite list_lookup_fmap in Ha, Hb.
      destruct (pl !! a) as [[ta x']|] eqn:Hpa; [|done].
      destruct (pl !! b) as [[tb y']|] eqn:Hpb; [|done].
      simpl in Ha, Hb. injection Ha as ->. injection Hb as ->.
      assert (mid !! ta = Some (Some x)) as Hma
        by (apply Hpl; by eapply list_elem_of_lookup_2).
      assert (mid !! tb = Some (Some y)) as Hmb
        by (apply Hpl; by eapply list_elem_of_lookup_2).
      assert (keeps ta = true) as Hka.
      { destruct (keeps ta) eqn:Hk; [done|]. destruct Hx. apply moving_spec.
        exists ta. split; [by eapply lookup_lt_Some|done]. }
      assert (keeps tb = true) as Hkb.
      { destruct (keeps tb) eqn:Hk; [done|]. destruct Hy. apply moving_spec.
        exists tb. split; [by eapply lookup_lt_Some|done]. }
      exists ta, tb. split; [done|]. split; [done|].
      destruct (Nat.lt_trichotomy ta tb) as [?|[->|Hlt]]; [done|..].
      * assert (x = y) as -> by congruence.
        assert (a = b); [|lia].
        eapply (NoDup_lookup pl.*2); [done|..]; rewrite list_lookup_fmap.
        -- by rewrite Hpa. -- by rewrite Hpb.
      * pose proof (Hagree b a tb y ta x Hpb Hpa Hkb Hka Hlt). lia.
    + apply staying_sorted.
    + apply NoDup_Permutation; [by apply NoDup_filter|apply staying_sorted|].
      intros x. rewrite list_elem_of_filter, staying_spec, moving_spec. split.
      * intros [Hx (y & -> & Hin)%list_elem_of_fmap]. destruct y as [t x]. simpl in *.
        apply Hpl in Hin. exists t. split; [by eapply lookup_lt_Some|].
        split; [|done]. destruct (keeps t) eqn:Hk; [done|]. destruct Hx.
        exists t. split; [by eapply lookup_lt_Some|done].
      * intros (t & Ht & Hk & Hm). split.
        -- intros (t' & _ & Hk' & Hm'). assert (t = t') by (by eapply mid_inj).
           congruence.
        -- apply list_elem_of_fmap. exists (t, x). split; [done|]. by apply Hpl.
  - apply filter_keep. intros x Hx Hm. apply (Hpost x); [by apply Hsub|done].
Qed.

Let E := (finalEls mid cr0).1.

(** The state when the positions from [j] on are done. *)
Record reordered (j : nat) (st : list (option node) * host) : Prop := {
  re_els : st.1 = E1 ++ take j mid ++ (Some <$> (drop j E ++ S2));
  re_created : created st.2 = (finalEls (drop j mid) cr0).2;
  re_NoDup : NoDup (childNodes st.2);
  re_fresh : fresh st.2;
  re_view : filter (λ x, x ∉ moving j) (childNodes st.2)
            = PRE ++ staying j ++ (drop j E ++ S2) ++ post;
  re_frame : ∀ x, (∀ t, (j ≤ t)%nat → mid !! t = Some None → E !! t ≠ Some x) →
    data st.2 !! x = D !! x;
  re_shown : ∀ t n el, (j ≤ t)%nat → mid !! t = Some None →
    c2 !! (s2 + t)%nat = Some n → E !! t = Some el → shows st.2 el n
}.

(** The anchor of position [i] is the node of the position behind. *)
Lemma anchor_head (i : nat) st : (i < length arr)%nat → reordered (S i) st →
  anchorEl pa st.1 (anchorOf (s2 + length arr + length S2) (s2 + i))
  = head ((drop (S i) E ++ S2) ++ post).
Proof.
  intros Hi [Hels _ _ _ _ _ _]. unfold anchorOf, anchorEl, elAt.
  assert (length (drop (S i) E) = (length arr - S i)%nat) as HlenE.
  { rewrite length_drop. unfold E. rewrite finalEls_length. lia. }
  destruct (Nat.ltb_spec (s2 + i + 1) (s2 + length arr + length S2)) as [Hlt|Hge].
  - rewrite Hels, lookup_app_r by lia.
    rewrite lookup_app_r by (rewrite length_take; lia).
    rewrite length_take, len_E1.
    replace (s2 + i + 1 - s2 - S i `min` length mid)%nat with O by lia.
    destruct (drop (S i) E ++ S2) as [|x R] eqn:HR; [|done].
    apply (f_equal length) in HR. rewrite length_app in HR. simpl in HR. lia.
  - rewrite pa_head. destruct (drop (S i) E ++ S2) as [|x R] eqn:HR; [done|].
    apply (f_equal length) in HR. rewrite length_app in HR. simpl in HR. lia.
Qed.

Lemma reorder_step (i : nat) st : (i < length arr)%nat → reordered (S i) st →
  ∃ st',
    runOps c2 pa
      (if decide (arr !! i = Some 0)
       then [MountNew (s2 + i) (anchorOf (s2 + length arr + length S2) (s2 + i))]
       else if decide (Z.of_nat i ∈ sq) then []
       else [MoveNode (s2 + i) (anchorOf (s2 + length arr + length S2) (s2 + i))]) st
    = Some st' ∧ reordered i st'.
Proof.
  intros Hi HJ. pose proof (anchor_head i st Hi HJ) as Hanchor.
  destruct HJ as [Hels Hcr Hnd Hfr Hview Hfrm Hshown]. destruct st as [els h].
  cbn [fst snd] in *.
  destruct (lookup_lt_is_Some_2 mid i) as [o Ho]; [lia|].
  assert (∀ x, x ∈ moving (S i) → (x < created h)%nat) as Hmold.
  { intros x (t & Ht)%moving_elem. apply mid_old in Ht.
    pose proof (finalEls_ge (drop (S i) mid) cr0). lia. }
  destruct (decide (arr !! i = Some 0)) as [Hz|Hnz].
  - (* the position is mounted *)
    assert (o = None) as -> by (apply zero_mid in Hz; congruence).
    assert (keeps i = false) as Hk.
    { unfold keeps. rewrite (bool_decide_eq_true_2 (arr !! i = Some 0)) by done.
      apply andb_false_r. }
    destruct (finalEls_None mid cr0 i Ho) as [HEi Hcri].
    destruct (lookup_lt_is_Some_2 c2 (s2 + i)) as [nextChild Hc]; [lia|].
    destruct (patch_mount_filter nextChild h (moving (S i)) (PRE ++ staying (S i))
                ((drop (S i) E ++ S2) ++ post))
      as (h' & Hp & Hc' & Hnd' & Hfr' & _ & Hview'); try done.
    { by rewrite <-(assoc (++)). }
    { intros Hin. apply Hmold in Hin. lia. }
    destruct (patch_data _ _ _ _ _ _ Hp) as [Hframe1 Hshows1].
    eexists. split.
    { cbn [runOps runOp]. rewrite Hc. cbn [mbind option_bind]. rewrite Hanchor, Hp.
      cbn [mbind option_bind]. done. }
    rewrite moving_S, staying_S, Hk, Ho in Hview'. simpl in Hview'.
    rewrite !app_nil_r in Hview'.
    assert (E !! i = Some (created h)) as HEi'.
    { fold E in HEi. by rewrite HEi, Hcr. }
    assert (drop i E = created h :: drop (S i) E) as HdropE by (by apply drop_S).
    split; simpl.
    + rewrite Hels, (take_S_r _ _ _ Ho), HdropE.
      rewrite <-!(assoc (++)). rewrite insert_app_r_alt by lia.
      rewrite len_E1. replace (s2 + i - s2)%nat with (length (take i mid))
        by (rewrite length_take; lia).
      rewrite insert_app_r_alt by lia. rewrite Nat.sub_diag. done.
    + rewrite Hc', Hcr. done.
    + done.
    + done.
    + rewrite Hview', HdropE, <-!(assoc (++)). done.
    + intros x Hx. rewrite Hframe1.
      * apply Hfrm. intros t Ht. apply Hx. lia.
      * intros ->. by apply (Hx i (Nat.le_refl _) Ho).
    + intros t n el Ht Hm Hn HEt. destruct (decide (t = i)) as [->|Hne].
      * assert (el = created h) as -> by congruence.
        assert (n = nextChild) as -> by congruence. by apply Hshows1.
      * intros Hty. rewrite Hframe1; [apply (Hshown t n el); try done; lia|].
        assert (el ∈ childNodes h) as Hin.
        { assert (el ∈ filter (λ x, x ∉ moving (S i)) (childNodes h)) as Hin.
          { rewrite Hview. apply elem_of_app. right. apply elem_of_app. right.
            apply elem_of_app. left. apply elem_of_app. left.
            apply (list_elem_of_lookup_2 _ (t - S i)). rewrite lookup_drop.
            by replace (S i + (t - S i))%nat with t by lia. }
          by apply list_elem_of_filter in Hin as [_ ?]. }
        apply Hfr in Hin. lia.
  - assert (∃ el, o = Some el) as [el ->].
    { destruct o as [el|]; [by eexists|]. destruct Hnz. by apply zero_mid. }
    pose proof (finalEls_Some mid cr0 i el Ho) as HEi. fold E in HEi.
    pose proof (finalEls_Some_snd mid cr0 i el Ho) as Hcri.
    assert (drop i E = el :: drop (S i) E) as HdropE by (by apply drop_S).
    assert (E1 ++ take (S i) mid ++ (Some <$> drop (S i) E ++ S2)
            = E1 ++ take i mid ++ (Some <$> drop i E ++ S2)) as Hsame.
    { rewrite (take_S_r _ _ _ Ho), HdropE, <-!(assoc (++)). done. }
    destruct (decide (Z.of_nat i ∈ sq)) as [Hin|Hnot].
    + (* the position stays *)
      assert (keeps i = true) as Hk.
      { unfold keeps. rewrite bool_decide_eq_true_2, bool_decide_eq_false_2 by done.
        done. }
      exists (els, h). split; [done|].
      rewrite moving_S, staying_S, Hk, Ho in Hview. simpl in Hview.
      rewrite app_nil_r in Hview.
      assert (∀ t, (i ≤ t)%nat → mid !! t = Some None → (S i ≤ t)%nat) as Hnext.
      { intros t Ht Hm. destruct (decide (t = i)) as [->|]; [congruence|lia]. }
      split; simpl; try done.
      * by rewrite Hels, Hsame.
      * by rewrite Hcr, Hcri.
      * rewrite Hview, HdropE, <-!(assoc (++)). done.
      * intros x Hx. apply Hfrm. intros t Ht. apply Hx. lia.
      * intros t n el0 Ht Hm Hn HEt. apply (Hshown t n el0); try done.
        by apply Hnext.
    + (* the position is moved *)
      assert (keeps i = false) as Hk.
      { unfold keeps. by rewrite bool_decide_eq_false_2. }
      assert (moving (S i) = moving i ++ [el]) as Hmov.
      { rewrite moving_S, Hk, Ho. done. }
      assert (staying (S i) = staying i) as Hstay.
      { rewrite staying_S, Hk. by rewrite app_nil_r. }
      destruct (hostInsert_filter h (moving (S i)) (moving i) (PRE ++ staying (S i))
                  ((drop (S i) E ++ S2) ++ post) el)
        as (h' & Hins & Hd & Hc' & Hnd' & Helem & Hview'); try done.
      { by rewrite <-(assoc (++)). }
      { left. rewrite Hmov. apply elem_of_app. right. by left. }
      { intros x. rewrite Hmov, elem_of_app, list_elem_of_singleton. split.
        - intros Hx. split; [by left|]. intros ->.
          apply moving_below in Hx as (t & Ht & Hmt).
          assert (t = i) by (by eapply mid_inj). lia.
        - intros [[?|?] ?]; done. }
      exists (els, h'). split.
      { cbn [runOps runOp]. rewrite Hanchor. unfold elAt. rewrite Hels.
        rewrite lookup_app_r by lia. rewrite len_E1.
        replace (s2 + i - s2)%nat with i by lia.
        rewrite lookup_app_l by (rewrite length_take; lia).
        rewrite lookup_take_lt by lia. rewrite Ho. cbn [mjoin option_join mbind option_bind].
        unfold move. rewrite Hins. done. }
      assert (∀ t, (i ≤ t)%nat → mid !! t = Some None → (S i ≤ t)%nat) as Hnext.
      { intros t Ht Hm. destruct (decide (t = i)) as [->|]; [congruence|lia]. }
      pose proof (hostInsert_data _ _ _ _ Hins) as Hdata.
      split; simpl; try done.
      * by rewrite Hels, Hsame.
      * by rewrite Hc', Hcr, Hcri.
      * intros x Hx. apply Helem in Hx as [Hx| ->]; rewrite Hc'; [by apply Hfr|].
        apply Hmold. rewrite Hmov. apply elem_of_app. right. by left.
      * rewrite Hview', Hstay, HdropE, <-!(assoc (++)). done.
      * intros x Hx. rewrite Hdata. apply Hfrm. intros t Ht. apply Hx. lia.
      * intros t n el0 Ht Hm Hn HEt Hty. rewrite Hdata.
        apply (Hshown t n el0); try done. by apply Hnext.
Qed.

(** The last loop, from the state that the loop over the old children
    leaves: afterwards the nodes of the new children stand in order. *)
Lemma reorder_spec j : ∀ st, (j ≤ length arr)%nat → reordered j st →
  ∃ h', runOps c2 pa (moveSpec s2 (s2 + length arr + length S2) arr sq j) st
        = Some (E1 ++ (Some <$> E ++ S2), h') ∧
    childNodes h' = PRE ++ (E ++ S2) ++ post ∧ NoDup (childNodes h') ∧
    (∀ x, (∀ t, mid !! t = Some None → E !! t ≠ Some x) → data h' !! x = D !! x) ∧
    (∀ t n el, mid !! t = Some None → c2 !! (s2 + t)%nat = Some n →
       E !! t = Some el → shows h' el n).
Proof.
  induction j as [|i IH]; intros st Hj HJ.
  - destruct HJ as [Hels Hcr Hnd Hfr Hview Hfrm Hshown]. destruct st as [els h].
    cbn [fst snd] in *.
    exists h. rewrite Hels, take_0, drop_0. split; [done|]. split; [|split; [done|split]].
    + unfold moving in Hview. simpl in Hview. rewrite filter_notin_nil in Hview.
      by rewrite Hview, drop_0.
    + intros x Hx. apply Hfrm. intros t _. apply Hx.
    + intros t n el. apply Hshown. lia.
  - cbn [moveSpec]. rewrite runOps_app.
    destruct (reorder_step i st) as (st' & Hrun & HJ'); [lia|done|].
    rewrite Hrun. cbn [mbind option_bind]. apply IH; [lia|done].
Qed.

End reorder.


(** *** The loop over the old children *)

Lemma keyToNewIndexMap_lookup c : ∀ i m k j,
  keyToNewIndexMap i c m !! k = Some j →
  m !! k = Some j ∨
  ((i ≤ j)%nat ∧ ∃ n, c !! (j - i)%nat = Some n ∧ key n = Some k).
Proof.
  induction c as [|n c IH]; intros i m k j Hk; simpl in Hk; [by left|].
  apply IH in Hk as [Hk|(Hle & n' & Hn' & Hkey)].
  - destruct (key n) as [k0|] eqn:Hkn; [|by left].
    destruct (decide (k0 = k)) as [->|Hne].
    + rewrite lookup_insert_eq in Hk. injection Hk as <-. right.
      split; [done|]. exists n. by rewrite Nat.sub_diag.
    + rewrite lookup_insert_ne in Hk by done. by left.
  - right. split; [lia|]. exists n'. split; [|done].
    replace (j - i)%nat with (S (j - S i)) by lia. done.
Qed.

Lemma findSame_spec p c : ∀ j m r,
  findSame p j c m = Some r →
  (j ≤ r)%nat ∧ ∃ n, c !! (r - j)%nat = Some n ∧ m !! (r - j)%nat = Some 0 ∧
    isSameVNodeType p n = true.
Proof.
  induction c as [|n c IH]; intros j [|x m] r Hr; simpl in Hr; try done.
  destruct (bool_decide (x = 0) && isSameVNodeType p n) eqn:Hb.
  - injection Hr as <-. apply andb_true_iff in Hb as [Hx%bool_decide_eq_true Hs].
    split; [done|]. exists n. rewrite Nat.sub_diag. simpl. by rewrite Hx.
  - apply IH in Hr as (Hle & n' & Hn' & Hm & Hs). split; [lia|]. exists n'.
    replace (r - j)%nat with (S (r - S j)) by lia. done.
Qed.

Lemma unmount_at n h (A B : list node) :
  NoDup (childNodes h) → fresh h → childNodes h = A ++ snd n :: B →
  childNodes (unmount n h) = A ++ B ∧ NoDup (childNodes (unmount n h)) ∧
  fresh (unmount n h).
Proof.
  intros Hnd Hfr Hk.
  destruct (unmountChildren_spec [n] h A B Hnd) as [Hk' Hc]; [done|].
  change (unmountChildren [n] h) with (unmount n h) in *.
  split; [done|]. split.
  - rewrite Hk'. rewrite Hk in Hnd. apply NoDup_app in Hnd as (HA & HAB & HB).
    apply NoDup_cons in HB as [_ HB]. apply NoDup_app. split; [done|].
    split; [|done]. intros x Hx HxB. apply (HAB x Hx). by right.
  - intros x Hx. rewrite Hc. apply Hfr. rewrite Hk. rewrite Hk' in Hx.
    apply elem_of_app in Hx as [?|?]; apply elem_of_app; [by left|right; by right].
Qed.

Lemma keyToNewIndexMap_mono c : ∀ i m k,
  is_Some (m !! k) → is_Some (keyToNewIndexMap i c m !! k).
Proof.
  induction c as [|n c IH]; intros i m k Hk; simpl; [done|]. apply IH.
  destruct (key n) as [k0|]; [|done]. apply lookup_insert_is_Some.
  destruct (decide (k0 = k)); [by left|by right].
Qed.

Lemma keyToNewIndexMap_complete c : ∀ i m t n k,
  c !! t = Some n → key n = Some k → is_Some (keyToNewIndexMap i c m !! k).
Proof.
  induction c as [|n0 c IH]; intros i m [|t] n k Hn Hk; simpl in *; try done.
  - injection Hn as ->. rewrite Hk. apply keyToNewIndexMap_mono.
    by rewrite lookup_insert_eq.
  - by eapply IH.
Qed.

(** No two entries of a list have the same key. *)
Lemma key_unique {X} (f : X → option nat) (l : list X) :
  NoDup (omap f l) → ∀ i j x y k,
  l !! i = Some x → l !! j = Some y → f x = Some k → f y = Some k → i = j.
Proof.
  induction l as [|a l IH]; intros Hnd i j x y k Hi Hj Hx Hy; [done|].
  assert (∀ t z, l !! t = Some z → f z = Some k → k ∈ omap f l) as Hin.
  { intros t z Ht Hz. apply list_elem_of_omap. exists z. split; [|done].
    by eapply list_elem_of_lookup_2. }
  simpl in Hnd. destruct i as [|i], j as [|j]; simpl in *; try done.
  - injection Hi as ->. rewrite Hx in Hnd. apply NoDup_cons in Hnd as [Hk _].
    destruct Hk. by eapply Hin.
  - injection Hj as ->. rewrite Hy in Hnd. apply NoDup_cons in Hnd as [Hk _].
    destruct Hk. by eapply Hin.
  - f_equal. eapply IH; try done. destruct (f a); [|done].
    by apply NoDup_cons in Hnd as [_ ?].
Qed.

Lemma pigeon (l : list nat) (n : nat) :
  NoDup l → (∀ x, x ∈ l → (x < n)%nat) → (n ≤ length l)%nat →
  ∀ t, (t < n)%nat → t ∈ l.
Proof.
  intros Hnd Hlt Hlen t Ht.
  assert (l ⊆+ seq 0 n) as Hsub.
  { apply NoDup_submseteq; [done|]. intros x Hx. apply elem_of_seq.
    specialize (Hlt x Hx). lia. }
  apply submseteq_length_Permutation in Hsub; [|by rewrite length_seq].
  rewrite Hsub. apply elem_of_seq. lia.
Qed.

Section walk.

Context (s2 : nat) (new : list VNode) (keys : gmap nat nat).
Context (E1 E3 : list (option node)) (PRE POST : list node).
Context (D : gmap node string) (text : Prop).

Hypothesis len_E1 : length E1 = s2.
Hypothesis keys_spec : ∀ k j, keys !! k = Some j →
  (s2 ≤ j)%nat ∧ ∃ n, new !! (j - s2)%nat = Some n ∧ key n = Some k.
Hypothesis keys_complete : ∀ t n k,
  new !! t = Some n → key n = Some k → is_Some (keys !! k).

(** The state before the old child at [i]: [seen] are the old children
    before it and [rest] those from it on; [pl] lists the position and the
    node of the new children patched, in the order of the old children, and
    [mid] the node of every new child. [D] is the text of the nodes before
    the loop, and [text] stands for the assumption that the nodes of the
    old children hold their text. *)
Record walking (i : nat) (seen rest : list mounted) (pl : list (nat * node))
  (mid : list (option node)) (w : walk) : Prop := {
  wk_kids : childNodes (hst w) = (PRE ++ pl.*2) ++ (snd <$> rest) ++ POST;
  wk_NoDup : NoDup (childNodes (hst w));
  wk_fresh : fresh (hst w);
  wk_els : els w = E1 ++ mid ++ E3;
  wk_len_mid : length mid = length new;
  wk_len_map : length (newIndexToOldIndexMap w) = length new;
  wk_zero : ∀ t, newIndexToOldIndexMap w !! t = Some 0 ↔ mid !! t = Some None;
  wk_pl : ∀ t el, mid !! t = Some (Some el) ↔ (t, el) ∈ pl;
  wk_val : ∀ t el, (t, el) ∈ pl →
    ∃ v, newIndexToOldIndexMap w !! t = Some v ∧ 0 < v ≤ Z.of_nat i;
  wk_ord : ∀ a b ta ela tb elb va vb,
    pl !! a = Some (ta, ela) → pl !! b = Some (tb, elb) →
    newIndexToOldIndexMap w !! ta = Some va →
    newIndexToOldIndexMap w !! tb = Some vb → (a < b)%nat → va < vb;
  wk_moved : moved w = false →
    (∀ t el, (t, el) ∈ pl → (s2 + t ≤ maxNewIndexSoFar w)%nat) ∧
    (∀ a b ta ela tb elb, pl !! a = Some (ta, ela) → pl !! b = Some (tb, elb) →
       (a < b)%nat → (ta < tb)%nat);
  wk_keys : ∀ t el, (t, el) ∈ pl →
    ∃ n o, new !! t = Some n ∧ o ∈ seen ∧ key n = key (fst o);
  wk_keys_NoDup : NoDup (omap (λ o : mounted, key (fst o)) (seen ++ rest));
  wk_patched : patched w = length pl;
  wk_reuse : NoDup (omap key new) → ∀ o k t n2, o ∈ seen →
    key (fst o) = Some k → new !! t = Some n2 → key n2 = Some k →
    type (fst o) = type n2 → (t, snd o) ∈ pl;
  wk_frame : ∀ x, x ∉ pl.*2 → data (hst w) !! x = D !! x;
  wk_shown : text → ∀ t el n, (t, el) ∈ pl → new !! t = Some n → shows (hst w) el n;
  wk_old : text → ∀ o : mounted, o ∈ rest → type (fst o) = Text →
    D !! snd o = Some (children (fst o))
}.

Lemma walking_unmount i seen p rest pl mid w :
  walking i seen (p :: rest) pl mid w →
  (∀ k t n2, key (fst p) = Some k → new !! t = Some n2 → key n2 ≠ Some k) →
  walking (S i) (seen ++ [p]) rest pl mid (set_hst (unmount p (hst w)) w).
Proof.
  intros [Hk Hnd Hfr Hels Hlm Hla Hz Hpl Hv Ho Hmv Hkeys Hkn Hpa Hre Hfrm Hshown Hold] Hno.
  destruct (unmount_at p (hst w) (PRE ++ pl.*2) ((snd <$> rest) ++ POST))
    as (Hk' & Hnd' & Hfr'); try done.
  split; simpl; try done.
  - intros t el Hin. destruct (Hv t el Hin) as (v & Hv1 & Hv2). exists v.
    split; [done|lia].
  - intros t el Hin. destruct (Hkeys t el Hin) as (n & o & Hn & Ho' & Hkey).
    exists n, o. split; [done|]. split; [|done]. apply elem_of_app. by left.
  - by rewrite <-(assoc (++)).
  - intros Hnn o k t n2 [Hin|Heq%list_elem_of_singleton]%elem_of_app Hko Hn2 Hkn2 Hty.
    + by eapply Hre.
    + subst o. by destruct (Hno k t n2 Hko Hn2).
  - intros HQ o Ho'. apply (Hold HQ). by right.
Qed.

(** The new children patched are at positions of their own. *)
Lemma walking_positions i seen rest pl mid w :
  walking i seen rest pl mid w →
  NoDup pl.*1 ∧ ∀ t, t ∈ pl.*1 → (t < length new)%nat.
Proof.
  intros [Hk Hnd Hfr Hels Hlm Hla Hz Hpl Hv Ho Hmv Hkeys Hkn Hpa Hre Hfrm Hshown Hold]. split.
  - apply NoDup_fmap_fst.
    + intros t el1 el2 H1%Hpl H2%Hpl. congruence.
    + rewrite Hk in Hnd. apply NoDup_app in Hnd as (Hnd & _ & _).
      apply NoDup_app in Hnd as (_ & _ & Hnd). by apply NoDup_fmap_1 in Hnd.
  - intros t (x & -> & Hin)%list_elem_of_fmap. destruct x as [t el].
    apply Hpl in Hin. rewrite <-Hlm. by eapply lookup_lt_Some.
Qed.

Lemma walkStep_spec i seen p rest pl mid w :
  walking i seen (p :: rest) pl mid w →
  ∃ w' pl' mid', walkStep s2 new keys i p w = Some w' ∧
    walking (S i) (seen ++ [p]) rest pl' mid' w'.
Proof.
  intros HW. unfold walkStep.
  pose proof HW as [Hk Hnd Hfr Hels Hlm Hla Hz Hpl Hv Ho Hmv Hkeys Hkn Hpa Hre Hfrm Hshown Hold].
  assert (∀ k el t, key p.1 = Some k → (t, el) ∈ pl →
            ∀ n, new !! t = Some n → key n ≠ Some k) as Hfree.
  { intros k el t Hkp Hin n Hn Hkey.
    apply Hkeys in Hin as (n' & o & Hn' & Hin & Hkey').
    assert (n' = n) as -> by congruence.
    rewrite omap_app in Hkn. apply NoDup_app in Hkn as (_ & Hdis & _).
    apply (Hdis k).
    + apply list_elem_of_omap. exists o. split; [done|]. congruence.
    + simpl. rewrite Hkp. by left. }
  destruct (Nat.leb_spec (length new) (patched w)) as [Hfull|_].
  { eexists _, pl, mid. split; [done|]. apply walking_unmount; [done|].
    intros k t n2 Hkp Hn2 Hkey.
    destruct (walking_positions _ _ _ _ _ _ HW) as [Hnd1 Hlt1].
    assert (t ∈ pl.*1) as (x & -> & Hin)%list_elem_of_fmap.
    { apply (pigeon pl.*1 (length new)); [done..| |by eapply lookup_lt_Some].
      rewrite length_fmap. lia. }
    destruct x as [t el]. by eapply (Hfree k el t). }
  set (newIndex := match key p.1 with
                   | Some k => keys !! k
                   | None => findSame p.1 s2 new (newIndexToOldIndexMap w)
                   end).
  destruct newIndex as [j|] eqn:Hj.
  2:{ eexists _, pl, mid. split; [done|]. apply walking_unmount; [done|].
      intros k t n2 Hkp Hn2 Hkey. subst newIndex. rewrite Hkp in Hj.
      destruct (keys_complete t n2 k Hn2 Hkey) as [? ?]. congruence. }
  assert ((s2 ≤ j)%nat ∧ ∃ n2, new !! (j - s2)%nat = Some n2 ∧
            key n2 = key p.1 ∧ mid !! (j - s2)%nat = Some None)
    as (Hle & n2 & Hn2 & Hkey & Hnone).
  { subst newIndex. destruct (key p.1) as [k|] eqn:Hkp.
    - destruct (keys_spec k j Hj) as (Hle & n2 & Hn2 & Hkey).
      split; [done|]. exists n2. split; [done|]. split; [done|].
      assert (j - s2 < length mid)%nat as Hlt
        by (rewrite Hlm; by eapply lookup_lt_Some).
      destruct (lookup_lt_is_Some_2 mid (j - s2) Hlt) as [[el|] Hm]; [|done].
      exfalso. apply Hpl in Hm. by eapply (Hfree k el).
    - apply findSame_spec in Hj as (Hle & n2 & Hn2 & Hm & Hs).
      split; [done|]. exists n2. split; [done|]. split; [|by apply Hz].
      unfold isSameVNodeType in Hs. apply bool_decide_eq_true in Hs as [_ Hs].
      by rewrite <-Hs. }
  clearbody newIndex. clear Hj.
  set (t := (j - s2)%nat) in *.
  assert (t < length new)%nat as Ht by (by eapply lookup_lt_Some).
  assert (∀ el, (t, el) ∉ pl) as Hnew.
  { intros el Hin. apply Hpl in Hin. congruence. }
  rewrite Hn2. cbn [mbind option_bind].
  destruct (patch_at p n2 None (hst w) (PRE ++ pl.*2) ((snd <$> rest) ++ POST))
    as (el & h' & Hp & Hk' & Hnd' & Hfr' & Hcr & Hel); try done.
  destruct (patch_data _ _ _ _ _ _ Hp) as [Hframe1 Hshows1].
  rewrite Hp. cbn [mbind option_bind].
  eexists _, (pl ++ [(t, el)]), (<[t := Some el]> mid). split; [done|].
  split; cbn [hst els newIndexToOldIndexMap moved maxNewIndexSoFar patched].
  - rewrite Hk', fmap_app, <-!(assoc (++)). done.
  - done.
  - done.
  - rewrite Hels, insert_app_r_alt by lia. rewrite len_E1.
    rewrite insert_app_l by lia. done.
  - by rewrite length_insert.
  - by rewrite length_insert.
  - intros t0. destruct (decide (t0 = t)) as [->|Hne].
    + rewrite !list_lookup_insert_eq by lia. split; intros [=]. lia.
    + rewrite !list_lookup_insert_ne by done. apply Hz.
  - intros t0 el0. rewrite elem_of_app, list_elem_of_singleton.
    destruct (decide (t0 = t)) as [->|Hne].
    + rewrite list_lookup_insert_eq by lia. split.
      * intros [= ->]. by right.
      * intros [Hin|[= ->]]; [by apply Hnew in Hin|done].
    + rewrite list_lookup_insert_ne by done. rewrite Hpl. split.
      * by left.
      * intros [?|[= ? ?]]; done.
  - intros t0 el0 [Hin|[= -> ->]%list_elem_of_singleton]%elem_of_app.
    + assert (t0 ≠ t) by (intros ->; by apply Hnew in Hin).
      rewrite list_lookup_insert_ne by done.
      destruct (Hv t0 el0 Hin) as (v & Hv1 & Hv2). exists v. split; [done|lia].
    + rewrite list_lookup_insert_eq by lia. eexists. split; [done|lia].
  - intros a b ta ela tb elb va vb Ha Hb Hva Hvb Hab.
    assert (a < length pl)%nat as Hlta.
    { apply lookup_lt_Some in Hb. rewrite length_app in Hb. simpl in Hb. lia. }
    rewrite lookup_app_l in Ha by done.
    assert ((ta, ela) ∈ pl) as Hina by (by eapply list_elem_of_lookup_2).
    assert (ta ≠ t) by (intros ->; by apply Hnew in Hina).
    rewrite list_lookup_insert_ne in Hva by done.
    destruct (decide (b < length pl)%nat) as [Hltb|Hgeb].
    + rewrite lookup_app_l in Hb by done.
      assert ((tb, elb) ∈ pl) as Hinb by (by eapply list_elem_of_lookup_2).
      assert (tb ≠ t) by (intros ->; by apply Hnew in Hinb).
      rewrite list_lookup_insert_ne in Hvb by done.
      exact (Ho a b ta ela tb elb va vb Ha Hb Hva Hvb Hab).
    + rewrite lookup_app_r in Hb by lia.
      destruct (b - length pl)%nat; [|done]. injection Hb as <- <-.
      rewrite list_lookup_insert_eq in Hvb by lia. injection Hvb as <-.
      destruct (Hv ta ela Hina) as (v & Hv1 & Hv2).
      assert (v = va) by congruence. lia.
  - intros Hm.
    destruct (Nat.leb_spec (maxNewIndexSoFar w) j) as [Hmax|Hmax]; [|done].
    destruct (Hmv Hm) as [Hmv1 Hmv2]. split.
    + intros t0 el0 [Hin|[= -> ->]%list_elem_of_singleton]%elem_of_app.
      * specialize (Hmv1 t0 el0 Hin). lia.
      * subst t. lia.
    + intros a b ta ela tb elb Ha Hb Hab.
      assert (a < length pl)%nat as Hlta.
      { apply lookup_lt_Some in Hb. rewrite length_app in Hb. simpl in Hb. lia. }
      rewrite lookup_app_l in Ha by done.
      assert ((ta, ela) ∈ pl) as Hina by (by eapply list_elem_of_lookup_2).
      destruct (decide (b < length pl)%nat) as [Hltb|Hgeb].
      * rewrite lookup_app_l in Hb by done.
        exact (Hmv2 a b ta ela tb elb Ha Hb Hab).
      * rewrite lookup_app_r in Hb by lia.
        destruct (b - length pl)%nat; [|done]. injection Hb as <- <-.
        assert (ta ≠ t) by (intros ->; by apply Hnew in Hina).
        specialize (Hmv1 ta ela Hina). subst t. lia.
  - intros t0 el0 [Hin|[= -> ->]%list_elem_of_singleton]%elem_of_app.
    + destruct (Hkeys t0 el0 Hin) as (n & o & Hn & Ho' & Hkey').
      exists n, o. split; [done|]. split; [|done]. apply elem_of_app. by left.
    + exists n2, p. split; [done|]. split; [|done]. apply elem_of_app. right. by left.
  - by rewrite <-(assoc (++)).
  - rewrite length_app, Hpa. simpl. lia.
  - intros Hnn o k t0 n0 [Hin|Heq%list_elem_of_singleton]%elem_of_app Hko Hn0 Hkn0 Hty.
    + apply elem_of_app. left. by eapply Hre.
    + subst o. apply elem_of_app. right. apply list_elem_of_singleton.
      assert (t0 = t) as ->.
      { eapply (key_unique key new Hnn); [exact Hn0|exact Hn2|done|congruence]. }
      assert (n0 = n2) as -> by congruence.
      assert (isSameVNodeType p.1 n2 = true) as Hs.
      { unfold isSameVNodeType. apply bool_decide_eq_true. by rewrite Hkey. }
      rewrite Hs in Hel. by rewrite Hel.
  - intros x Hx. rewrite fmap_app in Hx. apply not_elem_of_app in Hx as [Hx1 Hx2].
    rewrite <-Hfrm by done. apply Hframe1. intros ->. apply Hx2. by left.
  - intros HQ t0 el0 n0 [Hin|[= -> ->]%list_elem_of_singleton]%elem_of_app Hn0.
    + intros Hty. rewrite Hframe1; [by apply (Hshown HQ t0 el0 n0)|].
      intros ->. rewrite Hk' in Hnd'. apply NoDup_app in Hnd' as (_ & Hdis & _).
      apply (Hdis el).
      * apply elem_of_app. right. apply list_elem_of_fmap. by exists (t0, el).
      * by left.
    + assert (n0 = n2) as -> by congruence. apply Hshows1.
      intros old [= <-] _ Hty. rewrite Hfrm.
      * apply (Hold HQ); [by left|done].
      * intros Hin. rewrite Hk in Hnd. apply NoDup_app in Hnd as (_ & Hdis & _).
        apply (Hdis p.2); [apply elem_of_app; by right|]. by left.
  - intros HQ o Ho'. apply (Hold HQ). by right.
Qed.

Lemma walkOld_spec rest : ∀ i seen pl mid w,
  walking i seen rest pl mid w →
  ∃ w' pl' mid', walkOld s2 new keys i rest w = Some w' ∧
    walking (i + length rest) (seen ++ rest) [] pl' mid' w'.
Proof.
  induction rest as [|p rest IH]; intros i seen pl mid w HW.
  - exists w, pl, mid. split; [done|]. by rewrite Nat.add_0_r, app_nil_r.
  - destruct (walkStep_spec i seen p rest pl mid w HW) as (w1 & pl1 & mid1 & Hs & HW1).
    destruct (IH _ _ _ _ _ HW1) as (w' & pl' & mid' & Hw & HW').
    exists w', pl', mid'. split.
    + cbn [walkOld]. rewrite Hs. done.
    + rewrite <-(assoc (++)) in HW'. simpl in *.
      by replace (i + S (length rest))%nat with (S i + length rest)%nat by lia.
Qed.

End walk.

(** *** The loops from the two ends, and the two simple cases *)

Lemma syncStart_spec c1 : ∀ c2 h,
  ∃ n h', syncStart c1 c2 h = Some (snd <$> take n c1, h') ∧
    (n ≤ length c1)%nat ∧ (n ≤ length c2)%nat ∧
    childNodes h' = childNodes h ∧ created h' = created h ∧
    Forall2 (λ (o : mounted) n2, isSameVNodeType (fst o) n2 = true)
      (take n c1) (take n c2) ∧
    (∀ x, x ∉ snd <$> take n c1 → data h' !! x = data h !! x) ∧
    (NoDup (snd <$> c1) → (∀ o : mounted, o ∈ c1 → shows h (snd o) (fst o)) →
     Forall2 (shows h') (snd <$> take n c1) (take n c2)).
Proof.
  assert (∀ (c1 : list mounted) c2 h r, r = Some ([] : list node, h) →
    ∃ n h', r = Some (snd <$> take n c1, h') ∧
      (n ≤ length c1)%nat ∧ (n ≤ length c2)%nat ∧
      childNodes h' = childNodes h ∧ created h' = created h ∧
      Forall2 (λ (o : mounted) n2, isSameVNodeType (fst o) n2 = true)
        (take n c1) (take n c2) ∧
      (∀ x, x ∉ snd <$> take n c1 → data h' !! x = data h !! x) ∧
      (NoDup (snd <$> c1) → (∀ o : mounted, o ∈ c1 → shows h (snd o) (fst o)) →
       Forall2 (shows h') (snd <$> take n c1) (take n c2))) as Hstop.
  { intros c1' c2' h r ->. exists O, h. rewrite !take_0.
    split_and!; [done|lia|lia|done|done|constructor|done|intros _ _; constructor]. }
  induction c1 as [|n1 c1 IH]; intros c2 h; [by apply Hstop|].
  destruct c2 as [|n2 c2]; [by apply Hstop|]. cbn [syncStart].
  destruct (isSameVNodeType n1.1 n2) eqn:Hs; [|by apply Hstop].
  destruct (patch_same n1 n2 None h Hs) as (h1 & Hp & Hk1 & Hc1).
  destruct (patch_data _ _ _ _ _ _ Hp) as [Hframe1 Hshows1].
  destruct (IH c2 h1) as (n & h' & Hsync & Hn1 & Hn2 & Hk & Hc & Hsame & Hframe & Hshows).
  exists (S n), h'. rewrite Hp. cbn [mbind option_bind]. rewrite Hsync.
  split_and!; [done|simpl; lia|simpl; lia|congruence|congruence| | |].
  - simpl. by constructor.
  - intros x Hx. simpl in Hx. apply not_elem_of_cons in Hx as [Hx1 Hx2].
    by rewrite Hframe, Hframe1.
  - intros Hnd Hold. simpl in Hnd. apply NoDup_cons in Hnd as [Hn1' Hnd].
    simpl. constructor.
    + intros Ht. rewrite Hframe.
      * apply Hshows1; [|done]. intros old [= <-] _. apply Hold. by left.
      * intros Hin. apply Hn1'. apply list_elem_of_fmap in Hin as (o & -> & Hin).
        apply list_elem_of_fmap. exists o. split; [done|].
        apply elem_of_take in Hin as (i & Hi & _). by eapply list_elem_of_lookup_2.
    + apply Hshows; [done|]. intros o Ho Ht. rewrite Hframe1; [by apply Hold; [right|]|].
      intros Heq. apply Hn1'. rewrite <-Heq. apply list_elem_of_fmap. by exists o.
Qed.

Lemma mountRange_spec new : ∀ h (A B : list node) (L R : list (option node)),
  NoDup (childNodes h) → fresh h → childNodes h = A ++ B →
  ∃ els h', mountRange (length L) new (head B)
              (L ++ replicate (length new) None ++ R, h)
            = Some (L ++ (Some <$> els) ++ R, h') ∧
    length els = length new ∧ childNodes h' = A ++ els ++ B ∧
    NoDup (childNodes h') ∧ fresh h' ∧
    (∀ x, x ∉ els → data h' !! x = data h !! x) ∧
    Forall2 (shows h') els new.
Proof.
  induction new as [|n new IH]; intros h A B L R Hnd Hfr Hk.
  { exists [], h. split_and!; try done. }
  cbn [mountRange snd fst].
  destruct (patch_mount n h A B Hnd Hfr Hk) as (h1 & Hp & Hc & Hnd1 & Hfr1 & Hk1).
  destruct (patch_data _ _ _ _ _ _ Hp) as [Hframe1 Hshows1].
  rewrite Hp. cbn [mbind option_bind].
  destruct (IH h1 (A ++ [created h]) B (L ++ [Some (created h)]) R)
    as (els & h' & Hm & Hlen & Hk' & Hnd' & Hfr' & Hframe & Hshows); try done.
  { by rewrite Hk1, <-(assoc (++)). }
  assert (created h ∉ els) as Hel'.
  { rewrite Hk', <-(assoc (++)) in Hnd'. apply NoDup_app in Hnd' as (_ & _ & Hnd').
    simpl in Hnd'. apply NoDup_cons in Hnd' as [Hn _]. intros Hin. apply Hn.
    apply elem_of_app. by left. }
  exists (created h :: els), h'. split_and!; try done.
  - rewrite insert_app_r_alt by lia. rewrite Nat.sub_diag. simpl.
    rewrite length_app, Nat.add_1_r, <-!(assoc (++)) in Hm. exact Hm.
  - simpl. by rewrite Hlen.
  - by rewrite Hk', <-(assoc (++)).
  - intros x Hx. apply not_elem_of_cons in Hx as [Hx1 Hx2].
    by rewrite Hframe, Hframe1.
  - constructor; [|done]. intros Ht. rewrite Hframe by done. by apply Hshows1.
Qed.

Lemma moveLoop_false s2 l2 arr sq j m n : (n ≤ m)%nat →
  moveLoop false s2 l2 arr sq n j = moveSpec s2 l2 arr (Z.of_nat <$> seq 0 m) n.
Proof.
  induction n as [|i IH]; intros Hn; [done|]. cbn [moveLoop moveSpec].
  destruct (decide (arr !! i = Some 0)).
  - simpl. f_equal. apply IH. lia.
  - rewrite decide_True.
    + simpl. apply IH. lia.
    + apply list_elem_of_fmap. exists i. split; [done|]. apply elem_of_seq. lia.
Qed.

Lemma increasing_mono arr l x y :
  increasing arr l → x ∈ l → y ∈ l → x < y → val arr x < val arr y.
Proof.
  intros (Hs & _ & Hv). induction l as [|a l IH]; intros Hx Hy Hxy.
  { by apply elem_of_nil in Hx. }
  apply StronglySorted_inv in Hs as [Hs Ha]. simpl in Hv.
  apply StronglySorted_inv in Hv as [Hv Hva].
  rewrite Forall_forall in Ha. rewrite Forall_fmap, Forall_forall in Hva.
  apply elem_of_cons in Hx as [->|Hx], Hy as [->|Hy].
  - lia.
  - by apply Hva.
  - specialize (Ha x Hx). lia.
  - by apply IH.
Qed.

(** *** The four cases behind the two loops *)

Lemma walking_start s2 new E1 E3 (PRE POST : list node) D (text : Prop) i old h :
  NoDup (childNodes h) → fresh h →
  childNodes h = PRE ++ (snd <$> old) ++ POST →
  NoDup (omap (λ o : mounted, key (fst o)) old) →
  (∀ x, data h !! x = D !! x) →
  (text → ∀ o : mounted, o ∈ old → type (fst o) = Text →
     D !! snd o = Some (children (fst o))) →
  walking s2 new E1 E3 PRE POST D text i [] old [] (replicate (length new) None)
    {| patched := O; moved := false; maxNewIndexSoFar := O;
       newIndexToOldIndexMap := replicate (length new) 0;
       els := E1 ++ replicate (length new) None ++ E3; hst := h |}.
Proof.
  intros Hnd Hfr Hk Hkn HD Hold.
  split; cbn [hst els newIndexToOldIndexMap moved maxNewIndexSoFar patched];
    try done.
  - simpl. by rewrite app_nil_r.
  - by rewrite length_replicate.
  - by rewrite length_replicate.
  - intros t. rewrite !lookup_replicate. split; intros [_ ?]; done.
  - intros t el. rewrite lookup_replicate. split; [by intros [[=] _]|].
    by intros ?%elem_of_nil.
  - by intros t el ?%elem_of_nil.
  - intros _. split; [by intros t el ?%elem_of_nil|done].
  - by intros t el ?%elem_of_nil.
  - by intros _ o k t n2 ?%elem_of_nil.
  - by intros _ t el n ?%elem_of_nil.
Qed.

(** The positions that the last loop leaves alone hold the nodes that stand
    in the same order among the old children. *)
Lemma walking_agree s2 l2 new E1 E3 (PRE POST : list node) D text i seen pl mid w :
  walking s2 new E1 E3 PRE POST D text i seen [] pl mid w → new ≠ [] →
  ∃ sq, moveAndMount (moved w) s2 l2 (newIndexToOldIndexMap w)
        = Some (moveSpec s2 l2 (newIndexToOldIndexMap w) sq
                  (length (newIndexToOldIndexMap w))) ∧
    ∀ a b ta ela tb elb, pl !! a = Some (ta, ela) → pl !! b = Some (tb, elb) →
      keeps (newIndexToOldIndexMap w) sq ta = true →
      keeps (newIndexToOldIndexMap w) sq tb = true → (ta < tb)%nat → (a < b)%nat.
Proof.
  intros [Hk Hnd Hfr Hels Hlm Hla Hz Hpl Hv Ho Hmv Hkeys Hkn Hpa Hre Hfrm Hshown Hold] Hne.
  set (arr := newIndexToOldIndexMap w) in *.
  destruct (moved w) eqn:Hm.
  - destruct (getSequence_seeded arr) as (r & Hr & Hinc & Hseed & _).
    { intros Harr. rewrite Harr in Hla. by destruct new. }
    exists r. split; [by apply moveAndMount_spec|].
    intros a b ta ela tb elb Ha Hb Hka Hkb Hlt. unfold keeps in Hka, Hkb.
    apply andb_true_iff in Hka as [Hka%bool_decide_eq_true _].
    apply andb_true_iff in Hkb as [Hkb%bool_decide_eq_true _].
    destruct (Hv ta ela) as (va & Hva & Hva'); [by eapply list_elem_of_lookup_2|].
    destruct (Hv tb elb) as (vb & Hvb & Hvb'); [by eapply list_elem_of_lookup_2|].
    pose proof (increasing_mono arr r _ _ Hinc Hka Hkb) as Hmono.
    rewrite (val_of_nat arr ta va Hva), (val_of_nat arr tb vb Hvb) in Hmono.
    destruct (Nat.lt_trichotomy a b) as [?|[->|Hba]]; [done|..].
    + assert (ta = tb) by congruence. lia.
    + pose proof (Ho b a tb elb ta ela vb va Hb Ha Hvb Hva Hba). lia.
  - exists (Z.of_nat <$> seq 0 (length arr)). split.
    { unfold moveAndMount. cbn [mbind option_bind]. f_equal. by apply moveLoop_false. }
    destruct (Hmv eq_refl) as [_ Hinc].
    intros a b ta ela tb elb Ha Hb _ _ Hlt.
    destruct (Nat.lt_trichotomy a b) as [?|[->|Hba]]; [done|..].
    + assert (ta = tb) by congruence. lia.
    + pose proof (Hinc b a tb elb ta ela Hb Ha Hba). lia.
Qed.

Lemma keyed_middle (front rback : list node) (old : list mounted)
  (new c2 : list VNode) (pre post : list node) (h : host) :
  NoDup (childNodes h) → fresh h →
  childNodes h = (pre ++ front) ++ (snd <$> old) ++ rback ++ post →
  NoDup (omap (λ o : mounted, key (fst o)) old) →
  length c2 = (length front + length new + length rback)%nat →
  ∃ E h',
    match old, new with
    | [], [] =>
        Some ((Some <$> front) ++ replicate (length new) None ++ (Some <$> rback), h)
    | [], _ :: _ =>
        mountRange (length front) new
          (if (length front + length new <? length c2)%nat
           then elAt ((Some <$> front) ++ replicate (length new) None
                      ++ (Some <$> rback)) (length front + length new)
           else head post)
          ((Some <$> front) ++ replicate (length new) None ++ (Some <$> rback), h)
    | _ :: _, [] =>
        Some ((Some <$> front) ++ replicate (length new) None ++ (Some <$> rback),
              unmountChildren old h)
    | _ :: _, _ :: _ =>
        w ← walkOld (length front) new (keyToNewIndexMap (length front) new ∅)
              (length front) old
              {| patched := O; moved := false; maxNewIndexSoFar := O;
                 newIndexToOldIndexMap := replicate (length new) 0;
                 els := (Some <$> front) ++ replicate (length new) None
                        ++ (Some <$> rback);
                 hst := h |};
        ops ← moveAndMount (moved w) (length front) (length c2)
                (newIndexToOldIndexMap w);
        runOps c2 (head post) ops (els w, hst w)
    end = Some ((Some <$> front) ++ (Some <$> E) ++ (Some <$> rback), h') ∧
    length E = length new ∧
    childNodes h' = (pre ++ front) ++ E ++ rback ++ post ∧
    NoDup (childNodes h') ∧
    (NoDup (omap key new) → ∀ o t n2 k, o ∈ old → new !! t = Some n2 →
       key (fst o) = Some k → key n2 = Some k → type (fst o) = type n2 →
       E !! t = Some (snd o)) ∧
    (∀ x, x ∉ E → data h' !! x = data h !! x) ∧
    ((∀ t, (t < length new)%nat → c2 !! (length front + t)%nat = new !! t) →
     (∀ o : mounted, o ∈ old → shows h (snd o) (fst o)) →
     Forall2 (shows h') E new).
Proof.
  intros Hnd Hfr Hk Hkn Hlen.
  destruct old as [|o old'] eqn:Hold, new as [|n new'] eqn:Hnew.
  - exists [], h. split_and!; try done;
      first [by intros _ ? ? ? ? ?%elem_of_nil|intros _ _; constructor].
  - rewrite <-Hnew in *. clear Hnew.
    assert ((if (length front + length new <? length c2)%nat
             then elAt ((Some <$> front) ++ replicate (length new) None
                        ++ (Some <$> rback)) (length front + length new)
             else head post) = head (rback ++ post)) as ->.
    { destruct (Nat.ltb_spec (length front + length new) (length c2)) as [Hlt|Hge].
      - unfold elAt. rewrite lookup_app_r by (rewrite length_fmap; lia).
        rewrite lookup_app_r by (rewrite length_fmap, length_replicate; lia).
        rewrite length_fmap, length_replicate.
        replace (length front + length new - length front - length new)%nat
          with O by lia.
        destruct rback; [simpl in Hlen; lia|done].
      - destruct rback; [done|simpl in Hlen; lia]. }
    destruct (mountRange_spec new h (pre ++ front) (rback ++ post)
                (Some <$> front) (Some <$> rback))
      as (E & h' & Hm & HlenE & Hk' & Hnd' & _ & HframeE & HshowsE); try done.
    exists E, h'. rewrite length_fmap in Hm. rewrite Hm.
    split_and!; try done; by intros _ ? ? ? ? ?%elem_of_nil.
  - destruct (unmountChildren_spec (o :: old') h (pre ++ front) (rback ++ post))
      as [Hk' _]; try done.
    exists [], (unmountChildren (o :: old') h). split_and!; try done.
    + rewrite Hk'. rewrite Hk in Hnd. clear -Hnd.
      apply NoDup_app in Hnd as (HA & HAB & HB).
      apply NoDup_app in HB as (_ & _ & HB). apply NoDup_app. split; [done|].
      split; [|done]. intros x Hx HxB. apply (HAB x Hx).
      apply elem_of_app. by right.
    + intros x _. by rewrite unmountChildren_data.
  - rewrite <-Hnew, <-Hold in *.
    assert (new ≠ []) as Hne by (by rewrite Hnew). clear Hnew Hold.
    set (s2 := length front). set (keys := keyToNewIndexMap s2 new ∅).
    assert (∀ k j, keys !! k = Some j →
      (s2 ≤ j)%nat ∧ ∃ n, new !! (j - s2)%nat = Some n ∧ key n = Some k) as Hkeys.
    { intros k j Hj. by apply keyToNewIndexMap_lookup in Hj as [Hj|Hj]. }
    assert (∀ t n k, new !! t = Some n → key n = Some k → is_Some (keys !! k))
      as Hcomplete.
    { intros t n0 k Hn Hkey. by eapply keyToNewIndexMap_complete. }
    pose proof (walking_start s2 new (Some <$> front) (Some <$> rback)
                  (pre ++ front) (rback ++ post) (data h)
                  (∀ o : mounted, o ∈ old → shows h (snd o) (fst o))
                  s2 old h Hnd Hfr Hk Hkn (λ _, eq_refl) (λ H, H)) as HW.
    destruct (walkOld_spec s2 new keys (Some <$> front) (Some <$> rback)
                (pre ++ front) (rback ++ post) (data h) _ (length_fmap _ _)
                Hkeys Hcomplete _ _ _ _ _ _ HW)
      as (w & pl & mid & Hwalk & HW').
    rewrite Hwalk. cbn [mbind option_bind].
    destruct (walking_agree s2 (length c2) _ _ _ _ _ _ _ _ _ _ _ _ HW' Hne)
      as (sq & Hops & Hagree).
    rewrite Hops. cbn [mbind option_bind].
    destruct HW' as [Hk' Hnd' Hfr' Hels Hlm Hla Hz Hpl Hv Ho Hmv Hkeys' Hkn' Hpa Hre Hfrmw Hshownw Holdw].
    set (arr := newIndexToOldIndexMap w) in *.
    assert (NoDup pl.*2) as Hndpl.
    { rewrite Hk' in Hnd'. apply NoDup_app in Hnd' as (Hnd1 & _ & _).
      by apply NoDup_app in Hnd1 as (_ & _ & ?). }
    assert (∀ t1 t2 el, mid !! t1 = Some (Some el) → mid !! t2 = Some (Some el) →
              t1 = t2) as Hinj.
    { intros t1 t2 el H1%Hpl H2%Hpl.
      apply list_elem_of_lookup_1 in H1 as [a Ha], H2 as [b Hb].
      assert (a = b) as ->; [|congruence].
      eapply (NoDup_lookup pl.*2); [done|..]; rewrite list_lookup_fmap.
      - by rewrite Ha. - by rewrite Hb. }
    assert (length mid = length arr) as Hlma by congruence.
    assert (length c2 = (s2 + length arr + length rback)%nat) as Hlc by (subst s2; lia).
    rewrite Hlc.
    destruct (reorder_spec c2 (head post) s2 arr sq (Some <$> front) mid rback
                (pre ++ front) post (created (hst w)) (data (hst w)))
                with (j := length arr) (st := (els w, hst w))
      as (h' & Hrun & Hk'' & Hnd'' & Hfrm & Hshown); try done.
    { apply length_fmap. }
    { intros t el Hm%Hpl. apply Hfr'. rewrite Hk'. apply elem_of_app. left.
      apply elem_of_app. right. apply list_elem_of_fmap. by exists (t, el). }
    { assert (length (finalEls mid (created (hst w))).1 = length arr) as HlenE
        by (by rewrite finalEls_length).
      split; cbn [fst snd].
      - rewrite Hels, take_ge, drop_ge by lia. done.
      - by rewrite drop_ge by lia.
      - done.
      - done.
      - rewrite drop_ge by lia. rewrite <-Hlma.
        apply (view_start arr sq mid rback (pre ++ front) post Hinj pl); try done.
        rewrite Hk'. simpl. by rewrite <-!(assoc (++)).
      - done.
      - intros t n0 el Ht Hm. apply lookup_lt_Some in Hm. lia. }
    exists (finalEls mid (created (hst w))).1, h'.
    rewrite Hrun, fmap_app. split_and!; try done.
    + rewrite finalEls_length. congruence.
    + by rewrite Hk'', <-!(assoc (++)).
    + intros Hnn o0 t n2 k Hin Hn2 Hko Hkn2 Hty. apply finalEls_Some, Hpl.
      by eapply (Hre Hnn o0 k t n2).
    + intros x Hx. rewrite Hfrm.
      * apply Hfrmw. intros (y & -> & Hin)%list_elem_of_fmap. destruct y as [t el].
        apply Hx. apply (list_elem_of_lookup_2 _ t). by apply finalEls_Some, Hpl.
      * intros t _ HEt. apply Hx. by eapply list_elem_of_lookup_2.
    + intros Hc2 HQ. apply Forall2_same_length_lookup_2.
      { rewrite finalEls_length. congruence. }
      intros t el n0 HEt Hn0.
      assert (t < length mid)%nat as Hlt.
      { rewrite Hlm. by eapply lookup_lt_Some. }
      destruct (lookup_lt_is_Some_2 mid t Hlt) as [[el'|] Hm].
      * assert (el' = el) as ->.
        { apply (finalEls_Some _ (created (hst w))) in Hm. congruence. }
        apply Hpl in Hm.
        intros Hty. rewrite Hfrm; [by apply (Hshownw HQ t el n0)|].
        intros t' Hm' HEt'.
        destruct (finalEls_None mid (created (hst w)) t' Hm') as [HE' _].
        pose proof (finalEls_ge (drop (S t') mid) (created (hst w))).
        assert (el < created (hst w))%nat as Hlt'.
        2:{ rewrite HE' in HEt'. injection HEt' as <-. lia. }
        apply Hfr'. rewrite Hk'. apply elem_of_app. left.
        apply elem_of_app. right. apply list_elem_of_fmap. by exists (t, el).
      * apply (Hshown t n0 el); try done. rewrite Hc2; [done|].
        by eapply lookup_lt_Some.
Qed.

(** The two loops from the ends split the old children into those patched
    from the start, those in the middle and those patched from the end. *)
Lemma sync_split {A} (l : list A) (a b : nat) :
  (a ≤ length l)%nat → (b ≤ length l - a)%nat →
  l = take a l ++ take (length l - a - b) (drop a l) ++
      reverse (take b (reverse (drop a l))).
Proof.
  intros Ha Hb. rewrite take_reverse, reverse_involutive, length_drop.
  by rewrite take_drop, take_drop.
Qed.

(** Where the node of an old child is found among the nodes of the new
    children, when the two lists are split in three parts of which the
    first and the last hold the same children. *)
Lemma reuse_assemble (F1 old B1 : list mounted) (F2 new B2 : list VNode)
  (E : list node) :
  Forall2 (λ (o : mounted) n2, isSameVNodeType (fst o) n2 = true) F1 F2 →
  Forall2 (λ (o : mounted) n2, isSameVNodeType (fst o) n2 = true) B1 B2 →
  length E = length new →
  NoDup (omap (λ o : mounted, key (fst o)) (F1 ++ old ++ B1)) →
  NoDup (omap key (F2 ++ new ++ B2)) →
  (∀ o t n2 k, o ∈ old → new !! t = Some n2 →
     key (fst o) = Some k → key n2 = Some k → type (fst o) = type n2 →
     E !! t = Some (snd o)) →
  ∀ (o : mounted) j n2 k, o ∈ F1 ++ old ++ B1 → (F2 ++ new ++ B2) !! j = Some n2 →
    key (fst o) = Some k → key n2 = Some k → type (fst o) = type n2 →
    ((snd <$> F1) ++ E ++ (snd <$> B1)) !! j = Some (snd o).
Proof.
  intros HF HB HlenE Hn1 Hn2 Hmid o j n2 k Hin Hj Hko Hkn Hty.
  pose proof (Forall2_length _ _ _ HF) as HlenF.
  pose proof (Forall2_length _ _ _ HB) as HlenB.
  apply list_elem_of_lookup_1 in Hin as [i Hi].
  assert (∀ (o' : mounted) n', isSameVNodeType (fst o') n' = true →
            key (fst o') = key n') as Hsame.
  { intros o' n' Hs. unfold isSameVNodeType in Hs.
    by apply bool_decide_eq_true in Hs as [_ ?]. }
  destruct (decide (j < length F2)%nat) as [HjF|HjF].
  { (* the new child is among the first *)
    rewrite lookup_app_l in Hj by done.
    destruct (Forall2_lookup_r _ _ _ _ _ HF Hj) as (o' & Ho' & Hs).
    assert (i = j) as ->.
    { eapply (key_unique _ _ Hn1); [exact Hi|by apply lookup_app_l_Some|done|].
      simpl. rewrite (Hsame _ _ Hs). done. }
    rewrite lookup_app_l in Hi by lia.
    rewrite lookup_app_l by (rewrite length_fmap; lia).
    by rewrite list_lookup_fmap, Hi. }
  rewrite lookup_app_r in Hj by lia.
  destruct (decide (j - length F2 < length new)%nat) as [HjN|HjN].
  - (* the new child is in the middle *)
    rewrite lookup_app_l in Hj by done.
    assert (∀ p (o' : mounted) n', (F1 ++ old ++ B1) !! p = Some o' →
              (F2 ++ new ++ B2) !! p = Some n' →
              isSameVNodeType (fst o') n' = true → p = i → p = j) as Hpair.
    { intros p o' n' Ho' Hn' Hs ->.
      assert (o' = o) as -> by congruence.
      eapply (key_unique _ _ Hn2); [exact Hn'| |by rewrite <-(Hsame _ _ Hs)|done].
      rewrite lookup_app_r by lia. by rewrite lookup_app_l by done. }
    destruct (decide (i < length F1)%nat) as [HiF|HiF].
    { pose proof Hi as Hi'. rewrite lookup_app_l in Hi' by done.
      destruct (Forall2_lookup_l _ _ _ _ _ HF Hi') as (n' & Hn' & Hs).
      assert (i = j); [|lia].
      eapply (Hpair i o n'); [done| |done..]. by apply lookup_app_l_Some. }
    pose proof Hi as Hi'. rewrite lookup_app_r in Hi' by lia.
    destruct (decide (i - length F1 < length old)%nat) as [HiO|HiO].
    + rewrite lookup_app_l in Hi' by done.
      rewrite lookup_app_r by (rewrite length_fmap; lia).
      rewrite lookup_app_l by (rewrite length_fmap; lia).
      rewrite length_fmap, HlenF. eapply Hmid; try done.
      by eapply list_elem_of_lookup_2.
    + rewrite lookup_app_r in Hi' by lia.
      destruct (Forall2_lookup_l _ _ _ _ _ HB Hi') as (n' & Hn' & Hs).
      assert (length F2 + length new + (i - length F1 - length old) = j)%nat; [|lia].
      eapply (key_unique _ _ Hn2); [| |by rewrite <-(Hsame _ _ Hs)|done].
      * rewrite lookup_app_r by lia. rewrite lookup_app_r by lia.
        replace (length F2 + length new + (i - length F1 - length old)
                 - length F2 - length new)%nat
          with (i - length F1 - length old)%nat by lia. exact Hn'.
      * rewrite lookup_app_r by lia. by rewrite lookup_app_l by done.
  - (* the new child is among the last *)
    rewrite lookup_app_r in Hj by lia.
    destruct (Forall2_lookup_r _ _ _ _ _ HB Hj) as (o' & Ho' & Hs).
    assert (i = length F1 + length old + (j - length F2 - length new))%nat as ->.
    { eapply (key_unique _ _ Hn1); [exact Hi| |done|].
      - rewrite lookup_app_r by lia. rewrite lookup_app_r by lia.
        replace (length F1 + length old + (j - length F2 - length new)
                 - length F1 - length old)%nat
          with (j - length F2 - length new)%nat by lia. exact Ho'.
      - simpl. by rewrite (Hsame _ _ Hs). }
    assert (o' = o) as ->.
    { rewrite lookup_app_r in Hi by lia. rewrite lookup_app_r in Hi by lia.
      replace (length F1 + length old + (j - length F2 - length new)
               - length F1 - length old)%nat
        with (j - length F2 - length new)%nat in Hi by lia. congruence. }
    rewrite lookup_app_r by (rewrite length_fmap; lia).
    rewrite lookup_app_r by (rewrite length_fmap; lia).
    rewrite length_fmap, HlenE, HlenF, list_lookup_fmap, Ho'. done.
Qed.

(** What [patchKeyedChildren] returns and leaves in the container. *)
Lemma patchKeyedChildren_spec (c1 : list mounted) (c2 : list VNode)
  (h : host) (pre post : list node) :
  NoDup (childNodes h) → fresh h →
  childNodes h = pre ++ (snd <$> c1) ++ post →
  NoDup (omap (λ o : mounted, key (fst o)) c1) →
  ∃ els h', patchKeyedChildren c1 c2 (head post) h = Some (Some <$> els, h') ∧
    length els = length c2 ∧ childNodes h' = pre ++ els ++ post ∧
    NoDup (childNodes h') ∧
    (NoDup (omap key c2) → ∀ (o : mounted) j n2 k, o ∈ c1 → c2 !! j = Some n2 →
       key (fst o) = Some k → key n2 = Some k → type (fst o) = type n2 →
       els !! j = Some (snd o)) ∧
    (∀ x, x ∉ els → data h' !! x = data h !! x) ∧
    ((∀ o : mounted, o ∈ c1 → shows h (snd o) (fst o)) → Forall2 (shows h') els c2).
Proof.
  intros Hnd Hfr Hk Hkn. unfold patchKeyedChildren.
  destruct (syncStart_spec c1 c2 h) as (a & h1 & Hs1 & Ha1 & Ha2 & Hk1 & Hc1 & HF & Hframe1 & Hshows1).
  rewrite Hs1. cbn [mbind option_bind].
  set (front := snd <$> take a c1).
  assert (length front = a) as Hla.
  { unfold front. rewrite length_fmap, length_take. lia. }
  destruct (syncStart_spec (reverse (drop (length front) c1))
              (reverse (drop (length front) c2)) h1)
    as (b & h2 & Hs2 & Hb1 & Hb2 & Hk2 & Hc2 & HB & Hframe2 & Hshows2).
  rewrite Hs2. cbn [mbind option_bind].
  set (back := snd <$> take b (reverse (drop (length front) c1))).
  rewrite length_reverse, length_drop, Hla in Hb1.
  rewrite length_reverse, length_drop, Hla in Hb2.
  rewrite Hla in HB. apply Forall2_reverse in HB.
  assert (length back = b) as Hlb.
  { unfold back. rewrite length_fmap, length_take, length_reverse, length_drop. lia. }
  set (old := take (length c1 - length front - length back) (drop (length front) c1)).
  set (new := take (length c2 - length front - length back) (drop (length front) c2)).
  assert (c1 = take a c1 ++ old ++ reverse (take b (reverse (drop a c1)))) as Hsplit.
  { unfold old. rewrite Hla, Hlb. by apply sync_split. }
  assert (c2 = take a c2 ++ new ++ reverse (take b (reverse (drop a c2)))) as Hsplit2.
  { unfold new. rewrite Hla, Hlb. by apply sync_split. }
  assert (snd <$> c1 = front ++ (snd <$> old) ++ reverse back) as Hsnd.
  { rewrite Hsplit at 1. rewrite !fmap_app, fmap_reverse. unfold back. by rewrite Hla. }
  destruct (keyed_middle front (reverse back) old new c2 pre post h2)
    as (E & h' & Hm & HlenE & Hk' & Hnd' & Hre & HframeE & HshowsE).
  - by rewrite Hk2, Hk1.
  - intros x Hx. rewrite Hc2, Hc1. apply Hfr. by rewrite <-Hk1, <-Hk2.
  - by rewrite Hk2, Hk1, Hk, Hsnd, <-!(assoc (++)).
  - rewrite Hsplit, !omap_app in Hkn. apply NoDup_app in Hkn as (_ & _ & Hkn).
    by apply NoDup_app in Hkn as (? & _ & _).
  - unfold new. rewrite length_take, length_drop, length_reverse. lia.
  - exists (front ++ E ++ reverse back), h'. rewrite !fmap_app. split; [exact Hm|].
    split; [|split; [|split; [done|split; [|split]]]].
    + rewrite !length_app, HlenE, length_reverse. unfold new.
      rewrite length_take, length_drop. lia.
    + by rewrite Hk', <-!(assoc (++)).
    + intros Hkn2 o j n2 k Hin Hj Hko Hkn2' Hty.
      assert (reverse back = snd <$> reverse (take b (reverse (drop a c1)))) as ->.
      { unfold back. by rewrite fmap_reverse, Hla. }
      rewrite Hsplit in Hin, Hkn. rewrite Hsplit2 in Hj, Hkn2.
      eapply (reuse_assemble _ _ _ _ _ _ E HF HB HlenE Hkn Hkn2); try done.
      intros o' t n' k' Hin' Hn' Hko' Hkn' Hty'. eapply Hre; try done.
      rewrite Hsplit2, !omap_app in Hkn2. apply NoDup_app in Hkn2 as (_ & _ & Hkn2).
      by apply NoDup_app in Hkn2 as (? & _ & _).
    + intros x Hx. apply not_elem_of_app in Hx as [Hx1 Hx2].
      apply not_elem_of_app in Hx2 as [Hx2 Hx3]. rewrite elem_of_reverse in Hx3.
      by rewrite HframeE, Hframe2, Hframe1.
    + intros Hold.
      assert (NoDup (front ++ (snd <$> old) ++ reverse back)) as Hndc.
      { rewrite <-Hsnd. rewrite Hk in Hnd. apply NoDup_app in Hnd as (_ & _ & Hnd).
        by apply NoDup_app in Hnd as (? & _ & _). }
      pose proof Hndc as Hndc'.
      apply NoDup_app in Hndc' as (_ & Hdis1 & Hndc').
      apply NoDup_app in Hndc' as (_ & Hdis2 & _).
      assert (∀ x, x ∈ front → (x ∉ E) ∧ (x ∉ back)) as HdF.
      { intros x Hx. split.
        - rewrite Hk' in Hnd'. apply NoDup_app in Hnd' as (_ & Hdis & _).
          intros HxE. apply (Hdis x); [apply elem_of_app; by right|].
          apply elem_of_app. by left.
        - intros Hxb. apply (Hdis1 x Hx). apply elem_of_app. right.
          by apply elem_of_reverse. }
      assert (∀ x, x ∈ back → x ∉ E) as HdB.
      { intros x Hx HxE. rewrite Hk' in Hnd'. apply NoDup_app in Hnd' as (_ & _ & Hnd').
        apply NoDup_app in Hnd' as (_ & Hdis & _). apply (Hdis x HxE).
        apply elem_of_app. left. by apply elem_of_reverse. }
      assert (snd <$> drop a c1 = (snd <$> old) ++ reverse back) as Hdsnd.
      { rewrite Hsplit at 1. rewrite drop_app_length' by (rewrite length_take; lia).
        rewrite fmap_app, fmap_reverse. unfold back. by rewrite Hla. }
      assert (∀ o : mounted, o ∈ drop a c1 → (o ∈ c1) ∧ (snd o ∉ front)) as Hdrop.
      { intros o Ho. split.
        - rewrite <-(take_drop a c1). apply elem_of_app. by right.
        - intros Hin. apply (Hdis1 _ Hin). rewrite <-Hdsnd.
          apply list_elem_of_fmap. by exists o. }
      assert (Forall2 (shows h1) front (take a c2)) as SF.
      { apply Hshows1; [|done]. rewrite Hsnd. done. }
      assert (Forall2 (shows h2) back (take b (reverse (drop a c2)))) as SB.
      { rewrite <-Hla. apply Hshows2.
        - rewrite fmap_reverse, reverse_Permutation, Hla, Hdsnd.
          apply NoDup_app in Hndc as (_ & _ & ?). done.
        - intros o Ho Hty. rewrite elem_of_reverse, Hla in Ho.
          apply Hdrop in Ho as [Ho Hnf]. rewrite Hframe1 by done. by apply Hold. }
      assert (Forall2 (shows h') E new) as SM.
      { apply HshowsE.
        - intros t Ht. unfold new. rewrite lookup_take_lt.
          + by rewrite lookup_drop.
          + unfold new in Ht. rewrite length_take in Ht. lia.
        - intros o Ho Hty.
          assert (snd o ∈ snd <$> old) as Hin.
          { apply list_elem_of_fmap. by exists o. }
          assert (o ∈ c1) as Hoc.
          { rewrite Hsplit. apply elem_of_app. right. apply elem_of_app. by left. }
          rewrite Hframe2, Hframe1; [by apply Hold| |].
          + intros Hf. apply (Hdis1 _ Hf). apply elem_of_app. by left.
          + intros Hb. apply (Hdis2 _ Hin). by apply elem_of_reverse. }
      rewrite Hsplit2. apply Forall2_app; [|apply Forall2_app; [exact SM|]].
      * apply Forall2_same_length_lookup. split; [by eapply Forall2_length|].
        intros i el n Hel Hn Hty.
        destruct (HdF el) as [HE Hb]; [by eapply list_elem_of_lookup_2|].
        rewrite HframeE, Hframe2 by done.
        by eapply (Forall2_lookup_lr _ _ _ _ _ _ SF).
      * apply Forall2_reverse. apply Forall2_same_length_lookup.
        split; [by eapply Forall2_length|].
        intros i el n Hel Hn Hty. rewrite HframeE.
        -- by eapply (Forall2_lookup_lr _ _ _ _ _ _ SB).
        -- apply HdB. by eapply list_elem_of_lookup_2.
Qed.

(** X21. [patchKeyedChildren] on text and comment children, of which no two
    old ones have the same key, in a container that holds the nodes of the
    old children in their order: it returns, and afterwards the container
    holds the nodes of the new children in the order of the new children, in
    the place of the old ones; the nodes around them stay as they are. *)
Theorem patchKeyedChildren_order (c1 : list mounted) (c2 : list VNode)
  (h : host) (pre post : list node) :
  NoDup (childNodes h) → fresh h →
  childNodes h = pre ++ (snd <$> c1) ++ post →
  NoDup (omap (λ o : mounted, key (fst o)) c1) →
  ∃ els h', patchKeyedChildren c1 c2 (head post) h = Some (Some <$> els, h') ∧
    length els = length c2 ∧ childNodes h' = pre ++ els ++ post ∧
    NoDup (childNodes h').
Proof.
  intros Hnd Hfr Hk Hkn.
  destruct (patchKeyedChildren_spec c1 c2 h pre post Hnd Hfr Hk Hkn)
    as (els & h' & Hp & Hlen & Hk' & Hnd' & _).
  by exists els, h'.
Qed.

Lemma patchKeyedChildren_order_witness :
  ∃ els h', patchKeyedChildren oldRow newRow (head [5%nat]) rowHost
            = Some (Some <$> els, h') ∧
    length els = length newRow ∧ childNodes h' = [0%nat] ++ els ++ [5%nat] ∧
    NoDup (childNodes h').
Proof.
  apply (patchKeyedChildren_order oldRow newRow rowHost [0%nat] [5%nat]).
  - exact rowHost_NoDup.
  - exact rowHost_fresh.
  - reflexivity.
  - exact oldRow_keys.
Defined.

Example patchKeyedChildren_run :
  (r ← patchKeyedChildren oldRow newRow (head [5%nat]) rowHost;
   Some (r.1, childNodes r.2))
  = Some ([Some 1; Some 4; Some 7; Some 2; Some 6]%nat, [0; 1; 4; 7; 2; 6; 5]%nat).
Proof. by vm_compute. Qed.

(** X22. [patchKeyedChildren] reuses the node of a child with a key: when no
    two old children and no two new children have the same key, a new child
    that has the key and the type of an old child gets the node of that old
    child, wherever the two stand. *)
Theorem patchKeyedChildren_reuse (c1 : list mounted) (c2 : list VNode)
  (h h' : host) (pre post : list node) (els : list (option node))
  (o : mounted) (j : nat) (n2 : VNode) (k : nat) :
  NoDup (childNodes h) → fresh h →
  childNodes h = pre ++ (snd <$> c1) ++ post →
  NoDup (omap (λ o : mounted, key (fst o)) c1) → NoDup (omap key c2) →
  patchKeyedChildren c1 c2 (head post) h = Some (els, h') →
  o ∈ c1 → c2 !! j = Some n2 →
  key (fst o) = Some k → key n2 = Some k → type (fst o) = type n2 →
  els !! j = Some (Some (snd o)).
Proof.
  intros Hnd Hfr Hk Hkn Hkn2 Hp Hin Hj Hko Hkn2' Hty.
  destruct (patchKeyedChildren_spec c1 c2 h pre post Hnd Hfr Hk Hkn)
    as (els' & h'' & Hp' & _ & _ & _ & Hre & _).
  rewrite Hp in Hp'. injection Hp' as -> ->.
  rewrite list_lookup_fmap, (Hre Hkn2 o j n2 k); done.
Qed.

Lemma patchKeyedChildren_reuse_witness :
  ∃ els h', patchKeyedChildren oldRow newRow (head [5%nat]) rowHost = Some (els, h') ∧
    els !! 3%nat = Some (Some 2%nat).
Proof.
  destruct (patchKeyedChildren oldRow newRow (head [5%nat]) rowHost)
    as [[els h']|] eqn:Hp; [|by vm_compute in Hp].
  exists els, h'. split; [reflexivity|].
  apply (patchKeyedChildren_reuse oldRow newRow rowHost h' [0%nat] [5%nat] els
           ({| type := Text; key := Some 2%nat; children := "b" |}, 2%nat) 3
           {| type := Text; key := Some 2%nat; children := "b2" |} 2).
  - exact rowHost_NoDup.
  - exact rowHost_fresh.
  - reflexivity.
  - exact oldRow_keys.
  - exact newRow_keys.
  - exact Hp.
  - unfold oldRow. apply elem_of_cons. right. apply elem_of_cons. by left.
  - reflexivity.
  - reflexivity.
  - reflexivity.
  - reflexivity.
Defined.

(** X23. [patchKeyedChildren] brings the text up to date: when the node of
    every old text child holds the text of that child, then afterwards the
    node of every new text child holds the text of the new child, and no
    node besides those of the new children has its text changed. *)
Theorem patchKeyedChildren_text (c1 : list mounted) (c2 : list VNode)
  (h h' : host) (pre post : list node) (els : list (option node)) :
  NoDup (childNodes h) → fresh h →
  childNodes h = pre ++ (snd <$> c1) ++ post →
  NoDup (omap (λ o : mounted, key (fst o)) c1) →
  (∀ o : mounted, o ∈ c1 → type (fst o) = Text →
     data h !! snd o = Some (children (fst o))) →
  patchKeyedChildren c1 c2 (head post) h = Some (els, h') →
  (∀ j n2, c2 !! j = Some n2 → type n2 = Text →
     ∃ el, els !! j = Some (Some el) ∧ data h' !! el = Some (children n2)) ∧
  (∀ x, Some x ∉ els → data h' !! x = data h !! x).
Proof.
  intros Hnd Hfr Hk Hkn Hold Hp.
  destruct (patchKeyedChildren_spec c1 c2 h pre post Hnd Hfr Hk Hkn)
    as (els' & h'' & Hp' & _ & _ & _ & _ & Hframe & Hshows).
  rewrite Hp in Hp'. injection Hp' as -> ->. split.
  - intros j n2 Hn Ht.
    destruct (Forall2_lookup_r _ _ _ _ _ (Hshows Hold) Hn) as (el & Hel & Hs).
    exists el. split; [by rewrite list_lookup_fmap, Hel|]. by apply Hs.
  - intros x Hx. apply Hframe. intros Hin. apply Hx.
    apply list_elem_of_fmap. by exists x.
Qed.

Lemma patchKeyedChildren_text_witness :
  ∃ els h', patchKeyedChildren oldRow newRow (head [5%nat]) textHost = Some (els, h') ∧
    (∀ j n2, newRow !! j = Some n2 → type n2 = Text →
       ∃ el, els !! j = Some (Some el) ∧ data h' !! el = Some (children n2)) ∧
    (∀ x, Some x ∉ els → data h' !! x = data textHost !! x).
Proof.
  destruct (patchKeyedChildren oldRow newRow (head [5%nat]) textHost)
    as [[els h']|] eqn:Hp; [|by vm_compute in Hp].
  exists els, h'. split; [reflexivity|].
  apply (patchKeyedChildren_text oldRow newRow textHost h' [0%nat] [5%nat] els).
  - apply (bool_decide_unpack _). by vm_compute.
  - apply fresh_Forall. apply (bool_decide_unpack _). by vm_compute.
  - reflexivity.
  - exact oldRow_keys.
  - exact textHost_shows.
  - exact Hp.
Defined.

Lemma syncStart_all c1 : ∀ c2 h,
  Forall2 (λ (o : mounted) n2, isSameVNodeType (fst o) n2 = true) c1 c2 →
  ∃ h', syncStart c1 c2 h = Some (snd <$> c1, h') ∧
    childNodes h' = childNodes h ∧ created h' = created h.
Proof.
  induction c1 as [|n1 c1 IH]; intros c2 h Hall.
  - apply Forall2_nil_inv_l in Hall as ->. by exists h.
  - apply Forall2_cons_inv_l in Hall as (n2 & c2' & Hs & Hall & ->).
    cbn [syncStart]. rewrite Hs.
    destruct (patch_same n1 n2 None h Hs) as (h1 & Hp & Hk1 & Hc1).
    destruct (IH c2' h1 Hall) as (h' & Hsync & Hk & Hc).
    exists h'. rewrite Hp. cbn [mbind option_bind]. rewrite Hsync.
    split; [done|]. split; congruence.
Qed.

(** X24. [patchKeyedChildren] with new children that have, index by index,
    the type and the key of the old children touches no node of the
    container: every new child takes over the node of the old child at its
    index, no node is created, and the child nodes of the container are the
    same, in the same order, whatever they are. *)
Theorem patchKeyedChildren_same (c1 : list mounted) (c2 : list VNode)
  (parentAnchor : option node) (h : host) :
  Forall2 (λ (o : mounted) n2, isSameVNodeType (fst o) n2 = true) c1 c2 →
  ∃ h', patchKeyedChildren c1 c2 parentAnchor h = Some (Some <$> (snd <$> c1), h') ∧
    childNodes h' = childNodes h ∧ created h' = created h.
Proof.
  intros Hall. pose proof (Forall2_length _ _ _ Hall) as Hlen.
  destruct (syncStart_all c1 c2 h Hall) as (h' & Hsync & Hk & Hc).
  exists h'. split; [|done]. unfold patchKeyedChildren.
  rewrite Hsync. cbn [mbind option_bind].
  rewrite length_fmap, drop_all, Hlen, drop_all, reverse_nil. simpl.
  rewrite !Nat.sub_diag. simpl. by rewrite app_nil_r.
Qed.

Lemma patchKeyedChildren_same_witness :
  ∃ h', patchKeyedChildren oldRow
          [{| type := Text; key := Some 1%nat; children := "a2" |};
           {| type := Text; key := Some 2%nat; children := "b" |};
           {| type := Comment; key := Some 3%nat; children := "c2" |};
           {| type := Text; key := Some 4%nat; children := "d" |}]
          None rowHost
        = Some (Some <$> (snd <$> oldRow), h') ∧
    childNodes h' = childNodes rowHost ∧ created h' = created rowHost.
Proof.
  apply (patchKeyedChildren_same oldRow _ None rowHost).
  unfold oldRow. repeat constructor.
Defined.

End DiffSpec.

